(** * htm.core: the Connections substrate and the Spatial Pooler's inhibition

    A shallow embedding of [src/htm/algorithms/Connections.cpp] and of the
    overlap / boost / inhibition part of
    [src/htm/algorithms/SpatialPooler.cpp].

    Conventions of the embedding.
    - Handles ([CellIdx], [Segment], [Synapse]) are 32-bit unsigned integers
      in the source; they are natural numbers [N] here and the capacity
      checks of the source ([NTA_CHECK(size < max)]) are written out.
    - [Permanence] and [Real] are 32-bit floats in the source.  They are
      exact rationals [Q] here: comparisons, [std::min] and [std::max] are
      the source's, rounding of sums and products is not represented.
    - The constants [minPermanence], [maxPermanence] and [Epsilon] come
      from a header that is not part of the sources at hand; they are the
      fields of the class [Constants], and the theorems hold for all values
      with [0 <= minPermanence <= maxPermanence <= 1] and [0 <= Epsilon].
    - [SynapseIdx] (the type of [numConnected] and of the activity counters)
      is declared in [Connections.hpp], which is not part of the sources at
      hand; counters are integers [Z] without wrap-around.
    - A call that the C++ standard leaves undefined (indexing a vector out
      of range, [back()] of an empty vector), that throws ([map::at] on a
      missing key) or that fails an [NTA_CHECK] yields [None].
    - The release build is modelled ([NTA_ASSERT] compiled out,
      [NTA_ASSERTIONS_ON] not defined), with no event handler subscribed. *)

From Stdlib Require Import ZArith NArith QArith Qminmax Qround Lqa Lia.
From stdpp Require Import base option list gmap sorting.

Local Open Scope N_scope.

(** ** Scalar types and constants *)

Abbreviation CellIdx := N (only parsing).
Abbreviation Segment := N (only parsing).
Abbreviation Synapse := N (only parsing).
Abbreviation Permanence := Q (only parsing).
Abbreviation SynapseIdx := Z (only parsing).

(** [htm::minPermanence], [htm::maxPermanence] and [htm::Epsilon] are
    constants of [htm/types/Types.hpp], which is not part of the sources:
    the development is parametric in them. *)
Class Constants := mkConstants {
  minPermanence : Q;
  maxPermanence : Q;
  Epsilon : Q
}.

(** The constants the examples are run with: permanences range over
    [0.0, 1.0] and [Epsilon] is 1e-6. *)
Definition nominal : Constants := mkConstants 0 1 (1 # 1000000).

(** [std::numeric_limits<Segment>::max()] and
    [std::numeric_limits<Synapse>::max()] for 32-bit handles. *)
Definition Segment_max : N := 4294967295.
Definition Synapse_max : N := 4294967295.

(** [std::numeric_limits<double>::max()], i.e. (2 - 2^-52) * 2^1023. *)
Definition DBL_MAX : Q := inject_Z (2 ^ 1024 - 2 ^ 971).

(** Comparisons of reals as the booleans the source branches on. *)
Definition Qltb (a b : Q) : bool := negb (Qle_bool b a).
Definition Qgeb (a b : Q) : bool := Qle_bool b a.
Definition Qeqb (a b : Q) : bool := Qeq_bool a b.

(** [std::min(a, b)] is [(b < a) ? b : a]; [std::max(a, b)] is
    [(a < b) ? b : a]. *)
Definition std_min (a b : Q) : Q := if Qltb b a then b else a.
Definition std_max (a b : Q) : Q := if Qltb a b then b else a.

(** ** Vectors indexed by handles *)

Definition at_N {A} (v : list A) (i : N) : option A := v !! N.to_nat i.
Definition set_N {A} (v : list A) (i : N) (x : A) : list A :=
  <[N.to_nat i := x]> v.
Definition size_N {A} (v : list A) : N := N.of_nat (length v).

(** [v.pop_back()] on a non-empty vector. *)
Definition pop_back {A} (v : list A) : list A := removelast v.

(** [v.resize(n, x)]. *)
Definition resize_vec {A} (n : nat) (x : A) (v : list A) : list A :=
  take n v ++ replicate (n - length v) x.

(** ** The standard algorithms the source relies on

    [std::nth_element] and [std::sort] are specified by the C++ standard
    only up to the arrangement of equivalent elements.  The development
    is parametric in them; [nth_element_ok] and [sort_ok] are what the
    standard guarantees for a comparator that is a strict weak ordering. *)

Definition strict_weak_order (comp : N → N → bool) : Prop :=
  (∀ x, comp x x = false) ∧
  (∀ x y z, comp x y = true → comp y z = true → comp x z = true) ∧
  (∀ x y z, comp x y = false → comp y z = false → comp x z = false).

(** After [nth_element(first, first + n, last, comp)] the range is a
    permutation of what it was, and no element from position [n] on goes
    before an element up to position [n]. *)
Definition nth_element_ok (nth_element : (N → N → bool) → nat → list N → list N)
    : Prop :=
  ∀ comp n l, strict_weak_order comp → (n ≤ length l)%nat →
    nth_element comp n l ≡ₚ l ∧
    ∀ i j x y, (i ≤ n)%nat → (n ≤ j)%nat →
      nth_element comp n l !! i = Some x →
      nth_element comp n l !! j = Some y → comp y x = false.

(** After [sort(first, last, comp)] the range is a permutation of what it
    was and no element goes before an earlier one. *)
Definition sort_ok (sort : (N → N → bool) → list N → list N) : Prop :=
  ∀ comp l, strict_weak_order comp →
    sort comp l ≡ₚ l ∧
    ∀ i j x y, (i ≤ j)%nat →
      sort comp l !! i = Some x → sort comp l !! j = Some y → comp y x = false.

(** [not_after comp x y]: [y] does not go before [x]. *)
Definition not_after (comp : N → N → bool) : relation N :=
  λ x y, comp y x = false.

#[global] Instance not_after_dec comp : RelDecision (not_after comp) :=
  λ x y, decide (comp y x = false).

(** One conforming implementation of both: a merge sort. *)
Definition sort_by (comp : N → N → bool) (l : list N) : list N :=
  merge_sort (not_after comp) l.
Definition nth_element_by_sort (comp : N → N → bool) (n : nat) (l : list N)
    : list N := sort_by comp l.

(** ** Data model *)

Record SynapseData := mkSynapseData {
  presynapticCell : CellIdx;
  permanence : Permanence;
  segment : Segment;
  presynapticMapIndex_ : Synapse
}.

Record SegmentData := mkSegmentData {
  synapses : list Synapse;
  cell : CellIdx;
  numConnected : SynapseIdx
}.

Record CellData := mkCellData {
  segments : list Segment
}.

(** [SegmentData(cell)]: no synapses, nothing connected. *)
Definition newSegmentData (c : CellIdx) : SegmentData :=
  mkSegmentData [] c 0%Z.

(** A value-initialised [SynapseData], as [emplace_back()] leaves it. *)
Definition emptySynapseData : SynapseData := mkSynapseData 0 0%Q 0 0.

Record Connections := mkConnections {
  cells_ : list CellData;
  segments_ : list SegmentData;
  destroyedSegments_ : list Segment;
  synapses_ : list SynapseData;
  destroyedSynapses_ : list Synapse;
  connectedThreshold_ : Permanence;
  iteration_ : N;
  potentialSynapsesForPresynapticCell_ : gmap N (list N);
  connectedSynapsesForPresynapticCell_ : gmap N (list N);
  potentialSegmentsForPresynapticCell_ : gmap N (list N);
  connectedSegmentsForPresynapticCell_ : gmap N (list N);
  timeseries_ : bool;
  previousUpdates_ : list Permanence;
  currentUpdates_ : list Permanence;
  prunedSyns_ : N;
  prunedSegs_ : N
}.

(** Field updates. *)
Definition with_cells (v : list CellData) (c : Connections) : Connections :=
  mkConnections v (segments_ c) (destroyedSegments_ c) (synapses_ c)
    (destroyedSynapses_ c) (connectedThreshold_ c) (iteration_ c)
    (potentialSynapsesForPresynapticCell_ c)
    (connectedSynapsesForPresynapticCell_ c)
    (potentialSegmentsForPresynapticCell_ c)
    (connectedSegmentsForPresynapticCell_ c)
    (timeseries_ c) (previousUpdates_ c) (currentUpdates_ c)
    (prunedSyns_ c) (prunedSegs_ c).

Definition with_segments (v : list SegmentData) (c : Connections) : Connections :=
  mkConnections (cells_ c) v (destroyedSegments_ c) (synapses_ c)
    (destroyedSynapses_ c) (connectedThreshold_ c) (iteration_ c)
    (potentialSynapsesForPresynapticCell_ c)
    (connectedSynapsesForPresynapticCell_ c)
    (potentialSegmentsForPresynapticCell_ c)
    (connectedSegmentsForPresynapticCell_ c)
    (timeseries_ c) (previousUpdates_ c) (currentUpdates_ c)
    (prunedSyns_ c) (prunedSegs_ c).

Definition with_destroyedSegments (v : list Segment) (c : Connections) : Connections :=
  mkConnections (cells_ c) (segments_ c) v (synapses_ c)
    (destroyedSynapses_ c) (connectedThreshold_ c) (iteration_ c)
    (potentialSynapsesForPresynapticCell_ c)
    (connectedSynapsesForPresynapticCell_ c)
    (potentialSegmentsForPresynapticCell_ c)
    (connectedSegmentsForPresynapticCell_ c)
    (timeseries_ c) (previousUpdates_ c) (currentUpdates_ c)
    (prunedSyns_ c) (prunedSegs_ c).

Definition with_synapses (v : list SynapseData) (c : Connections) : Connections :=
  mkConnections (cells_ c) (segments_ c) (destroyedSegments_ c) v
    (destroyedSynapses_ c) (connectedThreshold_ c) (iteration_ c)
    (potentialSynapsesForPresynapticCell_ c)
    (connectedSynapsesForPresynapticCell_ c)
    (potentialSegmentsForPresynapticCell_ c)
    (connectedSegmentsForPresynapticCell_ c)
    (timeseries_ c) (previousUpdates_ c) (currentUpdates_ c)
    (prunedSyns_ c) (prunedSegs_ c).

Definition with_destroyedSynapses (v : list Synapse) (c : Connections) : Connections :=
  mkConnections (cells_ c) (segments_ c) (destroyedSegments_ c) (synapses_ c)
    v (connectedThreshold_ c) (iteration_ c)
    (potentialSynapsesForPresynapticCell_ c)
    (connectedSynapsesForPresynapticCell_ c)
    (potentialSegmentsForPresynapticCell_ c)
    (connectedSegmentsForPresynapticCell_ c)
    (timeseries_ c) (previousUpdates_ c) (currentUpdates_ c)
    (prunedSyns_ c) (prunedSegs_ c).

Definition with_iteration (v : N) (c : Connections) : Connections :=
  mkConnections (cells_ c) (segments_ c) (destroyedSegments_ c) (synapses_ c)
    (destroyedSynapses_ c) (connectedThreshold_ c) v
    (potentialSynapsesForPresynapticCell_ c)
    (connectedSynapsesForPresynapticCell_ c)
    (potentialSegmentsForPresynapticCell_ c)
    (connectedSegmentsForPresynapticCell_ c)
    (timeseries_ c) (previousUpdates_ c) (currentUpdates_ c)
    (prunedSyns_ c) (prunedSegs_ c).

(** The two presynaptic maps of one kind ([conn = true]: the connected
    pair, [conn = false]: the potential pair). *)
Definition presynSynapses (conn : bool) (c : Connections) : gmap N (list N) :=
  if conn then connectedSynapsesForPresynapticCell_ c
  else potentialSynapsesForPresynapticCell_ c.

Definition presynSegments (conn : bool) (c : Connections) : gmap N (list N) :=
  if conn then connectedSegmentsForPresynapticCell_ c
  else potentialSegmentsForPresynapticCell_ c.

Definition with_presyn (conn : bool) (syns segs : gmap N (list N))
    (c : Connections) : Connections :=
  mkConnections (cells_ c) (segments_ c) (destroyedSegments_ c) (synapses_ c)
    (destroyedSynapses_ c) (connectedThreshold_ c) (iteration_ c)
    (if conn then potentialSynapsesForPresynapticCell_ c else syns)
    (if conn then syns else connectedSynapsesForPresynapticCell_ c)
    (if conn then potentialSegmentsForPresynapticCell_ c else segs)
    (if conn then segs else connectedSegmentsForPresynapticCell_ c)
    (timeseries_ c) (previousUpdates_ c) (currentUpdates_ c)
    (prunedSyns_ c) (prunedSegs_ c).

Definition with_updates (prev cur : list Permanence) (c : Connections) : Connections :=
  mkConnections (cells_ c) (segments_ c) (destroyedSegments_ c) (synapses_ c)
    (destroyedSynapses_ c) (connectedThreshold_ c) (iteration_ c)
    (potentialSynapsesForPresynapticCell_ c)
    (connectedSynapsesForPresynapticCell_ c)
    (potentialSegmentsForPresynapticCell_ c)
    (connectedSegmentsForPresynapticCell_ c)
    (timeseries_ c) prev cur
    (prunedSyns_ c) (prunedSegs_ c).

Definition with_pruned (syns segs : N) (c : Connections) : Connections :=
  mkConnections (cells_ c) (segments_ c) (destroyedSegments_ c) (synapses_ c)
    (destroyedSynapses_ c) (connectedThreshold_ c) (iteration_ c)
    (potentialSynapsesForPresynapticCell_ c)
    (connectedSynapsesForPresynapticCell_ c)
    (potentialSegmentsForPresynapticCell_ c)
    (connectedSegmentsForPresynapticCell_ c)
    (timeseries_ c) (previousUpdates_ c) (currentUpdates_ c)
    syns segs.

(** Field updates of the element records. *)
Definition syn_with_permanence (p : Permanence) (d : SynapseData) : SynapseData :=
  mkSynapseData (presynapticCell d) p (segment d) (presynapticMapIndex_ d).
Definition syn_with_index (i : Synapse) (d : SynapseData) : SynapseData :=
  mkSynapseData (presynapticCell d) (permanence d) (segment d) i.
Definition seg_with_synapses (l : list Synapse) (d : SegmentData) : SegmentData :=
  mkSegmentData l (cell d) (numConnected d).
Definition seg_with_numConnected (n : SynapseIdx) (d : SegmentData) : SegmentData :=
  mkSegmentData (synapses d) (cell d) n.

(** From here on the development is parametric in the constants of
    [Types.hpp]. *)
Section Parametric.

Context {constants : Constants}.

(** ** Connections::initialize *)

Definition initialize (numCells : CellIdx) (connectedThreshold : Permanence)
    (timeseries : bool) : option Connections :=
  if negb (Qgeb connectedThreshold minPermanence) then None
  else if negb (Qgeb maxPermanence connectedThreshold) then None
  else Some (mkConnections
    (replicate (N.to_nat numCells) (mkCellData []))
    [] [] [] []
    (connectedThreshold - Epsilon)%Q
    0 ∅ ∅ ∅ ∅ timeseries [] [] 0 0).

(** ** Accessors *)

Definition numCells (c : Connections) : N := size_N (cells_ c).
Definition segmentsForCell (c : Connections) (cl : CellIdx) : option (list Segment) :=
  segments <$> at_N (cells_ c) cl.
Definition synapsesForSegment (c : Connections) (s : Segment) : option (list Synapse) :=
  synapses <$> at_N (segments_ c) s.
Definition dataForSynapse (c : Connections) (y : Synapse) : option SynapseData :=
  at_N (synapses_ c) y.
Definition dataForSegment (c : Connections) (s : Segment) : option SegmentData :=
  at_N (segments_ c) s.

(** A synapse counts as connected when [permanence >= connectedThreshold_]. *)
Definition isConnected (c : Connections) (d : SynapseData) : bool :=
  Qgeb (permanence d) (connectedThreshold_ c).

(** ** Connections::synapseExists_ (fast path) *)

Definition synapseExists_fast (c : Connections) (y : Synapse) : bool :=
  match at_N (synapses_ c) y with
  | None => false
  | Some d => negb (Qeqb (permanence d) (-1))
  end.

(** ** Connections::removeSynapseFromPresynapticMap_

    The two vectors are passed by reference in the source; here the new
    vectors are returned next to the state (whose [synapses_] changes). *)
Definition removeSynapseFromPresynapticMap_ (index : Synapse)
    (preSynapses preSegments : list N) (c : Connections)
    : option (Connections * list N * list N) :=
  move ← last preSynapses;
  moveData ← at_N (synapses_ c) move;
  _ ← at_N preSynapses index;
  lastSeg ← last preSegments;
  _ ← at_N preSegments index;
  Some (with_synapses (set_N (synapses_ c) move (syn_with_index index moveData)) c,
        pop_back (set_N preSynapses index move),
        pop_back (set_N preSegments index lastSeg)).

(** [m[k]] of a [std::map]: the entry is created empty when it is missing
    ([map_touch]), and the vector at the entry is read ([map_get]). *)
Definition map_touch (m : gmap N (list N)) (k : N) : gmap N (list N) :=
  match m !! k with
  | Some _ => m
  | None => <[k := []]> m
  end.
Definition map_get (m : gmap N (list N)) (k : N) : list N :=
  default [] (m !! k).

(** [removeSynapseFromPresynapticMap_(index, syns[presyn], segs[presyn])]
    on the two maps of one kind, the vectors being changed in place.  On a
    missing entry [at()] throws and [back()] of the fresh vector of
    [operator[]] is undefined: [None] either way. *)
Definition removeFromPresynapticMaps (conn : bool) (presyn : CellIdx)
    (index : Synapse) (c : Connections) : option Connections :=
  '(c1, preSyn, preSeg) ←
    removeSynapseFromPresynapticMap_ index
      (map_get (presynSynapses conn c) presyn)
      (map_get (presynSegments conn c) presyn) c;
  Some (with_presyn conn (<[presyn := preSyn]> (presynSynapses conn c1))
                         (<[presyn := preSeg]> (presynSegments conn c1)) c1).

(** [syns[presyn].push_back(y); segs[presyn].push_back(s)] on the two maps
    of one kind. *)
Definition pushToPresynapticMaps (conn : bool) (presyn : CellIdx)
    (y : Synapse) (s : Segment) (c : Connections) : Connections :=
  with_presyn conn
    (<[presyn := map_get (presynSynapses conn c) presyn ++ [y]]>
       (presynSynapses conn c))
    (<[presyn := map_get (presynSegments conn c) presyn ++ [s]]>
       (presynSegments conn c)) c.

(** The erasure of an entry whose vector became empty. *)
Definition eraseIfEmpty (conn : bool) (presyn : CellIdx) (c : Connections)
    : Connections :=
  match map_get (presynSynapses conn c) presyn with
  | [] => with_presyn conn (delete presyn (presynSynapses conn c))
                           (delete presyn (presynSegments conn c)) c
  | _ => c
  end.

(** Position of the first occurrence of [y], as the search loops of the
    source find it. *)
Fixpoint find_index (y : N) (l : list N) : option nat :=
  match l with
  | [] => None
  | x :: l' => if N.eqb x y then Some 0%nat else S <$> find_index y l'
  end.

(** [v[i] = v.back(); v.pop_back();] for the first [i] with [v[i] == y];
    the vector is unchanged when [y] does not occur. *)
Definition swap_remove (y : N) (v : list N) : list N :=
  match find_index y v, last v with
  | Some i, Some b => pop_back (<[i := b]> v)
  | _, _ => v
  end.

(** ** Connections::destroySynapse *)

Definition destroySynapse (y : Synapse) (c : Connections) : option Connections :=
  if negb (synapseExists_fast c y) then Some c
  else
    synapseData ← at_N (synapses_ c) y;
    segmentData ← at_N (segments_ c) (segment synapseData);
    let presynCell := presynapticCell synapseData in
    let conn := isConnected c synapseData in
    (* [segmentData.numConnected--] for a connected synapse *)
    let c :=
      if conn then
        with_segments
          (set_N (segments_ c) (segment synapseData)
             (seg_with_numConnected (numConnected segmentData - 1)%Z segmentData)) c
      else c in
    c ← removeFromPresynapticMaps conn presynCell
          (presynapticMapIndex_ synapseData) c;
    let c := eraseIfEmpty conn presynCell c in
    segmentData ← at_N (segments_ c) (segment synapseData);
    let c :=
      with_segments
        (set_N (segments_ c) (segment synapseData)
           (seg_with_synapses (swap_remove y (synapses segmentData)) segmentData)) c in
    Some (with_destroyedSynapses (destroyedSynapses_ c ++ [y]) c).

(** ** Connections::updateSynapsePermanence *)

(** The four [operator[]] lookups at the head of the second half. *)
Definition touchPresynapticMaps (presyn : CellIdx) (c : Connections) : Connections :=
  with_presyn true
    (map_touch (connectedSynapsesForPresynapticCell_ c) presyn)
    (map_touch (connectedSegmentsForPresynapticCell_ c) presyn)
    (with_presyn false
       (map_touch (potentialSynapsesForPresynapticCell_ c) presyn)
       (map_touch (potentialSegmentsForPresynapticCell_ c) presyn) c).

Definition updateSynapsePermanence (y : Synapse) (p : Permanence)
    (c : Connections) : option Connections :=
  let p := std_min p maxPermanence in
  let p := std_max p minPermanence in
  synData ← at_N (synapses_ c) y;
  let before := Qgeb (permanence synData) (connectedThreshold_ c) in
  let after := Qgeb p (connectedThreshold_ c) in
  let c := with_synapses (set_N (synapses_ c) y (syn_with_permanence p synData)) c in
  if bool_decide (before = after) then Some c
  else
    let presyn := presynapticCell synData in
    let seg := segment synData in
    let c := touchPresynapticMaps presyn c in
    segmentData ← at_N (segments_ c) seg;
    let segmentData' :=
      seg_with_numConnected
        (if after then numConnected segmentData + 1 else numConnected segmentData - 1)%Z
        segmentData in
    let c := with_segments (set_N (segments_ c) seg segmentData') c in
    (* leave the vectors of the old kind: the potential pair when the
       synapse connects, the connected pair when it disconnects *)
    c ← removeFromPresynapticMaps (negb after) presyn (presynapticMapIndex_ synData) c;
    (* enter the vectors of the new kind *)
    synData' ← at_N (synapses_ c) y;
    let index := size_N (map_get (presynSynapses after c) presyn) in
    let c := with_synapses (set_N (synapses_ c) y (syn_with_index index synData')) c in
    Some (pushToPresynapticMaps after presyn y seg c).

(** ** Connections::destroySegment *)

(** [while (!segmentData.synapses.empty()) destroySynapse(synapses.back())].
    The fuel bounds the number of iterations; [None] when it runs out. *)
Fixpoint destroySynapses_loop (fuel : nat) (s : Segment) (c : Connections)
    : option Connections :=
  segmentData ← at_N (segments_ c) s;
  match last (synapses segmentData) with
  | None => Some c
  | Some y =>
      match fuel with
      | O => None
      | S fuel' => c' ← destroySynapse y c; destroySynapses_loop fuel' s c'
      end
  end.

(** [v.erase(std::find(v.begin(), v.end(), s))]; erasing [end()] is
    undefined. *)
Definition erase_first (s : N) (v : list N) : option (list N) :=
  i ← find_index s v; Some (delete i v).

Definition destroySegment (s : Segment) (c : Connections) : option Connections :=
  segmentData ← at_N (segments_ c) s;
  c1 ← destroySynapses_loop (length (synapses segmentData)) s c;
  segmentData1 ← at_N (segments_ c1) s;
  cellData ← at_N (cells_ c1) (cell segmentData1);
  segs' ← erase_first s (segments cellData);
  Some (with_destroyedSegments (destroyedSegments_ c1 ++ [s])
         (with_cells (set_N (cells_ c1) (cell segmentData1) (mkCellData segs')) c1)).

(** ** Connections::pruneSegment_ *)

(** [heuristic += p * p] over the synapses of a segment. *)
Fixpoint heuristic_loop (c : Connections) (syns : list Synapse) (h : Q) : option Q :=
  match syns with
  | [] => Some h
  | y :: syns' =>
      d ← dataForSynapse c y;
      heuristic_loop c syns' (h + permanence d * permanence d)%Q
  end.

Definition segmentHeuristic (c : Connections) (s : Segment) : option Q :=
  syns ← synapsesForSegment c s; heuristic_loop c syns 0%Q.

(** The scan over [segmentsForCell(cell)], carrying
    [(leastUsefulSegment, leastUsefulHeuristic)]. *)
Fixpoint leastUseful_loop (c : Connections) (segs : list Segment)
    (best : Segment * Q) : option (Segment * Q) :=
  match segs with
  | [] => Some best
  | s :: segs' =>
      h ← segmentHeuristic c s;
      let '(leastUsefulSegment, leastUsefulHeuristic) := best in
      if Qltb h leastUsefulHeuristic
         || (Qeqb h leastUsefulHeuristic && N.ltb s leastUsefulSegment)
      then leastUseful_loop c segs' (s, h)
      else leastUseful_loop c segs' best
  end.

Definition leastUsefulSegment (c : Connections) (cl : CellIdx) : option Segment :=
  segs ← segmentsForCell c cl;
  fst <$> leastUseful_loop c segs (Segment_max, DBL_MAX).

Definition pruneSegment_ (cl : CellIdx) (c : Connections) : option Connections :=
  s ← leastUsefulSegment c cl; destroySegment s c.

(** ** Connections::createSegment *)

(** [while (numSegments(cell) >= maxSegmentsPerCell) pruneSegment_(cell)]. *)
Fixpoint pruneSegments_loop (fuel : nat) (cl : CellIdx) (maxSegmentsPerCell : N)
    (c : Connections) : option Connections :=
  segs ← segmentsForCell c cl;
  if N.leb maxSegmentsPerCell (size_N segs) then
    match fuel with
    | O => None
    | S fuel' =>
        c' ← pruneSegment_ cl c;
        pruneSegments_loop fuel' cl maxSegmentsPerCell c'
    end
  else Some c.

Definition createSegment (cl : CellIdx) (maxSegmentsPerCell : N) (c : Connections)
    : option (Connections * Segment) :=
  if negb (N.ltb 0 maxSegmentsPerCell) then None
  else if negb (N.ltb cl (numCells c)) then None
  else
    segs0 ← segmentsForCell c cl;
    c ← pruneSegments_loop (S (length segs0)) cl maxSegmentsPerCell c;
    let segmentData := newSegmentData cl in
    '(c, s) ←
      match last (destroyedSegments_ c) with
      | Some s =>
          _ ← at_N (segments_ c) s;
          Some (with_segments (set_N (segments_ c) s segmentData)
                  (with_destroyedSegments (pop_back (destroyedSegments_ c)) c), s)
      | None =>
          if negb (N.ltb (size_N (segments_ c)) Segment_max) then None
          else Some (with_segments (segments_ c ++ [segmentData]) c,
                     size_N (segments_ c))
      end;
    cellData ← at_N (cells_ c) cl;
    Some (with_cells (set_N (cells_ c) cl (mkCellData (segments cellData ++ [s]))) c, s).

(** ** Connections::createSynapse *)

(** The scan for a synapse of the segment that already has this
    presynaptic cell. *)
Fixpoint findDuplicate (c : Connections) (presyn : CellIdx) (syns : list Synapse)
    : option (option Synapse) :=
  match syns with
  | [] => Some None
  | y :: syns' =>
      d ← dataForSynapse c y;
      if N.eqb presyn (presynapticCell d) then Some (Some y)
      else findDuplicate c presyn syns'
  end.

Definition createSynapse (s : Segment) (presyn : CellIdx) (p : Permanence)
    (c : Connections) : option (Connections * Synapse) :=
  syns ← synapsesForSegment c s;
  dup ← findDuplicate c presyn syns;
  match dup with
  | Some y =>
      synData ← at_N (synapses_ c) y;
      if Qltb (permanence synData) p
      then c' ← updateSynapsePermanence y p c; Some (c', y)
      else Some (c, y)
  | None =>
      '(c, y) ←
        match last (destroyedSynapses_ c) with
        | Some y =>
            Some (with_destroyedSynapses (pop_back (destroyedSynapses_ c)) c, y)
        | None =>
            if negb (N.ltb (size_N (synapses_ c)) Synapse_max) then None
            else Some (with_synapses (synapses_ c ++ [emptySynapseData]) c,
                       size_N (synapses_ c))
        end;
      _ ← at_N (synapses_ c) y;
      let index := size_N (map_get (potentialSynapsesForPresynapticCell_ c) presyn) in
      let synapseData :=
        mkSynapseData presyn (connectedThreshold_ c - 1)%Q s index in
      let c := with_synapses (set_N (synapses_ c) y synapseData) c in
      let c := pushToPresynapticMaps false presyn y s c in
      segmentData ← at_N (segments_ c) s;
      let c := with_segments
                 (set_N (segments_ c) s
                    (seg_with_synapses (synapses segmentData ++ [y]) segmentData)) c in
      c' ← updateSynapsePermanence y p c;
      Some (c', y)
  end.

(** ** Connections::computeActivity *)

(** [++counts[segment]] for every segment of the vector. *)
Fixpoint increment_all (segs : list Segment) (counts : list SynapseIdx)
    : option (list SynapseIdx) :=
  match segs with
  | [] => Some counts
  | s :: segs' =>
      n ← at_N counts s;
      increment_all segs' (set_N counts s (n + 1)%Z)
  end.

Fixpoint activity_loop (m : gmap N (list N)) (cells : list CellIdx)
    (counts : list SynapseIdx) : option (list SynapseIdx) :=
  match cells with
  | [] => Some counts
  | cl :: cells' =>
      match m !! cl with
      | Some segs => counts' ← increment_all segs counts; activity_loop m cells' counts'
      | None => activity_loop m cells' counts
      end
  end.

Definition computeActivity (activePresynapticCells : list CellIdx) (learn : bool)
    (c : Connections) : option (Connections * list SynapseIdx) :=
  let counts := replicate (length (segments_ c)) 0%Z in
  let c := if learn then with_iteration (iteration_ c + 1) c else c in
  let c := if timeseries_ c then with_updates (currentUpdates_ c) [] c else c in
  counts' ← activity_loop (connectedSegmentsForPresynapticCell_ c)
              activePresynapticCells counts;
  Some (c, counts').

(** ** Sparse distributed representations *)

(** Modelled from the spec: the [SDR] class is declared in
    [htm/types/Sdr.hpp], which is not part of the sources.  An SDR has a
    dense size, the list of its active indices ([getSparse]) and, in this
    repository, one weight per active index ([getSparseWeights]). *)
Record SDR := mkSDR {
  sdr_size : N;
  getSparse : list CellIdx;
  getSparseWeights : list Q
}.

(** Modelled from the spec: [getDense] is the bit vector of the size of
    the SDR with exactly the active indices set. *)
Definition getDense (x : SDR) : list bool :=
  map (λ i, bool_decide (N.of_nat i ∈ getSparse x)) (seq 0 (N.to_nat (sdr_size x))).

(** ** Connections::adaptSegment *)

(** The permanence change of one synapse: [increment] when its presynaptic
    cell is active in the input, [-decrement] otherwise. *)
Definition adaptUpdate (inputArray : list bool) (increment decrement : Permanence)
    (d : SynapseData) : option Permanence :=
  active ← at_N inputArray (presynapticCell d);
  Some (if active : bool then increment else (- decrement)%Q).

(** The condition under which a synapse is put on [destroyLater]. *)
Definition prunes (pruneZeroSynapses : bool) (d : SynapseData) (update : Permanence)
    : bool :=
  pruneZeroSynapses && Qltb (permanence d + update) (minPermanence + Epsilon).

Fixpoint adapt_loop (inputArray : list bool) (increment decrement : Permanence)
    (pruneZeroSynapses : bool) (syns : list Synapse) (destroyLater : list Synapse)
    (c : Connections) : option (Connections * list Synapse) :=
  match syns with
  | [] => Some (c, destroyLater)
  | y :: syns' =>
      synapseData ← dataForSynapse c y;
      update ← adaptUpdate inputArray increment decrement synapseData;
      if prunes pruneZeroSynapses synapseData update then
        adapt_loop inputArray increment decrement pruneZeroSynapses syns'
          (destroyLater ++ [y])
          (with_pruned (prunedSyns_ c + 1) (prunedSegs_ c) c)
      else if timeseries_ c then
        prev ← at_N (previousUpdates_ c) y;
        c1 ← (if negb (Qeqb update prev)
              then updateSynapsePermanence y (permanence synapseData + update) c
              else Some c);
        _ ← at_N (currentUpdates_ c1) y;
        adapt_loop inputArray increment decrement pruneZeroSynapses syns' destroyLater
          (with_updates (previousUpdates_ c1) (set_N (currentUpdates_ c1) y update) c1)
      else
        c1 ← updateSynapsePermanence y (permanence synapseData + update) c;
        adapt_loop inputArray increment decrement pruneZeroSynapses syns' destroyLater c1
  end.

(** [for (pruneSyn : destroyLater) destroySynapse(pruneSyn)]. *)
Fixpoint destroy_all (ys : list Synapse) (c : Connections) : option Connections :=
  match ys with
  | [] => Some c
  | y :: ys' => c' ← destroySynapse y c; destroy_all ys' c'
  end.

Definition adaptSegment (s : Segment) (inputs : SDR) (increment decrement : Permanence)
    (pruneZeroSynapses : bool) (segmentThreshold : N) (c : Connections)
    : option Connections :=
  let inputArray := getDense inputs in
  let c :=
    if timeseries_ c then
      with_updates
        (resize_vec (length (synapses_ c)) minPermanence (previousUpdates_ c))
        (resize_vec (length (synapses_ c)) minPermanence (currentUpdates_ c)) c
    else c in
  syns ← synapsesForSegment c s;
  '(c, destroyLater) ←
    adapt_loop inputArray increment decrement pruneZeroSynapses syns [] c;
  c ← destroy_all destroyLater c;
  syns' ← synapsesForSegment c s;
  if pruneZeroSynapses && N.ltb (size_N syns') segmentThreshold then
    c ← destroySegment s c;
    Some (with_pruned (prunedSyns_ c) (prunedSegs_ c + 1) c)
  else Some c.

(** ** Connections::bumpSegment *)

Fixpoint bump_loop (delta : Permanence) (syns : list Synapse) (c : Connections)
    : option Connections :=
  match syns with
  | [] => Some c
  | y :: syns' =>
      d ← at_N (synapses_ c) y;
      c' ← updateSynapsePermanence y (permanence d + delta) c;
      bump_loop delta syns' c'
  end.

Definition bumpSegment (s : Segment) (delta : Permanence) (c : Connections)
    : option Connections :=
  syns ← synapsesForSegment c s; bump_loop delta syns c.

(** The permanence a comparator reads for a handle. *)
Definition permanenceOf (c : Connections) (y : Synapse) : Permanence :=
  match at_N (synapses_ c) y with
  | Some d => permanence d
  | None => 0%Q
  end.



Section Algorithms.

Variable nth_element : (N → N → bool) → nat → list N → list N.
Variable std_sort : (N → N → bool) → list N → list N.

(** ** Connections::raisePermanencesToThreshold *)


End Algorithms.

(** * Spatial Pooler: overlap, boost, inhibition *)

(** The fields of [SpatialPooler] that [compute] reads up to the choice of
    the active columns. *)
Record SpatialPooler := mkSpatialPooler {
  numColumns_ : N;
  columnDimensions_ : list N;
  globalInhibition_ : bool;
  localAreaDensity_ : Q;
  numActiveColumnsPerInhArea_ : N;
  stimulusThreshold_ : N;
  inhibitionRadius_ : N;
  boostStrength_ : Q;
  boostFactors_ : list Q;
  neighborMap_ : list (list CellIdx);
  connections_ : Connections
}.

(** [(Real)n] for an unsigned [n]. *)
Definition toReal (n : N) : Q := inject_Z (Z.of_N n).

(** [static_cast<UInt>(x)] for a real [x]: truncation. *)
Definition toUInt (x : Q) : N := Z.to_N (Qfloor x).

(** [0, 1, ..., n-1], as [std::iota] fills the vector. *)
Definition iota (n : N) : list N := map N.of_nat (seq 0 (N.to_nat n)).

(** [*max_element(v.begin(), v.end())]; undefined on an empty vector. *)
Definition max_element (v : list N) : option N :=
  match v with
  | [] => None
  | x :: v' => Some (fold_left N.max v' x)
  end.

(** ** getAreaND_ *)
Definition getAreaND_ (dimensions : list N) (radius : Q) : N :=
  toUInt (fold_left (λ area dim, area * std_min (toReal dim) (2 * radius + 1))%Q
            dimensions 1%Q).

(** ** SpatialPooler::boostOverlaps_ *)
Definition boostOverlaps_ (sp : SpatialPooler) (overlaps : list SynapseIdx)
    : option (list Q) :=
  if Qltb (boostStrength_ sp) Epsilon then Some (map inject_Z overlaps)
  else
    mapM (λ i, o ← at_N overlaps i; b ← at_N (boostFactors_ sp) i;
               Some (inject_Z o * b)%Q)
         (iota (numColumns_ sp)).

(** The overlap a comparator reads for a column. *)
Definition overlapOf (overlaps : list Q) (a : CellIdx) : Q :=
  match at_N overlaps a with
  | Some o => o
  | None => 0%Q
  end.

(** The lambda [compare] of [inhibitColumnsGlobal_]:
    [(overlaps[a] == overlaps[b]) ? (a > b) : (overlaps[a] > overlaps[b])]. *)
Definition compareColumns (overlaps : list Q) (a b : CellIdx) : bool :=
  if Qeqb (overlapOf overlaps a) (overlapOf overlaps b) then N.ltb b a
  else Qltb (overlapOf overlaps b) (overlapOf overlaps a).

(** [while (!v.empty() && P(v.back())) v.pop_back()], on the reversed
    vector. *)
Fixpoint pop_while (P : N → bool) (rv : list N) : list N :=
  match rv with
  | [] => []
  | x :: rv' => if P x then pop_while P rv' else rv
  end.

Definition subThreshold (sp : SpatialPooler) (overlaps : list Q) (a : CellIdx) : bool :=
  Qltb (overlapOf overlaps a) (toReal (stimulusThreshold_ sp)).

(** ** SpatialPooler::inhibitColumnsLocal_ *)

(** The scan of a neighbourhood, with its early [break]. *)
Fixpoint countBigger (overlaps : list Q) (alreadyUsedColumn : list bool)
    (column : CellIdx) (numDesiredLocalActive : N) (hood : list CellIdx)
    (otherBigger : N) : option N :=
  match hood with
  | [] => Some otherBigger
  | neighbor :: hood' =>
      on ← at_N overlaps neighbor;
      oc ← at_N overlaps column;
      lost ← (if Qltb oc on then Some true
              else if Qeqb on oc then at_N alreadyUsedColumn neighbor
              else Some false);
      if lost : bool then
        if N.leb numDesiredLocalActive (otherBigger + 1) then Some (otherBigger + 1)
        else countBigger overlaps alreadyUsedColumn column numDesiredLocalActive
               hood' (otherBigger + 1)
      else countBigger overlaps alreadyUsedColumn column numDesiredLocalActive
             hood' otherBigger
  end.

Fixpoint local_loop (sp : SpatialPooler) (overlaps : list Q) (density : Q)
    (columns : list CellIdx) (activeColumns : list CellIdx)
    (alreadyUsedColumn : list bool) : option (list CellIdx) :=
  match columns with
  | [] => Some activeColumns
  | column :: columns' =>
      oc ← at_N overlaps column;
      if Qltb oc (toReal (stimulusThreshold_ sp)) then
        local_loop sp overlaps density columns' activeColumns alreadyUsedColumn
      else
        hood ← at_N (neighborMap_ sp) column;
        let numNeighbors := size_N hood in
        let numDesiredLocalActive :=
          toUInt ((1 # 2) + density * toReal (numNeighbors + 1))%Q in
        otherBigger ← countBigger overlaps alreadyUsedColumn column
                        numDesiredLocalActive hood 0;
        if N.ltb otherBigger numDesiredLocalActive then
          local_loop sp overlaps density columns' (activeColumns ++ [column])
            (set_N alreadyUsedColumn column true)
        else
          local_loop sp overlaps density columns' activeColumns alreadyUsedColumn
  end.

Definition inhibitColumnsLocal_ (sp : SpatialPooler) (overlaps : list Q) (density : Q)
    : option (list CellIdx) :=
  local_loop sp overlaps density (iota (numColumns_ sp)) []
    (replicate (N.to_nat (numColumns_ sp)) false).

Section Inhibition.

Variable nth_element : (N → N → bool) → nat → list N → list N.
Variable std_sort : (N → N → bool) → list N → list N.

(** [MAX_LOCALAREADENSITY] is a constant of [SpatialPooler.hpp], which is
    not part of the sources; the development is parametric in it. *)
Variable MAX_LOCALAREADENSITY : Q.

(** ** SpatialPooler::inhibitColumnsGlobal_ *)
Definition inhibitColumnsGlobal_ (sp : SpatialPooler) (overlaps : list Q) (density : Q)
    : option (list CellIdx) :=
  let numDesired := toUInt (density * toReal (numColumns_ sp))%Q in
  if negb (N.ltb 0 numDesired) then None
  else if negb (N.leb numDesired (numColumns_ sp)) then None
  else if negb (N.leb (numColumns_ sp) (size_N overlaps)) then None
  else
    let activeColumns := iota (numColumns_ sp) in
    let compare := compareColumns overlaps in
    let activeColumns := nth_element compare (N.to_nat numDesired) activeColumns in
    let activeColumns := take (N.to_nat numDesired) activeColumns in
    let activeColumns := std_sort compare activeColumns in
    Some (reverse (pop_while (subThreshold sp overlaps) (reverse activeColumns))).

(** ** SpatialPooler::inhibitColumns_ *)

(** The density the inhibition aims at. *)
Definition inhibitionDensity (sp : SpatialPooler) : option Q :=
  if N.ltb 0 (numActiveColumnsPerInhArea_ sp) then
    let inhibitionArea :=
      getAreaND_ (columnDimensions_ sp) (toReal (inhibitionRadius_ sp)) in
    if N.eqb inhibitionArea 0 then None
    else Some (std_min (toReal (numActiveColumnsPerInhArea_ sp) / toReal inhibitionArea)
                       MAX_LOCALAREADENSITY)%Q
  else Some (localAreaDensity_ sp).

Definition inhibitColumns_ (sp : SpatialPooler) (overlaps : list Q)
    : option (list CellIdx) :=
  density ← inhibitionDensity sp;
  maxDim ← max_element (columnDimensions_ sp);
  if globalInhibition_ sp || N.ltb maxDim (inhibitionRadius_ sp)
  then inhibitColumnsGlobal_ sp overlaps density
  else inhibitColumnsLocal_ sp overlaps density.

(** ** SpatialPooler::compute *)

(** Modelled from the spec: [Connections::computeActivityWeighted], which
    [compute] calls on the sparse input and its weights, is not defined in
    the sources.  The spec describes the overlap step as
    [Connections.computeActivity] on the active input bits, so the weighted
    call is taken to count each active connected synapse once. *)
Definition computeActivityWeighted (activePresynapticCells : list CellIdx)
    (weights : list Q) (learn : bool) (c : Connections)
    : option (Connections * list SynapseIdx) :=
  computeActivity activePresynapticCells learn c.

(** What [compute] does once the overlaps are known: boost, inhibit, sort
    the winners by index. *)
Definition activeColumnsFor (sp : SpatialPooler) (overlaps : list SynapseIdx)
    : option (list CellIdx) :=
  boosted ← boostOverlaps_ sp overlaps;
  activeVector ← inhibitColumns_ sp boosted;
  Some (std_sort N.ltb activeVector).

(** The value [compute] returns (the overlaps) and the sparse vector it
    writes to [active].  The learning phase, which runs after both are
    fixed and only changes the pooler for later calls, is not
    represented. *)
Definition compute (sp : SpatialPooler) (input : SDR) (learn : bool)
    : option (list SynapseIdx * list CellIdx) :=
  '(_, overlaps) ← computeActivityWeighted (getSparse input) (getSparseWeights input)
                     learn (connections_ sp);
  active ← activeColumnsFor sp overlaps;
  Some (overlaps, active).

End Inhibition.

(** * Well-formed states

    The invariants of the data model, as far as the operations need them to
    run and to keep each other's results meaningful. *)

(** What the vectors record for a handle (a default outside their range). *)
Definition segmentOf (c : Connections) (y : Synapse) : Segment :=
  match at_N (synapses_ c) y with Some d => segment d | None => 0 end.
Definition presynOf (c : Connections) (y : Synapse) : CellIdx :=
  match at_N (synapses_ c) y with Some d => presynapticCell d | None => 0 end.
Definition indexOf (c : Connections) (y : Synapse) : Synapse :=
  match at_N (synapses_ c) y with Some d => presynapticMapIndex_ d | None => 0 end.
Definition synapsesOn (c : Connections) (s : Segment) : list Synapse :=
  match at_N (segments_ c) s with Some sd => synapses sd | None => [] end.
Definition cellOf (c : Connections) (s : Segment) : CellIdx :=
  match at_N (segments_ c) s with Some sd => cell sd | None => 0 end.
Definition numConnectedOf (c : Connections) (s : Segment) : SynapseIdx :=
  match at_N (segments_ c) s with Some sd => numConnected sd | None => 0%Z end.
Definition segmentsOn (c : Connections) (cl : CellIdx) : list Segment :=
  match at_N (cells_ c) cl with Some cd => segments cd | None => [] end.

(** [permanence >= connectedThreshold_] for a handle. *)
Definition connectedB (c : Connections) (y : Synapse) : bool :=
  Qgeb (permanenceOf c y) (connectedThreshold_ c).

(** [y] is held by the segment its data names. *)
Definition live (c : Connections) (y : Synapse) : Prop :=
  y ∈ synapsesOn c (segmentOf c y).

(** A segment that is on the list of its cell. *)
Definition liveSegment (c : Connections) (s : Segment) : Prop :=
  s ∈ segmentsOn c (cellOf c s).

(** The entry of a presynaptic map at a cell and a position. *)
Definition slot (c : Connections) (conn : bool) (cl : CellIdx) (i : nat)
    : option Synapse :=
  presynSynapses conn c !! cl ≫= (λ l, l !! i).

(** Number of elements of a list that pass a test. *)
Fixpoint count_if (P : N → bool) (l : list N) : nat :=
  match l with
  | [] => 0%nat
  | x :: l' => ((if P x then 1 else 0) + count_if P l')%nat
  end.

(** The presynaptic maps hold exactly the live synapses (but for [ex], when
    one is in transit), each at its recorded position of the list of its
    kind. *)
Definition slots_sound (c : Connections) (ex : option Synapse) : Prop :=
  ∀ conn cl i y, slot c conn cl i = Some y →
    Some y ≠ ex ∧ live c y ∧ presynOf c y = cl ∧
    indexOf c y = N.of_nat i ∧ connectedB c y = conn.
Definition slots_complete (c : Connections) (ex : option Synapse) : Prop :=
  ∀ y, live c y → Some y ≠ ex →
    slot c (connectedB c y) (presynOf c y) (N.to_nat (indexOf c y)) = Some y.

Record wf_struct (c : Connections) : Prop := mk_wf_struct {
  (* invariant 2: a synapse is once on its segment *)
  wf_seg_nodup : ∀ s, NoDup (synapsesOn c s);
  wf_seg_syn : ∀ s y, y ∈ synapsesOn c s →
    y < size_N (synapses_ c) ∧ segmentOf c y = s;
  (* invariant 5: one synapse per presynaptic cell on a segment *)
  wf_seg_presyn : ∀ s y1 y2, y1 ∈ synapsesOn c s → y2 ∈ synapsesOn c s →
    presynOf c y1 = presynOf c y2 → y1 = y2;
  (* invariant 3: the cached count *)
  wf_numConnected : ∀ s,
    numConnectedOf c s = Z.of_nat (count_if (connectedB c) (synapsesOn c s));
  (* invariant 4: the presynaptic maps hold the live synapses, each next
     to its segment *)
  wf_slot_sound : slots_sound c None;
  wf_slot_complete : slots_complete c None;
  wf_presyn_segs : ∀ conn cl,
    presynSegments conn c !! cl = map (segmentOf c) <$> presynSynapses conn c !! cl;
  (* free lists *)
  wf_destroyedSynapses_nodup : NoDup (destroyedSynapses_ c);
  wf_destroyedSynapses : ∀ y, y ∈ destroyedSynapses_ c →
    y < size_N (synapses_ c) ∧ ¬ live c y;
  (* invariant 1: a segment is once on its cell *)
  wf_cells_nodup : ∀ cl, NoDup (segmentsOn c cl);
  wf_cells : ∀ cl s, s ∈ segmentsOn c cl →
    s < size_N (segments_ c) ∧ cellOf c s = cl;
  wf_destroyedSegments_nodup : NoDup (destroyedSegments_ c);
  wf_destroyedSegments : ∀ s, s ∈ destroyedSegments_ c →
    s < size_N (segments_ c) ∧ synapsesOn c s = [] ∧ ∀ cl, s ∉ segmentsOn c cl
}.

(** Invariant 6: the permanence of a live synapse lies between
    [minPermanence] and [maxPermanence]. *)
Definition perm_ok (c : Connections) : Prop :=
  ∀ y, live c y →
    (minPermanence <= permanenceOf c y)%Q ∧ (permanenceOf c y <= maxPermanence)%Q.

(** The internal threshold never exceeds the largest permanence, and the
    synapse handles fit their type. *)
Definition bounds_ok (c : Connections) : Prop :=
  (connectedThreshold_ c <= maxPermanence)%Q ∧ size_N (synapses_ c) ≤ Synapse_max.

Definition wf (c : Connections) : Prop :=
  wf_struct c ∧ perm_ok c ∧ bounds_ok c.

(** What is assumed of the constants: they bound an interval within
    [0, 1], and [Epsilon] is not negative. *)
Definition constants_ok : Prop :=
  (0 <= minPermanence)%Q ∧ (minPermanence <= maxPermanence)%Q ∧
  (maxPermanence <= 1)%Q ∧ (0 <= Epsilon)%Q.

(** The clamp of [updateSynapsePermanence]. *)
Definition clamp (p : Q) : Q := std_max (std_min p maxPermanence) minPermanence.

(** * Auxiliary definitions

    Relations between the states before and after an operation, the
    quantities the statements speak of, and the example states. *)

(** What an operation on synapses leaves alone. *)
Record frame (c c' : Connections) : Prop := mk_frame {
  fr_cells : cells_ c' = cells_ c;
  fr_destroyedSegments : destroyedSegments_ c' = destroyedSegments_ c;
  fr_destroyedSynapses : destroyedSynapses_ c' = destroyedSynapses_ c;
  fr_threshold : connectedThreshold_ c' = connectedThreshold_ c;
  fr_timeseries : timeseries_ c' = timeseries_ c;
  fr_iteration : iteration_ c' = iteration_ c;
  fr_previousUpdates : previousUpdates_ c' = previousUpdates_ c;
  fr_currentUpdates : currentUpdates_ c' = currentUpdates_ c;
  fr_prunedSyns : prunedSyns_ c' = prunedSyns_ c;
  fr_prunedSegs : prunedSegs_ c' = prunedSegs_ c;
  fr_size_synapses : length (synapses_ c') = length (synapses_ c);
  fr_size_segments : length (segments_ c') = length (segments_ c);
  fr_synapsesOn : ∀ s, synapsesOn c' s = synapsesOn c s;
  fr_cellOf : ∀ s, cellOf c' s = cellOf c s;
  fr_segmentOf : ∀ y, segmentOf c' y = segmentOf c y;
  fr_presynOf : ∀ y, presynOf c' y = presynOf c y
}.

(** The state [updateSynapsePermanence] reaches when the synapse changes
    kind. *)
Definition moved (c : Connections) (y : Synapse) (p' : Q) (a : bool)
    (d : SynapseData) (sd : SegmentData) (l : list N) (m : N) (dm : SynapseData)
    : Connections :=
  let cl := presynapticCell d in
  let iy := presynapticMapIndex_ d in
  let c0 := with_segments
              (set_N (segments_ c) (segment d)
                 (seg_with_numConnected
                    (if a then numConnected sd + 1 else numConnected sd - 1)%Z sd))
              (touchPresynapticMaps cl
                 (with_synapses (set_N (synapses_ c) y (syn_with_permanence p' d)) c)) in
  let c1 := with_presyn (negb a)
              (<[cl := pop_back (<[N.to_nat iy := m]> l)]> (presynSynapses (negb a) c0))
              (<[cl := pop_back (<[N.to_nat iy := segment dm]> (map (segmentOf c) l))]>
                 (presynSegments (negb a) c0))
              (with_synapses (set_N (synapses_ c0) m (syn_with_index iy dm)) c0) in
  pushToPresynapticMaps a cl y (segment d)
    (with_synapses
       (set_N (synapses_ c1) y
          (mkSynapseData cl p' (segment d)
             (size_N (map_get (presynSynapses a c1) cl)))) c1).

(** The state [destroySynapse] reaches for a synapse that exists. *)
Definition destroyed (c : Connections) (y : Synapse) (d : SynapseData)
    (sd : SegmentData) (l : list N) (m : N) (dm : SynapseData) : Connections :=
  let b := isConnected c d in
  let cl := presynapticCell d in
  let iy := presynapticMapIndex_ d in
  let c0 :=
    if b then
      with_segments
        (set_N (segments_ c) (segment d)
           (seg_with_numConnected (numConnected sd - 1)%Z sd)) c
    else c in
  let sd1 := if b then seg_with_numConnected (numConnected sd - 1)%Z sd else sd in
  let c1 := with_presyn b
              (<[cl := pop_back (<[N.to_nat iy := m]> l)]> (presynSynapses b c0))
              (<[cl := pop_back (<[N.to_nat iy := segment dm]> (map (segmentOf c) l))]>
                 (presynSegments b c0))
              (with_synapses (set_N (synapses_ c0) m (syn_with_index iy dm)) c0) in
  let c2 := eraseIfEmpty b cl c1 in
  with_destroyedSynapses (destroyedSynapses_ c2 ++ [y])
    (with_segments
       (set_N (segments_ c2) (segment d)
          (seg_with_synapses (swap_remove y (synapses sd1)) sd1)) c2).

(** What [destroySynapse] does to a state when it destroys [y]. *)
Record destroys (c : Connections) (y : Synapse) (c' : Connections) : Prop := mk_destroys {
  ds_cells : cells_ c' = cells_ c;
  ds_destroyedSegments : destroyedSegments_ c' = destroyedSegments_ c;
  ds_destroyedSynapses : destroyedSynapses_ c' = destroyedSynapses_ c ++ [y];
  ds_threshold : connectedThreshold_ c' = connectedThreshold_ c;
  ds_timeseries : timeseries_ c' = timeseries_ c;
  ds_iteration : iteration_ c' = iteration_ c;
  ds_previousUpdates : previousUpdates_ c' = previousUpdates_ c;
  ds_currentUpdates : currentUpdates_ c' = currentUpdates_ c;
  ds_prunedSyns : prunedSyns_ c' = prunedSyns_ c;
  ds_prunedSegs : prunedSegs_ c' = prunedSegs_ c;
  ds_size_synapses : length (synapses_ c') = length (synapses_ c);
  ds_size_segments : length (segments_ c') = length (segments_ c);
  ds_synapsesOn : ∀ s, synapsesOn c' s =
    if decide (s = segmentOf c y) then swap_remove y (synapsesOn c s)
    else synapsesOn c s;
  ds_cellOf : ∀ s, cellOf c' s = cellOf c s;
  ds_segmentOf : ∀ y', segmentOf c' y' = segmentOf c y';
  ds_presynOf : ∀ y', presynOf c' y' = presynOf c y';
  ds_permanenceOf : ∀ y', permanenceOf c' y' = permanenceOf c y'
}.

(** What destroying synapses never touches. *)
Record keeps (c c' : Connections) : Prop := mk_keeps {
  kp_cells : cells_ c' = cells_ c;
  kp_destroyedSegments : destroyedSegments_ c' = destroyedSegments_ c;
  kp_threshold : connectedThreshold_ c' = connectedThreshold_ c;
  kp_timeseries : timeseries_ c' = timeseries_ c;
  kp_iteration : iteration_ c' = iteration_ c;
  kp_previousUpdates : previousUpdates_ c' = previousUpdates_ c;
  kp_currentUpdates : currentUpdates_ c' = currentUpdates_ c;
  kp_prunedSyns : prunedSyns_ c' = prunedSyns_ c;
  kp_prunedSegs : prunedSegs_ c' = prunedSegs_ c;
  kp_size_synapses : length (synapses_ c') = length (synapses_ c);
  kp_size_segments : length (segments_ c') = length (segments_ c);
  kp_cellOf : ∀ s, cellOf c' s = cellOf c s;
  kp_segmentOf : ∀ y, segmentOf c' y = segmentOf c y;
  kp_presynOf : ∀ y, presynOf c' y = presynOf c y;
  kp_permanenceOf : ∀ y, permanenceOf c' y = permanenceOf c y
}.

(** What [destroySegment] does to a state. *)
Record segmentDestroyed (c : Connections) (s : Segment) (c' : Connections) : Prop :=
  mk_segmentDestroyed {
  sg_size_cells : length (cells_ c') = length (cells_ c);
  sg_segmentsOn : ∀ cl, segmentsOn c' cl = filter (λ x, x ≠ s) (segmentsOn c cl);
  sg_destroyedSegments : destroyedSegments_ c' = destroyedSegments_ c ++ [s];
  sg_destroyedSynapses : destroyedSynapses_ c' ≡ₚ destroyedSynapses_ c ++ synapsesOn c s;
  sg_synapsesOn : ∀ s', synapsesOn c' s' = if decide (s' = s) then [] else synapsesOn c s';
  sg_threshold : connectedThreshold_ c' = connectedThreshold_ c;
  sg_timeseries : timeseries_ c' = timeseries_ c;
  sg_iteration : iteration_ c' = iteration_ c;
  sg_previousUpdates : previousUpdates_ c' = previousUpdates_ c;
  sg_currentUpdates : currentUpdates_ c' = currentUpdates_ c;
  sg_prunedSyns : prunedSyns_ c' = prunedSyns_ c;
  sg_prunedSegs : prunedSegs_ c' = prunedSegs_ c;
  sg_size_synapses : length (synapses_ c') = length (synapses_ c);
  sg_size_segments : length (segments_ c') = length (segments_ c);
  sg_cellOf : ∀ s', cellOf c' s' = cellOf c s';
  sg_segmentOf : ∀ y, segmentOf c' y = segmentOf c y;
  sg_presynOf : ∀ y, presynOf c' y = presynOf c y;
  sg_permanenceOf : ∀ y, permanenceOf c' y = permanenceOf c y
}.

(** The state after a handle has been taken from the free list, or a slot
    appended. *)
Definition allocated (c : Connections) (y : Synapse) (ca : Connections) : Prop :=
  (last (destroyedSynapses_ c) = Some y ∧
   ca = with_destroyedSynapses (pop_back (destroyedSynapses_ c)) c) ∨
  (last (destroyedSynapses_ c) = None ∧ y = size_N (synapses_ c) ∧
   ca = with_synapses (synapses_ c ++ [emptySynapseData]) c).

(** The state of [createSynapse] just before its call of
    [updateSynapsePermanence]. *)
Definition linked (ca : Connections) (s : Segment) (presyn : CellIdx)
    (y : Synapse) (sd : SegmentData) : Connections :=
  let index := size_N (map_get (potentialSynapsesForPresynapticCell_ ca) presyn) in
  let synapseData := mkSynapseData presyn (connectedThreshold_ ca - 1)%Q s index in
  let cb := with_synapses (set_N (synapses_ ca) y synapseData) ca in
  let cc := pushToPresynapticMaps false presyn y s cb in
  with_segments
    (set_N (segments_ cc) s (seg_with_synapses (synapses sd ++ [y]) sd)) cc.

(** What [createSynapse] does to a state when it makes a new synapse [y]. *)
Record created (c : Connections) (s : Segment) (presyn : CellIdx) (p : Q)
    (y : Synapse) (c' : Connections) : Prop := mk_created {
  cr_fresh : ¬ live c y;
  cr_cells : cells_ c' = cells_ c;
  cr_destroyedSegments : destroyedSegments_ c' = destroyedSegments_ c;
  cr_destroyedSynapses :
    destroyedSynapses_ c' = filter (λ x, x ≠ y) (destroyedSynapses_ c);
  cr_threshold : connectedThreshold_ c' = connectedThreshold_ c;
  cr_timeseries : timeseries_ c' = timeseries_ c;
  cr_iteration : iteration_ c' = iteration_ c;
  cr_previousUpdates : previousUpdates_ c' = previousUpdates_ c;
  cr_currentUpdates : currentUpdates_ c' = currentUpdates_ c;
  cr_prunedSyns : prunedSyns_ c' = prunedSyns_ c;
  cr_prunedSegs : prunedSegs_ c' = prunedSegs_ c;
  cr_size_segments : length (segments_ c') = length (segments_ c);
  cr_size_synapses : (length (synapses_ c) ≤ length (synapses_ c'))%nat;
  cr_synapsesOn : ∀ s', synapsesOn c' s' =
    if decide (s' = s) then synapsesOn c s ++ [y] else synapsesOn c s';
  cr_cellOf : ∀ s', cellOf c' s' = cellOf c s';
  cr_segmentOf : ∀ y', segmentOf c' y' = if decide (y' = y) then s else segmentOf c y';
  cr_presynOf : ∀ y', presynOf c' y' = if decide (y' = y) then presyn else presynOf c y';
  cr_permanenceOf : ∀ y', permanenceOf c' y' =
    if decide (y' = y) then clamp p else permanenceOf c y'
}.

(** The heuristic of [pruneSegment_]: the sum of the squared permanences. *)
Definition usefulness (c : Connections) (s : Segment) : Q :=
  fold_left (λ h y, h + permanenceOf c y * permanenceOf c y)%Q (synapsesOn c s) 0%Q.

(** [notWorse c r x]: the candidate [x] does not replace the current least
    useful [r] in the scan of [pruneSegment_]. *)
Definition replaces (x r : Segment * Q) : bool :=
  Qltb x.2 r.2 || (Qeqb x.2 r.2 && N.ltb x.1 r.1).

(** The second half of [createSegment]: a handle is taken and put on the
    cell. *)
Definition allocSegment (cl : CellIdx) (c : Connections) : option (Connections * Segment) :=
  '(c, s) ←
    match last (destroyedSegments_ c) with
    | Some s =>
        _ ← at_N (segments_ c) s;
        Some (with_segments (set_N (segments_ c) s (newSegmentData cl))
                (with_destroyedSegments (pop_back (destroyedSegments_ c)) c), s)
    | None =>
        if negb (N.ltb (size_N (segments_ c)) Segment_max) then None
        else Some (with_segments (segments_ c ++ [newSegmentData cl]) c,
                   size_N (segments_ c))
    end;
  cellData ← at_N (cells_ c) cl;
  Some (with_cells (set_N (cells_ c) cl (mkCellData (segments cellData ++ [s]))) c, s).

(** What [createSegment] does to a state once the cell has room. *)
Record segmentCreated (c : Connections) (cl : CellIdx) (s : Segment)
    (c' : Connections) : Prop := mk_segmentCreated {
  sc_fresh : ∀ cl', s ∉ segmentsOn c cl';
  sc_size_cells : length (cells_ c') = length (cells_ c);
  sc_segmentsOn : ∀ cl', segmentsOn c' cl' =
    if decide (cl' = cl) then segmentsOn c cl ++ [s] else segmentsOn c cl';
  sc_destroyedSegments :
    destroyedSegments_ c' = filter (λ x, x ≠ s) (destroyedSegments_ c);
  sc_synapsesOn : ∀ s', synapsesOn c' s' = synapsesOn c s';
  sc_synapsesOn_new : synapsesOn c' s = [];
  sc_cellOf : ∀ s', cellOf c' s' = if decide (s' = s) then cl else cellOf c s';
  sc_numConnectedOf : ∀ s', numConnectedOf c' s' =
    if decide (s' = s) then 0%Z else numConnectedOf c s';
  sc_size_segments : (length (segments_ c) ≤ length (segments_ c'))%nat;
  sc_in_range : s < size_N (segments_ c');
  sc_synapses : synapses_ c' = synapses_ c;
  sc_destroyedSynapses : destroyedSynapses_ c' = destroyedSynapses_ c;
  sc_threshold : connectedThreshold_ c' = connectedThreshold_ c;
  sc_presynSynapses : ∀ k, presynSynapses k c' = presynSynapses k c;
  sc_presynSegments : ∀ k, presynSegments k c' = presynSegments k c;
  sc_timeseries : timeseries_ c' = timeseries_ c;
  sc_iteration : iteration_ c' = iteration_ c;
  sc_previousUpdates : previousUpdates_ c' = previousUpdates_ c;
  sc_currentUpdates : currentUpdates_ c' = currentUpdates_ c;
  sc_prunedSyns : prunedSyns_ c' = prunedSyns_ c;
  sc_prunedSegs : prunedSegs_ c' = prunedSegs_ c
}.

(** Occurrences of [s] in the vectors of the active cells. *)
Fixpoint occurrences (m : gmap N (list N)) (cells : list N) (s : N) : nat :=
  match cells with
  | [] => 0%nat
  | cl :: cells' => (count_if (N.eqb s) (map_get m cl) + occurrences m cells' s)%nat
  end.

(** [similar c c']: the two states differ at most in permanences, in the
    presynaptic maps and in the statistics. *)
Record similar (c c' : Connections) : Prop := mk_similar {
  sm_cells : cells_ c' = cells_ c;
  sm_destroyedSegments : destroyedSegments_ c' = destroyedSegments_ c;
  sm_destroyedSynapses : destroyedSynapses_ c' = destroyedSynapses_ c;
  sm_threshold : connectedThreshold_ c' = connectedThreshold_ c;
  sm_timeseries : timeseries_ c' = timeseries_ c;
  sm_size_synapses : length (synapses_ c') = length (synapses_ c);
  sm_size_segments : length (segments_ c') = length (segments_ c);
  sm_synapsesOn : ∀ s, synapsesOn c' s = synapsesOn c s;
  sm_cellOf : ∀ s, cellOf c' s = cellOf c s;
  sm_segmentOf : ∀ y, segmentOf c' y = segmentOf c y;
  sm_presynOf : ∀ y, presynOf c' y = presynOf c y
}.

(** The change [adaptSegment] applies to synapse [y]. *)
Definition updateOf (inputArray : list bool) (increment decrement : Permanence)
    (c : Connections) (y : Synapse) : Permanence :=
  match at_N inputArray (presynOf c y) with
  | Some true => increment
  | _ => (- decrement)%Q
  end.

(** The synapses [adaptSegment] puts on [destroyLater]. *)
Definition doomed (inputArray : list bool) (increment decrement : Permanence)
    (pruneZeroSynapses : bool) (c : Connections) (y : Synapse) : bool :=
  pruneZeroSynapses &&
  Qltb (permanenceOf c y + updateOf inputArray increment decrement c y)
       (minPermanence + Epsilon).


(** The state after the synapse list of [s] has been rearranged. *)
Definition reordered (s : Segment) (sd : SegmentData) (syns' : list Synapse)
    (c : Connections) : Connections :=
  with_segments (set_N (segments_ c) s (seg_with_synapses syns' sd)) c.

(** The five mutating operations of the public interface. *)
Inductive Op :=
| OpCreateSegment (cell : CellIdx) (maxSegmentsPerCell : N)
| OpCreateSynapse (s : Segment) (presyn : CellIdx) (p : Permanence)
| OpDestroySegment (s : Segment)
| OpDestroySynapse (y : Synapse)
| OpUpdateSynapsePermanence (y : Synapse) (p : Permanence).

Definition apply_op (op : Op) (c : Connections) : option Connections :=
  match op with
  | OpCreateSegment cl max => fst <$> createSegment cl max c
  | OpCreateSynapse s presyn p => fst <$> createSynapse s presyn p c
  | OpDestroySegment s => destroySegment s c
  | OpDestroySynapse y => destroySynapse y c
  | OpUpdateSynapsePermanence y p => updateSynapsePermanence y p c
  end.

Fixpoint run_ops (ops : list Op) (c : Connections) : option Connections :=
  match ops with
  | [] => Some c
  | op :: ops' => c' ← apply_op op c; run_ops ops' c'
  end.

Definition elemB (x : N) (l : list N) : bool := existsb (N.eqb x) l.
Definition liveB (c : Connections) (y : Synapse) : bool :=
  elemB y (synapsesOn c (segmentOf c y)).
Definition liveSegmentB (c : Connections) (s : Segment) : bool :=
  elemB s (segmentsOn c (cellOf c s)).

(** The operation is applied to handles that exist, within the capacity of
    the handle types. *)
Definition valid_op (op : Op) (c : Connections) : bool :=
  match op with
  | OpCreateSegment cl max =>
      N.ltb cl (numCells c) && N.ltb 0 max && N.ltb (size_N (segments_ c)) Segment_max
  | OpCreateSynapse s _ _ =>
      liveSegmentB c s && N.ltb (size_N (synapses_ c)) Synapse_max
  | OpDestroySegment s => liveSegmentB c s
  | OpDestroySynapse y => liveB c y
  | OpUpdateSynapsePermanence y _ => liveB c y
  end.

(** [valid_ops ops c]: every operation of the sequence is valid in the state
    it is applied to. *)
Fixpoint valid_ops (ops : list Op) (c : Connections) : bool :=
  match ops with
  | [] => true
  | op :: ops' =>
      valid_op op c &&
      match apply_op op c with
      | Some c' => valid_ops ops' c'
      | None => false
      end
  end.

(** A state without cells, the default of [stateAfter]. *)
Definition blank : Connections :=
  mkConnections [] [] [] [] [] 0%Q 0 ∅ ∅ ∅ ∅ false [] [] 0 0.

(** The state [initialize] and then the operations [ops] lead to. *)
Definition stateAfter (numCells : N) (connectedThreshold : Q) (timeseries : bool)
    (ops : list Op) : Connections :=
  default blank (initialize numCells connectedThreshold timeseries ≫= run_ops ops).

(** All the operations of [stateAfter] are valid where they are applied. *)
Definition validAfter (numCells : N) (connectedThreshold : Q) (timeseries : bool)
    (ops : list Op) : bool :=
  match initialize numCells connectedThreshold timeseries with
  | Some c0 => valid_ops ops c0
  | None => false
  end.

(** Ten cells, one segment on cell 3 with a synapse from cell 7 at 0.6. *)
Definition oneSynapse : Connections :=
  stateAfter 10 (1 # 2) false
    [OpCreateSegment 3 10; OpCreateSynapse 0 7 (6 # 10)].

(** Cell 3 at its cap of two segments: segment 0 with usefulness 1,
    segment 1 with usefulness 1/4. *)
Definition atCap : Connections :=
  stateAfter 10 (1 # 2) false
    [OpCreateSegment 3 2; OpCreateSegment 3 2;
     OpCreateSynapse 0 7 1; OpCreateSynapse 1 8 (1 # 2)].

(** One segment whose synapse has the permanence [Epsilon]. *)
Definition atEpsilon : Connections :=
  stateAfter 10 (1 # 2) false
    [OpCreateSegment 3 10; OpCreateSynapse 0 7 Epsilon].

(** One segment with two synapses, at 0.9 and at 0.1. *)
Definition twoSynapses : Connections :=
  stateAfter 10 (1 # 2) false
    [OpCreateSegment 3 10; OpCreateSynapse 0 7 (9 # 10); OpCreateSynapse 0 8 (1 # 10)].

(** Two segments; synapse 0 is destroyed twice. *)
Definition destroyedTwice : list Op :=
  [OpCreateSegment 3 10; OpCreateSegment 4 10;
   OpCreateSynapse 0 7 (6 # 10); OpCreateSynapse 0 8 (6 # 10);
   OpCreateSynapse 1 7 (6 # 10);
   OpDestroySynapse 0; OpDestroySynapse 0].

(** An input of ten bits with bit 7 active. *)
Definition bit7 : SDR := mkSDR 10 [7] [1%Q].

(** The connections of a pooler of two columns over two input bits: column
    0 has a connected synapse to bit 0. *)
Definition twoColumns : Connections :=
  stateAfter 2 (1 # 2) false
    [OpCreateSegment 0 1; OpCreateSegment 1 1; OpCreateSynapse 0 0 (6 # 10)].

(** Two columns, global inhibition, density 1/2, no threshold, no boost. *)
Definition tiePooler : SpatialPooler :=
  mkSpatialPooler 2 [2] true (1 # 2) 0 0 2 0 [1%Q; 1%Q] [] twoColumns.



(** An input of two bits with bit 0 active. *)
Definition bit0 : SDR := mkSDR 2 [0] [1%Q].

(** Every presynaptic cell of the synapses of [s] is a bit of the input. *)
Definition inputCovers (inputs : SDR) (c : Connections) (s : Segment) : bool :=
  forallb (λ y, N.ltb (presynOf c y) (sdr_size inputs)) (synapsesOn c s).

(** The number of winners global inhibition selects. *)
Definition numDesiredFor (sp : SpatialPooler) (density : Q) : N :=
  toUInt (density * toReal (numColumns_ sp))%Q.



(** * Further functions of the Connections *)

(** [Connections::cellForSegment] and [Connections::numSegments(cell)],
    [numSynapses(segment)], as the source uses them (they are declared in
    the header). *)
Definition cellForSegment (c : Connections) (s : Segment) : option CellIdx :=
  cell <$> at_N (segments_ c) s.
Definition numSynapses (c : Connections) (s : Segment) : option N :=
  size_N <$> synapsesForSegment c s.

(** ** Connections::idxOnCellForSegment

    [std::find] yields [end()] when the segment is not on the list, and
    the distance is then the length of the list (the [NTA_ASSERT] is
    compiled out). *)
Definition idxOnCellForSegment (c : Connections) (s : Segment) : option N :=
  cl ← cellForSegment c s;
  segs ← segmentsForCell c cl;
  Some (match find_index s segs with
        | Some i => N.of_nat i
        | None => size_N segs
        end).

(** ** Connections::compareSegments *)
Definition compareSegments (c : Connections) (a b : Segment) : option bool :=
  aData ← at_N (segments_ c) a;
  bData ← at_N (segments_ c) b;
  Some (if N.eqb (cell aData) (cell bData) then N.ltb a b
        else N.ltb (cell aData) (cell bData)).

(** ** Connections::synapsesForPresynapticCell *)
Definition synapsesForPresynapticCell (c : Connections) (presynapticCell : CellIdx)
    : list Synapse :=
  let all :=
    match potentialSynapsesForPresynapticCell_ c !! presynapticCell with
    | Some potential => potential
    | None => []
    end in
  match connectedSynapsesForPresynapticCell_ c !! presynapticCell with
  | Some connected => all ++ connected
  | None => all
  end.

(** ** Connections::reset *)
Definition reset (c : Connections) : Connections := with_updates [] [] c.

(** ** Connections::computeActivity, with the potential synapses

    The second overload; the vector it fills through its first argument
    is returned after the connected counts.  [std::copy] into a shorter
    vector is undefined. *)
Definition copy_into {A} (src dst : list A) : option (list A) :=
  if Nat.leb (length src) (length dst) then Some (src ++ drop (length src) dst)
  else None.

Definition computeActivityPotential
    (numActivePotentialSynapsesForSegment : list SynapseIdx)
    (activePresynapticCells : list CellIdx) (learn : bool) (c : Connections)
    : option (Connections * list SynapseIdx * list SynapseIdx) :=
  '(c, numActiveConnectedSynapsesForSegment) ←
    computeActivity activePresynapticCells learn c;
  potential ← copy_into numActiveConnectedSynapsesForSegment
                        numActivePotentialSynapsesForSegment;
  potential ← activity_loop (potentialSegmentsForPresynapticCell_ c)
                activePresynapticCells potential;
  Some (c, numActiveConnectedSynapsesForSegment, potential).

(** ** Connections::presynapticCellsForSegment *)

(** [std::set<CellIdx>::insert]: the set is kept as the ascending list of
    its elements, in which it is iterated. *)
Fixpoint set_insert (x : N) (l : list N) : list N :=
  match l with
  | [] => [x]
  | y :: l' =>
      if N.ltb x y then x :: l
      else if N.eqb x y then l
      else y :: set_insert x l'
  end.

Fixpoint presynCells_loop (c : Connections) (syns : list Synapse) (presynCells : list N)
    : option (list N) :=
  match syns with
  | [] => Some presynCells
  | y :: syns' =>
      d ← dataForSynapse c y;
      presynCells_loop c syns' (set_insert (presynapticCell d) presynCells)
  end.

Definition presynapticCellsForSegment (c : Connections) (s : Segment)
    : option (list CellIdx) :=
  syns ← synapsesForSegment c s; presynCells_loop c syns [].


(** * Further quantities of the Spatial Pooler *)

(** The neighbourhood [neighborMap_.at(column)]. *)
Definition hoodOf (sp : SpatialPooler) (column : CellIdx) : list CellIdx :=
  default [] (at_N (neighborMap_ sp) column).

(** [numDesiredLocalActive] of [inhibitColumnsLocal_] for a column. *)
Definition numDesiredLocalActive (sp : SpatialPooler) (density : Q) (column : CellIdx) : N :=
  toUInt ((1 # 2) + density * toReal (size_N (hoodOf sp column) + 1))%Q.



(** * Connections: choosing the synapses to destroy *)

(** [std::binary_search(first, last, value)]: defined when the range is
    partitioned with respect to [e < value] and to [!(value < e)]; then it
    tells whether the value occurs. *)
Fixpoint drop_while (P : N → bool) (l : list N) : list N :=
  match l with
  | [] => []
  | x :: l' => if P x then drop_while P l' else l
  end.

Definition partitioned (P : N → bool) (l : list N) : bool :=
  forallb (λ e, negb (P e)) (drop_while P l).

Definition binary_search (v : list N) (value : N) : option bool :=
  if partitioned (λ e, N.ltb e value) v && partitioned (λ e, negb (N.ltb value e)) v
  then Some (elemB value v)
  else None.

(** The lambda [comparePermanences] of [destroyMinPermanenceSynapses]. *)
Definition comparePermanences (c : Connections) (A B : Synapse) : bool :=
  let A_perm := permanenceOf c A in
  let B_perm := permanenceOf c B in
  if Qeqb A_perm B_perm then N.ltb A B else Qltb A_perm B_perm.

(** The first loop of [destroyMinPermanenceSynapses]. *)
Fixpoint destroyCandidates_loop (c : Connections) (excludeCells : list CellIdx)
    (syns : list Synapse) (destroyCandidates : list Synapse) : option (list Synapse) :=
  match syns with
  | [] => Some destroyCandidates
  | synapse :: syns' =>
      d ← dataForSynapse c synapse;
      found ← binary_search excludeCells (presynapticCell d);
      destroyCandidates_loop c excludeCells syns'
        (if found : bool then destroyCandidates else destroyCandidates ++ [synapse])
  end.

Section MinPermanence.

Variable std_sort : (N → N → bool) → list N → list N.

(** ** Connections::destroyMinPermanenceSynapses *)
Definition destroyMinPermanenceSynapses (s : Segment) (nDestroy : N)
    (excludeCells : list CellIdx) (c : Connections) : option Connections :=
  syns ← synapsesForSegment c s;
  destroyCandidates ← destroyCandidates_loop c excludeCells syns [];
  let destroyCandidates := std_sort (comparePermanences c) destroyCandidates in
  let destroy := N.min nDestroy (size_N destroyCandidates) in
  destroy_all (take (N.to_nat destroy) destroyCandidates) c.

End MinPermanence.

(** * Connections: competition between the synapses of a segment *)

(** After [std::nth_element(first, first + n, last)] on reals the range is
    a permutation of what it was and no element from position [n] on is
    smaller than an element up to position [n]. *)
Definition nth_element_real_ok (nth_element_real : nat → list Q → list Q) : Prop :=
  ∀ n l, (n < length l)%nat →
    nth_element_real n l ≡ₚ l ∧
    ∀ i j x y, (i ≤ n)%nat → (n ≤ j)%nat →
      nth_element_real n l !! i = Some x →
      nth_element_real n l !! j = Some y → Qltb y x = false.

(** One conforming implementation: a merge sort. *)
Definition Qle_dec_bool : relation Q := λ x y, Qle_bool x y = true.

Definition Qle_dec_bool_dec : RelDecision Qle_dec_bool :=
  λ x y, decide (Qle_bool x y = true).

Definition nth_element_real_by_sort (n : nat) (l : list Q) : list Q :=
  @merge_sort Q Qle_dec_bool Qle_dec_bool_dec l.

(** The loop that copies the permanences of the synapses. *)
Fixpoint permanences_loop (c : Connections) (syns : list Synapse)
    (permanences : list Permanence) : option (list Permanence) :=
  match syns with
  | [] => Some permanences
  | syn :: syns' =>
      d ← at_N (synapses_ c) syn;
      permanences_loop c syns' (permanences ++ [permanence d])
  end.

Section Competition.

Variable nth_element_real : nat → list Q → list Q.

(** ** Connections::synapseCompetition *)
Definition synapseCompetition (s : Segment) (minimumSynapses maximumSynapses : SynapseIdx)
    (c : Connections) : option Connections :=
  segData ← dataForSegment c s;
  match synapses segData with
  | [] => Some c
  | _ =>
      let compete (desiredConnected : SynapseIdx) :=
        let size := Z.of_nat (length (synapses segData)) in
        let desiredConnected := Z.min size desiredConnected in
        let desiredConnected :=
          if negb (Z.eqb desiredConnected 0) then (desiredConnected - 1)%Z
          else desiredConnected in
        permanences ← permanences_loop c (synapses segData) [];
        let minPerm := (size - 1 - desiredConnected)%Z in
        if Z.ltb minPerm 0 || Z.leb size minPerm then None
        else
          let permanences := nth_element_real (Z.to_nat minPerm) permanences in
          minPermValue ← permanences !! Z.to_nat minPerm;
          let delta := ((connectedThreshold_ c + Epsilon) - minPermValue)%Q in
          bumpSegment s delta c in
      if Z.ltb (numConnected segData) minimumSynapses then compete minimumSynapses
      else if Z.ltb maximumSynapses (numConnected segData) then compete maximumSynapses
      else Some c
  end.

End Competition.

(** * Spatial Pooler: reading and writing the permanences of a column

    The record [SpatialPooler] carries the fields that [compute] reads up
    to the choice of the active columns.  The functions below take the
    further fields they read ([numInputs_], the duty cycles, ...) as
    arguments. *)

Definition sp_with_connections (c : Connections) (sp : SpatialPooler) : SpatialPooler :=
  mkSpatialPooler (numColumns_ sp) (columnDimensions_ sp) (globalInhibition_ sp)
    (localAreaDensity_ sp) (numActiveColumnsPerInhArea_ sp) (stimulusThreshold_ sp)
    (inhibitionRadius_ sp) (boostStrength_ sp) (boostFactors_ sp) (neighborMap_ sp) c.

(** ** SpatialPooler::getPotential

    The caller's array [potential] has [numInputs_] entries; writing past
    its end is undefined. *)
Fixpoint getPotential_loop (c : Connections) (syns : list Synapse) (potential : list N)
    : option (list N) :=
  match syns with
  | [] => Some potential
  | syn :: syns' =>
      synData ← dataForSynapse c syn;
      if N.ltb (presynapticCell synData) (size_N potential) then
        getPotential_loop c syns' (set_N potential (presynapticCell synData) 1)
      else None
  end.

Definition getPotential (sp : SpatialPooler) (numInputs_ : N) (column : N)
    : option (list N) :=
  synapses ← synapsesForSegment (connections_ sp) column;
  getPotential_loop (connections_ sp) synapses (replicate (N.to_nat numInputs_) 0).

(** ** SpatialPooler::getPermanence *)
Fixpoint getPermanence_loop (c : Connections) (threshold : Permanence)
    (syns : list Synapse) (permanences : list Q) : option (list Q) :=
  match syns with
  | [] => Some permanences
  | syn :: syns' =>
      synData ← dataForSynapse c syn;
      if Qgeb (permanence synData) threshold then
        if N.ltb (presynapticCell synData) (size_N permanences) then
          getPermanence_loop c threshold syns'
            (set_N permanences (presynapticCell synData) (permanence synData))
        else None
      else getPermanence_loop c threshold syns' permanences
  end.

Definition getPermanence (sp : SpatialPooler) (numInputs_ : N) (column : N)
    (threshold : Permanence) : option (list Q) :=
  synapses ← synapsesForSegment (connections_ sp) column;
  getPermanence_loop (connections_ sp) threshold synapses
    (replicate (N.to_nat numInputs_) 0%Q).

(** ** SpatialPooler::setPermanence

    The caller's array [permanences] is read at the presynaptic cell of
    each synapse of the column. *)
Fixpoint setPermanence_loop (permanences : list Q) (syns : list Synapse)
    (c : Connections) : option Connections :=
  match syns with
  | [] => Some c
  | syn :: syns' =>
      synData ← dataForSynapse c syn;
      p ← at_N permanences (presynapticCell synData);
      c ← updateSynapsePermanence syn p c;
      setPermanence_loop permanences syns' c
  end.

Definition setPermanence (sp : SpatialPooler) (column : N) (permanences : list Q)
    : option SpatialPooler :=
  synapses ← synapsesForSegment (connections_ sp) column;
  c ← setPermanence_loop permanences synapses (connections_ sp);
  Some (sp_with_connections c sp).

(** Writes [arr[i] = x] in turn; used to state what the loops above leave
    in the array. *)
Fixpoint scatter {A} (writes : list (N * A)) (v : list A) : option (list A) :=
  match writes with
  | [] => Some v
  | (i, x) :: writes' =>
      if N.ltb i (size_N v) then scatter writes' (set_N v i x) else None
  end.

(** The column has a synapse from the input. *)
Definition inPotentialPool (c : Connections) (column : N) (input : CellIdx) : bool :=
  existsb (λ y, N.eqb (presynOf c y) input) (synapsesOn c column).

(** * Spatial Pooler: the learning phase *)

(** A column whose overlap duty cycle is below its minimum. *)
Definition weakColumn (overlapDutyCycles_ minOverlapDutyCycles_ : list Q) (i : N) : bool :=
  Qltb (default 0%Q (at_N overlapDutyCycles_ i))
       (default 0%Q (at_N minOverlapDutyCycles_ i)).

(** ** SpatialPooler::bumpUpWeakColumns_ *)
Fixpoint bumpUpWeakColumns_loop (overlapDutyCycles_ minOverlapDutyCycles_ : list Q)
    (synPermBelowStimulusInc_ : Permanence) (columns : list N) (c : Connections)
    : option Connections :=
  match columns with
  | [] => Some c
  | i :: columns' =>
      o ← at_N overlapDutyCycles_ i;
      m ← at_N minOverlapDutyCycles_ i;
      if Qgeb o m then
        bumpUpWeakColumns_loop overlapDutyCycles_ minOverlapDutyCycles_
          synPermBelowStimulusInc_ columns' c
      else
        c ← bumpSegment i synPermBelowStimulusInc_ c;
        bumpUpWeakColumns_loop overlapDutyCycles_ minOverlapDutyCycles_
          synPermBelowStimulusInc_ columns' c
  end.

Definition bumpUpWeakColumns_ (sp : SpatialPooler)
    (overlapDutyCycles_ minOverlapDutyCycles_ : list Q)
    (synPermBelowStimulusInc_ : Permanence) : option SpatialPooler :=
  c ← bumpUpWeakColumns_loop overlapDutyCycles_ minOverlapDutyCycles_
         synPermBelowStimulusInc_ (iota (numColumns_ sp)) (connections_ sp);
  Some (sp_with_connections c sp).

(** ** SpatialPooler::updateDutyCyclesHelper_

    With a period of 0 the source divides by zero; the infinite values that
    gives are outside the rationals, and the model has no result. *)
Fixpoint addIncrement_loop (increment : Q) (idxs : list N) (dutyCycles : list Q)
    : option (list Q) :=
  match idxs with
  | [] => Some dutyCycles
  | idx :: idxs' =>
      d ← at_N dutyCycles idx;
      addIncrement_loop increment idxs' (set_N dutyCycles idx (d + increment)%Q)
  end.

Definition updateDutyCyclesHelper_ (dutyCycles : list Q) (newValues : SDR) (period : N)
    : option (list Q) :=
  if N.eqb period 0 then None
  else
    let decay := (toReal (period - 1) / toReal period)%Q in
    let dutyCycles := map (λ d, d * decay)%Q dutyCycles in
    let increment := (1 / toReal period)%Q in
    addIncrement_loop increment (getSparse newValues) dutyCycles.
(** * Lemmas and theorems *)

(** The proofs assume the constants in order. *)
Hypothesis constants_in_order : constants_ok.

(** * Comparisons of rationals *)

Lemma Qltb_true a b : Qltb a b = true ↔ (a < b)%Q.
Proof.
  unfold Qltb. rewrite negb_true_iff. split.
  - intros H. apply Qnot_le_lt. intros Hle. apply Qle_bool_iff in Hle. congruence.
  - intros H. destruct (Qle_bool b a) eqn:E; [|done].
    apply Qle_bool_iff in E. lra.
Qed.

Lemma Qltb_false a b : Qltb a b = false ↔ (b <= a)%Q.
Proof.
  unfold Qltb. rewrite negb_false_iff. apply Qle_bool_iff.
Qed.

Lemma Qgeb_true a b : Qgeb a b = true ↔ (b <= a)%Q.
Proof. apply Qle_bool_iff. Qed.

Lemma Qgeb_false a b : Qgeb a b = false ↔ (a < b)%Q.
Proof.
  unfold Qgeb. split.
  - intros H. apply Qnot_le_lt. intros Hle. apply Qle_bool_iff in Hle. congruence.
  - intros H. destruct (Qle_bool b a) eqn:E; [|done].
    apply Qle_bool_iff in E. lra.
Qed.

Lemma Qeqb_true a b : Qeqb a b = true ↔ (a == b)%Q.
Proof. apply Qeq_bool_iff. Qed.

Lemma Qeqb_false a b : Qeqb a b = false ↔ ¬ (a == b)%Q.
Proof.
  unfold Qeqb. split.
  - intros H E. apply Qeq_bool_iff in E. congruence.
  - intros H. destruct (Qeq_bool a b) eqn:E; [|done].
    apply Qeq_bool_iff in E. done.
Qed.

Lemma clamp_range p : (minPermanence <= clamp p)%Q ∧ (clamp p <= maxPermanence)%Q.
Proof.
  destruct constants_in_order as (_ & Hmm & _ & _).
  unfold clamp, std_max, std_min.
  destruct (Qltb maxPermanence p) eqn:E1.
  - destruct (Qltb maxPermanence minPermanence) eqn:E2.
    + apply Qltb_true in E2. lra.
    + lra.
  - apply Qltb_false in E1.
    destruct (Qltb p minPermanence) eqn:E2.
    + lra.
    + apply Qltb_false in E2. lra.
Qed.

Lemma clamp_id p : (minPermanence <= p)%Q → (p <= maxPermanence)%Q → clamp p = p.
Proof.
  intros H0 H1. unfold clamp, std_max, std_min.
  destruct (Qltb maxPermanence p) eqn:E1.
  - apply Qltb_true in E1. lra.
  - destruct (Qltb p minPermanence) eqn:E2; [|done].
    apply Qltb_true in E2. lra.
Qed.

Lemma clamp_ge p t :
  (t <= maxPermanence)%Q → (t <= p)%Q → (minPermanence <= p)%Q → (t <= clamp p)%Q.
Proof.
  intros Ht Hp H0. destruct constants_in_order as (_ & Hmm & _ & _).
  unfold clamp, std_max, std_min.
  destruct (Qltb maxPermanence p) eqn:E1.
  - destruct (Qltb maxPermanence minPermanence) eqn:E2;
      [apply Qltb_true in E2; lra | lra].
  - destruct (Qltb p minPermanence) eqn:E2; [apply Qltb_true in E2; lra | lra].
Qed.

(** * Vectors *)

Lemma at_N_set_N_eq {A} (v : list A) i x :
  is_Some (at_N v i) → at_N (set_N v i x) i = Some x.
Proof.
  unfold at_N, set_N. intros H. apply list_lookup_insert_eq.
  by apply lookup_lt_is_Some.
Qed.

Lemma at_N_set_N_ne {A} (v : list A) i j x :
  i ≠ j → at_N (set_N v i x) j = at_N v j.
Proof.
  unfold at_N, set_N. intros H. apply list_lookup_insert_ne. lia.
Qed.

Lemma at_N_set_N {A} (v : list A) i j x :
  is_Some (at_N v i) →
  at_N (set_N v i x) j = if decide (i = j) then Some x else at_N v j.
Proof.
  intros H. case_decide.
  - subst. by apply at_N_set_N_eq.
  - by apply at_N_set_N_ne.
Qed.

Lemma length_set_N {A} (v : list A) i x : length (set_N v i x) = length v.
Proof. apply length_insert. Qed.

Lemma at_N_is_Some {A} (v : list A) i : is_Some (at_N v i) ↔ i < size_N v.
Proof.
  unfold at_N, size_N. rewrite lookup_lt_is_Some. lia.
Qed.

Lemma at_N_app_l {A} (v w : list A) i :
  is_Some (at_N v i) → at_N (v ++ w) i = at_N v i.
Proof.
  unfold at_N. intros H. apply lookup_app_l. by apply lookup_lt_is_Some.
Qed.

Lemma at_N_app_new {A} (v : list A) x : at_N (v ++ [x]) (size_N v) = Some x.
Proof.
  unfold at_N, size_N. rewrite Nat2N.id.
  rewrite lookup_app_r; [|lia]. by rewrite Nat.sub_diag.
Qed.

Lemma at_N_app_Some {A} (v : list A) x i y :
  at_N (v ++ [x]) i = Some y → at_N v i = Some y ∨ (i = size_N v ∧ y = x).
Proof.
  unfold at_N, size_N. intros H.
  apply lookup_app_Some in H as [H|[H1 H2]]; [by left|right].
  destruct (N.to_nat i - length v)%nat eqn:E; simpl in H2; [|done].
  split; [lia|congruence].
Qed.

(** [pop_back] and the swap-with-last removal. *)

Lemma last_pop_back {A} (v : list A) m : last v = Some m → v = pop_back v ++ [m].
Proof.
  intros H. apply last_Some in H as [l' ->].
  unfold pop_back. by rewrite removelast_last.
Qed.

Lemma pop_back_app {A} (v : list A) m : pop_back (v ++ [m]) = v.
Proof. unfold pop_back. by rewrite removelast_last. Qed.

Lemma length_pop_back {A} (v : list A) : length (pop_back v) = (length v - 1)%nat.
Proof.
  destruct (last v) eqn:E.
  - apply last_pop_back in E. rewrite E at 2. rewrite length_app. simpl. lia.
  - apply last_None in E. by subst.
Qed.

Lemma swap_pop_perm {A} (v : list A) i y m :
  last v = Some m → v !! i = Some y → v ≡ₚ y :: pop_back (<[i := m]> v).
Proof.
  intros Hl Hi. apply last_Some in Hl as [l' ->].
  destruct (decide (i = length l')) as [->|Hne].
  - rewrite lookup_app_r in Hi; [|lia]. rewrite Nat.sub_diag in Hi. simplify_eq/=.
    rewrite list_insert_id.
    + rewrite pop_back_app. by rewrite Permutation_app_comm.
    + rewrite lookup_app_r; [|lia]. by rewrite Nat.sub_diag.
  - assert (i < length l')%nat as Hlt.
    { apply lookup_lt_Some in Hi. rewrite length_app in Hi. simpl in Hi. lia. }
    rewrite lookup_app_l in Hi by done.
    rewrite insert_app_l by done. rewrite pop_back_app.
    rewrite <- (take_drop_middle l' i y Hi) at 1.
    rewrite insert_take_drop by done.
    rewrite <- !app_assoc. simpl.
    rewrite <- Permutation_middle. apply perm_skip.
    apply Permutation_app_head.
    by rewrite Permutation_app_comm.
Qed.

Lemma swap_pop_lookup {A} (v : list A) i m j :
  last v = Some m → (i < length v)%nat →
  pop_back (<[i := m]> v) !! j =
    if decide (j < length v - 1)%nat
    then (if decide (j = i) then Some m else v !! j) else None.
Proof.
  intros Hl Hi. apply last_Some in Hl as [l' ->].
  rewrite length_app in *. simpl in *.
  replace (length l' + 1 - 1)%nat with (length l') by lia.
  destruct (decide (i = length l')) as [->|Hne].
  - rewrite list_insert_id.
    2:{ rewrite lookup_app_r; [|lia]. by rewrite Nat.sub_diag. }
    rewrite pop_back_app.
    case_decide.
    + case_decide; [lia|]. by rewrite lookup_app_l.
    + apply lookup_ge_None. lia.
  - rewrite insert_app_l by lia. rewrite pop_back_app.
    case_decide.
    + case_decide.
      * subst. apply list_lookup_insert_eq. lia.
      * rewrite list_lookup_insert_ne by done. by rewrite lookup_app_l.
    + apply lookup_ge_None. rewrite length_insert. lia.
Qed.

Lemma find_index_Some y l i :
  find_index y l = Some i → l !! i = Some y.
Proof.
  revert i. induction l as [|x l IH]; intros i; simpl; [done|].
  destruct (N.eqb_spec x y) as [->|Hne].
  - intros [= <-]. done.
  - destruct (find_index y l) eqn:E; simpl; [|done].
    intros [= <-]. simpl. by apply IH.
Qed.

Lemma find_index_None y l : find_index y l = None → y ∉ l.
Proof.
  induction l as [|x l IH]; simpl; [intros _; apply not_elem_of_nil|].
  destruct (N.eqb_spec x y) as [->|Hne]; [done|].
  destruct (find_index y l) eqn:E; simpl; [done|].
  intros _. apply not_elem_of_cons. split; [congruence|by apply IH].
Qed.

Lemma find_index_elem y l : y ∈ l → is_Some (find_index y l).
Proof.
  intros H. destruct (find_index y l) eqn:E; [done|].
  by apply find_index_None in E.
Qed.

Lemma swap_remove_perm y l : y ∈ l → l ≡ₚ y :: swap_remove y l.
Proof.
  intros H. unfold swap_remove.
  destruct (find_index_elem y l H) as [i Hi]. rewrite Hi.
  apply find_index_Some in Hi.
  destruct (last l) as [m|] eqn:El.
  - by apply swap_pop_perm.
  - apply last_None in El. subst. done.
Qed.

Lemma swap_remove_notin y l : y ∉ l → swap_remove y l = l.
Proof.
  intros H. unfold swap_remove.
  destruct (find_index y l) eqn:E; [|done].
  apply find_index_Some in E. exfalso. apply H. by eapply list_elem_of_lookup_2.
Qed.

Lemma swap_remove_elem y l x :
  NoDup l → x ∈ swap_remove y l ↔ (x ∈ l ∧ x ≠ y).
Proof.
  intros Hnd. destruct (decide (y ∈ l)) as [Hy|Hy].
  - pose proof (swap_remove_perm y l Hy) as Hp.
    rewrite Hp in Hnd. apply NoDup_cons in Hnd as [Hn1 Hn2].
    split.
    + intros Hx. split.
      * rewrite Hp. by right.
      * intros ->. done.
    + intros [Hx Hne]. rewrite Hp in Hx. apply elem_of_cons in Hx as [?|?]; done.
  - rewrite swap_remove_notin by done. split; [|tauto].
    intros Hx. split; [done|]. intros ->. done.
Qed.

Lemma swap_remove_NoDup y l : NoDup l → NoDup (swap_remove y l).
Proof.
  intros Hnd. destruct (decide (y ∈ l)) as [Hy|Hy].
  - pose proof (swap_remove_perm y l Hy) as Hp.
    rewrite Hp in Hnd. by apply NoDup_cons in Hnd as [_ ?].
  - by rewrite swap_remove_notin.
Qed.

Lemma swap_remove_length y l : y ∈ l → length l = S (length (swap_remove y l)).
Proof.
  intros Hy. pose proof (swap_remove_perm y l Hy) as Hp.
  apply Permutation_length in Hp. done.
Qed.

(** * Counting *)

Lemma count_if_app P l1 l2 :
  count_if P (l1 ++ l2) = (count_if P l1 + count_if P l2)%nat.
Proof. induction l1 as [|x l1 IH]; simpl; [done|]. rewrite IH. lia. Qed.

Lemma count_if_perm P l1 l2 : l1 ≡ₚ l2 → count_if P l1 = count_if P l2.
Proof.
  induction 1; simpl; try lia.
Qed.

Lemma count_if_ext P Q l :
  (∀ x, x ∈ l → P x = Q x) → count_if P l = count_if Q l.
Proof.
  induction l as [|x l IH]; intros H; simpl; [done|].
  rewrite (H x) by (by left). rewrite IH; [done|].
  intros y Hy. apply H. by right.
Qed.


Lemma count_if_swap_remove P y l :
  y ∈ l →
  count_if P l = ((if P y then 1 else 0) + count_if P (swap_remove y l))%nat.
Proof.
  intros Hy. rewrite (count_if_perm P _ _ (swap_remove_perm y l Hy)). done.
Qed.

(** * The presynaptic maps, slot by slot *)

Lemma presynSynapses_with_presyn conn conn' syns segs c :
  presynSynapses conn (with_presyn conn' syns segs c) =
    if bool_decide (conn = conn') then syns else presynSynapses conn c.
Proof. by destruct conn, conn'. Qed.

Lemma presynSegments_with_presyn conn conn' syns segs c :
  presynSegments conn (with_presyn conn' syns segs c) =
    if bool_decide (conn = conn') then segs else presynSegments conn c.
Proof. by destruct conn, conn'. Qed.

Lemma slot_map_get c conn cl i :
  slot c conn cl i = map_get (presynSynapses conn c) cl !! i.
Proof.
  unfold slot, map_get. destruct (presynSynapses conn c !! cl); simpl; done.
Qed.

(** Two positions of the maps never hold the same synapse. *)
Lemma slot_inj c ex k1 cl1 i1 k2 cl2 i2 y :
  slots_sound c ex →
  slot c k1 cl1 i1 = Some y → slot c k2 cl2 i2 = Some y →
  k1 = k2 ∧ cl1 = cl2 ∧ i1 = i2.
Proof.
  intros Hs H1 H2.
  destruct (Hs _ _ _ _ H1) as (_ & _ & Hc1 & Hi1 & Hk1).
  destruct (Hs _ _ _ _ H2) as (_ & _ & Hc2 & Hi2 & Hk2).
  repeat split; [congruence|congruence|lia].
Qed.

Section RemoveStep.
Context (c c1 : Connections) (y : N) (b : bool) (cl : N) (iy : nat)
        (l : list N) (m : N).
Hypothesis Hsound : slots_sound c None.
Hypothesis Hcomplete : slots_complete c None.
Hypothesis Hlive : live c y.
Hypothesis Hb : connectedB c y = b.
Hypothesis Hcl : presynOf c y = cl.
Hypothesis Hiy : N.to_nat (indexOf c y) = iy.
Hypothesis Hl : presynSynapses b c !! cl = Some l.
Hypothesis Hm : last l = Some m.
Hypothesis Flive : ∀ y', y' ≠ y → live c1 y' ↔ live c y'.
Hypothesis Facc : ∀ y', y' ≠ y →
  presynOf c1 y' = presynOf c y' ∧ connectedB c1 y' = connectedB c y'.
Hypothesis Fidx : ∀ y', y' ≠ y →
  indexOf c1 y' = if decide (y' = m) then N.of_nat iy else indexOf c y'.
Hypothesis Fslot1 : ∀ j, slot c1 b cl j = pop_back (<[iy := m]> l) !! j.
Hypothesis Fslot2 : ∀ k cl' j, (k, cl') ≠ (b, cl) → slot c1 k cl' j = slot c k cl' j.

Lemma remove_step_at : l !! iy = Some y.
Proof.
  pose proof (Hcomplete y Hlive) as H. rewrite Hb, Hcl, Hiy in H.
  specialize (H ltac:(done)).
  unfold slot in H. rewrite Hl in H. done.
Qed.

Lemma remove_step_lookup j y' : l !! j = Some y' → slot c b cl j = Some y'.
Proof. intros H. unfold slot. rewrite Hl. done. Qed.

Lemma remove_step_last : l !! (length l - 1)%nat = Some m.
Proof.
  apply last_Some in Hm as [l' ->]. rewrite length_app. simpl.
  rewrite lookup_app_r by lia.
  replace (length l' + 1 - 1 - length l')%nat with 0%nat by lia. done.
Qed.

Lemma remove_step_sound : slots_sound c1 (Some y).
Proof.
  pose proof remove_step_at as Hat. pose proof remove_step_last as Hlast.
  assert (iy < length l)%nat as Hlt by (by eapply lookup_lt_Some).
  intros k cl' j y' Hslot.
  destruct (decide ((k, cl') = (b, cl))) as [[= -> ->]|Hne].
  - rewrite Fslot1 in Hslot. rewrite swap_pop_lookup in Hslot by done.
    case_decide as Hj; [|done].
    case_decide as Hji.
    + injection Hslot as Hmy. subst y' j.
      assert (m ≠ y) as Hny.
      { intros Hmy.
        pose proof (slot_inj _ _ _ _ _ _ _ _ _ Hsound
                      (remove_step_lookup _ _ Hat)
                      (remove_step_lookup _ _ (eq_ind _ (λ z, _ = Some z) Hlast _ Hmy))).
        lia. }
      destruct (Hsound _ _ _ _ (remove_step_lookup _ _ Hlast))
        as (_ & Hlv & Hp & Hi & Hk).
      destruct (Facc m Hny) as [-> ->].
      rewrite (Fidx m Hny). rewrite decide_True by done.
      split; [congruence|]. rewrite Flive by done. done.
    + assert (y' ≠ y) as Hny.
      { intros ->.
        pose proof (slot_inj _ _ _ _ _ _ _ _ _ Hsound
                      (remove_step_lookup _ _ Hat) (remove_step_lookup _ _ Hslot)).
        lia. }
      assert (y' ≠ m) as Hnm.
      { intros ->.
        pose proof (slot_inj _ _ _ _ _ _ _ _ _ Hsound
                      (remove_step_lookup _ _ Hlast) (remove_step_lookup _ _ Hslot)).
        lia. }
      destruct (Hsound _ _ _ _ (remove_step_lookup _ _ Hslot))
        as (_ & Hlv & Hp & Hi & Hk).
      destruct (Facc y' Hny) as [-> ->].
      rewrite (Fidx y' Hny). rewrite decide_False by done.
      split; [congruence|]. rewrite Flive by done. done.
  - rewrite Fslot2 in Hslot by done.
    destruct (Hsound _ _ _ _ Hslot) as (_ & Hlv & Hp & Hi & Hk).
    assert (y' ≠ y) as Hny.
    { intros ->. apply Hne. congruence. }
    assert (y' ≠ m) as Hnm.
    { intros ->.
      destruct (Hsound _ _ _ _ (remove_step_lookup _ _ Hlast))
        as (_ & _ & Hp' & _ & Hk').
      apply Hne. congruence. }
    destruct (Facc y' Hny) as [-> ->].
    rewrite (Fidx y' Hny). rewrite decide_False by done.
    split; [congruence|]. rewrite Flive by done. done.
Qed.

Lemma remove_step_complete : slots_complete c1 (Some y).
Proof.
  pose proof remove_step_at as Hat. pose proof remove_step_last as Hlast.
  assert (iy < length l)%nat as Hlt by (by eapply lookup_lt_Some).
  intros y' Hlv Hny.
  assert (y' ≠ y) as Hny' by congruence.
  apply Flive in Hlv; [|done].
  pose proof (Hcomplete y' Hlv ltac:(done)) as Hslot.
  destruct (Facc y' Hny') as [-> ->].
  rewrite (Fidx y' Hny').
  destruct (decide ((connectedB c y', presynOf c y') = (b, cl))) as [[= Hk Hp]|Hne].
  - rewrite Hk, Hp in *. rewrite Fslot1.
    unfold slot in Hslot. rewrite Hl in Hslot. simpl in Hslot.
    rewrite swap_pop_lookup by done.
    destruct (decide (y' = m)) as [Hym|Hym].
    + rewrite Nat2N.id.
      assert (iy ≠ length l - 1)%nat as Hne.
      { intros Heq. rewrite Heq in Hat. congruence. }
      rewrite decide_True by lia. rewrite decide_True by done. congruence.
    + assert (N.to_nat (indexOf c y') ≠ length l - 1)%nat.
      { intros Heq. rewrite Heq in Hslot. congruence. }
      assert (N.to_nat (indexOf c y') ≠ iy).
      { intros Heq. rewrite Heq in Hslot. congruence. }
      apply lookup_lt_Some in Hslot as Hlt'.
      rewrite decide_True by lia. rewrite decide_False by done. done.
  - rewrite decide_False.
    + rewrite Fslot2 by done. done.
    + intros ->.
      destruct (Hsound _ _ _ _ (remove_step_lookup _ _ Hlast))
        as (_ & _ & Hp' & _ & Hk').
      apply Hne. congruence.
Qed.
End RemoveStep.

Section AddStep.
Context (c1 c2 : Connections) (y : N) (a : bool) (cl : N) (lto : list N).
Hypothesis Hsound : slots_sound c1 (Some y).
Hypothesis Hcomplete : slots_complete c1 (Some y).
Hypothesis Hlive : live c2 y.
Hypothesis Ha : connectedB c2 y = a.
Hypothesis Hcl : presynOf c2 y = cl.
Hypothesis Hidx : indexOf c2 y = N.of_nat (length lto).
Hypothesis Hlto : map_get (presynSynapses a c1) cl = lto.
Hypothesis Flive : ∀ y', y' ≠ y → live c2 y' ↔ live c1 y'.
Hypothesis Facc : ∀ y', y' ≠ y →
  presynOf c2 y' = presynOf c1 y' ∧ connectedB c2 y' = connectedB c1 y' ∧
  indexOf c2 y' = indexOf c1 y'.
Hypothesis Fslot1 : ∀ j, slot c2 a cl j = (lto ++ [y]) !! j.
Hypothesis Fslot2 : ∀ k cl' j, (k, cl') ≠ (a, cl) → slot c2 k cl' j = slot c1 k cl' j.

Lemma add_step_sound : slots_sound c2 None.
Proof.
  intros k cl' j y' Hslot.
  split; [done|].
  destruct (decide ((k, cl') = (a, cl))) as [[= -> ->]|Hne].
  - rewrite Fslot1 in Hslot.
    apply lookup_app_Some in Hslot as [Hslot|[Hj Hslot]].
    + rewrite <- Hlto, <- slot_map_get in Hslot.
      destruct (Hsound _ _ _ _ Hslot) as (Hny & Hlv & Hp & Hi & Hk).
      assert (y' ≠ y) as Hny' by congruence.
      destruct (Facc y' Hny') as (-> & -> & ->).
      rewrite Flive by done. done.
    + destruct (j - length lto)%nat eqn:E; simpl in Hslot; [|done].
      injection Hslot as Hyy. subst y'. repeat split; try done.
      rewrite Hidx. f_equal. lia.
  - rewrite Fslot2 in Hslot by done.
    destruct (Hsound _ _ _ _ Hslot) as (Hny & Hlv & Hp & Hi & Hk).
    assert (y' ≠ y) as Hny' by congruence.
    destruct (Facc y' Hny') as (-> & -> & ->).
    rewrite Flive by done. done.
Qed.

Lemma add_step_complete : slots_complete c2 None.
Proof.
  intros y' Hlv _.
  destruct (decide (y' = y)) as [->|Hny].
  - rewrite Ha, Hcl, Hidx, Nat2N.id, Fslot1.
    rewrite lookup_app_r by lia. by rewrite Nat.sub_diag.
  - apply Flive in Hlv; [|done].
    pose proof (Hcomplete y' Hlv ltac:(congruence)) as Hslot.
    destruct (Facc y' Hny) as (-> & -> & ->).
    destruct (decide ((connectedB c1 y', presynOf c1 y') = (a, cl))) as [[= Hk Hp]|Hne].
    + rewrite Hk, Hp in *. rewrite Fslot1.
      rewrite slot_map_get, Hlto in Hslot.
      rewrite lookup_app_l; [done|]. by eapply lookup_lt_Some.
    + rewrite Fslot2 by done. done.
Qed.
End AddStep.

Lemma slots_drop c y :
  slots_sound c (Some y) → slots_complete c (Some y) → ¬ live c y →
  slots_sound c None ∧ slots_complete c None.
Proof.
  intros Hs Hc Hn. split.
  - intros k cl j y' H. destruct (Hs _ _ _ _ H) as (_ & ?). split; done.
  - intros y' Hlv _. apply Hc; [done|]. intros [= ->]. done.
Qed.

Lemma slots_except c c1 y :
  slots_sound c None → slots_complete c None → ¬ live c y →
  (∀ y', y' ≠ y → live c1 y' ↔ live c y') →
  (∀ y', y' ≠ y → presynOf c1 y' = presynOf c y' ∧
                  connectedB c1 y' = connectedB c y' ∧
                  indexOf c1 y' = indexOf c y') →
  (∀ k cl j, slot c1 k cl j = slot c k cl j) →
  slots_sound c1 (Some y) ∧ slots_complete c1 (Some y).
Proof.
  intros Hs Hc Hn Fl Fa Fs. split.
  - intros k cl j y' H. rewrite Fs in H.
    destruct (Hs _ _ _ _ H) as (_ & Hlv & Hp & Hi & Hk).
    assert (y' ≠ y) as Hny by (intros ->; done).
    destruct (Fa y' Hny) as (-> & -> & ->). rewrite Fl by done.
    split; [congruence|done].
  - intros y' Hlv Hny. assert (y' ≠ y) as Hny' by congruence.
    destruct (Fa y' Hny') as (-> & -> & ->). rewrite Fs.
    apply Hc; [|done]. by apply Fl.
Qed.

Lemma frame_refl c : frame c c.
Proof. by constructor. Qed.

Lemma frame_trans c1 c2 c3 : frame c1 c2 → frame c2 c3 → frame c1 c3.
Proof.
  intros [] []. constructor; intros; congruence.
Qed.

Lemma frame_live c c' y : frame c c' → live c' y ↔ live c y.
Proof.
  intros F. unfold live. by rewrite (fr_segmentOf _ _ F), (fr_synapsesOn _ _ F).
Qed.

Lemma frame_segmentsOn c c' cl : frame c c' → segmentsOn c' cl = segmentsOn c cl.
Proof. intros F. unfold segmentsOn. by rewrite (fr_cells _ _ F). Qed.

Lemma frame_wf_struct c c' :
  frame c c' → wf_struct c →
  (∀ s, numConnectedOf c' s = Z.of_nat (count_if (connectedB c') (synapsesOn c' s))) →
  slots_sound c' None → slots_complete c' None →
  (∀ conn cl, presynSegments conn c' !! cl =
                map (segmentOf c') <$> presynSynapses conn c' !! cl) →
  wf_struct c'.
Proof.
  intros F W Hn Hs Hc Hp.
  constructor; try done.
  - intros s. rewrite (fr_synapsesOn _ _ F). apply W.
  - intros s y. rewrite (fr_synapsesOn _ _ F), (fr_segmentOf _ _ F).
    unfold size_N. rewrite (fr_size_synapses _ _ F). apply W.
  - intros s y1 y2. rewrite (fr_synapsesOn _ _ F), !(fr_presynOf _ _ F). apply W.
  - rewrite (fr_destroyedSynapses _ _ F). apply W.
  - intros y. rewrite (fr_destroyedSynapses _ _ F), (frame_live _ _ _ F).
    unfold size_N. rewrite (fr_size_synapses _ _ F). apply W.
  - intros cl. rewrite (frame_segmentsOn _ _ _ F). apply W.
  - intros cl s. rewrite (frame_segmentsOn _ _ _ F), (fr_cellOf _ _ F).
    unfold size_N. rewrite (fr_size_segments _ _ F). apply W.
  - rewrite (fr_destroyedSegments _ _ F). apply W.
  - intros s. rewrite (fr_destroyedSegments _ _ F), (fr_synapsesOn _ _ F).
    unfold size_N. rewrite (fr_size_segments _ _ F).
    intros H. destruct (wf_destroyedSegments _ W s H) as (H1 & H2 & H3).
    repeat split; try done. intros cl. rewrite (frame_segmentsOn _ _ _ F). apply H3.
Qed.

(** Reading the vectors after a write. *)

Lemma live_in_range c y : wf_struct c → live c y → is_Some (at_N (synapses_ c) y).
Proof.
  intros W H. apply at_N_is_Some. by eapply wf_seg_syn.
Qed.

Lemma live_segment_in_range c y :
  live c y → is_Some (at_N (segments_ c) (segmentOf c y)).
Proof.
  unfold live, synapsesOn. intros H.
  destruct (at_N (segments_ c) (segmentOf c y)); [done|].
  by apply elem_of_nil in H.
Qed.

Lemma syn_accessors c y d :
  at_N (synapses_ c) y = Some d →
  segmentOf c y = segment d ∧ presynOf c y = presynapticCell d ∧
  indexOf c y = presynapticMapIndex_ d ∧ permanenceOf c y = permanence d.
Proof.
  intros H. unfold segmentOf, presynOf, indexOf, permanenceOf. by rewrite H.
Qed.

Lemma last_map {A B} (f : A → B) (l : list A) : last (map f l) = f <$> last l.
Proof.
  induction l as [|x [|x' l] IH]; simpl in *; try done.
Qed.

Lemma pop_back_map {A B} (f : A → B) (l : list A) :
  pop_back (map f l) = map f (pop_back l).
Proof.
  unfold pop_back. induction l as [|x [|x' l] IH]; simpl in *; try done.
  by rewrite IH.
Qed.

Lemma removeFromPresynapticMaps_eq conn cl idx c l segs m ls dm :
  presynSynapses conn c !! cl = Some l →
  presynSegments conn c !! cl = Some segs →
  last l = Some m → last segs = Some ls →
  at_N (synapses_ c) m = Some dm →
  (N.to_nat idx < length l)%nat → (N.to_nat idx < length segs)%nat →
  removeFromPresynapticMaps conn cl idx c =
    Some (with_presyn conn
            (<[cl := pop_back (<[N.to_nat idx := m]> l)]> (presynSynapses conn c))
            (<[cl := pop_back (<[N.to_nat idx := ls]> segs)]> (presynSegments conn c))
            (with_synapses (set_N (synapses_ c) m (syn_with_index idx dm)) c)).
Proof.
  intros Hl Hs Hm Hls Hdm Hi1 Hi2.
  unfold removeFromPresynapticMaps, removeSynapseFromPresynapticMap_, map_get.
  rewrite Hl, Hs. simpl. rewrite Hm, Hls. simpl. rewrite Hdm. simpl.
  destruct (lookup_lt_is_Some_2 l _ Hi1) as [x Hx].
  destruct (lookup_lt_is_Some_2 segs _ Hi2) as [x' Hx'].
  unfold at_N. rewrite Hx, Hx'. simpl.
  by destruct conn.
Qed.

Lemma map_touch_lookup m k k' :
  map_touch m k !! k' =
    if decide (k = k') then Some (map_get m k) else m !! k'.
Proof.
  unfold map_touch, map_get. destruct (m !! k) eqn:E; simpl.
  - case_decide; [by subst|done].
  - case_decide; [subst; by rewrite lookup_insert_eq|by rewrite lookup_insert_ne].
Qed.

Lemma map_get_touch m k k' : map_get (map_touch m k) k' = map_get m k'.
Proof.
  unfold map_get at 1. rewrite map_touch_lookup. case_decide; [by subst|done].
Qed.

Lemma insert_map_touch m k v : <[k := v]> (map_touch m k) = <[k := v]> m.
Proof.
  unfold map_touch. destruct (m !! k); [done|]. by rewrite insert_insert_eq.
Qed.

Lemma presynSynapses_touch k cl c :
  presynSynapses k (touchPresynapticMaps cl c) = map_touch (presynSynapses k c) cl.
Proof. by destruct k. Qed.

Lemma presynSegments_touch k cl c :
  presynSegments k (touchPresynapticMaps cl c) = map_touch (presynSegments k c) cl.
Proof. by destruct k. Qed.

Lemma map_get_Some m k (v : list N) : m !! k = Some v → map_get m k = v.
Proof. unfold map_get. by intros ->. Qed.

Lemma count_if_flip P P' y l :
  NoDup l → y ∈ l → (∀ x, x ∈ l → x ≠ y → P' x = P x) →
  (Z.of_nat (count_if P' l) =
   Z.of_nat (count_if P l) + (if P' y then 1 else 0) - (if P y then 1 else 0))%Z.
Proof.
  induction l as [|x l IH]; intros Hnd Hy Hext; [by apply elem_of_nil in Hy|].
  apply NoDup_cons in Hnd as [Hx Hnd]. simpl.
  apply elem_of_cons in Hy as [->|Hy].
  - rewrite (count_if_ext P' P l).
    + destruct (P' x), (P x); lia.
    + intros z Hz. apply Hext; [by right|]. intros ->. done.
  - rewrite (Hext x); [|by left|by intros ->].
    specialize (IH Hnd Hy). rewrite !Nat2Z.inj_add, IH.
    + lia.
    + intros z Hz Hne. apply Hext; [by right|done].
Qed.

Lemma slot_None_of_lookup c k cl : presynSynapses k c !! cl = None → ∀ j, slot c k cl j = None.
Proof. intros H j. unfold slot. by rewrite H. Qed.

Lemma update_moved c y p :
  wf_struct c → live c y →
  Qgeb (clamp p) (connectedThreshold_ c) ≠ connectedB c y →
  ∃ d sd l m dm,
    at_N (synapses_ c) y = Some d ∧
    at_N (segments_ c) (segment d) = Some sd ∧
    presynSynapses (connectedB c y) c !! presynapticCell d = Some l ∧
    last l = Some m ∧
    at_N (set_N (synapses_ c) y (syn_with_permanence (clamp p) d)) m = Some dm ∧
    updateSynapsePermanence y p c =
      Some (moved c y (clamp p) (Qgeb (clamp p) (connectedThreshold_ c)) d sd l m dm).
Proof.
  intros W Hlv Hch.
  destruct (live_in_range _ _ W Hlv) as [d Hd].
  destruct (syn_accessors _ _ _ Hd) as (Hseg & Hpre & Hidx & Hperm).
  destruct (live_segment_in_range _ _ Hlv) as [sd Hsd].
  set (a := Qgeb (clamp p) (connectedThreshold_ c)) in *.
  assert (connectedB c y = negb a) as Hb by (destruct a, (connectedB c y); done).
  pose proof (wf_slot_complete _ W y Hlv ltac:(done)) as Hslot.
  rewrite Hb in Hslot. unfold slot in Hslot.
  destruct (presynSynapses (negb a) c !! presynOf c y) as [l|] eqn:Hl; [|done].
  simpl in Hslot.
  pose proof (wf_presyn_segs _ W (negb a) (presynOf c y)) as Hsegs.
  rewrite Hl in Hsegs. simpl in Hsegs.
  assert (is_Some (last l)) as [m Hm].
  { destruct l; [done|]. by rewrite last_is_Some. }
  assert (slot c (negb a) (presynOf c y) (length l - 1) = Some m) as Hslm.
  { unfold slot. rewrite Hl. simpl.
    apply last_Some in Hm as [l' ->]. rewrite length_app. simpl.
    rewrite lookup_app_r by lia.
    by replace (length l' + 1 - 1 - length l')%nat with 0%nat by lia. }
  destruct (wf_slot_sound _ W _ _ _ _ Hslm) as (_ & Hlvm & _).
  destruct (live_in_range _ _ W Hlvm) as [dm0 Hdm0].
  assert (is_Some (at_N (set_N (synapses_ c) y (syn_with_permanence (clamp p) d)) m))
    as [dm Hdm].
  { apply at_N_is_Some. unfold size_N. rewrite length_set_N.
    apply at_N_is_Some. done. }
  exists d, sd, l, m, dm. rewrite Hb, <- Hpre, <- Hseg.
  repeat split; try done.
  unfold updateSynapsePermanence. fold (clamp p). rewrite Hd. cbn [mbind option_bind].
  unfold connectedB in Hb. rewrite Hperm in Hb. fold a. rewrite Hb.
  rewrite bool_decide_eq_false_2 by (by destruct a).
  cbn [segments_ touchPresynapticMaps with_presyn with_synapses].
  rewrite <- Hseg, Hsd. cbn [mbind option_bind].
  rewrite <- Hpre, <- Hidx.
  erewrite (removeFromPresynapticMaps_eq (negb a) (presynOf c y)
              (indexOf c y) _ l (map (segmentOf c) l) m (segmentOf c m) dm).
  - cbn [mbind option_bind].
    assert (segmentOf c m = segment dm) as Hsm.
    { unfold segmentOf. rewrite Hdm0.
      unfold at_N, set_N in Hdm.
      destruct (decide (N.to_nat y = N.to_nat m)) as [e|e].
      - rewrite e in Hdm. rewrite list_lookup_insert_eq in Hdm.
        + injection Hdm as <-. simpl.
          assert (y = m) by lia. subst. unfold at_N in *. congruence.
        + apply lookup_lt_is_Some. rewrite <- e. unfold at_N in Hd. by rewrite Hd.
      - rewrite list_lookup_insert_ne in Hdm by done. unfold at_N in *. congruence. }
    match goal with |- context [at_N ?Y y ≫= _] =>
      assert (at_N Y y = Some (mkSynapseData (presynOf c y) (clamp p) (segmentOf c y)
                                 (indexOf c y))) as Hy2 end.
    { cbn [synapses_ with_presyn with_synapses with_segments touchPresynapticMaps].
      destruct (decide (m = y)) as [->|Hne].
      - rewrite at_N_set_N_eq.
        + f_equal. rewrite at_N_set_N_eq in Hdm by done. injection Hdm as <-.
          unfold syn_with_index, syn_with_permanence. simpl. congruence.
        + apply at_N_is_Some. unfold size_N. rewrite length_set_N.
          apply at_N_is_Some. done.
      - rewrite at_N_set_N_ne by done. rewrite at_N_set_N_eq by done.
        f_equal. unfold syn_with_permanence. congruence. }
    rewrite Hy2. cbn [mbind option_bind].
    unfold moved. rewrite <- Hpre, <- Hseg, <- Hidx, Hsm. done.
  - replace (presynSynapses (negb a) _) with
      (map_touch (presynSynapses (negb a) c) (presynOf c y)) by (by destruct a).
    rewrite map_touch_lookup, decide_True by done. f_equal. by apply map_get_Some.
  - replace (presynSegments (negb a) _) with
      (map_touch (presynSegments (negb a) c) (presynOf c y)) by (by destruct a).
    rewrite map_touch_lookup, decide_True by done. f_equal. by apply map_get_Some.
  - done.
  - rewrite last_map, Hm. done.
  - done.
  - by eapply lookup_lt_Some.
  - rewrite length_map. by eapply lookup_lt_Some.
Qed.

Section Moved.
Context (c : Connections) (y : N) (p' : Q) (a : bool) (d : SynapseData)
        (sd : SegmentData) (l : list N) (m : N) (dm : SynapseData).

Let c' := moved c y p' a d sd l m dm.
Let cl := presynapticCell d.
Let iy := N.to_nat (presynapticMapIndex_ d).
Let lto := map_get (presynSynapses a c) cl.

Lemma moved_from_syn :
  presynSynapses (negb a) c' = <[cl := pop_back (<[iy := m]> l)]> (presynSynapses (negb a) c).
Proof.
  unfold c', moved, pushToPresynapticMaps.
  rewrite presynSynapses_with_presyn.
  rewrite bool_decide_eq_false_2 by (by destruct a).
  cbn [presynSynapses with_synapses].
  destruct a; cbn; rewrite insert_map_touch; done.
Qed.

Lemma moved_to_syn :
  presynSynapses a c' = <[cl := lto ++ [y]]> (presynSynapses a c).
Proof.
  unfold c', moved, pushToPresynapticMaps, lto.
  destruct a; cbn; rewrite map_get_touch, insert_map_touch; done.
Qed.

Lemma moved_from_seg :
  presynSegments (negb a) c' =
    <[cl := pop_back (<[iy := segment dm]> (map (segmentOf c) l))]>
      (presynSegments (negb a) c).
Proof.
  unfold c', moved, pushToPresynapticMaps.
  destruct a; cbn; rewrite insert_map_touch; done.
Qed.

Lemma moved_to_seg :
  presynSegments a c' =
    <[cl := map_get (presynSegments a c) cl ++ [segment d]]> (presynSegments a c).
Proof.
  unfold c', moved, pushToPresynapticMaps.
  destruct a; cbn; rewrite map_get_touch, insert_map_touch; done.
Qed.

Lemma moved_segments :
  segments_ c' =
    set_N (segments_ c) (segment d)
      (seg_with_numConnected
         (if a then numConnected sd + 1 else numConnected sd - 1)%Z sd).
Proof. unfold c', moved, pushToPresynapticMaps. by destruct a. Qed.

Lemma moved_synapses :
  synapses_ c' =
    set_N (set_N (set_N (synapses_ c) y (syn_with_permanence p' d)) m
             (syn_with_index (presynapticMapIndex_ d) dm)) y
      (mkSynapseData cl p' (segment d) (size_N lto)).
Proof.
  unfold c', moved, pushToPresynapticMaps, lto.
  destruct a; cbn; rewrite map_get_touch; done.
Qed.

Lemma moved_other :
  cells_ c' = cells_ c ∧ destroyedSegments_ c' = destroyedSegments_ c ∧
  destroyedSynapses_ c' = destroyedSynapses_ c ∧
  connectedThreshold_ c' = connectedThreshold_ c ∧
  timeseries_ c' = timeseries_ c ∧ iteration_ c' = iteration_ c ∧
  previousUpdates_ c' = previousUpdates_ c ∧
  currentUpdates_ c' = currentUpdates_ c ∧
  prunedSyns_ c' = prunedSyns_ c ∧ prunedSegs_ c' = prunedSegs_ c.
Proof. unfold c', moved, pushToPresynapticMaps. by destruct a. Qed.
End Moved.

Lemma live_synapsesOn c y : wf_struct c → live c y → y ∈ synapsesOn c (segmentOf c y).
Proof. done. Qed.

Lemma synapsesOn_live c s y : wf_struct c → y ∈ synapsesOn c s → live c y ∧ segmentOf c y = s.
Proof.
  intros W H. destruct (wf_seg_syn _ W _ _ H) as [_ Hs]. split; [|done].
  unfold live. by rewrite Hs.
Qed.

Lemma map_get_segs c k cl :
  wf_struct c →
  map_get (presynSegments k c) cl = map (segmentOf c) (map_get (presynSynapses k c) cl).
Proof.
  intros W. unfold map_get. rewrite (wf_presyn_segs _ W).
  by destruct (presynSynapses k c !! cl).
Qed.

Section MovedWf.
Context (c : Connections) (y : N) (p' : Q) (a : bool) (d : SynapseData)
        (sd : SegmentData) (l : list N) (m : N) (dm : SynapseData).
Hypothesis W : wf_struct c.
Hypothesis Hlv : live c y.
Hypothesis Hd : at_N (synapses_ c) y = Some d.
Hypothesis Hsd : at_N (segments_ c) (segment d) = Some sd.
Hypothesis Hb : connectedB c y = negb a.
Hypothesis Ha : Qgeb p' (connectedThreshold_ c) = a.
Hypothesis Hl : presynSynapses (negb a) c !! presynapticCell d = Some l.
Hypothesis Hm : last l = Some m.
Hypothesis Hdm : at_N (set_N (synapses_ c) y (syn_with_permanence p' d)) m = Some dm.

Let c' := moved c y p' a d sd l m dm.
Let cl := presynapticCell d.
Let iy := N.to_nat (presynapticMapIndex_ d).
Let lto := map_get (presynSynapses a c) cl.

Local Lemma mv_acc :
  segmentOf c y = segment d ∧ presynOf c y = cl ∧
  indexOf c y = presynapticMapIndex_ d ∧ permanenceOf c y = permanence d.
Proof. by apply syn_accessors. Qed.

Local Lemma mv_at : l !! iy = Some y.
Proof.
  destruct mv_acc as (_ & Hp & Hi & _).
  pose proof (wf_slot_complete _ W y Hlv ltac:(done)) as H.
  rewrite Hb, Hp, Hi in H. unfold slot in H. unfold cl in H. rewrite Hl in H. done.
Qed.

Local Lemma mv_last : l !! (length l - 1)%nat = Some m.
Proof.
  destruct (proj1 (last_Some _ _) Hm) as [l' E]. rewrite E, length_app. simpl.
  rewrite lookup_app_r by lia.
  by replace (length l' + 1 - 1 - length l')%nat with 0%nat by lia.
Qed.

Local Lemma mv_m_slot : slot c (negb a) cl (length l - 1) = Some m.
Proof. unfold slot, cl. rewrite Hl. simpl. apply mv_last. Qed.

Local Lemma mv_m_live : live c m.
Proof. by destruct (wf_slot_sound _ W _ _ _ _ mv_m_slot) as (_ & ? & _). Qed.

Local Lemma mv_dm :
  ∃ dm0, at_N (synapses_ c) m = Some dm0 ∧
         segment dm = segment dm0 ∧ presynapticCell dm = presynapticCell dm0 ∧
         (m ≠ y → dm = dm0).
Proof.
  destruct (live_in_range _ _ W mv_m_live) as [dm0 Hdm0].
  exists dm0. split; [done|].
  destruct (decide (y = m)) as [e|e].
  - rewrite e in Hdm, Hd. rewrite at_N_set_N_eq in Hdm by done.
    assert (dm = syn_with_permanence p' d) as -> by congruence.
    assert (d = dm0) as -> by congruence.
    repeat split; try done.
  - rewrite at_N_set_N_ne in Hdm by done.
    assert (dm = dm0) as -> by congruence. done.
Qed.

Local Lemma mv_lookup y' :
  at_N (synapses_ c') y' =
    if decide (y' = y) then Some (mkSynapseData cl p' (segment d) (size_N lto))
    else if decide (y' = m)
         then Some (syn_with_index (presynapticMapIndex_ d) dm)
         else at_N (synapses_ c) y'.
Proof.
  unfold c'. rewrite moved_synapses.
  assert (is_Some (at_N (set_N (synapses_ c) y (syn_with_permanence p' d)) m)) as Hm1
    by done.
  assert (is_Some (at_N (set_N (set_N (synapses_ c) y (syn_with_permanence p' d)) m
             (syn_with_index (presynapticMapIndex_ d) dm)) y)) as Hy2.
  { apply at_N_is_Some. unfold size_N. rewrite !length_set_N.
    apply at_N_is_Some. done. }
  rewrite at_N_set_N by done.
  case_decide as E1.
  - subst. by rewrite decide_True.
  - rewrite decide_False by done.
    rewrite at_N_set_N by done.
    case_decide as E2.
    + subst. by rewrite decide_True.
    + rewrite decide_False by done. by rewrite at_N_set_N_ne.
Qed.

Lemma moved_segmentOf y' : segmentOf c' y' = segmentOf c y'.
Proof.
  destruct mv_acc as (Hs & _). destruct mv_dm as (dm0 & Hdm0 & Hsdm & _).
  unfold segmentOf at 1. rewrite mv_lookup.
  case_decide; [subst; done|].
  case_decide; [subst; simpl; unfold segmentOf; by rewrite Hdm0|done].
Qed.

Lemma moved_presynOf y' : presynOf c' y' = presynOf c y'.
Proof.
  destruct mv_acc as (_ & Hp & _). destruct mv_dm as (dm0 & Hdm0 & _ & Hpdm & _).
  unfold presynOf at 1. rewrite mv_lookup.
  case_decide; [subst; done|].
  case_decide; [subst; simpl; unfold presynOf; by rewrite Hdm0|done].
Qed.

Lemma moved_permanenceOf y' :
  permanenceOf c' y' = if decide (y' = y) then p' else permanenceOf c y'.
Proof.
  destruct mv_dm as (dm0 & Hdm0 & _ & _ & Hne).
  unfold permanenceOf at 1. rewrite mv_lookup.
  case_decide; [done|].
  case_decide; [|done].
  subst. simpl. rewrite Hne by done. unfold permanenceOf. by rewrite Hdm0.
Qed.

Lemma moved_indexOf y' :
  indexOf c' y' =
    if decide (y' = y) then size_N lto
    else if decide (y' = m) then presynapticMapIndex_ d else indexOf c y'.
Proof.
  unfold indexOf at 1. rewrite mv_lookup.
  case_decide; [done|]. case_decide; done.
Qed.

Lemma moved_connectedB y' :
  connectedB c' y' = if decide (y' = y) then a else connectedB c y'.
Proof.
  unfold connectedB. rewrite moved_permanenceOf.
  destruct (moved_other c y p' a d sd l m dm) as (_ & _ & _ & E & _).
  fold c' in E. rewrite E.
  case_decide; done.
Qed.

Lemma moved_size_synapses : length (synapses_ c') = length (synapses_ c).
Proof. unfold c'. rewrite moved_synapses. by rewrite !length_set_N. Qed.

Lemma moved_at_segments s :
  at_N (segments_ c') s =
    if decide (segment d = s)
    then Some (seg_with_numConnected
                 (if a then numConnected sd + 1 else numConnected sd - 1)%Z sd)
    else at_N (segments_ c) s.
Proof. unfold c'. rewrite moved_segments. by apply at_N_set_N. Qed.

Lemma moved_synapsesOn s : synapsesOn c' s = synapsesOn c s.
Proof.
  unfold synapsesOn. rewrite moved_at_segments.
  case_decide; [subst; by rewrite Hsd|done].
Qed.

Lemma moved_cellOf s : cellOf c' s = cellOf c s.
Proof.
  unfold cellOf. rewrite moved_at_segments.
  case_decide; [subst; by rewrite Hsd|done].
Qed.

Lemma moved_numConnectedOf s :
  numConnectedOf c' s =
    if decide (segment d = s)
    then (if a then numConnectedOf c s + 1 else numConnectedOf c s - 1)%Z
    else numConnectedOf c s.
Proof.
  unfold numConnectedOf. rewrite moved_at_segments.
  case_decide; [subst; by rewrite Hsd|done].
Qed.

Lemma moved_frame : frame c c'.
Proof.
  destruct (moved_other c y p' a d sd l m dm)
    as (? & ? & ? & ? & ? & ? & ? & ? & ? & ?).
  constructor; try done.
  - apply moved_size_synapses.
  - unfold c'. rewrite moved_segments. apply length_set_N.
  - apply moved_synapsesOn.
  - apply moved_cellOf.
  - apply moved_segmentOf.
  - apply moved_presynOf.
Qed.

Lemma moved_live y' : live c' y' ↔ live c y'.
Proof. apply frame_live, moved_frame. Qed.

Lemma moved_numConnected s :
  numConnectedOf c' s = Z.of_nat (count_if (connectedB c') (synapsesOn c' s)).
Proof.
  destruct mv_acc as (Hs & _).
  rewrite moved_numConnectedOf, moved_synapsesOn.
  rewrite (wf_numConnected _ W s).
  case_decide as E.
  - subst s. rewrite <- Hs.
    rewrite (count_if_flip (connectedB c) (connectedB c') y).
    + rewrite moved_connectedB, decide_True by done. rewrite Hb.
      destruct a; simpl; lia.
    + apply W.
    + done.
    + intros x _ Hne. rewrite moved_connectedB. by rewrite decide_False.
  - f_equal. apply count_if_ext. intros x Hx.
    rewrite moved_connectedB. rewrite decide_False; [done|].
    intros ->. destruct (wf_seg_syn _ W _ _ Hx) as [_ Hx']. congruence.
Qed.

Let c1 := with_presyn a (presynSynapses a c) (presynSegments a c) c'.

Local Lemma mv_slot_from j : slot c' (negb a) cl j = pop_back (<[iy := m]> l) !! j.
Proof.
  unfold slot. unfold c'. rewrite moved_from_syn. rewrite lookup_insert_eq. done.
Qed.

Local Lemma mv_slot_to j : slot c' a cl j = (lto ++ [y]) !! j.
Proof.
  unfold slot. unfold c'. rewrite moved_to_syn. rewrite lookup_insert_eq. done.
Qed.

Local Lemma mv_slot_other k cl' j : cl' ≠ cl → slot c' k cl' j = slot c k cl' j.
Proof.
  intros Hne. unfold slot. unfold c'.
  destruct (decide (k = a)) as [->|Hk].
  - rewrite moved_to_syn. by rewrite lookup_insert_ne.
  - assert (k = negb a) as -> by (by destruct k, a).
    rewrite moved_from_syn. by rewrite lookup_insert_ne.
Qed.

Local Lemma mv_slot_c1 k cl' j :
  slot c1 k cl' j = if decide (k = a) then slot c k cl' j else slot c' k cl' j.
Proof.
  unfold slot, c1. rewrite presynSynapses_with_presyn.
  case_decide; case_bool_decide; subst; done.
Qed.

Local Lemma mv_c1_acc y' :
  live c1 y' = live c' y' ∧ presynOf c1 y' = presynOf c' y' ∧
  connectedB c1 y' = connectedB c' y' ∧ indexOf c1 y' = indexOf c' y'.
Proof. unfold c1. by destruct a. Qed.

Lemma moved_slots : slots_sound c' None ∧ slots_complete c' None.
Proof.
  destruct mv_acc as (Hs & Hp & Hi & _).
  pose proof (wf_slot_sound _ W) as R1.
  pose proof (wf_slot_complete _ W) as R2.
  assert (N.to_nat (indexOf c y) = iy) as R3 by (unfold iy; by rewrite Hi).
  assert (∀ y', y' ≠ y → live c1 y' ↔ live c y') as R4.
  { intros y' _. destruct (mv_c1_acc y') as (-> & _). apply moved_live. }
  assert (∀ y', y' ≠ y →
            presynOf c1 y' = presynOf c y' ∧ connectedB c1 y' = connectedB c y') as R5.
  { intros y' Hne. destruct (mv_c1_acc y') as (_ & -> & -> & _).
    rewrite moved_presynOf, moved_connectedB. by rewrite decide_False. }
  assert (∀ y', y' ≠ y →
            indexOf c1 y' = if decide (y' = m) then N.of_nat iy else indexOf c y') as R6.
  { intros y' Hne. destruct (mv_c1_acc y') as (_ & _ & _ & ->).
    rewrite moved_indexOf. rewrite decide_False by done.
    case_decide; [|done]. unfold iy. by rewrite N2Nat.id. }
  assert (∀ j, slot c1 (negb a) cl j = pop_back (<[iy := m]> l) !! j) as R7.
  { intros j. rewrite mv_slot_c1. rewrite decide_False by (by destruct a).
    apply mv_slot_from. }
  assert (∀ k cl' j, (k, cl') ≠ (negb a, cl) → slot c1 k cl' j = slot c k cl' j) as R8.
  { intros k cl' j Hne. rewrite mv_slot_c1. case_decide; [done|].
    apply mv_slot_other. intros ->. apply Hne. f_equal. by destruct k, a. }
  assert (slots_sound c1 (Some y)) as Hs1
    by (eapply (remove_step_sound c c1 y (negb a) cl iy l m); eassumption).
  assert (slots_complete c1 (Some y)) as Hc1
    by (eapply (remove_step_complete c c1 y (negb a) cl iy l m); eassumption).
  assert (map_get (presynSynapses a c1) cl = lto) as A1.
  { unfold c1. rewrite presynSynapses_with_presyn.
    by rewrite bool_decide_eq_true_2. }
  assert (live c' y) as A2 by (by apply moved_live).
  assert (connectedB c' y = a) as A3.
  { rewrite moved_connectedB. by rewrite decide_True. }
  assert (presynOf c' y = cl) as A4 by (by rewrite moved_presynOf).
  assert (indexOf c' y = N.of_nat (length lto)) as A5.
  { rewrite moved_indexOf, decide_True by done. done. }
  assert (∀ y', y' ≠ y → live c' y' ↔ live c1 y') as A6.
  { intros y' _. by destruct (mv_c1_acc y') as (-> & _). }
  assert (∀ y', y' ≠ y →
            presynOf c' y' = presynOf c1 y' ∧ connectedB c' y' = connectedB c1 y' ∧
            indexOf c' y' = indexOf c1 y') as A7.
  { intros y' _. by destruct (mv_c1_acc y') as (_ & -> & -> & ->). }
  assert (∀ j, slot c' a cl j = (lto ++ [y]) !! j) as A8 by apply mv_slot_to.
  assert (∀ k cl' j, (k, cl') ≠ (a, cl) → slot c' k cl' j = slot c1 k cl' j) as A9.
  { intros k cl' j Hne. rewrite mv_slot_c1. case_decide; [|done].
    subst k. apply mv_slot_other. intros ->. done. }
  split.
  - eapply (add_step_sound c1 c' y a cl lto); eassumption.
  - eapply (add_step_complete c1 c' y a cl lto); eassumption.
Qed.

Lemma moved_presyn_segs k cl' :
  presynSegments k c' !! cl' = map (segmentOf c') <$> presynSynapses k c' !! cl'.
Proof.
  destruct mv_acc as (Hs & _). destruct mv_dm as (dm0 & Hdm0 & Hsdm & _).
  assert (∀ o : option (list N),
            map (segmentOf c') <$> o = map (segmentOf c) <$> o) as ->.
  { intros [v|]; simpl; [|done]. f_equal. apply map_ext. apply moved_segmentOf. }
  pose proof (wf_presyn_segs _ W k cl') as Hw.
  unfold c'.
  destruct (decide (k = a)) as [->|Hk].
  - rewrite moved_to_seg, moved_to_syn.
    destruct (decide (cl' = cl)) as [->|Hne].
    + rewrite !lookup_insert_eq. simpl. f_equal.
      rewrite map_app. simpl. rewrite Hs. f_equal.
      by apply map_get_segs.
    + by rewrite !lookup_insert_ne.
  - assert (k = negb a) as -> by (by destruct k, a).
    rewrite moved_from_seg, moved_from_syn.
    destruct (decide (cl' = cl)) as [->|Hne].
    + rewrite !lookup_insert_eq. simpl. f_equal.
      rewrite <- pop_back_map. f_equal. rewrite list_fmap_insert. f_equal.
      rewrite Hsdm. unfold segmentOf. by rewrite Hdm0.
    + by rewrite !lookup_insert_ne.
Qed.

Lemma moved_wf_struct : wf_struct c'.
Proof.
  apply (frame_wf_struct c c' moved_frame W).
  - apply moved_numConnected.
  - apply moved_slots.
  - apply moved_slots.
  - apply moved_presyn_segs.
Qed.
End MovedWf.

(** ** updateSynapsePermanence keeps the invariants *)

Lemma updateSynapsePermanence_same c y p d :
  at_N (synapses_ c) y = Some d →
  Qgeb (clamp p) (connectedThreshold_ c) = connectedB c y →
  updateSynapsePermanence y p c =
    Some (with_synapses (set_N (synapses_ c) y (syn_with_permanence (clamp p) d)) c).
Proof.
  intros Hd He. unfold updateSynapsePermanence. fold (clamp p).
  rewrite Hd. cbn [mbind option_bind].
  unfold connectedB, permanenceOf in He. rewrite Hd in He.
  rewrite bool_decide_eq_true_2 by done. done.
Qed.

Lemma updateSynapsePermanence_spec c y p :
  wf_struct c → live c y →
  ∃ c', updateSynapsePermanence y p c = Some c' ∧ wf_struct c' ∧ frame c c' ∧
        ∀ y', permanenceOf c' y' = if decide (y' = y) then clamp p else permanenceOf c y'.
Proof.
  intros W Hlv.
  destruct (decide (Qgeb (clamp p) (connectedThreshold_ c) = connectedB c y)) as [He|Hne].
  - destruct (live_in_range _ _ W Hlv) as [d Hd].
    eexists. split; [by apply updateSynapsePermanence_same|].
    set (c' := with_synapses _ c).
    assert (∀ y', at_N (synapses_ c') y' =
              if decide (y = y') then Some (syn_with_permanence (clamp p) d)
              else at_N (synapses_ c) y') as Hlook.
    { intros y'. unfold c'. cbn. by apply at_N_set_N. }
    assert (∀ y', segmentOf c' y' = segmentOf c y') as Hseg.
    { intros y'. unfold segmentOf. rewrite Hlook. case_decide; [subst|done].
      by rewrite Hd. }
    assert (∀ y', presynOf c' y' = presynOf c y') as Hpre.
    { intros y'. unfold presynOf. rewrite Hlook. case_decide; [subst|done].
      by rewrite Hd. }
    assert (∀ y', indexOf c' y' = indexOf c y') as Hidx.
    { intros y'. unfold indexOf. rewrite Hlook. case_decide; [subst|done].
      by rewrite Hd. }
    assert (∀ y', permanenceOf c' y' =
              if decide (y' = y) then clamp p else permanenceOf c y') as Hperm.
    { intros y'. unfold permanenceOf. rewrite Hlook.
      case_decide; [subst; by rewrite decide_True|by rewrite decide_False]. }
    assert (∀ y', connectedB c' y' = connectedB c y') as Hcon.
    { intros y'. unfold connectedB. rewrite Hperm.
      change (connectedThreshold_ c') with (connectedThreshold_ c).
      case_decide; [subst|done]. rewrite He. done. }
    assert (frame c c') as F.
    { constructor; try done. unfold c'. cbn. apply length_set_N. }
    assert (∀ k cl j, slot c' k cl j = slot c k cl j) as Hslot by (by intros []).
    split; [|by split].
    apply (frame_wf_struct c c' F W).
    + intros s. rewrite (fr_synapsesOn _ _ F).
      rewrite (count_if_ext _ (connectedB c)) by (intros; apply Hcon).
      apply (wf_numConnected _ W).
    + intros k cl j y' H. rewrite Hslot in H.
      rewrite (frame_live _ _ _ F), Hpre, Hidx, Hcon. by apply (wf_slot_sound _ W).
    + intros y' H _. rewrite Hpre, Hidx, Hcon, Hslot.
      apply (wf_slot_complete _ W); [|done]. by apply (frame_live _ _ _ F).
    + intros k cl.
      assert (∀ o : option (list N),
                map (segmentOf c') <$> o = map (segmentOf c) <$> o) as ->.
      { intros [v|]; simpl; [|done]. f_equal. apply map_ext. apply Hseg. }
      destruct k.
      * apply (wf_presyn_segs _ W true).
      * apply (wf_presyn_segs _ W false).
  - destruct (update_moved c y p W Hlv Hne) as (d & sd & l & m & dm & Hd & Hsd & Hl & Hm & Hdm & He).
    eexists. split; [exact He|].
    set (a := Qgeb (clamp p) (connectedThreshold_ c)) in *.
    assert (connectedB c y = negb a) as Hb by (destruct a, (connectedB c y); done).
    rewrite Hb in Hl.
    split; [|split].
    + by apply moved_wf_struct.
    + by apply moved_frame.
    + intros y'. by apply moved_permanenceOf.
Qed.

Lemma frame_perm_ok c c' y p :
  frame c c' → perm_ok c →
  (∀ y', permanenceOf c' y' = if decide (y' = y) then clamp p else permanenceOf c y') →
  perm_ok c'.
Proof.
  intros F Hp He y' Hlv. rewrite He. case_decide.
  - apply clamp_range.
  - apply Hp. by apply (frame_live _ _ _ F).
Qed.

Lemma updateSynapsePermanence_wf c y p :
  wf c → live c y →
  ∃ c', updateSynapsePermanence y p c = Some c' ∧ wf c' ∧ frame c c' ∧
        ∀ y', permanenceOf c' y' = if decide (y' = y) then clamp p else permanenceOf c y'.
Proof.
  intros (W & Hp & Ht) Hlv.
  destruct (updateSynapsePermanence_spec c y p W Hlv) as (c' & He & W' & F & Hperm).
  exists c'. split; [done|]. split; [|by split].
  split; [done|]. split.
  - by eapply frame_perm_ok.
  - unfold bounds_ok, size_N.
    by rewrite (fr_threshold _ _ F), (fr_size_synapses _ _ F).
Qed.

(** * destroySynapse *)

Lemma eraseIfEmpty_fields b cl c :
  cells_ (eraseIfEmpty b cl c) = cells_ c ∧
  segments_ (eraseIfEmpty b cl c) = segments_ c ∧
  synapses_ (eraseIfEmpty b cl c) = synapses_ c ∧
  destroyedSegments_ (eraseIfEmpty b cl c) = destroyedSegments_ c ∧
  destroyedSynapses_ (eraseIfEmpty b cl c) = destroyedSynapses_ c ∧
  connectedThreshold_ (eraseIfEmpty b cl c) = connectedThreshold_ c ∧
  timeseries_ (eraseIfEmpty b cl c) = timeseries_ c ∧
  iteration_ (eraseIfEmpty b cl c) = iteration_ c ∧
  previousUpdates_ (eraseIfEmpty b cl c) = previousUpdates_ c ∧
  currentUpdates_ (eraseIfEmpty b cl c) = currentUpdates_ c ∧
  prunedSyns_ (eraseIfEmpty b cl c) = prunedSyns_ c ∧
  prunedSegs_ (eraseIfEmpty b cl c) = prunedSegs_ c ∧
  presynSynapses (negb b) (eraseIfEmpty b cl c) = presynSynapses (negb b) c ∧
  presynSegments (negb b) (eraseIfEmpty b cl c) = presynSegments (negb b) c.
Proof.
  unfold eraseIfEmpty. destruct (map_get (presynSynapses b c) cl); [|done].
  by destruct b.
Qed.

Lemma eraseIfEmpty_syn b cl c cl' :
  presynSynapses b (eraseIfEmpty b cl c) !! cl' =
    if decide (cl' = cl)
    then (match map_get (presynSynapses b c) cl with
          | [] => None | v => Some v end)
    else presynSynapses b c !! cl'.
Proof.
  unfold eraseIfEmpty. destruct (map_get (presynSynapses b c) cl) as [|x v] eqn:E.
  - rewrite presynSynapses_with_presyn, bool_decide_eq_true_2 by done.
    case_decide; [subst; by rewrite lookup_delete_eq|by rewrite lookup_delete_ne].
  - case_decide; [subst|done].
    unfold map_get in E. destruct (presynSynapses b c !! cl); simpl in E; by subst.
Qed.

Lemma eraseIfEmpty_seg b cl c cl' :
  length (map_get (presynSegments b c) cl) = length (map_get (presynSynapses b c) cl) →
  presynSegments b (eraseIfEmpty b cl c) !! cl' =
    if decide (cl' = cl)
    then (match map_get (presynSegments b c) cl with
          | [] => None | v => Some v end)
    else presynSegments b c !! cl'.
Proof.
  intros Hlen.
  unfold eraseIfEmpty. destruct (map_get (presynSynapses b c) cl) as [|x v] eqn:E.
  - rewrite presynSegments_with_presyn, bool_decide_eq_true_2 by done.
    destruct (map_get (presynSegments b c) cl); [|done].
    case_decide; [subst; by rewrite lookup_delete_eq|by rewrite lookup_delete_ne].
  - case_decide; [subst|done].
    destruct (map_get (presynSegments b c) cl) as [|x' v'] eqn:E'; [done|].
    unfold map_get in E'. destruct (presynSegments b c !! cl); simpl in E'; by subst.
Qed.

Lemma destroySynapse_eq c y :
  wf_struct c → live c y → ¬ (permanenceOf c y == -1)%Q →
  ∃ d sd l m dm,
    at_N (synapses_ c) y = Some d ∧
    at_N (segments_ c) (segment d) = Some sd ∧
    presynSynapses (connectedB c y) c !! presynapticCell d = Some l ∧
    last l = Some m ∧
    at_N (synapses_ c) m = Some dm ∧
    destroySynapse y c = Some (destroyed c y d sd l m dm).
Proof.
  intros W Hlv Hnm1.
  destruct (live_in_range _ _ W Hlv) as [d Hd].
  destruct (syn_accessors _ _ _ Hd) as (Hseg & Hpre & Hidx & Hperm).
  destruct (live_segment_in_range _ _ Hlv) as [sd Hsd].
  assert (connectedB c y = isConnected c d) as Hb.
  { unfold connectedB, isConnected. by rewrite Hperm. }
  pose proof (wf_slot_complete _ W y Hlv ltac:(done)) as Hslot.
  unfold slot in Hslot.
  destruct (presynSynapses (connectedB c y) c !! presynOf c y) as [l|] eqn:Hl; [|done].
  simpl in Hslot.
  pose proof (wf_presyn_segs _ W (connectedB c y) (presynOf c y)) as Hsegs.
  rewrite Hl in Hsegs. simpl in Hsegs.
  assert (is_Some (last l)) as [m Hm].
  { destruct l; [done|]. by rewrite last_is_Some. }
  assert (slot c (connectedB c y) (presynOf c y) (length l - 1) = Some m) as Hslm.
  { unfold slot. rewrite Hl. simpl.
    apply last_Some in Hm as [l' ->]. rewrite length_app. simpl.
    rewrite lookup_app_r by lia.
    by replace (length l' + 1 - 1 - length l')%nat with 0%nat by lia. }
  destruct (wf_slot_sound _ W _ _ _ _ Hslm) as (_ & Hlvm & _).
  destruct (live_in_range _ _ W Hlvm) as [dm Hdm].
  exists d, sd, l, m, dm. rewrite <- Hpre, <- Hseg.
  repeat split; try done.
  unfold destroySynapse, synapseExists_fast. rewrite Hd.
  rewrite <- Hperm. apply Qeqb_false in Hnm1. rewrite Hnm1.
  cbn [negb mbind option_bind]. rewrite <- Hseg, Hsd. cbn [mbind option_bind].
  rewrite <- Hb, <- Hpre, <- Hidx.
  set (c0 := if connectedB c y then _ else c).
  assert (presynSynapses (connectedB c y) c0 = presynSynapses (connectedB c y) c ∧
          presynSegments (connectedB c y) c0 = presynSegments (connectedB c y) c ∧
          synapses_ c0 = synapses_ c) as (E1 & E2 & E3).
  { unfold c0. by destruct (connectedB c y). }
  assert (segmentOf c m = segment dm) as Hsm.
  { unfold segmentOf. by rewrite Hdm. }
  erewrite (removeFromPresynapticMaps_eq (connectedB c y) (presynOf c y)
              (indexOf c y) c0 l (map (segmentOf c) l) m (segmentOf c m) dm).
  - cbn [mbind option_bind].
    match goal with |- context [at_N (segments_ (eraseIfEmpty ?b ?cl ?c1)) ?s] =>
      destruct (eraseIfEmpty_fields b cl c1) as (_ & Es & _);
      assert (at_N (segments_ (eraseIfEmpty b cl c1)) s =
              Some (if connectedB c y
                    then seg_with_numConnected (numConnected sd - 1)%Z sd else sd))
        as Hs2
    end.
    { rewrite Es. cbn [segments_ with_presyn with_synapses].
      unfold c0. destruct (connectedB c y).
      - cbn. by rewrite at_N_set_N_eq.
      - done. }
    rewrite Hs2. cbn [mbind option_bind].
    unfold destroyed. rewrite <- Hb, <- Hpre, <- Hseg, <- Hidx, Hsm. done.
  - by rewrite E1.
  - by rewrite E2.
  - done.
  - rewrite last_map, Hm. done.
  - by rewrite E3.
  - by eapply lookup_lt_Some.
  - rewrite length_map. by eapply lookup_lt_Some.
Qed.

Section Destroyed.
Context (c : Connections) (y : N) (d : SynapseData)
        (sd : SegmentData) (l : list N) (m : N) (dm : SynapseData).

Let c' := destroyed c y d sd l m dm.
Let b := isConnected c d.
Let cl := presynapticCell d.
Let iy := N.to_nat (presynapticMapIndex_ d).
Let l' := pop_back (<[iy := m]> l).
Let segs' := pop_back (<[iy := segment dm]> (map (segmentOf c) l)).

Lemma destroyed_other :
  cells_ c' = cells_ c ∧ destroyedSegments_ c' = destroyedSegments_ c ∧
  destroyedSynapses_ c' = destroyedSynapses_ c ++ [y] ∧
  connectedThreshold_ c' = connectedThreshold_ c ∧
  timeseries_ c' = timeseries_ c ∧ iteration_ c' = iteration_ c ∧
  previousUpdates_ c' = previousUpdates_ c ∧
  currentUpdates_ c' = currentUpdates_ c ∧
  prunedSyns_ c' = prunedSyns_ c ∧ prunedSegs_ c' = prunedSegs_ c.
Proof.
  unfold c', destroyed. cbn.
  match goal with |- context [eraseIfEmpty ?b ?cl ?c1] =>
    destruct (eraseIfEmpty_fields b cl c1)
      as (-> & _ & _ & -> & -> & -> & -> & -> & -> & -> & -> & -> & _) end.
  by destruct (isConnected c d).
Qed.

Lemma destroyed_synapses :
  synapses_ c' = set_N (synapses_ c) m (syn_with_index (presynapticMapIndex_ d) dm).
Proof.
  unfold c', destroyed. cbn.
  match goal with |- context [eraseIfEmpty ?b ?cl ?c1] =>
    destruct (eraseIfEmpty_fields b cl c1) as (_ & _ & -> & _) end.
  by destruct (isConnected c d).
Qed.

Lemma destroyed_segments :
  segments_ c' =
    set_N (segments_ c) (segment d)
      (mkSegmentData (swap_remove y (synapses sd)) (cell sd)
         (if b then numConnected sd - 1 else numConnected sd)%Z).
Proof.
  unfold c', destroyed, b. cbn.
  match goal with |- context [eraseIfEmpty ?b ?cl ?c1] =>
    destruct (eraseIfEmpty_fields b cl c1) as (_ & -> & _) end.
  destruct (isConnected c d); cbn; [|done].
  unfold set_N. by rewrite list_insert_insert_eq.
Qed.

Lemma destroyed_syn_other :
  presynSynapses (negb b) c' = presynSynapses (negb b) c ∧
  presynSegments (negb b) c' = presynSegments (negb b) c.
Proof.
  unfold c', destroyed, b.
  match goal with |- context [eraseIfEmpty ?b ?cl ?c1] =>
    destruct (eraseIfEmpty_fields b cl c1) as (_ & _ & _ & _ & _ & _ & _ & _ & _ & _ & _ & _ & E1 & E2) end.
  destruct (isConnected c d); cbn in *; by rewrite ?E1, ?E2.
Qed.

Lemma destroyed_syn cl' :
  presynSynapses b c' !! cl' =
    if decide (cl' = cl) then (match l' with [] => None | v => Some v end)
    else presynSynapses b c !! cl'.
Proof.
  assert (∀ c1, presynSynapses b c' =
            presynSynapses b (eraseIfEmpty b cl c1) →
          map_get (presynSynapses b c1) cl = l' →
          (∀ k, k ≠ cl → presynSynapses b c1 !! k = presynSynapses b c !! k) →
          presynSynapses b c' !! cl' =
            if decide (cl' = cl) then (match l' with [] => None | v => Some v end)
            else presynSynapses b c !! cl') as Haux.
  { intros c1 E1 E2 E3. rewrite E1, eraseIfEmpty_syn, E2.
    case_decide; [by destruct l'|]. by apply E3. }
  unfold c', destroyed, b, cl, l', iy in *.
  destruct (isConnected c d); cbn in *.
  - eapply Haux; [reflexivity| |].
    + cbn. unfold map_get. by rewrite lookup_insert_eq.
    + intros k Hk. cbn. by rewrite lookup_insert_ne.
  - eapply Haux; [reflexivity| |].
    + cbn. unfold map_get. by rewrite lookup_insert_eq.
    + intros k Hk. cbn. by rewrite lookup_insert_ne.
Qed.

Lemma destroyed_seg cl' :
  length l = length (map (segmentOf c) l) →
  presynSegments b c' !! cl' =
    if decide (cl' = cl) then (match segs' with [] => None | v => Some v end)
    else presynSegments b c !! cl'.
Proof.
  intros _.
  assert (∀ c1, presynSegments b c' =
            presynSegments b (eraseIfEmpty b cl c1) →
          map_get (presynSegments b c1) cl = segs' →
          map_get (presynSynapses b c1) cl = l' →
          (∀ k, k ≠ cl → presynSegments b c1 !! k = presynSegments b c !! k) →
          presynSegments b c' !! cl' =
            if decide (cl' = cl) then (match segs' with [] => None | v => Some v end)
            else presynSegments b c !! cl') as Haux.
  { intros c1 E1 E2 E2' E3. rewrite E1, eraseIfEmpty_seg, E2.
    - case_decide; [by destruct segs'|]. by apply E3.
    - rewrite E2, E2'. unfold segs', l'.
      rewrite !length_pop_back, !length_insert, length_map. done. }
  unfold c', destroyed, b, cl, l', segs', iy in *.
  destruct (isConnected c d); cbn in *.
  - eapply Haux; [reflexivity| | |].
    + cbn. unfold map_get. by rewrite lookup_insert_eq.
    + cbn. unfold map_get. by rewrite lookup_insert_eq.
    + intros k Hk. cbn. by rewrite lookup_insert_ne.
  - eapply Haux; [reflexivity| | |].
    + cbn. unfold map_get. by rewrite lookup_insert_eq.
    + cbn. unfold map_get. by rewrite lookup_insert_eq.
    + intros k Hk. cbn. by rewrite lookup_insert_ne.
Qed.
End Destroyed.

Lemma destroys_live c y c' y' :
  wf_struct c → destroys c y c' → live c' y' ↔ live c y' ∧ y' ≠ y.
Proof.
  intros W D. unfold live.
  rewrite (ds_segmentOf _ _ _ D), (ds_synapsesOn _ _ _ D).
  case_decide as E.
  - rewrite swap_remove_elem by apply W. done.
  - split; [|tauto]. intros H. split; [done|]. intros ->. done.
Qed.

Section DestroyedWf.
Context (c : Connections) (y : N) (d : SynapseData)
        (sd : SegmentData) (l : list N) (m : N) (dm : SynapseData).
Hypothesis W : wf_struct c.
Hypothesis Hlv : live c y.
Hypothesis Hd : at_N (synapses_ c) y = Some d.
Hypothesis Hsd : at_N (segments_ c) (segment d) = Some sd.
Hypothesis Hl : presynSynapses (connectedB c y) c !! presynapticCell d = Some l.
Hypothesis Hm : last l = Some m.
Hypothesis Hdm : at_N (synapses_ c) m = Some dm.

Let c' := destroyed c y d sd l m dm.
Let b := isConnected c d.
Let cl := presynapticCell d.
Let iy := N.to_nat (presynapticMapIndex_ d).
Let l' := pop_back (<[iy := m]> l).
Let segs' := pop_back (<[iy := segment dm]> (map (segmentOf c) l)).

Local Lemma de_acc :
  segmentOf c y = segment d ∧ presynOf c y = cl ∧
  indexOf c y = presynapticMapIndex_ d ∧ permanenceOf c y = permanence d.
Proof. by apply syn_accessors. Qed.

Local Lemma de_b : connectedB c y = b.
Proof.
  destruct de_acc as (_ & _ & _ & Hp). unfold connectedB, b, isConnected.
  by rewrite Hp.
Qed.

Local Lemma de_lookup y' :
  at_N (synapses_ c') y' =
    if decide (y' = m) then Some (syn_with_index (presynapticMapIndex_ d) dm)
    else at_N (synapses_ c) y'.
Proof.
  unfold c'. rewrite destroyed_synapses. rewrite at_N_set_N by done.
  case_decide; [subst; by rewrite decide_True|by rewrite decide_False].
Qed.

Local Lemma de_at_segments s :
  at_N (segments_ c') s =
    if decide (segment d = s)
    then Some (mkSegmentData (swap_remove y (synapses sd)) (cell sd)
                 (if b then numConnected sd - 1 else numConnected sd)%Z)
    else at_N (segments_ c) s.
Proof. unfold c'. rewrite destroyed_segments. by apply at_N_set_N. Qed.

Lemma destroyed_destroys : destroys c y c'.
Proof.
  destruct de_acc as (Hs & _).
  destruct (destroyed_other c y d sd l m dm)
    as (? & ? & ? & ? & ? & ? & ? & ? & ? & ?).
  constructor; try done.
  - unfold c'. rewrite destroyed_synapses. apply length_set_N.
  - unfold c'. rewrite destroyed_segments. apply length_set_N.
  - intros s. unfold synapsesOn. rewrite de_at_segments, Hs.
    case_decide as E1; case_decide as E2; try congruence.
    subst. by rewrite Hsd.
  - intros s. unfold cellOf. rewrite de_at_segments.
    case_decide; [subst; by rewrite Hsd|done].
  - intros y'. unfold segmentOf. rewrite de_lookup.
    case_decide; [subst; by rewrite Hdm|done].
  - intros y'. unfold presynOf. rewrite de_lookup.
    case_decide; [subst; by rewrite Hdm|done].
  - intros y'. unfold permanenceOf. rewrite de_lookup.
    case_decide; [subst; by rewrite Hdm|done].
Qed.

Local Lemma de_indexOf y' :
  indexOf c' y' = if decide (y' = m) then presynapticMapIndex_ d else indexOf c y'.
Proof. unfold indexOf at 1. rewrite de_lookup. by case_decide. Qed.

Local Lemma de_connectedB y' : connectedB c' y' = connectedB c y'.
Proof.
  unfold connectedB.
  by rewrite (ds_permanenceOf _ _ _ destroyed_destroys),
             (ds_threshold _ _ _ destroyed_destroys).
Qed.

Local Lemma de_numConnectedOf s :
  numConnectedOf c' s =
    if decide (segment d = s)
    then (if b then numConnectedOf c s - 1 else numConnectedOf c s)%Z
    else numConnectedOf c s.
Proof.
  unfold numConnectedOf. rewrite de_at_segments.
  case_decide; [subst; by rewrite Hsd|done].
Qed.

Local Lemma de_slot_b j : slot c' b cl j = l' !! j.
Proof.
  unfold slot. unfold c', b, cl. rewrite destroyed_syn, decide_True by done.
  fold iy. fold l'. by destruct l'.
Qed.

Local Lemma de_slot_other k cl' j :
  (k, cl') ≠ (b, cl) → slot c' k cl' j = slot c k cl' j.
Proof.
  intros Hne. unfold slot.
  destruct (decide (k = b)) as [->|Hk].
  - unfold c', b. rewrite destroyed_syn. rewrite decide_False; [done|].
    intros ->. done.
  - assert (k = negb b) as -> by (by destruct k, b).
    destruct (destroyed_syn_other c y d sd l m dm) as [E _].
    fold b c' in E. by rewrite E.
Qed.

Lemma destroyed_slots : slots_sound c' None ∧ slots_complete c' None.
Proof.
  destruct de_acc as (Hs & Hp & Hi & _).
  pose proof destroyed_destroys as D.
  pose proof (wf_slot_sound _ W) as R1.
  pose proof (wf_slot_complete _ W) as R2.
  pose proof de_b as R0.
  assert (N.to_nat (indexOf c y) = iy) as R3 by (unfold iy; by rewrite Hi).
  assert (presynSynapses b c !! cl = Some l) as R3' by (by rewrite <- R0).
  assert (∀ y', y' ≠ y → live c' y' ↔ live c y') as R4.
  { intros y' Hne. rewrite (destroys_live _ _ _ _ W D). tauto. }
  assert (∀ y', y' ≠ y →
            presynOf c' y' = presynOf c y' ∧ connectedB c' y' = connectedB c y') as R5.
  { intros y' Hne. by rewrite (ds_presynOf _ _ _ D), de_connectedB. }
  assert (∀ y', y' ≠ y →
            indexOf c' y' = if decide (y' = m) then N.of_nat iy else indexOf c y') as R6.
  { intros y' Hne. rewrite de_indexOf.
    case_decide; [|done]. unfold iy. by rewrite N2Nat.id. }
  assert (∀ j, slot c' b cl j = pop_back (<[iy := m]> l) !! j) as R7
    by apply de_slot_b.
  assert (∀ k cl' j, (k, cl') ≠ (b, cl) → slot c' k cl' j = slot c k cl' j) as R8
    by apply de_slot_other.
  assert (slots_sound c' (Some y)) as Hs1
    by (eapply (remove_step_sound c c' y b cl iy l m); eassumption).
  assert (slots_complete c' (Some y)) as Hc1
    by (eapply (remove_step_complete c c' y b cl iy l m); eassumption).
  apply slots_drop with y; try done.
  rewrite (destroys_live _ _ _ _ W D). tauto.
Qed.

Lemma destroyed_presyn_segs k cl' :
  presynSegments k c' !! cl' = map (segmentOf c') <$> presynSynapses k c' !! cl'.
Proof.
  pose proof destroyed_destroys as D.
  assert (∀ o : option (list N),
            map (segmentOf c') <$> o = map (segmentOf c) <$> o) as ->.
  { intros [v|]; simpl; [|done]. f_equal. apply map_ext.
    apply (ds_segmentOf _ _ _ D). }
  pose proof (wf_presyn_segs _ W k cl') as Hw.
  destruct (decide (k = b)) as [->|Hk].
  - unfold c', b. rewrite destroyed_syn, destroyed_seg by (by rewrite length_map).
    fold c' b cl iy l' segs'.
    case_decide; [|done].
    assert (segs' = map (segmentOf c) l') as ->.
    { unfold segs', l'.
      replace (segment dm) with (segmentOf c m)
        by (unfold segmentOf; by rewrite Hdm).
      by rewrite <- list_fmap_insert, pop_back_map. }
    by destruct l'.
  - assert (k = negb b) as -> by (by destruct k, b).
    destruct (destroyed_syn_other c y d sd l m dm) as [E1 E2].
    fold b c' in E1, E2. by rewrite E1, E2.
Qed.

Lemma destroyed_wf_struct : wf_struct c'.
Proof.
  destruct de_acc as (Hs & _).
  pose proof destroyed_destroys as D.
  assert (∀ s y', y' ∈ synapsesOn c' s → y' ∈ synapsesOn c s ∧ y' ≠ y) as Hsub.
  { intros s y'. rewrite (ds_synapsesOn _ _ _ D). case_decide.
    - rewrite swap_remove_elem by apply W. done.
    - intros H'. split; [done|]. intros ->.
      destruct (wf_seg_syn _ W _ _ H'). done. }
  constructor.
  - intros s. rewrite (ds_synapsesOn _ _ _ D).
    case_decide; [apply swap_remove_NoDup|]; apply W.
  - intros s y' H. apply Hsub in H as [H _].
    unfold size_N. rewrite (ds_size_synapses _ _ _ D), (ds_segmentOf _ _ _ D).
    by apply (wf_seg_syn _ W).
  - intros s y1 y2 H1 H2. apply Hsub in H1 as [H1 _]. apply Hsub in H2 as [H2 _].
    rewrite !(ds_presynOf _ _ _ D). by apply (wf_seg_presyn _ W s).
  - intros s. rewrite de_numConnectedOf.
    rewrite (count_if_ext _ (connectedB c)) by (intros; apply de_connectedB).
    rewrite (ds_synapsesOn _ _ _ D), Hs.
    rewrite (wf_numConnected _ W s).
    case_decide as E1; case_decide as E2; try congruence.
    subst s. rewrite <- Hs.
    rewrite (count_if_swap_remove (connectedB c) y) by done.
    rewrite de_b. destruct b; lia.
  - apply destroyed_slots.
  - apply destroyed_slots.
  - apply destroyed_presyn_segs.
  - rewrite (ds_destroyedSynapses _ _ _ D). apply NoDup_app. split; [apply W|].
    split; [|apply NoDup_singleton].
    intros y' H1 H2. apply list_elem_of_singleton in H2 as ->.
    by destruct (wf_destroyedSynapses _ W _ H1).
  - intros y'. rewrite (ds_destroyedSynapses _ _ _ D).
    unfold size_N. rewrite (ds_size_synapses _ _ _ D).
    rewrite (destroys_live _ _ _ _ W D).
    intros [H|H]%elem_of_app.
    + destruct (wf_destroyedSynapses _ W _ H). tauto.
    + apply list_elem_of_singleton in H as ->. split; [|tauto].
      by destruct (wf_seg_syn _ W _ _ Hlv).
  - intros cl0. unfold segmentsOn. rewrite (ds_cells _ _ _ D). apply W.
  - intros cl0 s. unfold segmentsOn. rewrite (ds_cells _ _ _ D).
    unfold size_N. rewrite (ds_size_segments _ _ _ D), (ds_cellOf _ _ _ D). apply W.
  - rewrite (ds_destroyedSegments _ _ _ D). apply W.
  - intros s. rewrite (ds_destroyedSegments _ _ _ D).
    unfold size_N. rewrite (ds_size_segments _ _ _ D).
    intros H. destruct (wf_destroyedSegments _ W s H) as (H1 & H2 & H3).
    repeat split; try done.
    + rewrite (ds_synapsesOn _ _ _ D). case_decide; [|done].
      subst s. unfold live in Hlv. rewrite H2 in Hlv. by apply elem_of_nil in Hlv.
    + intros cl0. unfold segmentsOn. rewrite (ds_cells _ _ _ D). apply H3.
Qed.
End DestroyedWf.

Lemma destroySynapse_spec c y :
  wf c → live c y →
  ∃ c', destroySynapse y c = Some c' ∧ wf c' ∧ destroys c y c'.
Proof.
  intros (W & Hp & Ht) Hlv.
  assert (¬ (permanenceOf c y == -1)%Q) as Hn.
  { destruct (Hp y Hlv) as [H0 _]. destruct constants_in_order as (Hc0 & _).
    intros E. rewrite E in H0. lra. }
  destruct (destroySynapse_eq c y W Hlv Hn)
    as (d & sd & l & m & dm & Hd & Hsd & Hl & Hm & Hdm & He).
  eexists. split; [exact He|].
  assert (destroys c y (destroyed c y d sd l m dm)) as D
    by (by eapply destroyed_destroys).
  split; [|done].
  split; [by apply destroyed_wf_struct|]. split.
  - intros y' Hlv'. rewrite (ds_permanenceOf _ _ _ D).
    apply Hp. apply (destroys_live _ _ _ _ W D) in Hlv'. tauto.
  - unfold bounds_ok, size_N.
    by rewrite (ds_threshold _ _ _ D), (ds_size_synapses _ _ _ D).
Qed.

(** * Sequences of destructions *)

Lemma keeps_refl c : keeps c c.
Proof. by constructor. Qed.

Lemma keeps_trans c1 c2 c3 : keeps c1 c2 → keeps c2 c3 → keeps c1 c3.
Proof. intros [] []. constructor; intros; congruence. Qed.

Lemma destroys_keeps c y c' : destroys c y c' → keeps c c'.
Proof. intros []. by constructor. Qed.

Lemma keeps_segmentsOn c c' cl : keeps c c' → segmentsOn c' cl = segmentsOn c cl.
Proof. intros K. unfold segmentsOn. by rewrite (kp_cells _ _ K). Qed.

Lemma keeps_liveSegment c c' s : keeps c c' → liveSegment c' s ↔ liveSegment c s.
Proof.
  intros K. unfold liveSegment.
  by rewrite (kp_cellOf _ _ K), (keeps_segmentsOn _ _ _ K).
Qed.

Lemma keeps_connectedB c c' y : keeps c c' → connectedB c' y = connectedB c y.
Proof.
  intros K. unfold connectedB.
  by rewrite (kp_permanenceOf _ _ K), (kp_threshold _ _ K).
Qed.

Lemma swap_remove_filter y l :
  NoDup l → swap_remove y l ≡ₚ filter (λ x, x ≠ y) l.
Proof.
  intros Hnd. apply NoDup_Permutation.
  - by apply swap_remove_NoDup.
  - by apply NoDup_filter.
  - intros x. rewrite swap_remove_elem by done. rewrite list_elem_of_filter. tauto.
Qed.

Lemma filter_all {A} (P : A → Prop) `{∀ x, Decision (P x)} (l : list A) :
  (∀ x, x ∈ l → P x) → filter P l = l.
Proof.
  induction l as [|x l IH]; intros HP; [done|].
  rewrite filter_cons_True by (apply HP; by left).
  f_equal. apply IH. intros z Hz. apply HP. by right.
Qed.

(** [destroy_all] on distinct live synapses. *)
Lemma destroy_all_spec ys c :
  wf c → NoDup ys → (∀ y, y ∈ ys → live c y) →
  ∃ c', destroy_all ys c = Some c' ∧ wf c' ∧ keeps c c' ∧
        destroyedSynapses_ c' = destroyedSynapses_ c ++ ys ∧
        ∀ s, synapsesOn c' s ≡ₚ filter (λ x, x ∉ ys) (synapsesOn c s).
Proof.
  revert c. induction ys as [|y ys IH]; intros c W Hnd Hlv.
  - exists c. simpl. split; [done|]. split; [done|].
    split; [apply keeps_refl|]. split; [by rewrite app_nil_r|].
    intros s. rewrite filter_all; [done|]. intros x _. apply not_elem_of_nil.
  - apply NoDup_cons in Hnd as [Hy Hnd].
    destruct (destroySynapse_spec c y W) as (c1 & E1 & W1 & D1); [apply Hlv; by left|].
    destruct (IH c1 W1 Hnd) as (c' & E' & W' & K' & Hd' & Hs').
    { intros y' Hy'. apply (destroys_live _ _ _ _ (proj1 W) D1).
      split; [apply Hlv; by right|]. intros ->. done. }
    exists c'. simpl. rewrite E1. simpl. split; [done|]. split; [done|].
    split; [|split].
    + eapply keeps_trans; [by eapply destroys_keeps|done].
    + rewrite Hd', (ds_destroyedSynapses _ _ _ D1). by rewrite <- app_assoc.
    + intros s. rewrite Hs', (ds_synapsesOn _ _ _ D1).
      assert (filter (λ x, x ∉ y :: ys) (synapsesOn c s) ≡ₚ
              filter (λ x, x ∉ ys) (filter (λ x, x ≠ y) (synapsesOn c s))) as ->.
      { rewrite list_filter_filter. apply NoDup_Permutation.
        - apply NoDup_filter. apply (proj1 W).
        - apply NoDup_filter. apply (proj1 W).
        - intros x. rewrite !list_elem_of_filter, not_elem_of_cons. tauto. }
      case_decide as E.
      * rewrite swap_remove_filter; [done|]. apply (proj1 W).
      * apply NoDup_Permutation.
        -- apply NoDup_filter. apply (proj1 W).
        -- apply NoDup_filter, NoDup_filter. apply (proj1 W).
        -- intros x. rewrite !list_elem_of_filter.
           split; [|tauto]. intros [H1 H2]. repeat split; try done.
           intros ->. destruct (wf_seg_syn _ (proj1 W) _ _ H2) as [_ E'']. congruence.
Qed.

(** The loop of [destroySegment]. *)
Lemma destroySynapses_loop_spec n s c :
  wf c → length (synapsesOn c s) = n → is_Some (at_N (segments_ c) s) →
  ∃ c', destroySynapses_loop n s c = Some c' ∧ wf c' ∧ keeps c c' ∧
        synapsesOn c' s = [] ∧
        (∀ s', s' ≠ s → synapsesOn c' s' = synapsesOn c s') ∧
        destroyedSynapses_ c' ≡ₚ destroyedSynapses_ c ++ synapsesOn c s.
Proof.
  revert c. induction n as [|n IH]; intros c W Hlen [sd Hsd].
  - assert (synapsesOn c s = []) as E by (by apply nil_length_inv).
    assert (synapses sd = []) as E'.
    { unfold synapsesOn in E. by rewrite Hsd in E. }
    exists c. simpl. rewrite Hsd. simpl. rewrite E'. simpl.
    split; [done|]. split; [done|]. split; [apply keeps_refl|].
    split; [done|]. split; [done|]. by rewrite E, app_nil_r.
  - assert (synapsesOn c s = synapses sd) as Eon.
    { unfold synapsesOn. by rewrite Hsd. }
    simpl. rewrite Hsd. simpl.
    destruct (last (synapses sd)) as [y|] eqn:El.
    2:{ apply last_None in El. rewrite Eon, El in Hlen. done. }
    assert (y ∈ synapsesOn c s) as Hy.
    { rewrite Eon. apply last_Some in El as [l' ->].
      apply elem_of_app. right. by left. }
    destruct (synapsesOn_live _ _ _ (proj1 W) Hy) as [Hlv Hseg].
    destruct (destroySynapse_spec c y W Hlv) as (c1 & E1 & W1 & D1).
    rewrite E1. simpl.
    pose proof (ds_synapsesOn _ _ _ D1 s) as Hs1. rewrite decide_True in Hs1 by done.
    destruct (IH c1 W1) as (c' & E' & W' & K' & Hnil & Hoth & Hds).
    { rewrite Hs1. pose proof (swap_remove_length y _ Hy). lia. }
    { apply at_N_is_Some. unfold size_N. rewrite (ds_size_segments _ _ _ D1).
      apply at_N_is_Some. done. }
    exists c'. split; [done|]. split; [done|]. split; [|split; [done|split]].
    + eapply keeps_trans; [by eapply destroys_keeps|done].
    + intros s' Hne. rewrite Hoth by done. rewrite (ds_synapsesOn _ _ _ D1).
      rewrite decide_False; [done|congruence].
    + rewrite Hds, (ds_destroyedSynapses _ _ _ D1), Hs1.
      rewrite <- app_assoc. apply Permutation_app_head. simpl.
      by rewrite <- swap_remove_perm.
Qed.

(** * destroySegment *)

Lemma erase_first_filter s l :
  NoDup l → s ∈ l → erase_first s l = Some (filter (λ x, x ≠ s) l).
Proof.
  unfold erase_first.
  induction l as [|x l IH]; intros Hnd Hs; [by apply elem_of_nil in Hs|].
  apply NoDup_cons in Hnd as [Hx Hnd]. simpl.
  destruct (N.eqb_spec x s) as [->|Hne].
  - simpl. rewrite filter_cons_False by (intros ?; done).
    f_equal. symmetry. apply filter_all. intros z Hz ->. done.
  - apply elem_of_cons in Hs as [->|Hs]; [done|].
    specialize (IH Hnd Hs).
    destruct (find_index s l) as [i|]; [|done]. simpl in *.
    rewrite filter_cons_True by done. congruence.
Qed.

Lemma liveSegment_in_range c s : liveSegment c s → is_Some (at_N (cells_ c) (cellOf c s)).
Proof.
  unfold liveSegment, segmentsOn. intros H.
  destruct (at_N (cells_ c) (cellOf c s)); [done|]. by apply elem_of_nil in H.
Qed.

Lemma segmentsOn_set c c0 cl segs cl' :
  is_Some (at_N (cells_ c0) cl) →
  segmentsOn (with_cells (set_N (cells_ c0) cl (mkCellData segs)) c) cl' =
    if decide (cl' = cl) then segs else segmentsOn c0 cl'.
Proof.
  intros H. unfold segmentsOn. cbn. rewrite at_N_set_N by done.
  case_decide; [subst; by rewrite decide_True|by rewrite decide_False].
Qed.

Lemma destroySegment_spec c s :
  wf c → liveSegment c s →
  ∃ c', destroySegment s c = Some c' ∧ wf c' ∧ segmentDestroyed c s c'.
Proof.
  intros W Hls.
  destruct (wf_cells _ (proj1 W) _ _ Hls) as [Hrange _].
  apply at_N_is_Some in Hrange as [sd Hsd].
  assert (synapsesOn c s = synapses sd) as Eon.
  { unfold synapsesOn. by rewrite Hsd. }
  destruct (destroySynapses_loop_spec (length (synapses sd)) s c W)
    as (c1 & E1 & W1 & K1 & Hnil & Hoth & Hds); [by rewrite Eon|done|].
  unfold destroySegment. rewrite Hsd. cbn [mbind option_bind]. rewrite E1.
  cbn [mbind option_bind].
  assert (is_Some (at_N (segments_ c1) s)) as [sd1 Hsd1].
  { apply at_N_is_Some. unfold size_N. rewrite (kp_size_segments _ _ K1).
    apply at_N_is_Some. done. }
  rewrite Hsd1. cbn [mbind option_bind].
  assert (cell sd1 = cellOf c s) as Ecell.
  { rewrite <- (kp_cellOf _ _ K1). unfold cellOf. by rewrite Hsd1. }
  rewrite Ecell.
  destruct (liveSegment_in_range _ _ Hls) as [cd Hcd].
  rewrite (kp_cells _ _ K1), Hcd. cbn [mbind option_bind].
  assert (segmentsOn c (cellOf c s) = segments cd) as Esegs.
  { unfold segmentsOn. by rewrite Hcd. }
  rewrite erase_first_filter;
    [|rewrite <- Esegs; apply (proj1 W)|rewrite <- Esegs; apply Hls].
  cbn [mbind option_bind].
  eexists. split; [done|].
  set (c' := with_destroyedSegments _ _).
  assert (∀ cl, segmentsOn c' cl = filter (λ x, x ≠ s) (segmentsOn c cl)) as Hon.
  { intros cl. unfold c'.
    change (segmentsOn (with_destroyedSegments ?a ?b) cl) with (segmentsOn b cl).
    rewrite segmentsOn_set by done.
    case_decide; [subst; by rewrite Esegs|].
    symmetry. apply filter_all. intros x Hx ->.
    destruct (wf_cells _ (proj1 W) _ _ Hx). congruence. }
  assert (segmentDestroyed c s c') as D.
  { constructor.
    - unfold c'. cbn. by rewrite length_set_N.
    - exact Hon.
    - unfold c'. cbn. by rewrite (kp_destroyedSegments _ _ K1).
    - exact Hds.
    - intros s'. change (synapsesOn c' s') with (synapsesOn c1 s').
      case_decide; [by subst|by apply Hoth].
    - apply (kp_threshold _ _ K1).
    - apply (kp_timeseries _ _ K1).
    - apply (kp_iteration _ _ K1).
    - apply (kp_previousUpdates _ _ K1).
    - apply (kp_currentUpdates _ _ K1).
    - apply (kp_prunedSyns _ _ K1).
    - apply (kp_prunedSegs _ _ K1).
    - apply (kp_size_synapses _ _ K1).
    - apply (kp_size_segments _ _ K1).
    - apply (kp_cellOf _ _ K1).
    - apply (kp_segmentOf _ _ K1).
    - apply (kp_presynOf _ _ K1).
    - apply (kp_permanenceOf _ _ K1). }
  split; [|done].
  destruct W1 as (W1 & P1 & T1).
  split; [|split].
  - constructor; try apply W1.
    + intros cl. rewrite Hon. apply NoDup_filter. apply (proj1 W).
    + intros cl s'. rewrite Hon. intros [_ H]%list_elem_of_filter.
      unfold size_N. rewrite (sg_size_segments _ _ _ D), (sg_cellOf _ _ _ D).
      by apply (wf_cells _ (proj1 W)).
    + rewrite (sg_destroyedSegments _ _ _ D). apply NoDup_app.
      split; [apply (proj1 W)|]. split; [|apply NoDup_singleton].
      intros s' H1 H2. apply list_elem_of_singleton in H2 as ->.
      destruct (wf_destroyedSegments _ (proj1 W) _ H1) as (_ & _ & H3).
      by apply (H3 (cellOf c s)).
    + intros s'. rewrite (sg_destroyedSegments _ _ _ D).
      unfold size_N. rewrite (sg_size_segments _ _ _ D), (sg_synapsesOn _ _ _ D).
      intros [H|H]%elem_of_app.
      * destruct (wf_destroyedSegments _ (proj1 W) _ H) as (H1 & H2 & H3).
        split; [done|]. split; [by case_decide|].
        intros cl. rewrite Hon. intros [_ H4]%list_elem_of_filter. by apply (H3 cl).
      * apply list_elem_of_singleton in H as ->.
        split; [by apply (wf_cells _ (proj1 W) _ _ Hls)|].
        split; [by rewrite decide_True|].
        intros cl. rewrite Hon. intros [H4 _]%list_elem_of_filter. done.
  - exact P1.
  - exact T1.
Qed.

(** * createSynapse *)

Lemma findDuplicate_spec c presyn syns :
  (∀ y, y ∈ syns → is_Some (at_N (synapses_ c) y)) →
  (∃ y, findDuplicate c presyn syns = Some (Some y) ∧ y ∈ syns ∧ presynOf c y = presyn) ∨
  (findDuplicate c presyn syns = Some None ∧ ∀ y, y ∈ syns → presynOf c y ≠ presyn).
Proof.
  induction syns as [|y syns IH]; intros Hr.
  - right. split; [done|]. intros y H. by apply elem_of_nil in H.
  - destruct (Hr y ltac:(by left)) as [d Hd]. simpl. unfold dataForSynapse.
    rewrite Hd. simpl.
    destruct (N.eqb_spec presyn (presynapticCell d)) as [E|E].
    + left. exists y. split; [done|]. split; [by left|].
      unfold presynOf. by rewrite Hd.
    + destruct IH as [(y' & E1 & E2 & E3)|[E1 E2]].
      * intros z Hz. apply Hr. by right.
      * left. exists y'. split; [done|]. split; [by right|done].
      * right. split; [done|]. intros z [->|Hz]%elem_of_cons; [|by apply E2].
        unfold presynOf. rewrite Hd. congruence.
Qed.

Lemma pop_back_filter (l : list N) y :
  NoDup l → last l = Some y → pop_back l = filter (λ x, x ≠ y) l.
Proof.
  intros Hnd Hl. apply last_Some in Hl as [l' ->].
  rewrite pop_back_app. apply NoDup_app in Hnd as (_ & Hd & _).
  rewrite filter_app. rewrite filter_cons_False by (intros ?; done).
  rewrite filter_nil, app_nil_r. symmetry. apply filter_all.
  intros x Hx ->. apply (Hd y Hx). by left.
Qed.

Lemma allocated_facts c y ca :
  wf_struct c → allocated c y ca →
  ¬ live c y ∧ is_Some (at_N (synapses_ ca) y) ∧
  (∀ y', y' ≠ y → at_N (synapses_ ca) y' = at_N (synapses_ c) y') ∧
  destroyedSynapses_ ca = filter (λ x, x ≠ y) (destroyedSynapses_ c) ∧
  (length (synapses_ c) ≤ length (synapses_ ca))%nat ∧
  cells_ ca = cells_ c ∧ segments_ ca = segments_ c ∧
  destroyedSegments_ ca = destroyedSegments_ c ∧
  connectedThreshold_ ca = connectedThreshold_ c ∧
  timeseries_ ca = timeseries_ c ∧ iteration_ ca = iteration_ c ∧
  previousUpdates_ ca = previousUpdates_ c ∧ currentUpdates_ ca = currentUpdates_ c ∧
  prunedSyns_ ca = prunedSyns_ c ∧ prunedSegs_ ca = prunedSegs_ c ∧
  (∀ k, presynSynapses k ca = presynSynapses k c) ∧
  (∀ k, presynSegments k ca = presynSegments k c).
Proof.
  intros W [[Hl ->]|(Hl & -> & ->)].
  - assert (y ∈ destroyedSynapses_ c) as Hy.
    { apply last_Some in Hl as [l' ->]. apply elem_of_app. right. by left. }
    destruct (wf_destroyedSynapses _ W _ Hy) as [Hr Hn].
    split; [done|]. split; [by apply at_N_is_Some|]. split; [done|].
    split; [cbn; apply pop_back_filter; [apply W|done]|].
    split; [done|]. repeat split; try done; by intros [].
  - assert (¬ live c (size_N (synapses_ c))) as Hn.
    { intros H. destruct (wf_seg_syn _ W _ _ H). lia. }
    split; [done|]. split; [cbn; by rewrite at_N_app_new|].
    split.
    { intros y' Hne. cbn. unfold at_N, size_N in *.
      destruct (decide (N.to_nat y' < length (synapses_ c))%nat).
      - by rewrite lookup_app_l.
      - rewrite !lookup_ge_None_2; [done|lia|]. rewrite length_app. simpl. lia. }
    split.
    { cbn. apply last_None in Hl. by rewrite Hl. }
    split; [cbn; rewrite length_app; lia|].
    repeat split; try done; by intros [].
Qed.

Section Linked.
Context (c ca : Connections) (s : Segment) (presyn : CellIdx) (y : Synapse)
        (sd : SegmentData).
Hypothesis W : wf_struct c.
Hypothesis Hal : allocated c y ca.
Hypothesis Hsd : at_N (segments_ c) s = Some sd.
Hypothesis Hls : liveSegment c s.
Hypothesis Hnodup : ∀ y', y' ∈ synapsesOn c s → presynOf c y' ≠ presyn.

Let c' := linked ca s presyn y sd.
Let lto := map_get (presynSynapses false c) presyn.

Local Lemma lk_alloc :
  ¬ live c y ∧ is_Some (at_N (synapses_ ca) y) ∧
  (∀ y', y' ≠ y → at_N (synapses_ ca) y' = at_N (synapses_ c) y').
Proof.
  destruct (allocated_facts c y ca W Hal) as (? & ? & ? & _). done.
Qed.

Local Lemma lk_lookup y' :
  at_N (synapses_ c') y' =
    if decide (y' = y)
    then Some (mkSynapseData presyn (connectedThreshold_ c - 1)%Q s (size_N lto))
    else at_N (synapses_ c) y'.
Proof.
  destruct (allocated_facts c y ca W Hal)
    as (_ & Hr & Hoth & _ & _ & _ & _ & _ & Ht & _ & _ & _ & _ & _ & _ & Hm & _).
  unfold c', linked. cbn. rewrite at_N_set_N by done.
  case_decide; [subst; rewrite decide_True by done|rewrite decide_False by done].
  - f_equal. unfold lto. rewrite Ht. f_equal.
    specialize (Hm false). cbn in Hm. by rewrite Hm.
  - by apply Hoth.
Qed.

Local Lemma lk_at_segments s' :
  at_N (segments_ c') s' =
    if decide (s = s') then Some (seg_with_synapses (synapses sd ++ [y]) sd)
    else at_N (segments_ c) s'.
Proof.
  destruct (allocated_facts c y ca W Hal)
    as (_ & _ & _ & _ & _ & _ & Hs & _).
  unfold c', linked. cbn. rewrite Hs. by apply at_N_set_N.
Qed.

Lemma linked_segmentOf y' :
  segmentOf c' y' = if decide (y' = y) then s else segmentOf c y'.
Proof. unfold segmentOf at 1. rewrite lk_lookup. by case_decide. Qed.

Lemma linked_presynOf y' :
  presynOf c' y' = if decide (y' = y) then presyn else presynOf c y'.
Proof. unfold presynOf at 1. rewrite lk_lookup. by case_decide. Qed.

Lemma linked_indexOf y' :
  indexOf c' y' = if decide (y' = y) then size_N lto else indexOf c y'.
Proof. unfold indexOf at 1. rewrite lk_lookup. by case_decide. Qed.

Lemma linked_permanenceOf y' :
  permanenceOf c' y' =
    if decide (y' = y) then (connectedThreshold_ c - 1)%Q else permanenceOf c y'.
Proof. unfold permanenceOf at 1. rewrite lk_lookup. by case_decide. Qed.

Lemma linked_threshold : connectedThreshold_ c' = connectedThreshold_ c.
Proof.
  destruct (allocated_facts c y ca W Hal)
    as (_ & _ & _ & _ & _ & _ & _ & _ & Ht & _).
  unfold c', linked. cbn. done.
Qed.

Lemma linked_connectedB y' :
  connectedB c' y' = if decide (y' = y) then false else connectedB c y'.
Proof.
  unfold connectedB. rewrite linked_permanenceOf, linked_threshold.
  case_decide; [|done]. apply Qgeb_false. lra.
Qed.

Lemma linked_synapsesOn s' :
  synapsesOn c' s' = if decide (s' = s) then synapsesOn c s ++ [y] else synapsesOn c s'.
Proof.
  unfold synapsesOn. rewrite lk_at_segments.
  case_decide; [subst; rewrite decide_True by done; by rewrite Hsd|].
  by rewrite decide_False.
Qed.

Lemma linked_cellOf s' : cellOf c' s' = cellOf c s'.
Proof.
  unfold cellOf. rewrite lk_at_segments.
  case_decide; [subst; by rewrite Hsd|done].
Qed.

Lemma linked_numConnectedOf s' : numConnectedOf c' s' = numConnectedOf c s'.
Proof.
  unfold numConnectedOf. rewrite lk_at_segments.
  case_decide; [subst; by rewrite Hsd|done].
Qed.

Lemma linked_live y' : live c' y' ↔ y' = y ∨ live c y'.
Proof.
  destruct lk_alloc as (Hn & _).
  unfold live. rewrite linked_segmentOf, linked_synapsesOn.
  destruct (decide (y' = y)) as [->|E1].
  - rewrite decide_True by done. split; [by left|].
    intros _. apply elem_of_app. right. by left.
  - destruct (decide (segmentOf c y' = s)) as [E2|E2].
    + rewrite elem_of_app, list_elem_of_singleton. rewrite <- E2. tauto.
    + tauto.
Qed.

Lemma linked_slot k cl j :
  slot c' k cl j =
    if decide ((k, cl) = (false, presyn)) then (lto ++ [y]) !! j else slot c k cl j.
Proof.
  destruct (allocated_facts c y ca W Hal)
    as (_ & _ & _ & _ & _ & _ & _ & _ & _ & _ & _ & _ & _ & _ & _ & Hm & _).
  unfold slot, c', linked, pushToPresynapticMaps.
  pose proof (Hm false) as Hf. pose proof (Hm true) as Ht. cbn in Hf, Ht.
  destruct (decide ((k, cl) = (false, presyn))) as [[= -> ->]|Hne].
  - cbn. rewrite Hf. by rewrite lookup_insert_eq.
  - destruct k; cbn.
    + by rewrite Ht.
    + rewrite Hf. rewrite lookup_insert_ne; [done|]. intros ->. done.
Qed.

Local Lemma lk_fields :
  cells_ c' = cells_ c ∧ destroyedSegments_ c' = destroyedSegments_ c ∧
  destroyedSynapses_ c' = filter (λ x, x ≠ y) (destroyedSynapses_ c) ∧
  (length (synapses_ c) ≤ length (synapses_ c'))%nat ∧
  length (segments_ c') = length (segments_ c) ∧
  timeseries_ c' = timeseries_ c ∧ iteration_ c' = iteration_ c ∧
  previousUpdates_ c' = previousUpdates_ c ∧ currentUpdates_ c' = currentUpdates_ c ∧
  prunedSyns_ c' = prunedSyns_ c ∧ prunedSegs_ c' = prunedSegs_ c.
Proof.
  destruct (allocated_facts c y ca W Hal)
    as (_ & _ & _ & H1 & H2 & H3 & H4 & H5 & _ & H6 & H7 & H8 & H9 & H10 & H11 & _).
  unfold c', linked. cbn. rewrite length_set_N, H4, length_set_N.
  repeat split; done.
Qed.

Local Lemma lk_seg_of_live y' : live c y' → y' ≠ y.
Proof. destruct lk_alloc as (Hn & _). intros H ->. done. Qed.

Local Lemma lk_map_segmentOf k cl :
  map (segmentOf c') (map_get (presynSynapses k c) cl) =
  map (segmentOf c) (map_get (presynSynapses k c) cl).
Proof.
  apply map_ext_in. intros y' Hy'. rewrite linked_segmentOf.
  rewrite decide_False; [done|]. apply lk_seg_of_live.
  apply list_elem_of_In, list_elem_of_lookup in Hy' as [j Hj].
  rewrite <- slot_map_get in Hj.
  by destruct (wf_slot_sound _ W _ _ _ _ Hj) as (_ & ? & _).
Qed.

Let c1 := with_presyn false (presynSynapses false c) (presynSegments false c) c'.

Local Lemma lk_c1_acc y' :
  live c1 y' = live c' y' ∧ presynOf c1 y' = presynOf c' y' ∧
  connectedB c1 y' = connectedB c' y' ∧ indexOf c1 y' = indexOf c' y'.
Proof. done. Qed.

Local Lemma lk_slot_c1 k cl j : slot c1 k cl j = slot c k cl j.
Proof.
  unfold slot at 1. unfold c1. rewrite presynSynapses_with_presyn.
  case_bool_decide; [by subst|].
  fold (slot c' k cl j). rewrite linked_slot.
  rewrite decide_False; [done|]. intros [=]. done.
Qed.

Lemma linked_slots : slots_sound c' None ∧ slots_complete c' None.
Proof.
  destruct lk_alloc as (Hn & _).
  assert (slots_sound c1 (Some y) ∧ slots_complete c1 (Some y)) as [Hs1 Hc1].
  { apply (slots_except c c1 y (wf_slot_sound _ W) (wf_slot_complete _ W) Hn).
    - intros y' Hne. destruct (lk_c1_acc y') as (-> & _).
      rewrite linked_live. split; [intros [?|?]; done|by right].
    - intros y' Hne. destruct (lk_c1_acc y') as (_ & -> & -> & ->).
      rewrite linked_presynOf, linked_connectedB, linked_indexOf.
      by rewrite !decide_False by done.
    - apply lk_slot_c1. }
  assert (map_get (presynSynapses false c1) presyn = lto) as A1.
  { unfold c1. by rewrite presynSynapses_with_presyn, bool_decide_eq_true_2. }
  assert (live c' y) as A2 by (apply linked_live; by left).
  assert (connectedB c' y = false) as A3.
  { rewrite linked_connectedB. by rewrite decide_True. }
  assert (presynOf c' y = presyn) as A4.
  { rewrite linked_presynOf. by rewrite decide_True. }
  assert (indexOf c' y = N.of_nat (length lto)) as A5.
  { rewrite linked_indexOf. by rewrite decide_True. }
  assert (∀ y', y' ≠ y → live c' y' ↔ live c1 y') as A6.
  { intros y' _. by destruct (lk_c1_acc y') as (-> & _). }
  assert (∀ y', y' ≠ y →
            presynOf c' y' = presynOf c1 y' ∧ connectedB c' y' = connectedB c1 y' ∧
            indexOf c' y' = indexOf c1 y') as A7.
  { intros y' _. by destruct (lk_c1_acc y') as (_ & -> & -> & ->). }
  assert (∀ j, slot c' false presyn j = (lto ++ [y]) !! j) as A8.
  { intros j. rewrite linked_slot. by rewrite decide_True. }
  assert (∀ k cl' j, (k, cl') ≠ (false, presyn) →
            slot c' k cl' j = slot c1 k cl' j) as A9.
  { intros k cl' j Hne. rewrite lk_slot_c1, linked_slot. by rewrite decide_False. }
  split.
  - eapply (add_step_sound c1 c' y false presyn lto); eassumption.
  - eapply (add_step_complete c1 c' y false presyn lto); eassumption.
Qed.

Local Lemma lk_presyn :
  presynSynapses true c' = presynSynapses true c ∧
  presynSegments true c' = presynSegments true c ∧
  presynSynapses false c' = <[presyn := lto ++ [y]]> (presynSynapses false c) ∧
  presynSegments false c' =
    <[presyn := map_get (presynSegments false c) presyn ++ [s]]>
      (presynSegments false c).
Proof.
  destruct (allocated_facts c y ca W Hal)
    as (_ & _ & _ & _ & _ & _ & _ & _ & _ & _ & _ & _ & _ & _ & _ & Hm & Hm').
  pose proof (Hm false) as Hf. pose proof (Hm true) as Ht.
  pose proof (Hm' false) as Hf'. pose proof (Hm' true) as Ht'.
  cbn in Hf, Ht, Hf', Ht'.
  unfold c', linked, pushToPresynapticMaps, lto. cbn.
  by rewrite Hf, Ht, Hf', Ht'.
Qed.

Lemma linked_presyn_segs k cl :
  presynSegments k c' !! cl = map (segmentOf c') <$> presynSynapses k c' !! cl.
Proof.
  destruct lk_presyn as (P1 & P2 & P3 & P4).
  pose proof (wf_presyn_segs _ W k cl) as Hw.
  assert (map (segmentOf c') <$> presynSynapses k c !! cl =
          map (segmentOf c) <$> presynSynapses k c !! cl) as Hold.
  { pose proof (lk_map_segmentOf k cl) as H. unfold map_get in H.
    destruct (presynSynapses k c !! cl); simpl in *; [by f_equal|done]. }
  destruct k.
  - rewrite P1, P2. by rewrite Hold.
  - rewrite P3, P4.
    destruct (decide (cl = presyn)) as [->|Hne].
    + rewrite !lookup_insert_eq. simpl. f_equal.
      rewrite map_app. simpl. rewrite linked_segmentOf, decide_True by done.
      f_equal. unfold lto. rewrite (lk_map_segmentOf false presyn).
      by apply (map_get_segs c false presyn).
    + rewrite !lookup_insert_ne by done. by rewrite Hold.
Qed.

Lemma linked_wf_struct : wf_struct c'.
Proof.
  destruct lk_alloc as (Hn & Hr & Hoth).
  destruct lk_fields as (F1 & F2 & F3 & F4 & F5 & _).
  assert (y ∉ synapsesOn c s) as Hys.
  { intros H. by destruct (synapsesOn_live _ _ _ W H). }
  assert (size_N (synapses_ c) ≤ size_N (synapses_ c')) as Hsz
    by (unfold size_N; lia).
  assert (y < size_N (synapses_ c')) as Hyr.
  { apply at_N_is_Some. rewrite lk_lookup. by rewrite decide_True. }
  constructor.
  - intros s'. rewrite linked_synapsesOn. case_decide; [|apply W].
    apply NoDup_app. split; [apply W|]. split; [|apply NoDup_singleton].
    intros x Hx Hx'. apply list_elem_of_singleton in Hx' as ->. done.
  - intros s' y'. rewrite linked_synapsesOn, linked_segmentOf.
    destruct (decide (y' = y)) as [->|Hne].
    + destruct (decide (s' = s)) as [->|Hns]; [done|].
      intros Hin. by destruct (synapsesOn_live _ _ _ W Hin).
    + intros Hin. assert (y' ∈ synapsesOn c s') as Hin'.
      { destruct (decide (s' = s)) as [->|Hns]; [|done].
        apply elem_of_app in Hin as [Hin|Hin]; [done|].
        by apply list_elem_of_singleton in Hin. }
      destruct (wf_seg_syn _ W _ _ Hin'). split; [lia|done].
  - intros s' y1 y2. rewrite linked_synapsesOn, !linked_presynOf.
    assert (∀ z, z ∈ (if decide (s' = s) then synapsesOn c s ++ [y]
                      else synapsesOn c s') →
              z = y ∧ s' = s ∨ z ≠ y ∧ z ∈ synapsesOn c s') as Hcase.
    { intros z. destruct (decide (s' = s)) as [->|Hns].
      - intros [Hz|Hz]%elem_of_app.
        + right. split; [|done]. intros ->. done.
        + left. by apply list_elem_of_singleton in Hz.
      - intros Hz. right. split; [|done]. intros ->.
        by destruct (synapsesOn_live _ _ _ W Hz). }
    intros [[-> ->]|[N1 H1]]%Hcase [[-> E]|[N2 H2]]%Hcase; try done.
    + rewrite decide_True by done. rewrite decide_False by done.
      intros E. symmetry in E. by apply Hnodup in E.
    + subst s'. rewrite decide_False by done. rewrite decide_True by done.
      intros E'. by apply Hnodup in E'.
    + rewrite !decide_False by done. by apply (wf_seg_presyn _ W s').
  - intros s'. rewrite linked_numConnectedOf, linked_synapsesOn.
    rewrite (wf_numConnected _ W s').
    f_equal. destruct (decide (s' = s)) as [->|Hns].
    + rewrite count_if_app. simpl.
      rewrite linked_connectedB, decide_True by done.
      rewrite (count_if_ext (connectedB c') (connectedB c)); [lia|].
      intros x Hx. rewrite linked_connectedB. rewrite decide_False; [done|].
      intros ->. done.
    + apply count_if_ext. intros x Hx. rewrite linked_connectedB.
      rewrite decide_False; [done|]. intros ->.
      by destruct (synapsesOn_live _ _ _ W Hx).
  - apply linked_slots.
  - apply linked_slots.
  - apply linked_presyn_segs.
  - rewrite F3. apply NoDup_filter. apply W.
  - intros y'. rewrite F3. intros [Hne Hin]%list_elem_of_filter.
    destruct (wf_destroyedSynapses _ W _ Hin) as [H1 H2].
    split; [lia|]. rewrite linked_live. intros [?|?]; done.
  - intros cl. unfold segmentsOn. rewrite F1. apply W.
  - intros cl s'. unfold segmentsOn. rewrite F1.
    unfold size_N. rewrite F5, linked_cellOf. apply W.
  - rewrite F2. apply W.
  - intros s'. rewrite F2. unfold size_N. rewrite F5.
    intros Hin. destruct (wf_destroyedSegments _ W s' Hin) as (H1 & H2 & H3).
    split; [done|]. split.
    + rewrite linked_synapsesOn. destruct (decide (s' = s)) as [->|Hns]; [|done].
      exfalso. by apply (H3 (cellOf c s)).
    + intros cl. unfold segmentsOn. rewrite F1. apply H3.
Qed.
End Linked.

Lemma liveSegment_at c s : wf_struct c → liveSegment c s → is_Some (at_N (segments_ c) s).
Proof.
  intros W H. apply at_N_is_Some. by apply (wf_cells _ W _ _ H).
Qed.

Lemma synapsesForSegment_on c s sd :
  at_N (segments_ c) s = Some sd →
  synapsesForSegment c s = Some (synapses sd) ∧ synapsesOn c s = synapses sd.
Proof. intros H. unfold synapsesForSegment, synapsesOn. by rewrite H. Qed.

Lemma synapsesOn_in_range c s y :
  wf_struct c → y ∈ synapsesOn c s → is_Some (at_N (synapses_ c) y).
Proof. intros W H. apply at_N_is_Some. by apply (wf_seg_syn _ W _ _ H). Qed.

Lemma createSynapse_new c s presyn p :
  wf c → liveSegment c s →
  (∀ y', y' ∈ synapsesOn c s → presynOf c y' ≠ presyn) →
  (destroyedSynapses_ c = [] → size_N (synapses_ c) < Synapse_max) →
  ∃ c' y, createSynapse s presyn p c = Some (c', y) ∧ wf c' ∧
          created c s presyn p y c'.
Proof.
  intros (W & Hp & Ht & Hcap) Hls Hno Hroom.
  destruct (liveSegment_at _ _ W Hls) as [sd Hsd].
  destruct (synapsesForSegment_on _ _ _ Hsd) as [Hfor Hon].
  unfold createSynapse. rewrite Hfor. cbn [mbind option_bind].
  destruct (findDuplicate_spec c presyn (synapses sd)) as [(y0 & _ & H1 & H2)|[Hfd _]].
  { intros y Hy. apply (synapsesOn_in_range c s); [done|by rewrite Hon]. }
  { exfalso. apply (Hno y0); [by rewrite Hon|done]. }
  rewrite Hfd. cbn [mbind option_bind].
  assert (∃ ca y,
    match last (destroyedSynapses_ c) with
    | Some y => Some (with_destroyedSynapses (pop_back (destroyedSynapses_ c)) c, y)
    | None =>
        if negb (N.ltb (size_N (synapses_ c)) Synapse_max) then None
        else Some (with_synapses (synapses_ c ++ [emptySynapseData]) c,
                   size_N (synapses_ c))
    end = Some (ca, y) ∧ allocated c y ca) as (ca & y & -> & Hal).
  { destruct (last (destroyedSynapses_ c)) as [y|] eqn:El.
    - eexists _, y. split; [done|]. left. by split.
    - assert (size_N (synapses_ c) < Synapse_max) as Hlt.
      { apply Hroom. by apply last_None. }
      apply N.ltb_lt in Hlt. rewrite Hlt. simpl.
      eexists _, _. split; [done|]. right. by split. }
  cbn [mbind option_bind].
  destruct (allocated_facts c y ca W Hal)
    as (Hn & [d0 Hr] & Hoth & A1 & A2 & A3 & A4 & A5 & A6 & A7 & A8 & A9 & A10 & A11 & A12 & Hm & Hm').
  rewrite Hr. cbn [mbind option_bind].
  change (segments_ (pushToPresynapticMaps ?k ?p ?y ?s ?c)) with (segments_ c).
  assert (at_N (segments_ ca) s = Some sd) as Hsda by (by rewrite A4).
  cbn [segments_ with_synapses]. rewrite Hsda. cbn [mbind option_bind].
  match goal with |- context [updateSynapsePermanence y p ?cd] =>
    change cd with (linked ca s presyn y sd) end.
  set (cd := linked ca s presyn y sd).
  assert (wf_struct cd) as Wd by (by apply (linked_wf_struct c ca s presyn y sd)).
  assert (live cd y) as Hlvd.
  { apply (linked_live c ca s presyn y sd); try done. by left. }
  destruct (updateSynapsePermanence_spec cd y p Wd Hlvd) as (c' & E' & W' & F' & P').
  rewrite E'. cbn [mbind option_bind].
  exists c', y. split; [done|].
  destruct (lk_fields c ca s presyn y sd W Hal)
    as (F1 & F2 & F3 & F4 & F5 & F6 & F7 & F8 & F9 & F10 & F11).
  fold cd in F1, F2, F3, F4, F5, F6, F7, F8, F9, F10, F11.
  assert (created c s presyn p y c') as C.
  { constructor.
    - done.
    - by rewrite (fr_cells _ _ F').
    - by rewrite (fr_destroyedSegments _ _ F').
    - by rewrite (fr_destroyedSynapses _ _ F').
    - rewrite (fr_threshold _ _ F'). by apply (linked_threshold c ca s presyn y sd).
    - by rewrite (fr_timeseries _ _ F').
    - by rewrite (fr_iteration _ _ F').
    - by rewrite (fr_previousUpdates _ _ F').
    - by rewrite (fr_currentUpdates _ _ F').
    - by rewrite (fr_prunedSyns _ _ F').
    - by rewrite (fr_prunedSegs _ _ F').
    - by rewrite (fr_size_segments _ _ F').
    - by rewrite (fr_size_synapses _ _ F').
    - intros s'. rewrite (fr_synapsesOn _ _ F').
      by apply (linked_synapsesOn c ca s presyn y sd).
    - intros s'. rewrite (fr_cellOf _ _ F').
      by apply (linked_cellOf c ca s presyn y sd).
    - intros y'. rewrite (fr_segmentOf _ _ F').
      by apply (linked_segmentOf c ca s presyn y sd).
    - intros y'. rewrite (fr_presynOf _ _ F').
      by apply (linked_presynOf c ca s presyn y sd).
    - intros y'. rewrite P'. case_decide; [done|].
      unfold cd. rewrite (linked_permanenceOf c ca s presyn y sd) by done.
      by rewrite decide_False. }
  split; [|done].
  split; [done|]. split.
  - intros y' Hlv'. rewrite (cr_permanenceOf _ _ _ _ _ _ C).
    case_decide; [apply clamp_range|].
    apply Hp. apply (frame_live _ _ _ F') in Hlv'.
    apply (linked_live c ca s presyn y sd) in Hlv'; try done. by destruct Hlv'.
  - split; [by rewrite (cr_threshold _ _ _ _ _ _ C)|].
    unfold size_N. rewrite (fr_size_synapses _ _ F').
    unfold cd, linked. cbn. rewrite length_set_N.
    destruct Hal as [[_ ->]|(El & -> & ->)]; cbn; [done|].
    rewrite length_app. simpl.
    assert (size_N (synapses_ c) < Synapse_max) as Hlt.
    { apply Hroom. by apply last_None. }
    unfold size_N in *. lia.
Qed.

Lemma createSynapse_dup c s presyn p y :
  wf c → y ∈ synapsesOn c s → presynOf c y = presyn →
  ∃ c', createSynapse s presyn p c = Some (c', y) ∧ wf c' ∧ frame c c' ∧
        (∀ y', permanenceOf c' y' =
           if decide (y' = y)
           then (if Qltb (permanenceOf c y) p then clamp p else permanenceOf c y)
           else permanenceOf c y') ∧
        (Qltb (permanenceOf c y) p = false → c' = c).
Proof.
  intros W Hy Hpre.
  destruct (synapsesOn_live _ _ _ (proj1 W) Hy) as [Hlv Hseg].
  assert (is_Some (at_N (segments_ c) s)) as [sd Hsd].
  { unfold synapsesOn in Hy. destruct (at_N (segments_ c) s); [done|].
    by apply elem_of_nil in Hy. }
  destruct (synapsesForSegment_on _ _ _ Hsd) as [Hfor Hon].
  unfold createSynapse. rewrite Hfor. cbn [mbind option_bind].
  destruct (findDuplicate_spec c presyn (synapses sd)) as [(y0 & Hfd & H1 & H2)|[_ Hno]].
  { intros z Hz. apply (synapsesOn_in_range c s); [apply W|by rewrite Hon]. }
  2:{ exfalso. apply (Hno y); [by rewrite <- Hon|done]. }
  assert (y0 = y) as ->.
  { apply (wf_seg_presyn _ (proj1 W) s); [by rewrite Hon|done|congruence]. }
  rewrite Hfd. cbn [mbind option_bind].
  destruct (live_in_range _ _ (proj1 W) Hlv) as [d Hd]. rewrite Hd.
  cbn [mbind option_bind].
  assert (permanenceOf c y = permanence d) as Hperm.
  { unfold permanenceOf. by rewrite Hd. }
  rewrite <- Hperm.
  destruct (Qltb (permanenceOf c y) p) eqn:Elt.
  - destruct (updateSynapsePermanence_wf c y p W Hlv) as (c' & E' & W' & F' & P').
    rewrite E'. cbn [mbind option_bind].
    exists c'. repeat (split; [done|]). done.
  - exists c. split; [done|]. split; [done|]. split; [apply frame_refl|].
    split; [|done]. intros y'. by case_decide; subst.
Qed.

(** * initialize *)

Lemma at_N_nil {A} i : at_N (@nil A) i = None.
Proof. unfold at_N. apply lookup_nil. Qed.

Lemma initialize_wf n t ts c :
  initialize n t ts = Some c → wf c ∧ numCells c = n ∧ connectedThreshold_ c = (t - Epsilon)%Q.
Proof.
  unfold initialize.
  destruct (Qgeb t minPermanence) eqn:E1; [|done].
  destruct (Qgeb maxPermanence t) eqn:E2; [|done].
  simpl. intros [= <-].
  apply Qgeb_true in E1, E2.
  split; [|split; [|done]].
  - assert (∀ s, synapsesOn
      (mkConnections (replicate (N.to_nat n) (mkCellData [])) [] [] [] []
         (t - Epsilon)%Q 0 ∅ ∅ ∅ ∅ ts [] [] 0 0) s = []) as Hon.
    { intros s. unfold synapsesOn. cbn. by rewrite at_N_nil. }
    assert (∀ cl, segmentsOn
      (mkConnections (replicate (N.to_nat n) (mkCellData [])) [] [] [] []
         (t - Epsilon)%Q 0 ∅ ∅ ∅ ∅ ts [] [] 0 0) cl = []) as Hcells.
    { intros cl. unfold segmentsOn, at_N. cbn.
      destruct (replicate (N.to_nat n) (mkCellData []) !! N.to_nat cl) as [cd|] eqn:E;
        [|done].
      apply lookup_replicate in E as [-> _]. done. }
    split; [|split].
    + constructor.
      * intros s. rewrite Hon. apply NoDup_nil_2.
      * intros s y. rewrite Hon. intros H. by apply elem_of_nil in H.
      * intros s y1 y2. rewrite Hon. intros H. by apply elem_of_nil in H.
      * intros s. rewrite Hon. unfold numConnectedOf. cbn. by rewrite at_N_nil.
      * intros k cl i y. unfold slot. destruct k; cbn; by rewrite lookup_empty.
      * intros y. unfold live. rewrite Hon. intros H. by apply elem_of_nil in H.
      * intros k cl. destruct k; cbn; by rewrite !lookup_empty.
      * cbn. apply NoDup_nil_2.
      * cbn. intros y H. by apply elem_of_nil in H.
      * intros cl. rewrite Hcells. apply NoDup_nil_2.
      * intros cl s. rewrite Hcells. intros H. by apply elem_of_nil in H.
      * cbn. apply NoDup_nil_2.
      * cbn. intros y H. by apply elem_of_nil in H.
    + intros y. unfold live. rewrite Hon. intros H. by apply elem_of_nil in H.
    + split; cbn; [destruct constants_in_order as (_ & _ & _ & He); lra|done].
  - unfold numCells, size_N. cbn. rewrite length_replicate. lia.
Qed.

(** * pruneSegment_ *)

Lemma heuristic_loop_eq c syns h :
  (∀ y, y ∈ syns → is_Some (at_N (synapses_ c) y)) →
  heuristic_loop c syns h =
    Some (fold_left (λ h y, h + permanenceOf c y * permanenceOf c y)%Q syns h).
Proof.
  revert h. induction syns as [|y syns IH]; intros h Hr; [done|].
  destruct (Hr y ltac:(by left)) as [d Hd].
  assert (permanenceOf c y = permanence d) as Hp.
  { unfold permanenceOf. by rewrite Hd. }
  simpl. unfold dataForSynapse.
  rewrite Hd. simpl. rewrite IH by (intros z Hz; apply Hr; by right).
  by rewrite Hp.
Qed.

Lemma segmentHeuristic_eq c s :
  wf_struct c → is_Some (at_N (segments_ c) s) →
  segmentHeuristic c s = Some (usefulness c s).
Proof.
  intros W [sd Hsd]. destruct (synapsesForSegment_on _ _ _ Hsd) as [Hfor Hon].
  unfold segmentHeuristic, usefulness. rewrite Hfor, Hon. simpl.
  apply heuristic_loop_eq. intros y Hy.
  apply (synapsesOn_in_range c s); [done|by rewrite Hon].
Qed.

Lemma fold_squares_bound c syns h :
  (∀ y, y ∈ syns → (0 <= permanenceOf c y)%Q ∧ (permanenceOf c y <= 1)%Q) →
  (h <= fold_left (λ h y, h + permanenceOf c y * permanenceOf c y)%Q syns h)%Q ∧
  (fold_left (λ h y, h + permanenceOf c y * permanenceOf c y)%Q syns h
     <= h + inject_Z (Z.of_nat (length syns)))%Q.
Proof.
  revert h. induction syns as [|y syns IH]; intros h Hr.
  - cbn [fold_left length]. change (inject_Z (Z.of_nat 0)) with 0%Q. lra.
  - destruct (Hr y ltac:(by left)) as [H0 H1].
    assert (0 <= permanenceOf c y * permanenceOf c y)%Q as Hsq0
      by (by apply Qmult_le_0_compat).
    assert (permanenceOf c y * permanenceOf c y <= 1)%Q as Hsq1.
    { pose proof (Qmult_le_compat_r _ _ (permanenceOf c y) H1 H0) as Hm.
      lra. }
    destruct (IH (h + permanenceOf c y * permanenceOf c y)%Q) as [I1 I2].
    { intros z Hz. apply Hr. by right. }
    cbn [fold_left length]. rewrite Nat2Z.inj_succ. unfold Z.succ.
    rewrite inject_Z_plus. split; [lra|].
    change (inject_Z 1) with 1%Q. lra.
Qed.

Lemma NoDup_bounded_length (l : list N) n :
  NoDup l → (∀ x, x ∈ l → x < N.of_nat n) → (length l ≤ n)%nat.
Proof.
  intros Hnd Hb.
  assert (l ⊆+ map N.of_nat (seq 0 n)) as Hsub.
  { apply NoDup_submseteq; [done|]. intros x Hx.
    apply list_elem_of_fmap. exists (N.to_nat x). split; [lia|].
    apply elem_of_seq. specialize (Hb x Hx). lia. }
  apply submseteq_length in Hsub. by rewrite length_map, length_seq in Hsub.
Qed.

Lemma usefulness_bound c s :
  wf c → (0 <= usefulness c s)%Q ∧ (usefulness c s < DBL_MAX)%Q.
Proof.
  intros (W & Hp & Ht & Hcap).
  destruct (fold_squares_bound c (synapsesOn c s) 0%Q) as [H0 H1].
  { intros y Hy. destruct constants_in_order as (Hc0 & _ & Hc1 & _).
    destruct (Hp y) as [Hlo Hhi]; [by apply (synapsesOn_live c s)|]. lra. }
  fold (usefulness c s) in H0, H1. split; [done|].
  assert (length (synapsesOn c s) ≤ length (synapses_ c))%nat as Hlen.
  { apply NoDup_bounded_length; [apply W|].
    intros y Hy. by apply (wf_seg_syn _ W s). }
  assert (inject_Z (Z.of_nat (length (synapsesOn c s))) <= inject_Z 4294967295)%Q as Hle.
  { rewrite <- Zle_Qle. unfold size_N, Synapse_max in Hcap. lia. }
  assert (inject_Z 4294967295 < DBL_MAX)%Q as Hmax.
  { unfold DBL_MAX. rewrite <- Zlt_Qlt. by vm_compute. }
  lra.
Qed.

Lemma replaces_false x r :
  replaces x r = false ↔ (r.2 <= x.2)%Q ∧ ((x.2 == r.2)%Q → r.1 ≤ x.1).
Proof.
  unfold replaces. rewrite orb_false_iff, andb_false_iff.
  rewrite Qltb_false, Qeqb_false, N.ltb_ge.
  destruct (Qeq_dec x.2 r.2); tauto.
Qed.

Lemma replaces_true x r :
  replaces x r = true ↔ (x.2 < r.2)%Q ∨ ((x.2 == r.2)%Q ∧ x.1 < r.1).
Proof.
  unfold replaces. rewrite orb_true_iff, andb_true_iff.
  rewrite Qltb_true, Qeqb_true, N.ltb_lt. tauto.
Qed.

Lemma replaces_false_trans x y z :
  replaces y x = false → replaces z y = false → replaces z x = false.
Proof.
  rewrite !replaces_false. intros [H1 H2] [H3 H4]. split; [lra|].
  intros E. assert (y.2 == x.2)%Q as E1 by lra. assert (z.2 == y.2)%Q as E2 by lra.
  specialize (H2 E1). specialize (H4 E2). lia.
Qed.

Lemma replaces_true_false x r : replaces x r = true → replaces r x = false.
Proof.
  rewrite replaces_true, replaces_false. intros [H|[H1 H2]].
  - split; [lra|]. intros E. lra.
  - split; [lra|]. intros _. lia.
Qed.

Lemma leastUseful_loop_spec c segs best :
  wf_struct c → (∀ s, s ∈ segs → is_Some (at_N (segments_ c) s)) →
  ∃ r, leastUseful_loop c segs best = Some r ∧
       replaces best r = false ∧
       (∀ s, s ∈ segs → replaces (s, usefulness c s) r = false) ∧
       (r = best ∨ ∃ s, s ∈ segs ∧ r = (s, usefulness c s)).
Proof.
  intros W. revert best. induction segs as [|s segs IH]; intros best Hr.
  - exists best. split; [done|]. split.
    + apply replaces_false. split; [lra|]. intros _. lia.
    + split; [|by left]. intros s H. by apply elem_of_nil in H.
  - simpl. rewrite segmentHeuristic_eq by (try done; apply Hr; by left).
    cbn [mbind option_bind]. destruct best as [bs bh].
    destruct (replaces (s, usefulness c s) (bs, bh)) eqn:E;
      pose proof E as E'; unfold replaces in E'; cbn [fst snd] in E'; rewrite E'.
    + destruct (IH (s, usefulness c s)) as (r & E1 & E2 & E3 & E4).
      { intros z Hz. apply Hr. by right. }
      exists r. split; [done|]. split; [|split].
      * eapply replaces_false_trans; [exact E2|by apply replaces_true_false].
      * intros z [->|Hz]%elem_of_cons; [done|by apply E3].
      * right. destruct E4 as [->|(z & Hz & ->)].
        -- exists s. split; [by left|done].
        -- exists z. split; [by right|done].
    + destruct (IH (bs, bh)) as (r & E1 & E2 & E3 & E4).
      { intros z Hz. apply Hr. by right. }
      exists r. split; [done|]. split; [done|]. split.
      * intros z [->|Hz]%elem_of_cons; [|by apply E3].
        eapply replaces_false_trans; [exact E2|exact E].
      * destruct E4 as [->|(z & Hz & ->)]; [by left|].
        right. exists z. split; [by right|done].
Qed.

Lemma leastUsefulSegment_spec c cl :
  wf c → segmentsOn c cl ≠ [] →
  ∃ victim, leastUsefulSegment c cl = Some victim ∧ victim ∈ segmentsOn c cl ∧
    ∀ s, s ∈ segmentsOn c cl →
      (usefulness c victim <= usefulness c s)%Q ∧
      ((usefulness c s == usefulness c victim)%Q → victim ≤ s).
Proof.
  intros W Hne.
  assert (is_Some (at_N (cells_ c) cl)) as [cd Hcd].
  { unfold segmentsOn in Hne. by destruct (at_N (cells_ c) cl). }
  assert (segmentsOn c cl = segments cd) as Hon.
  { unfold segmentsOn. by rewrite Hcd. }
  unfold leastUsefulSegment, segmentsForCell. rewrite Hcd. cbn [fmap option_fmap option_map mbind option_bind].
  destruct (leastUseful_loop_spec c (segments cd) (Segment_max, DBL_MAX) (proj1 W))
    as (r & E1 & E2 & E3 & E4).
  { intros s Hs. apply at_N_is_Some.
    apply (wf_cells _ (proj1 W) cl). by rewrite Hon. }
  rewrite E1. cbn.
  destruct E4 as [->|(s & Hs & ->)].
  - exfalso. destruct (segments cd) as [|s0 segs] eqn:Es; [congruence|].
    specialize (E3 s0 ltac:(by left)). apply replaces_false in E3 as [E3 _].
    destruct (usefulness_bound c s0 W). simpl in E3. lra.
  - exists s. split; [done|]. split; [by rewrite Hon|].
    intros z Hz. rewrite Hon in Hz. specialize (E3 z Hz).
    by apply replaces_false in E3.
Qed.

(** * createSegment *)

Lemma createSegment_unfold cl max c :
  0 < max → cl < numCells c →
  createSegment cl max c =
    pruneSegments_loop (S (length (segmentsOn c cl))) cl max c ≫= allocSegment cl.
Proof.
  intros Hm Hc. unfold createSegment.
  apply N.ltb_lt in Hm as ->. pose proof Hc as Hc'. apply N.ltb_lt in Hc' as ->.
  cbn [negb]. apply at_N_is_Some in Hc as [cd Hcd].
  unfold segmentsForCell, segmentsOn. rewrite Hcd. cbn [fmap option_fmap option_map mbind option_bind].
  done.
Qed.

Lemma segmentCreated_wf c cl s c' :
  wf c → segmentCreated c cl s c' → wf c'.
Proof.
  intros (W & Hp & Ht & Hcap) C.
  assert (∀ y, segmentOf c' y = segmentOf c y) as Hseg.
  { intros y. unfold segmentOf. by rewrite (sc_synapses _ _ _ _ C). }
  assert (∀ y, presynOf c' y = presynOf c y) as Hpre.
  { intros y. unfold presynOf. by rewrite (sc_synapses _ _ _ _ C). }
  assert (∀ y, indexOf c' y = indexOf c y) as Hidx.
  { intros y. unfold indexOf. by rewrite (sc_synapses _ _ _ _ C). }
  assert (∀ y, permanenceOf c' y = permanenceOf c y) as Hperm.
  { intros y. unfold permanenceOf. by rewrite (sc_synapses _ _ _ _ C). }
  assert (∀ y, connectedB c' y = connectedB c y) as Hcon.
  { intros y. unfold connectedB. by rewrite Hperm, (sc_threshold _ _ _ _ C). }
  assert (∀ y, live c' y ↔ live c y) as Hlive.
  { intros y. unfold live. by rewrite Hseg, (sc_synapsesOn _ _ _ _ C). }
  assert (∀ k cl' j, slot c' k cl' j = slot c k cl' j) as Hslot.
  { intros k cl' j. unfold slot. by rewrite (sc_presynSynapses _ _ _ _ C). }
  assert (synapsesOn c s = []) as Hnew.
  { rewrite <- (sc_synapsesOn _ _ _ _ C). apply (sc_synapsesOn_new _ _ _ _ C). }
  split; [|split].
  - constructor.
    + intros s'. rewrite (sc_synapsesOn _ _ _ _ C). apply W.
    + intros s' y. rewrite (sc_synapsesOn _ _ _ _ C), Hseg, (sc_synapses _ _ _ _ C).
      apply W.
    + intros s' y1 y2. rewrite (sc_synapsesOn _ _ _ _ C), !Hpre.
      apply (wf_seg_presyn _ W).
    + intros s'. rewrite (sc_numConnectedOf _ _ _ _ C), (sc_synapsesOn _ _ _ _ C).
      rewrite (count_if_ext _ (connectedB c)) by (intros; apply Hcon).
      case_decide; [subst; by rewrite Hnew|apply W].
    + intros k cl' j y. rewrite Hslot, Hlive, Hpre, Hidx, Hcon. apply W.
    + intros y. rewrite Hlive, Hpre, Hidx, Hcon, Hslot. apply W.
    + intros k cl'. rewrite (sc_presynSegments _ _ _ _ C), (sc_presynSynapses _ _ _ _ C).
      rewrite (wf_presyn_segs _ W).
      destruct (presynSynapses k c !! cl'); simpl; [|done].
      f_equal. apply map_ext. intros. by rewrite Hseg.
    + rewrite (sc_destroyedSynapses _ _ _ _ C). apply W.
    + intros y. rewrite (sc_destroyedSynapses _ _ _ _ C), Hlive, (sc_synapses _ _ _ _ C).
      apply W.
    + intros cl'. rewrite (sc_segmentsOn _ _ _ _ C). case_decide; [|apply W].
      apply NoDup_app. split; [apply W|]. split; [|apply NoDup_singleton].
      intros x Hx Hx'. apply list_elem_of_singleton in Hx' as ->.
      by apply (sc_fresh _ _ _ _ C cl).
    + intros cl' s'. rewrite (sc_segmentsOn _ _ _ _ C), (sc_cellOf _ _ _ _ C).
      pose proof (sc_size_segments _ _ _ _ C) as Hsz.
      pose proof (sc_in_range _ _ _ _ C) as Hin.
      destruct (decide (s' = s)) as [->|Hne].
      * destruct (decide (cl' = cl)) as [->|Hnc]; [done|].
        intros Hx. by apply (sc_fresh _ _ _ _ C) in Hx.
      * intros Hx. assert (s' ∈ segmentsOn c cl') as Hx'.
        { destruct (decide (cl' = cl)) as [->|Hnc]; [|done].
          apply elem_of_app in Hx as [Hx|Hx]; [done|].
          by apply list_elem_of_singleton in Hx. }
        destruct (wf_cells _ W _ _ Hx'). unfold size_N in *. split; [lia|done].
    + rewrite (sc_destroyedSegments _ _ _ _ C). apply NoDup_filter. apply W.
    + intros s'. rewrite (sc_destroyedSegments _ _ _ _ C).
      intros [Hne Hin]%list_elem_of_filter.
      destruct (wf_destroyedSegments _ W _ Hin) as (H1 & H2 & H3).
      pose proof (sc_size_segments _ _ _ _ C) as Hsz.
      split; [unfold size_N in *; lia|].
      split; [by rewrite (sc_synapsesOn _ _ _ _ C)|].
      intros cl'. rewrite (sc_segmentsOn _ _ _ _ C).
      destruct (decide (cl' = cl)) as [->|Hnc]; [|apply H3].
      intros [Hx|Hx]%elem_of_app; [by apply (H3 cl)|].
      by apply list_elem_of_singleton in Hx.
  - intros y. rewrite Hlive, Hperm. apply Hp.
  - split; [by rewrite (sc_threshold _ _ _ _ C)|].
    by rewrite (sc_synapses _ _ _ _ C).
Qed.

Lemma allocSegment_spec cl c :
  wf c → cl < numCells c →
  (destroyedSegments_ c = [] → size_N (segments_ c) < Segment_max) →
  ∃ c' s, allocSegment cl c = Some (c', s) ∧ segmentCreated c cl s c' ∧
          (last (destroyedSegments_ c) = Some s ∨
           destroyedSegments_ c = [] ∧ s = size_N (segments_ c)).
Proof.
  intros W Hcl Hroom. pose proof (proj1 W) as Ws.
  apply at_N_is_Some in Hcl as [cd Hcd].
  assert (segmentsOn c cl = segments cd) as Hon.
  { unfold segmentsOn. by rewrite Hcd. }
  unfold allocSegment.
  destruct (last (destroyedSegments_ c)) as [s|] eqn:El.
  - assert (s ∈ destroyedSegments_ c) as Hs.
    { apply last_Some in El as [l' ->]. apply elem_of_app. right. by left. }
    destruct (wf_destroyedSegments _ Ws _ Hs) as (Hr & Hnil & Hnot).
    pose proof Hr as Hr'. apply at_N_is_Some in Hr' as [sd0 Hsd0].
    rewrite Hsd0. cbn [mbind option_bind]. cbn [cells_ with_segments with_destroyedSegments].
    rewrite Hcd. cbn [mbind option_bind].
    eexists _, s. split; [done|]. split; [|by left].
    set (c' := with_cells _ _).
    assert (∀ s', at_N (segments_ c') s' =
              if decide (s = s') then Some (newSegmentData cl) else at_N (segments_ c) s')
      as Hat.
    { intros s'. unfold c'. cbn. by apply at_N_set_N. }
    constructor.
    + exact Hnot.
    + unfold c'. cbn. apply length_set_N.
    + intros cl'. unfold c'. rewrite segmentsOn_set by (cbn; done).
      change (segmentsOn (with_segments ?a (with_destroyedSegments ?b c)) cl')
        with (segmentsOn c cl').
      case_decide; [by rewrite Hon|done].
    + unfold c'. cbn. apply pop_back_filter; [apply Ws|done].
    + intros s'. unfold synapsesOn. rewrite Hat.
      case_decide; [subst|done]. cbn. unfold synapsesOn in Hnil. by rewrite Hnil.
    + unfold synapsesOn. rewrite Hat. by rewrite decide_True.
    + intros s'. unfold cellOf. rewrite Hat.
      case_decide; [subst; by rewrite decide_True|by rewrite decide_False].
    + intros s'. unfold numConnectedOf. rewrite Hat.
      case_decide; [subst; by rewrite decide_True|by rewrite decide_False].
    + unfold c'. cbn. by rewrite length_set_N.
    + unfold c', size_N. cbn. rewrite length_set_N. apply Hr.
    + done.
    + done.
    + done.
    + by intros [].
    + by intros [].
    + done.
    + done.
    + done.
    + done.
    + done.
    + done.
  - apply last_None in El.
    assert (size_N (segments_ c) < Segment_max) as Hlt by (by apply Hroom).
    apply N.ltb_lt in Hlt. rewrite Hlt. cbn [negb mbind option_bind].
    cbn [cells_ with_segments]. rewrite Hcd. cbn [mbind option_bind].
    eexists _, _. split; [done|]. split; [|by right].
    set (c' := with_cells _ _).
    assert (∀ s', s' ≠ size_N (segments_ c) →
              at_N (segments_ c') s' = at_N (segments_ c) s') as Hat.
    { intros s' Hne. unfold c'. cbn. unfold at_N, size_N in *.
      destruct (decide (N.to_nat s' < length (segments_ c))%nat).
      - by rewrite lookup_app_l.
      - rewrite !lookup_ge_None_2; [done|lia|]. rewrite length_app. simpl. lia. }
    assert (at_N (segments_ c') (size_N (segments_ c)) = Some (newSegmentData cl)) as Hnew.
    { unfold c'. cbn. apply at_N_app_new. }
    assert (at_N (segments_ c) (size_N (segments_ c)) = None) as Hnone.
    { unfold at_N, size_N. apply lookup_ge_None_2. lia. }
    constructor.
    + intros cl' Hx. destruct (wf_cells _ Ws _ _ Hx). lia.
    + unfold c'. cbn. apply length_set_N.
    + intros cl'. unfold c'. rewrite segmentsOn_set by (cbn; done).
      change (segmentsOn (with_segments ?a c) cl') with (segmentsOn c cl').
      case_decide; [by rewrite Hon|done].
    + unfold c'. cbn. rewrite El. done.
    + intros s'. unfold synapsesOn.
      destruct (decide (s' = size_N (segments_ c))) as [->|Hne].
      * by rewrite Hnew, Hnone.
      * by rewrite Hat.
    + unfold synapsesOn. by rewrite Hnew.
    + intros s'. unfold cellOf.
      case_decide; [subst; by rewrite Hnew|by rewrite Hat].
    + intros s'. unfold numConnectedOf.
      case_decide; [subst; by rewrite Hnew|by rewrite Hat].
    + unfold c'. cbn. rewrite length_app. lia.
    + unfold c', size_N. cbn. rewrite length_app. simpl. lia.
    + done.
    + done.
    + done.
    + by intros [].
    + by intros [].
    + done.
    + done.
    + done.
    + done.
    + done.
    + done.
Qed.

(** The pruning loop of [createSegment]. *)
Lemma segmentsOn_nonempty_range c cl : segmentsOn c cl ≠ [] → cl < numCells c.
Proof.
  unfold segmentsOn, numCells. intros H. apply at_N_is_Some.
  by destruct (at_N (cells_ c) cl).
Qed.

Lemma pruneSegments_loop_stop fuel cl max c :
  cl < numCells c → size_N (segmentsOn c cl) < max →
  pruneSegments_loop fuel cl max c = Some c.
Proof.
  intros Hcl Hlt. apply at_N_is_Some in Hcl as [cd Hcd].
  assert (segmentsOn c cl = segments cd) as Hon.
  { unfold segmentsOn. by rewrite Hcd. }
  destruct fuel; simpl; unfold segmentsForCell; rewrite Hcd; simpl;
    rewrite <- Hon; apply N.leb_gt in Hlt; by rewrite Hlt.
Qed.

Lemma pruneSegments_loop_step fuel cl max c :
  cl < numCells c → max ≤ size_N (segmentsOn c cl) →
  pruneSegments_loop (S fuel) cl max c =
    pruneSegment_ cl c ≫= pruneSegments_loop fuel cl max.
Proof.
  intros Hcl Hle. apply at_N_is_Some in Hcl as [cd Hcd].
  assert (segmentsOn c cl = segments cd) as Hon.
  { unfold segmentsOn. by rewrite Hcd. }
  simpl. unfold segmentsForCell. rewrite Hcd. simpl.
  rewrite <- Hon. apply N.leb_le in Hle. by rewrite Hle.
Qed.

Lemma filter_ne_length (l : list N) s :
  NoDup l → s ∈ l → length l = S (length (filter (λ x, x ≠ s) l)).
Proof.
  intros Hnd Hs.
  rewrite <- (Permutation_length (swap_remove_filter s l Hnd)).
  by apply swap_remove_length.
Qed.

Lemma pruneSegment_spec cl c :
  wf c → segmentsOn c cl ≠ [] →
  ∃ victim c', leastUsefulSegment c cl = Some victim ∧
               victim ∈ segmentsOn c cl ∧
               pruneSegment_ cl c = Some c' ∧ destroySegment victim c = Some c' ∧
               wf c' ∧ segmentDestroyed c victim c'.
Proof.
  intros W Hne.
  destruct (leastUsefulSegment_spec c cl W Hne) as (v & E & Hv & _).
  assert (liveSegment c v) as Hlv.
  { unfold liveSegment. destruct (wf_cells _ (proj1 W) _ _ Hv) as [_ ->]. done. }
  destruct (destroySegment_spec c v W Hlv) as (c' & E' & W' & D).
  exists v, c'. unfold pruneSegment_. rewrite E. simpl. done.
Qed.

Lemma pruneSegments_loop_spec fuel cl max c :
  wf c → cl < numCells c → 0 < max →
  (length (segmentsOn c cl) < fuel + N.to_nat max)%nat →
  ∃ c', pruneSegments_loop fuel cl max c = Some c' ∧ wf c' ∧
        numCells c' = numCells c ∧ size_N (segmentsOn c' cl) < max ∧
        (destroyedSegments_ c' = [] → destroyedSegments_ c = [] ∧
                                       segments_ c' = segments_ c) ∧
        (length (segments_ c') = length (segments_ c)).
Proof.
  revert c. induction fuel as [|fuel IH]; intros c W Hcl Hmax Hlen.
  - exists c. rewrite pruneSegments_loop_stop; [|done|unfold size_N; lia].
    split; [done|]. split; [done|]. split; [done|].
    split; [unfold size_N; lia|]. done.
  - destruct (decide (size_N (segmentsOn c cl) < max)) as [Hlt|Hge].
    + exists c. rewrite pruneSegments_loop_stop by done. done.
    + rewrite pruneSegments_loop_step by (try done; lia).
      assert (segmentsOn c cl ≠ []) as Hne.
      { intros E. rewrite E in Hge. unfold size_N in Hge. simpl in Hge. lia. }
      destruct (pruneSegment_spec cl c W Hne) as (v & c1 & _ & Hv & E1 & _ & W1 & D1).
      rewrite E1. cbn [mbind option_bind].
      assert (numCells c1 = numCells c) as Hnc.
      { unfold numCells, size_N. by rewrite (sg_size_cells _ _ _ D1). }
      destruct (IH c1 W1) as (c' & E' & W' & Hn' & Hs' & Hd' & Hl'); try done.
      { lia. }
      { rewrite (sg_segmentsOn _ _ _ D1).
        pose proof (filter_ne_length _ v (wf_cells_nodup _ (proj1 W) cl) Hv). lia. }
      exists c'. split; [done|]. split; [done|]. split; [congruence|].
      split; [done|]. split.
      * intros E. destruct (Hd' E) as [E2 _].
        rewrite (sg_destroyedSegments _ _ _ D1) in E2.
        by apply app_nil in E2 as [_ ?].
      * by rewrite Hl', (sg_size_segments _ _ _ D1).
Qed.

Lemma createSegment_spec cl max c :
  wf c → cl < numCells c → 0 < max → size_N (segments_ c) < Segment_max →
  ∃ c1 c' s, pruneSegments_loop (S (length (segmentsOn c cl))) cl max c = Some c1 ∧
             wf c1 ∧
             createSegment cl max c = Some (c', s) ∧ wf c' ∧
             segmentCreated c1 cl s c'.
Proof.
  intros W Hcl Hmax Hroom.
  destruct (pruneSegments_loop_spec (S (length (segmentsOn c cl))) cl max c W Hcl Hmax)
    as (c1 & E1 & W1 & Hn1 & Hs1 & Hd1 & Hl1); [lia|].
  destruct (allocSegment_spec cl c1 W1) as (c' & s & E' & C & _).
  { by rewrite Hn1. }
  { intros _. unfold size_N. rewrite Hl1. exact Hroom. }
  exists c1, c', s. rewrite createSegment_unfold by done. rewrite E1.
  cbn [mbind option_bind]. split; [done|]. split; [done|]. split; [done|].
  split; [|done]. by eapply segmentCreated_wf.
Qed.

(** * computeActivity *)

Lemma increment_all_spec segs counts :
  (∀ s, s ∈ segs → s < size_N counts) →
  ∃ counts', increment_all segs counts = Some counts' ∧
             length counts' = length counts ∧
             ∀ s, at_N counts' s =
                  (λ n, n + Z.of_nat (count_if (N.eqb s) segs))%Z <$> at_N counts s.
Proof.
  revert counts. induction segs as [|s0 segs IH]; intros counts Hr.
  - exists counts. split; [done|]. split; [done|]. intros s. simpl.
    destruct (at_N counts s); simpl; [f_equal; lia|done].
  - assert (is_Some (at_N counts s0)) as [n Hn].
    { apply at_N_is_Some. apply Hr. by left. }
    simpl. rewrite Hn. cbn [mbind option_bind].
    destruct (IH (set_N counts s0 (n + 1)%Z)) as (counts' & E & Hl & Hc).
    { intros s Hs. unfold size_N. rewrite length_set_N. apply Hr. by right. }
    exists counts'. split; [done|]. split; [by rewrite Hl, length_set_N|].
    intros s. rewrite Hc. rewrite at_N_set_N by done.
    destruct (N.eqb_spec s s0) as [->|Hne].
    + rewrite decide_True by done. rewrite Hn. simpl. f_equal. lia.
    + rewrite decide_False by done. destruct (at_N counts s); simpl; [f_equal; lia|done].
Qed.

Lemma activity_loop_spec m cells counts :
  (∀ cl s, cl ∈ cells → s ∈ map_get m cl → s < size_N counts) →
  ∃ counts', activity_loop m cells counts = Some counts' ∧
             length counts' = length counts ∧
             ∀ s, at_N counts' s =
                  (λ n, n + Z.of_nat (occurrences m cells s))%Z <$> at_N counts s.
Proof.
  revert counts. induction cells as [|cl cells IH]; intros counts Hr.
  - exists counts. split; [done|]. split; [done|]. intros s. simpl.
    destruct (at_N counts s); simpl; [f_equal; lia|done].
  - simpl. destruct (m !! cl) as [segs|] eqn:Em.
    + assert (map_get m cl = segs) as Eg by (unfold map_get; by rewrite Em).
      destruct (increment_all_spec segs counts) as (c1 & E1 & L1 & H1).
      { intros s Hs. apply (Hr cl); [by left|by rewrite Eg]. }
      rewrite E1. cbn [mbind option_bind].
      destruct (IH c1) as (c2 & E2 & L2 & H2).
      { intros cl' s Hc Hs. unfold size_N. rewrite L1. apply (Hr cl'); [by right|done]. }
      exists c2. split; [done|]. split; [congruence|].
      intros s. rewrite H2, H1, Eg.
      destruct (at_N counts s); simpl; [f_equal; lia|done].
    + assert (map_get m cl = []) as Eg by (unfold map_get; by rewrite Em).
      destruct (IH counts) as (c2 & E2 & L2 & H2).
      { intros cl' s Hc Hs. apply (Hr cl'); [by right|done]. }
      exists c2. split; [done|]. split; [done|].
      intros s. rewrite H2, Eg. simpl. done.
Qed.

Lemma count_if_length_filter P (l : list N) :
  count_if P l = length (filter (λ x, P x = true) l).
Proof.
  induction l as [|x l IH]; [done|]. simpl.
  destruct (P x) eqn:E.
  - rewrite filter_cons_True by done. simpl. by rewrite IH.
  - rewrite filter_cons_False by congruence. by rewrite IH.
Qed.

Lemma count_if_same_elements P1 P2 (l1 l2 : list N) :
  NoDup l1 → NoDup l2 →
  (∀ y, y ∈ l1 ∧ P1 y = true ↔ y ∈ l2 ∧ P2 y = true) →
  count_if P1 l1 = count_if P2 l2.
Proof.
  intros N1 N2 H. rewrite !count_if_length_filter.
  apply Permutation_length, NoDup_Permutation.
  - by apply NoDup_filter.
  - by apply NoDup_filter.
  - intros y. rewrite !list_elem_of_filter. specialize (H y). tauto.
Qed.

Lemma count_if_map {A} (f : A → N) P (l : list A) :
  count_if P (map f l) =
    length (filter (λ x, P (f x) = true) l).
Proof.
  induction l as [|x l IH]; [done|]. simpl.
  destruct (P (f x)) eqn:E.
  - rewrite filter_cons_True by done. simpl. by rewrite IH.
  - rewrite filter_cons_False by congruence. by rewrite IH.
Qed.

Lemma presyn_list_NoDup c k cl : wf_struct c → NoDup (map_get (presynSynapses k c) cl).
Proof.
  intros W. apply NoDup_alt. intros i j y Hi Hj.
  rewrite <- slot_map_get in Hi, Hj.
  by destruct (slot_inj _ _ _ _ _ _ _ _ _ (wf_slot_sound _ W) Hi Hj) as (_ & _ & ?).
Qed.

Lemma presyn_list_elem c k cl y :
  wf_struct c →
  y ∈ map_get (presynSynapses k c) cl ↔ live c y ∧ presynOf c y = cl ∧ connectedB c y = k.
Proof.
  intros W. split.
  - intros [i Hi]%list_elem_of_lookup. rewrite <- slot_map_get in Hi.
    destruct (wf_slot_sound _ W _ _ _ _ Hi) as (_ & ? & ? & _ & ?). done.
  - intros (Hlv & <- & <-). apply list_elem_of_lookup.
    exists (N.to_nat (indexOf c y)). rewrite <- slot_map_get.
    by apply (wf_slot_complete _ W).
Qed.

(** The connected synapses of [s] whose presynaptic cell is [cl] are the
    entries [s] of the connected vector of [cl]. *)
Lemma occurrences_one c cl s :
  wf_struct c →
  count_if (N.eqb s) (map_get (presynSegments true c) cl) =
  count_if (λ y, connectedB c y && N.eqb (presynOf c y) cl) (synapsesOn c s).
Proof.
  intros W. rewrite (map_get_segs c true cl W).
  rewrite count_if_map. rewrite count_if_length_filter.
  apply Permutation_length, NoDup_Permutation.
  - apply NoDup_filter. by apply presyn_list_NoDup.
  - apply NoDup_filter. apply W.
  - intros y. rewrite !list_elem_of_filter. rewrite presyn_list_elem by done.
    rewrite andb_true_iff, !N.eqb_eq. split.
    + intros (Es & Hlv & Hp & Hc). subst s. done.
    + intros ((Hc & Hp) & Hy). destruct (synapsesOn_live _ _ _ W Hy). done.
Qed.

Lemma count_if_disjoint_sum P1 P2 (l : list N) :
  (∀ x, x ∈ l → P1 x = true → P2 x = false) →
  (count_if P1 l + count_if P2 l)%nat = count_if (λ x, P1 x || P2 x) l.
Proof.
  induction l as [|x l IH]; intros H; [done|]. simpl.
  rewrite <- IH by (intros z Hz; apply H; by right).
  specialize (H x ltac:(by left)).
  destruct (P1 x), (P2 x); simpl; try lia; by specialize (H eq_refl).
Qed.

Lemma occurrences_all c cells s :
  wf_struct c → NoDup cells →
  occurrences (presynSegments true c) cells s =
  count_if (λ y, connectedB c y && bool_decide (presynOf c y ∈ cells)) (synapsesOn c s).
Proof.
  intros W. induction cells as [|cl cells IH]; intros Hnd.
  - cbn [occurrences]. induction (synapsesOn c s) as [|y l IHl]; [done|].
    cbn [count_if]. rewrite <- IHl.
    rewrite bool_decide_eq_false_2 by apply not_elem_of_nil.
    by rewrite andb_false_r.
  - apply NoDup_cons in Hnd as [Hcl Hnd]. cbn [occurrences].
    rewrite IH by done. rewrite occurrences_one by done.
    rewrite count_if_disjoint_sum.
    + apply count_if_ext. intros y Hy.
      destruct (connectedB c y); simpl; [|done].
      destruct (N.eqb_spec (presynOf c y) cl) as [E|E].
      * simpl. symmetry. apply bool_decide_eq_true_2. rewrite E. by left.
      * simpl. apply bool_decide_ext. rewrite elem_of_cons. tauto.
    + intros y Hy [_ E]%andb_true_iff. apply N.eqb_eq in E.
      rewrite bool_decide_eq_false_2; [apply andb_false_r|]. by rewrite E.
Qed.

Lemma computeActivity_spec A learn c :
  wf c → NoDup A →
  ∃ c' counts, computeActivity A learn c = Some (c', counts) ∧
    length counts = length (segments_ c) ∧
    ∀ s, s < size_N (segments_ c) →
      at_N counts s =
        Some (Z.of_nat (count_if (λ y, connectedB c y && bool_decide (presynOf c y ∈ A))
                          (synapsesOn c s))).
Proof.
  intros W Hnd. pose proof (proj1 W) as Ws. unfold computeActivity.
  set (c1 := if learn then _ else c).
  set (c2 := if timeseries_ c1 then _ else c1).
  assert (connectedSegmentsForPresynapticCell_ c2 = presynSegments true c) as Em.
  { unfold c2, c1. destruct learn; cbn; destruct (timeseries_ c); done. }
  rewrite Em.
  destruct (activity_loop_spec (presynSegments true c) A
              (replicate (length (segments_ c)) 0%Z)) as (counts & E & Hl & Hc).
  { intros cl s _ Hs. unfold size_N. rewrite length_replicate.
    rewrite (map_get_segs c true cl Ws) in Hs.
    apply list_elem_of_fmap in Hs as (y & -> & Hy).
    apply presyn_list_elem in Hy as (Hlv & _); [|done].
    apply at_N_is_Some. by apply live_segment_in_range. }
  rewrite E. cbn [mbind option_bind]. exists c2, counts. split; [done|].
  split; [by rewrite Hl, length_replicate|].
  intros s Hs. rewrite Hc.
  unfold at_N at 1. rewrite lookup_replicate_2 by (unfold size_N in Hs; lia).
  simpl. f_equal. rewrite occurrences_all by done. lia.
Qed.

(** * adaptSegment *)

Lemma similar_refl c : similar c c.
Proof. by constructor. Qed.

Lemma similar_trans c1 c2 c3 : similar c1 c2 → similar c2 c3 → similar c1 c3.
Proof.
  intros [] []. constructor; intros; etrans; eauto.
Qed.

Lemma frame_similar c c' : frame c c' → similar c c'.
Proof. intros []. by constructor. Qed.

Lemma similar_live c c' y : similar c c' → live c' y ↔ live c y.
Proof.
  intros S. unfold live. by rewrite (sm_segmentOf _ _ S), (sm_synapsesOn _ _ S).
Qed.


Lemma similar_with_pruned a b c : similar c (with_pruned a b c).
Proof. by constructor. Qed.

Lemma similar_with_updates u v c : similar c (with_updates u v c).
Proof. by constructor. Qed.

Lemma wf_with_pruned a b c : wf c → wf (with_pruned a b c).
Proof.
  intros ([] & Hp & Hb). split; [by constructor|]. split; [exact Hp|exact Hb].
Qed.

Lemma wf_with_updates u v c : wf c → wf (with_updates u v c).
Proof.
  intros ([] & Hp & Hb). split; [by constructor|]. split; [exact Hp|exact Hb].
Qed.

Lemma at_N_getDense x i :
  i < sdr_size x → at_N (getDense x) i = Some (bool_decide (i ∈ getSparse x)).
Proof.
  intros H. unfold at_N, getDense. rewrite list_lookup_fmap.
  rewrite lookup_seq_lt by lia. simpl. by rewrite N2Nat.id.
Qed.

Section AdaptLoop.

Variable inputArray : list bool.
Variables increment decrement : Permanence.
Variable pruneZeroSynapses : bool.
Variable c0 : Connections.

Let upd := updateOf inputArray increment decrement c0.
Let dm := doomed inputArray increment decrement pruneZeroSynapses c0.

Lemma adapt_loop_spec syns : ∀ dl cur,
  wf cur → similar c0 cur → NoDup syns →
  (∀ y, y ∈ syns → live c0 y ∧ is_Some (at_N inputArray (presynOf c0 y)) ∧
                   permanenceOf cur y = permanenceOf c0 y) →
  (timeseries_ cur = true →
     length (previousUpdates_ cur) = length (synapses_ cur) ∧
     length (currentUpdates_ cur) = length (synapses_ cur)) →
  ∃ cur', adapt_loop inputArray increment decrement pruneZeroSynapses syns dl cur
            = Some (cur', dl ++ filter (λ y, dm y = true) syns) ∧
          wf cur' ∧ similar c0 cur' ∧
          (∀ y, y ∉ syns ∨ dm y = true → permanenceOf cur' y = permanenceOf cur y) ∧
          (timeseries_ c0 = false → ∀ y, y ∈ syns → dm y = false →
             permanenceOf cur' y = clamp (permanenceOf c0 y + upd y)).
Proof.
  induction syns as [|y syns' IH]; intros dl cur W S Hnd Hs Hts.
  - exists cur. simpl. rewrite app_nil_r. split; [done|]. split; [done|].
    split; [done|]. split; [done|]. intros _ y Hy. by apply elem_of_nil in Hy.
  - apply NoDup_cons in Hnd as [Hy Hnd].
    destruct (Hs y) as (Hlv & [a Ha] & Hperm); [by left|].
    assert (live cur y) as Hlc by (by apply (similar_live _ _ _ S)).
    destruct (live_in_range cur y (proj1 W) Hlc) as [d Hd].
    destruct (syn_accessors _ _ _ Hd) as (_ & Hpre & _ & Hpd).
    rewrite (sm_presynOf _ _ S) in Hpre.
    assert (adaptUpdate inputArray increment decrement d = Some (upd y)) as Eu.
    { unfold adaptUpdate, upd, updateOf. rewrite <- Hpre, Ha. by destruct a. }
    assert (prunes pruneZeroSynapses d (upd y) = dm y) as Ep.
    { unfold prunes, dm, doomed. fold upd. by rewrite <- Hpd, Hperm. }
    cbn [adapt_loop]. unfold dataForSynapse. rewrite Hd. cbn [mbind option_bind].
    rewrite Eu. cbn [mbind option_bind]. rewrite Ep.
    destruct (dm y) eqn:Edm.
    + destruct (IH (dl ++ [y]) (with_pruned (prunedSyns_ cur + 1) (prunedSegs_ cur) cur))
        as (cur' & E & W' & S' & Hk & Hc).
      * by apply wf_with_pruned.
      * eapply similar_trans; [exact S|apply similar_with_pruned].
      * done.
      * intros y' Hy'. destruct (Hs y') as (? & ? & ?); [by right|]. done.
      * exact Hts.
      * exists cur'. rewrite E. rewrite filter_cons_True by done.
        rewrite <- app_assoc. split; [done|]. split; [done|]. split; [done|]. split.
        -- intros y' [Hn|Hd']; apply Hk.
           ++ left. intros ?. apply Hn. by right.
           ++ by right.
        -- intros Hf y' Hy' Hd'. apply elem_of_cons in Hy' as [->|Hy']; [congruence|].
           by apply Hc.
    + rewrite filter_cons_False by congruence.
      destruct (updateSynapsePermanence_wf cur y (permanence d + upd y) W Hlc)
        as (c1 & E1 & W1 & F1 & P1).
      assert (∀ y', y' ∈ syns' → live c0 y' ∧ is_Some (at_N inputArray (presynOf c0 y')) ∧
                permanenceOf c1 y' = permanenceOf c0 y') as Hs1.
      { intros y' Hy'. destruct (Hs y') as (? & ? & ?); [by right|].
        split; [done|]. split; [done|]. rewrite P1.
        rewrite decide_False by (intros ->; done). done. }
      destruct (timeseries_ cur) eqn:Ets.
      * destruct (Hts eq_refl) as [Lp Lc].
        assert (is_Some (at_N (previousUpdates_ cur) y)) as [prev Hprev].
        { apply at_N_is_Some. unfold size_N. rewrite Lp.
          apply at_N_is_Some. by exists d. }
        rewrite Hprev. cbn [mbind option_bind].
        set (c2 := if negb (Qeqb (upd y) prev)
                   then updateSynapsePermanence y (permanence d + upd y) cur
                   else Some cur).
        assert (∃ c1', c2 = Some c1' ∧ wf c1' ∧ frame cur c1' ∧
                  ∀ y', y' ≠ y → permanenceOf c1' y' = permanenceOf cur y')
          as (c1' & E2 & W2 & F2 & P2).
        { unfold c2. destruct (negb (Qeqb (upd y) prev)).
          - exists c1. split; [done|]. split; [done|]. split; [done|].
            intros y' Hne. rewrite P1. by rewrite decide_False.
          - exists cur. split; [done|]. split; [done|]. split; [apply frame_refl|done]. }
        rewrite E2. cbn [mbind option_bind].
        assert (is_Some (at_N (currentUpdates_ c1') y)) as [cu Hcu].
        { apply at_N_is_Some. unfold size_N. rewrite (fr_currentUpdates _ _ F2), Lc.
          apply at_N_is_Some. by exists d. }
        rewrite Hcu. cbn [mbind option_bind].
        destruct (IH dl (with_updates (previousUpdates_ c1')
                           (set_N (currentUpdates_ c1') y (upd y)) c1'))
          as (cur' & E & W' & S' & Hk & Hc).
        -- by apply wf_with_updates.
        -- eapply similar_trans; [exact S|].
           eapply similar_trans; [apply frame_similar, F2|apply similar_with_updates].
        -- done.
        -- intros y' Hy'. destruct (Hs y') as (? & ? & ?); [by right|].
           split; [done|]. split; [done|].
           change (permanenceOf c1' y' = permanenceOf c0 y').
           rewrite P2 by (intros ->; done). done.
        -- intros _. cbn. rewrite length_set_N.
           rewrite (fr_previousUpdates _ _ F2), (fr_currentUpdates _ _ F2),
             (fr_size_synapses _ _ F2). done.
        -- exists cur'. split; [done|]. split; [done|]. split; [done|]. split.
           ++ intros y' Hy'. rewrite Hk.
              ** change (permanenceOf c1' y' = permanenceOf cur y'). apply P2.
                 destruct Hy' as [Hn|Hd']; [|congruence].
                 intros ->. apply Hn. by left.
              ** destruct Hy' as [Hn|Hd']; [left|by right]. intros ?. apply Hn. by right.
           ++ intros Hf. rewrite <- (sm_timeseries _ _ S) in Hf. congruence.
      * rewrite E1. cbn [mbind option_bind].
        destruct (IH dl c1) as (cur' & E & W' & S' & Hk & Hc).
        -- done.
        -- eapply similar_trans; [exact S|by apply frame_similar].
        -- done.
        -- done.
        -- rewrite (fr_timeseries _ _ F1). congruence.
        -- exists cur'. split; [done|]. split; [done|]. split; [done|]. split.
           ++ intros y' Hy'. rewrite Hk.
              ** rewrite P1. rewrite decide_False; [done|].
                 destruct Hy' as [Hn|Hd']; [|congruence].
                 intros ->. apply Hn. by left.
              ** destruct Hy' as [Hn|Hd']; [left|by right]. intros ?. apply Hn. by right.
           ++ intros Hf y' Hy' Hd'. apply elem_of_cons in Hy' as [->|Hy'].
              ** rewrite Hk by (by left). rewrite P1. rewrite decide_True by done.
                 by rewrite <- Hpd, Hperm.
              ** by apply Hc.
Qed.

End AdaptLoop.

Lemma length_resize_vec {A} n (x : A) l : length (resize_vec n x l) = n.
Proof.
  unfold resize_vec. rewrite length_app, length_take, length_replicate. lia.
Qed.



(** * raisePermanencesToThreshold *)

Section Reordered.

Variables (c : Connections) (s : Segment) (sd : SegmentData) (syns' : list Synapse).
Hypothesis W : wf c.
Hypothesis Hsd : at_N (segments_ c) s = Some sd.
Hypothesis Hperm : syns' ≡ₚ synapses sd.

Let c1 := reordered s sd syns' c.

Lemma reordered_at s' :
  at_N (segments_ c1) s' =
    if decide (s' = s) then Some (seg_with_synapses syns' sd) else at_N (segments_ c) s'.
Proof.
  unfold c1, reordered. cbn. rewrite at_N_set_N by (by exists sd).
  destruct (decide (s = s')), (decide (s' = s)); congruence.
Qed.



Lemma reordered_cellOf s' : cellOf c1 s' = cellOf c s'.
Proof.
  unfold cellOf. rewrite reordered_at. destruct (decide (s' = s)) as [->|]; [|done].
  by rewrite Hsd.
Qed.



Lemma reordered_liveSegment s' : liveSegment c1 s' ↔ liveSegment c s'.
Proof. unfold liveSegment. by rewrite reordered_cellOf. Qed.



End Reordered.

Lemma bump_loop_spec delta syns : ∀ c,
  wf c → NoDup syns → (∀ y, y ∈ syns → live c y) →
  ∃ c', bump_loop delta syns c = Some c' ∧ wf c' ∧ frame c c' ∧
        ∀ y, permanenceOf c' y =
             if decide (y ∈ syns) then clamp (permanenceOf c y + delta)
             else permanenceOf c y.
Proof.
  induction syns as [|y syns IH]; intros c W Hnd Hlv.
  - exists c. split; [done|]. split; [done|]. split; [apply frame_refl|].
    intros y. rewrite decide_False; [done|apply not_elem_of_nil].
  - apply NoDup_cons in Hnd as [Hy Hnd].
    assert (live c y) as Hl by (apply Hlv; by left).
    destruct (live_in_range c y (proj1 W) Hl) as [d Hd].
    destruct (syn_accessors _ _ _ Hd) as (_ & _ & _ & Hpd).
    destruct (updateSynapsePermanence_wf c y (permanence d + delta) W Hl)
      as (c1 & E1 & W1 & F1 & P1).
    destruct (IH c1 W1 Hnd) as (c' & E' & W' & F' & P').
    { intros y' Hy'. apply (frame_live _ _ _ F1). apply Hlv. by right. }
    exists c'. cbn [bump_loop]. rewrite Hd. cbn [mbind option_bind].
    rewrite E1. cbn [mbind option_bind]. split; [done|]. split; [done|].
    split; [by eapply frame_trans|].
    intros y'. rewrite P', P1.
    destruct (decide (y' = y)) as [->|Hne].
    + rewrite decide_False by done. rewrite decide_True by (by left). by rewrite Hpd.
    + destruct (decide (y' ∈ syns)) as [Hi|Hi].
      * rewrite decide_True by (by right). done.
      * rewrite decide_False; [done|]. intros [?|?]%elem_of_cons; done.
Qed.

(** * Counting, continued *)


Lemma count_if_mono P Q (l : list N) :
  (∀ x, x ∈ l → P x = true → Q x = true) → (count_if P l ≤ count_if Q l)%nat.
Proof.
  induction l as [|x l IH]; intros H; [done|]. simpl.
  assert (count_if P l ≤ count_if Q l)%nat by (apply IH; intros z Hz; apply H; by right).
  specialize (H x ltac:(by left)). destruct (P x), (Q x); try lia; by specialize (H eq_refl).
Qed.








(** * The merge sort conforms to the specification of both algorithms *)

Lemma not_after_total comp : strict_weak_order comp → Total (not_after comp).
Proof.
  intros (Hirr & Htr & _) x y. unfold not_after.
  destruct (comp y x) eqn:E1; [|by left]. right.
  destruct (comp x y) eqn:E2; [|done].
  rewrite <- (Hirr x). symmetry. by apply (Htr x y x).
Qed.

Lemma not_after_trans comp : strict_weak_order comp → Transitive (not_after comp).
Proof.
  intros (_ & _ & Hinc) x y z Hxy Hyz. unfold not_after in *. by apply (Hinc z y x).
Qed.

Lemma StronglySorted_lookup {A} (R : relation A) l i j x y :
  StronglySorted R l → (i < j)%nat → l !! i = Some x → l !! j = Some y → R x y.
Proof.
  intros Hs. revert i j. induction Hs as [|a l Hs IH Hall]; intros i j Hij Hi Hj.
  - done.
  - destruct j as [|j]; [lia|]. simpl in Hj. destruct i as [|i].
    + simpl in Hi. injection Hi as ->. rewrite Forall_forall in Hall.
      apply Hall. by eapply list_elem_of_lookup_2.
    + simpl in Hi. apply (IH i j); [lia|done|done].
Qed.

Lemma sort_by_ok : sort_ok sort_by.
Proof.
  intros comp l Hswo. unfold sort_by. split; [apply merge_sort_Permutation|].
  intros i j x y Hij Hi Hj.
  destruct (decide (i = j)) as [->|Hne].
  - rewrite Hi in Hj. injection Hj as ->. apply Hswo.
  - pose proof (@StronglySorted_merge_sort _ (not_after comp) _
                  (not_after_trans comp Hswo) (not_after_total comp Hswo) l) as Hs.
    apply (StronglySorted_lookup _ _ i j x y Hs); [lia|done|done].
Qed.

Lemma nth_element_by_sort_ok : nth_element_ok nth_element_by_sort.
Proof.
  intros comp n l Hswo Hn. unfold nth_element_by_sort.
  destruct (sort_by_ok comp l Hswo) as [Hp Hs]. split; [done|].
  intros i j x y Hi Hj. apply Hs. lia.
Qed.

(** * Global inhibition *)

Ltac to_prop :=
  repeat match goal with
  | H : Qeqb _ _ = true |- _ => apply Qeqb_true in H
  | H : Qeqb _ _ = false |- _ => apply Qeqb_false in H
  | H : Qltb _ _ = true |- _ => apply Qltb_true in H
  | H : Qltb _ _ = false |- _ => apply Qltb_false in H
  | H : N.ltb _ _ = true |- _ => apply N.ltb_lt in H
  | H : N.ltb _ _ = false |- _ => apply N.ltb_ge in H
  | |- Qltb _ _ = true => apply Qltb_true
  | |- Qltb _ _ = false => apply Qltb_false
  | |- N.ltb _ _ = true => apply N.ltb_lt
  | |- N.ltb _ _ = false => apply N.ltb_ge
  end.

Lemma compareColumns_swo overlaps : strict_weak_order (compareColumns overlaps).
Proof.
  unfold compareColumns. split; [|split].
  - intros x. destruct (Qeqb _ _) eqn:E; to_prop; [lia|lra].
  - intros x y z.
    destruct (Qeqb (overlapOf overlaps x) (overlapOf overlaps y)) eqn:E1,
             (Qeqb (overlapOf overlaps y) (overlapOf overlaps z)) eqn:E2,
             (Qeqb (overlapOf overlaps x) (overlapOf overlaps z)) eqn:E3;
      intros H1 H2; to_prop; try lia; try lra.
  - intros x y z.
    destruct (Qeqb (overlapOf overlaps x) (overlapOf overlaps y)) eqn:E1,
             (Qeqb (overlapOf overlaps y) (overlapOf overlaps z)) eqn:E2,
             (Qeqb (overlapOf overlaps x) (overlapOf overlaps z)) eqn:E3;
      intros H1 H2; to_prop; try lia; try lra.
Qed.

Lemma compareColumns_tie overlaps a b :
  (overlapOf overlaps a == overlapOf overlaps b)%Q → a < b →
  compareColumns overlaps b a = true.
Proof.
  intros He Hlt. unfold compareColumns.
  assert (overlapOf overlaps b == overlapOf overlaps a)%Q as He' by lra.
  apply Qeqb_true in He'. rewrite He'. by apply N.ltb_lt.
Qed.

Lemma compareColumns_false_ge overlaps a b :
  compareColumns overlaps a b = false →
  (overlapOf overlaps a <= overlapOf overlaps b)%Q.
Proof.
  unfold compareColumns. destruct (Qeqb _ _) eqn:E; intros H; to_prop; lra.
Qed.

Lemma pop_while_spec P rv :
  ∃ dropped, rv = dropped ++ pop_while P rv ∧
             (∀ x, x ∈ dropped → P x = true) ∧
             (∀ x, head (pop_while P rv) = Some x → P x = false).
Proof.
  induction rv as [|x rv IH].
  - exists []. split; [done|]. split; [intros x Hx; by apply elem_of_nil in Hx|done].
  - simpl. destruct (P x) eqn:E.
    + destruct IH as (dropped & E1 & E2 & E3). exists (x :: dropped).
      split; [simpl; by rewrite <- E1|]. split; [|done].
      intros z [->|Hz]%elem_of_cons; [done|by apply E2].
    + exists []. split; [done|].
      split; [intros z Hz; by apply elem_of_nil in Hz|]. simpl. congruence.
Qed.

Lemma elem_of_iota n x : x ∈ iota n ↔ x < n.
Proof.
  unfold iota. rewrite list_elem_of_fmap. split.
  - intros (i & -> & Hi). apply elem_of_seq in Hi. lia.
  - intros H. exists (N.to_nat x). split; [lia|]. apply elem_of_seq. lia.
Qed.

Lemma NoDup_iota n : NoDup (iota n).
Proof.
  unfold iota. apply NoDup_fmap_2; [|apply NoDup_seq]. intros x y H. lia.
Qed.

Lemma length_iota n : length (iota n) = N.to_nat n.
Proof. unfold iota. by rewrite length_map, length_seq. Qed.

Section GlobalInhibition.

Variable nth_element : (N → N → bool) → nat → list N → list N.
Variable std_sort : (N → N → bool) → list N → list N.
Hypothesis nth_element_conforms : nth_element_ok nth_element.
Hypothesis sort_conforms : sort_ok std_sort.

Variables (sp : SpatialPooler) (overlaps : list Q) (density : Q).

Let numDesired := toUInt (density * toReal (numColumns_ sp))%Q.

Hypothesis Hpos : 0 < numDesired.
Hypothesis Hfit : numDesired ≤ numColumns_ sp.
Hypothesis Hsize : numColumns_ sp ≤ size_N overlaps.

Lemma inhibitColumnsGlobal_spec :
  ∃ active dropped,
    inhibitColumnsGlobal_ nth_element std_sort sp overlaps density = Some active ∧
    length (active ++ dropped) = N.to_nat numDesired ∧
    NoDup (active ++ dropped) ∧
    (∀ a, a ∈ active ++ dropped → a < numColumns_ sp) ∧
    (∀ a b, a ∈ active ++ dropped → b < numColumns_ sp → b ∉ active ++ dropped →
       compareColumns overlaps b a = false) ∧
    (∀ i j x y, (i ≤ j)%nat → (active ++ dropped) !! i = Some x →
       (active ++ dropped) !! j = Some y → compareColumns overlaps y x = false) ∧
    (∀ a, a ∈ dropped → subThreshold sp overlaps a = true) ∧
    (∀ a, last active = Some a → subThreshold sp overlaps a = false).
Proof.
  unfold inhibitColumnsGlobal_. fold numDesired.
  assert (N.ltb 0 numDesired = true) as -> by (by apply N.ltb_lt).
  assert (N.leb numDesired (numColumns_ sp) = true) as -> by (by apply N.leb_le).
  assert (N.leb (numColumns_ sp) (size_N overlaps) = true) as -> by (by apply N.leb_le).
  cbn [negb].
  set (comp := compareColumns overlaps).
  pose proof (compareColumns_swo overlaps) as Hswo. fold comp in Hswo.
  destruct (nth_element_conforms comp (N.to_nat numDesired) (iota (numColumns_ sp)) Hswo)
    as [Hp Hn]; [rewrite length_iota; lia|].
  set (l' := nth_element comp (N.to_nat numDesired) (iota (numColumns_ sp))) in *.
  destruct (sort_conforms comp (take (N.to_nat numDesired) l') Hswo) as [Hps Hs].
  set (sorted := std_sort comp (take (N.to_nat numDesired) l')) in *.
  destruct (pop_while_spec (subThreshold sp overlaps) (reverse sorted))
    as (dr & E1 & E2 & E3).
  set (kept := pop_while (subThreshold sp overlaps) (reverse sorted)) in *.
  assert (sorted = reverse kept ++ reverse dr) as Es.
  { rewrite <- reverse_app, <- E1. by rewrite reverse_involutive. }
  assert (length l' = N.to_nat (numColumns_ sp)) as Hl' by (by rewrite Hp, length_iota).
  assert (NoDup l') as Hnd' by (rewrite Hp; apply NoDup_iota).
  exists (reverse kept), (reverse dr). rewrite <- Es.
  split; [done|]. split; [|split; [|split; [|split; [|split; [done|split]]]]].
  - rewrite Hps, length_take. lia.
  - rewrite Hps. rewrite <- (take_drop (N.to_nat numDesired) l') in Hnd'.
    by apply NoDup_app in Hnd' as [? _].
  - intros a Ha. rewrite Hps in Ha. apply elem_of_take in Ha as (i & Ha & _).
    apply elem_of_iota. rewrite <- Hp. by eapply list_elem_of_lookup_2.
  - intros a b Ha Hb Hnb. rewrite Hps in Ha, Hnb.
    apply elem_of_take in Ha as (i & Ha & Hi).
    assert (b ∈ l') as [j Hj]%list_elem_of_lookup by (rewrite Hp; by apply elem_of_iota).
    apply (Hn i j a b); [lia| |done|done].
    destruct (decide (N.to_nat numDesired ≤ j)%nat) as [|Hlt]; [done|].
    exfalso. apply Hnb. apply elem_of_take. exists j. split; [done|lia].
  - intros a Ha. apply E2. by apply elem_of_reverse.
  - intros a Ha. apply E3. rewrite <- Ha. by rewrite last_reverse.
Qed.

End GlobalInhibition.

(** * Sequences of operations *)

Lemma elemB_true x l : elemB x l = true ↔ x ∈ l.
Proof.
  unfold elemB. rewrite existsb_exists. split.
  - intros (z & Hz & E). apply N.eqb_eq in E. subst. by apply list_elem_of_In.
  - intros H. exists x. split; [by apply list_elem_of_In|apply N.eqb_refl].
Qed.

Lemma liveB_true c y : liveB c y = true ↔ live c y.
Proof. apply elemB_true. Qed.

Lemma liveSegmentB_true c s : liveSegmentB c s = true ↔ liveSegment c s.
Proof. apply elemB_true. Qed.

Lemma createSynapse_wf c s presyn p :
  wf c → liveSegment c s → size_N (synapses_ c) < Synapse_max →
  ∃ c' y, createSynapse s presyn p c = Some (c', y) ∧ wf c'.
Proof.
  intros W Hls Hroom. pose proof (proj1 W) as Ws.
  destruct (findDuplicate_spec c presyn (synapsesOn c s))
    as [(y & _ & Hy & Hp)|[_ Hnone]].
  { intros y Hy. by apply (synapsesOn_in_range c s). }
  - destruct (createSynapse_dup c s presyn p y W Hy Hp) as (c' & E & W' & _).
    by exists c', y.
  - destruct (createSynapse_new c s presyn p W Hls Hnone) as (c' & y & E & W' & _);
      [done|]. by exists c', y.
Qed.

Lemma apply_op_wf op c :
  wf c → valid_op op c = true → ∃ c', apply_op op c = Some c' ∧ wf c'.
Proof.
  intros W Hv. destruct op as [cl max|s presyn p|s|y|y p]; simpl in Hv |- *.
  - apply andb_true_iff in Hv as [[H1 H2]%andb_true_iff H3].
    apply N.ltb_lt in H1, H2, H3.
    destruct (createSegment_spec cl max c W H1 H2 H3) as (c1 & c' & s & _ & _ & E & W' & _).
    exists c'. by rewrite E.
  - apply andb_true_iff in Hv as [H1 H2]. apply liveSegmentB_true in H1.
    apply N.ltb_lt in H2.
    destruct (createSynapse_wf c s presyn p W H1 H2) as (c' & y & E & W').
    exists c'. by rewrite E.
  - apply liveSegmentB_true in Hv.
    destruct (destroySegment_spec c s W Hv) as (c' & E & W' & _). by exists c'.
  - apply liveB_true in Hv.
    destruct (destroySynapse_spec c y W Hv) as (c' & E & W' & _). by exists c'.
  - apply liveB_true in Hv.
    destruct (updateSynapsePermanence_wf c y p W Hv) as (c' & E & W' & _). by exists c'.
Qed.

Lemma run_ops_wf ops : ∀ c,
  wf c → valid_ops ops c = true → ∃ c', run_ops ops c = Some c' ∧ wf c'.
Proof.
  induction ops as [|op ops IH]; intros c W Hv.
  - by exists c.
  - simpl in Hv. apply andb_true_iff in Hv as [Hv1 Hv2].
    destruct (apply_op_wf op c W Hv1) as (c1 & E1 & W1).
    rewrite E1 in Hv2. destruct (IH c1 W1 Hv2) as (c' & E' & W').
    exists c'. simpl. rewrite E1. done.
Qed.

(** The states the examples start from: [initialize] followed by valid
    operations. *)
Lemma built_wf n t ts ops c0 c :
  initialize n t ts = Some c0 → valid_ops ops c0 = true →
  run_ops ops c0 = Some c → wf c.
Proof.
  intros Hi Hv Hr. destruct (initialize_wf _ _ _ _ Hi) as [W0 _].
  destruct (run_ops_wf ops c0 W0 Hv) as (c' & E & W'). congruence.
Qed.

(** * The example states *)

Lemma stateAfter_wf n t ts ops : validAfter n t ts ops = true → wf (stateAfter n t ts ops).
Proof.
  unfold validAfter, stateAfter. destruct (initialize n t ts) as [c0|] eqn:Ei; [|done].
  intros Hv. destruct (initialize_wf _ _ _ _ Ei) as [W0 _].
  destruct (run_ops_wf ops c0 W0 Hv) as (c' & E & W'). simpl. by rewrite E.
Qed.

(** * The properties of the specification *)

(** C3.  For a well-formed state and a duplicate-free list [A] of
    presynaptic cells, [computeActivity] returns a vector with one entry
    per segment, and the entry of segment [s] is the number of synapses on
    [s] whose permanence is at least the connected threshold and whose
    presynaptic cell is in [A]. *)
Theorem computeActivity_counts (c : Connections) (A : list CellIdx) (learn : bool) :
  wf c → NoDup A →
  ∃ c' counts, computeActivity A learn c = Some (c', counts) ∧
    length counts = length (segments_ c) ∧
    ∀ s, s < size_N (segments_ c) →
      at_N counts s =
        Some (Z.of_nat (count_if (λ y, connectedB c y && bool_decide (presynOf c y ∈ A))
                          (synapsesOn c s))).
Proof. apply computeActivity_spec. Qed.

(** C1.  The overlaps [compute] returns are those of the activity count of
    the connections on the active input bits: entry [col] is the number of
    connected synapses on the segment of column [col] (segment [col])
    whose presynaptic input bit is active.  The weighted count [compute]
    calls is the spec-modelled [computeActivityWeighted]. *)
Theorem compute_overlaps nth_element std_sort MAX_LOCALAREADENSITY
    (sp : SpatialPooler) (input : SDR) (learn : bool) :
  wf (connections_ sp) → NoDup (getSparse input) →
  ∃ overlaps,
    length overlaps = length (segments_ (connections_ sp)) ∧
    (∀ col, col < size_N (segments_ (connections_ sp)) →
       at_N overlaps col =
         Some (Z.of_nat
           (count_if (λ y, connectedB (connections_ sp) y &&
                           bool_decide (presynOf (connections_ sp) y ∈ getSparse input))
              (synapsesOn (connections_ sp) col)))) ∧
    (snd <$> computeActivity (getSparse input) learn (connections_ sp) = Some overlaps) ∧
    compute nth_element std_sort MAX_LOCALAREADENSITY sp input learn =
      (active ← activeColumnsFor nth_element std_sort MAX_LOCALAREADENSITY sp overlaps;
       Some (overlaps, active)).
Proof.
  intros W Hnd.
  destruct (computeActivity_spec (getSparse input) learn (connections_ sp) W Hnd)
    as (c' & counts & E & Hl & Hc).
  exists counts. split; [done|]. split; [done|].
  unfold compute, computeActivityWeighted. rewrite E. done.
Qed.

(** C2.  When a synapse [y] from [presyn] already exists on [s],
    [createSynapse] creates no synapse, returns [y], and leaves [y] with
    the larger of its permanence and [p]; every other synapse keeps its
    permanence, and when [p] is at most the existing permanence the state,
    with it the connected count of [s], is unchanged. *)
Theorem createSynapse_duplicate (c : Connections) (s : Segment) (presyn : CellIdx)
    (p : Permanence) (y : Synapse) :
  wf c → y ∈ synapsesOn c s → presynOf c y = presyn → (p <= maxPermanence)%Q →
  ∃ c', createSynapse s presyn p c = Some (c', y) ∧ wf c' ∧
    (∀ s', synapsesOn c' s' = synapsesOn c s') ∧
    length (synapses_ c') = length (synapses_ c) ∧
    destroyedSynapses_ c' = destroyedSynapses_ c ∧
    permanenceOf c' y = std_max (permanenceOf c y) p ∧
    (∀ y', y' ≠ y → permanenceOf c' y' = permanenceOf c y') ∧
    ((p <= permanenceOf c y)%Q → c' = c ∧ numConnectedOf c' s = numConnectedOf c s).
Proof.
  intros W Hy Hp Hmax.
  destruct (createSynapse_dup c s presyn p y W Hy Hp) as (c' & E & W' & F & P & Hsame).
  exists c'. split; [done|]. split; [done|].
  split; [apply F|]. split; [apply F|]. split; [apply F|].
  split; [|split].
  - rewrite P. rewrite decide_True by done. unfold std_max.
    destruct (Qltb (permanenceOf c y) p) eqn:Elt; [|done].
    apply Qltb_true in Elt.
    destruct (synapsesOn_live _ _ _ (proj1 W) Hy) as [Hlv _].
    destruct (proj1 (proj2 W) y Hlv) as [H0 _].
    apply clamp_id; [lra|done].
  - intros y' Hne. rewrite P. by rewrite decide_False.
  - intros Hle. apply Qltb_false in Hle. rewrite (Hsame Hle). done.
Qed.


Lemma global_winners_pass nth_element std_sort sp overlaps density :
  nth_element_ok nth_element → sort_ok std_sort →
  0 < numDesiredFor sp density → numDesiredFor sp density ≤ numColumns_ sp →
  numColumns_ sp ≤ size_N overlaps →
  ∃ active dropped,
    inhibitColumnsGlobal_ nth_element std_sort sp overlaps density = Some active ∧
    length (active ++ dropped) = N.to_nat (numDesiredFor sp density) ∧
    NoDup (active ++ dropped) ∧
    (∀ a, a ∈ active ++ dropped → a < numColumns_ sp) ∧
    (∀ a b, a ∈ active ++ dropped → b < numColumns_ sp → b ∉ active ++ dropped →
       compareColumns overlaps b a = false) ∧
    (∀ a, a ∈ active →
       (toReal (stimulusThreshold_ sp) <= overlapOf overlaps a)%Q) ∧
    (∀ a, a ∈ dropped →
       (overlapOf overlaps a < toReal (stimulusThreshold_ sp))%Q).
Proof.
  intros Hn Hs Hpos Hfit Hsize.
  destruct (inhibitColumnsGlobal_spec nth_element std_sort Hn Hs sp overlaps density
              Hpos Hfit Hsize)
    as (active & dropped & E & Hlen & Hnd & Hrange & Htop & Hsorted & Hdrop & Hlast).
  exists active, dropped. split; [done|]. split; [done|]. split; [done|].
  split; [done|]. split; [done|]. split.
  - intros a [i Hi]%list_elem_of_lookup.
    destruct (last active) as [z|] eqn:El.
    + pose proof (Hlast z eq_refl) as Hz. apply Qltb_false in Hz.
      rewrite last_lookup in El.
      pose proof (lookup_lt_Some _ _ _ Hi) as Hlt.
      assert (compareColumns overlaps z a = false) as Hc.
      { apply (Hsorted i (pred (length active)) a z); [lia| |].
        - by apply lookup_app_l_Some.
        - by apply lookup_app_l_Some. }
      apply compareColumns_false_ge in Hc. lra.
    + apply last_None in El. subst. done.
  - intros a Ha. apply Qltb_true. by apply Hdrop.
Qed.

(** C5, amended.  In global inhibition, of two columns with exactly equal
    boosted overlap the one with the higher index is preferred: when a
    column is admitted, so is every column of higher index and the same
    overlap.  This holds for every conforming [nth_element] and [sort]. *)
Theorem global_inhibition_tie nth_element std_sort (sp : SpatialPooler)
    (overlaps : list Q) (density : Q) :
  nth_element_ok nth_element → sort_ok std_sort →
  0 < numDesiredFor sp density → numDesiredFor sp density ≤ numColumns_ sp →
  numColumns_ sp ≤ size_N overlaps →
  ∃ active,
    inhibitColumnsGlobal_ nth_element std_sort sp overlaps density = Some active ∧
    ∀ a b, a ∈ active → a < b → b < numColumns_ sp →
      (overlapOf overlaps a == overlapOf overlaps b)%Q → b ∈ active.
Proof.
  intros Hn Hs Hpos Hfit Hsize.
  destruct (global_winners_pass nth_element std_sort sp overlaps density
              Hn Hs Hpos Hfit Hsize)
    as (active & dropped & E & _ & _ & _ & Htop & Hact & Hdrop).
  exists active. split; [done|]. intros a b Ha Hab Hb Heq.
  destruct (decide (b ∈ active ++ dropped)) as [Hin|Hout].
  - apply elem_of_app in Hin as [Hin|Hin]; [done|].
    pose proof (Hact a Ha). pose proof (Hdrop b Hin). lra.
  - assert (compareColumns overlaps b a = false) as Hc.
    { apply Htop; [|done|done]. apply elem_of_app. by left. }
    by rewrite compareColumns_tie in Hc.
Qed.







(** Sequences of operations that name only segments and synapses that
    exist run to the end, and after them the cached count of every segment
    is the number of its connected synapses. *)
Theorem valid_ops_keep_numConnected (ops : list Op) (c : Connections) :
  wf c → valid_ops ops c = true →
  ∃ c', run_ops ops c = Some c' ∧ wf c' ∧
    ∀ s, numConnectedOf c' s = Z.of_nat (count_if (connectedB c') (synapsesOn c' s)).
Proof.
  intros W Hv. destruct (run_ops_wf ops c W Hv) as (c' & E & W').
  exists c'. split; [done|]. split; [done|]. apply (wf_numConnected _ (proj1 W')).
Qed.


(** * Further properties of the Connections *)

(** [initialize] accepts exactly the thresholds between [minPermanence]
    and [maxPermanence].  The state it then yields has [numCells] cells
    without segments, no segment and no synapse, the threshold lowered by
    [Epsilon], and satisfies the invariants. *)
Theorem initialize_checks (n : CellIdx) (t : Permanence) (ts : bool) :
  ((minPermanence <= t)%Q ∧ (t <= maxPermanence)%Q →
   ∃ c, initialize n t ts = Some c ∧ wf c ∧ numCells c = n ∧
        (∀ cl, segmentsOn c cl = []) ∧
        segments_ c = [] ∧ synapses_ c = [] ∧
        destroyedSegments_ c = [] ∧ destroyedSynapses_ c = [] ∧
        connectedThreshold_ c = (t - Epsilon)%Q ∧
        iteration_ c = 0 ∧ timeseries_ c = ts) ∧
  (¬ ((minPermanence <= t)%Q ∧ (t <= maxPermanence)%Q) →
   initialize n t ts = None).
Proof.
  split.
  - intros [Hlo Hhi].
    destruct (initialize n t ts) as [c|] eqn:E.
    + destruct (initialize_wf _ _ _ _ E) as (W & Hn & Ht).
      exists c. split; [done|]. split; [done|]. split; [done|].
      unfold initialize in E.
      destruct (Qgeb t minPermanence); [|done].
      destruct (Qgeb maxPermanence t); [|done].
      cbn in E. injection E as <-. cbn. split; [|done].
      intros cl. unfold segmentsOn, at_N. cbn.
      destruct (replicate (N.to_nat n) (mkCellData []) !! N.to_nat cl) as [cd|] eqn:E;
        [|done].
      by apply lookup_replicate in E as [-> _].
    + exfalso. unfold initialize in E.
      apply Qgeb_true in Hlo, Hhi. by rewrite Hlo, Hhi in E.
  - intros Hn. unfold initialize.
    destruct (Qgeb t minPermanence) eqn:E1; [|done].
    destruct (Qgeb maxPermanence t) eqn:E2; [|done].
    exfalso. apply Hn. by split; apply Qgeb_true.
Qed.

(** On a cell in range that holds fewer than [maxSegmentsPerCell] segments
    [createSegment] destroys nothing: it takes the handle at the back of
    the free list, or the next unused one when the list is empty, appends
    it to the segments of the cell and leaves every other cell, every
    other segment and all synapses as they were. *)
Theorem createSegment_below_cap (c : Connections) (cl : CellIdx)
    (maxSegmentsPerCell : N) :
  wf c → cl < numCells c →
  size_N (segmentsOn c cl) < maxSegmentsPerCell →
  size_N (segments_ c) < Segment_max →
  ∃ c' s, createSegment cl maxSegmentsPerCell c = Some (c', s) ∧ wf c' ∧
    (last (destroyedSegments_ c) = Some s ∨
     destroyedSegments_ c = [] ∧ s = size_N (segments_ c)) ∧
    destroyedSegments_ c' = pop_back (destroyedSegments_ c) ∧
    ¬ liveSegment c s ∧ liveSegment c' s ∧
    segmentsOn c' cl = segmentsOn c cl ++ [s] ∧
    (∀ cl', cl' ≠ cl → segmentsOn c' cl' = segmentsOn c cl') ∧
    synapsesOn c' s = [] ∧
    (∀ s', synapsesOn c' s' = synapsesOn c s') ∧
    synapses_ c' = synapses_ c ∧
    destroyedSynapses_ c' = destroyedSynapses_ c.
Proof.
  intros W Hcl Hlt Hroom. pose proof (proj1 W) as Ws.
  assert (0 < maxSegmentsPerCell) as Hmax by lia.
  destruct (allocSegment_spec cl c W Hcl) as (c' & s & Ea & C & Hs); [done|].
  exists c', s. split.
  { rewrite createSegment_unfold by done.
    rewrite pruneSegments_loop_stop by done. done. }
  split; [by apply (segmentCreated_wf c cl s c')|]. split; [done|].
  split.
  { rewrite (sc_destroyedSegments _ _ _ _ C).
    destruct Hs as [Hl|[Hn _]].
    - symmetry. apply pop_back_filter; [apply Ws|done].
    - by rewrite Hn. }
  split.
  { unfold liveSegment. apply (sc_fresh _ _ _ _ C). }
  split.
  { unfold liveSegment. rewrite (sc_cellOf _ _ _ _ C). rewrite decide_True by done.
    rewrite (sc_segmentsOn _ _ _ _ C). rewrite decide_True by done.
    apply elem_of_app. right. by left. }
  split.
  { rewrite (sc_segmentsOn _ _ _ _ C). by rewrite decide_True. }
  split.
  { intros cl' Hne. rewrite (sc_segmentsOn _ _ _ _ C). by rewrite decide_False. }
  split; [apply (sc_synapsesOn_new _ _ _ _ C)|].
  split; [apply (sc_synapsesOn _ _ _ _ C)|].
  split; [apply (sc_synapses _ _ _ _ C)|apply (sc_destroyedSynapses _ _ _ _ C)].
Qed.

(** In a state with room for a segment handle, [createSegment] fails
    exactly when [maxSegmentsPerCell] is zero or the cell is out of
    range. *)
Theorem createSegment_fails_iff (c : Connections) (cl : CellIdx)
    (maxSegmentsPerCell : N) :
  wf c → size_N (segments_ c) < Segment_max →
  createSegment cl maxSegmentsPerCell c = None ↔
  maxSegmentsPerCell = 0 ∨ numCells c ≤ cl.
Proof.
  intros W Hroom. split.
  - intros E.
    destruct (decide (0 < maxSegmentsPerCell)) as [Hm|Hm]; [|left; lia].
    destruct (decide (cl < numCells c)) as [Hc|Hc]; [|right; lia].
    destruct (createSegment_spec cl maxSegmentsPerCell c W Hc Hm Hroom)
      as (c1 & c' & s & _ & _ & E' & _). congruence.
  - intros [->|Hc]; unfold createSegment.
    + done.
    + destruct (N.ltb 0 maxSegmentsPerCell); [|done]. cbn [negb].
      apply N.ltb_ge in Hc. by rewrite Hc.
Qed.

Lemma findDuplicate_found c presyn syns y :
  findDuplicate c presyn syns = Some (Some y) → y ∈ syns ∧ presynOf c y = presyn.
Proof.
  induction syns as [|y0 syns IH]; [done|]. simpl. unfold dataForSynapse.
  destruct (at_N (synapses_ c) y0) as [d|] eqn:Hd; [|done]. cbn [mbind option_bind].
  destruct (N.eqb_spec presyn (presynapticCell d)) as [E|E].
  - intros [= <-]. split; [by left|]. unfold presynOf. by rewrite Hd.
  - intros H. destruct (IH H). split; [by right|done].
Qed.

(** The handle [createSynapse] returns: the duplicate, the back of the free
    list, or the next unused one. *)
Lemma createSynapse_handle s presyn p c c' y :
  createSynapse s presyn p c = Some (c', y) →
  (y ∈ synapsesOn c s ∧ presynOf c y = presyn) ∨
  last (destroyedSynapses_ c) = Some y ∨
  (destroyedSynapses_ c = [] ∧ y = size_N (synapses_ c)).
Proof.
  unfold createSynapse, synapsesForSegment.
  destruct (at_N (segments_ c) s) as [sd|] eqn:Hsd; [|done].
  cbn [fmap option_fmap option_map mbind option_bind].
  destruct (findDuplicate c presyn (synapses sd)) as [[y0|]|] eqn:Hfd; [| |done];
    cbn [mbind option_bind].
  - apply findDuplicate_found in Hfd as [H1 H2].
    destruct (at_N (synapses_ c) y0) as [d|]; [|done]. cbn [mbind option_bind].
    intros H. left.
    assert (y = y0) as ->.
    { destruct (Qltb (permanence d) p); [|congruence].
      destruct (updateSynapsePermanence y0 p c); [|done]. cbn in H. congruence. }
    split; [|done]. unfold synapsesOn. by rewrite Hsd.
  - intros H. right.
    destruct (last (destroyedSynapses_ c)) as [y1|] eqn:El.
    + left. cbn [mbind option_bind] in H.
      repeat match type of H with
      | context [match ?x with _ => _ end] => destruct x; [|done]
      | (?x ≫= _) = _ => destruct x; [|done]; cbn [mbind option_bind] in H
      end.
      congruence.
    + right. split; [by apply last_None|].
      destruct (negb (N.ltb (size_N (synapses_ c)) Synapse_max)); [done|].
      cbn [mbind option_bind] in H.
      repeat match type of H with
      | (?x ≫= _) = _ => destruct x; [|done]; cbn [mbind option_bind] in H
      end.
      congruence.
Qed.

(** [createSynapse] for a presynaptic cell the live segment has no synapse
    from: the synapse gets the handle at the back of the free list, or the
    next unused one when the list is empty; it goes to the end of the list
    of the segment with the permanence clamped; no other synapse, segment
    or cell changes. *)
Theorem createSynapse_grows (c : Connections) (s : Segment) (presyn : CellIdx)
    (p : Permanence) :
  wf c → liveSegment c s →
  (∀ y', y' ∈ synapsesOn c s → presynOf c y' ≠ presyn) →
  size_N (synapses_ c) < Synapse_max →
  ∃ c' y, createSynapse s presyn p c = Some (c', y) ∧ wf c' ∧
    (last (destroyedSynapses_ c) = Some y ∨
     destroyedSynapses_ c = [] ∧ y = size_N (synapses_ c)) ∧
    destroyedSynapses_ c' = pop_back (destroyedSynapses_ c) ∧
    ¬ live c y ∧ live c' y ∧
    synapsesOn c' s = synapsesOn c s ++ [y] ∧
    (∀ s', s' ≠ s → synapsesOn c' s' = synapsesOn c s') ∧
    segmentOf c' y = s ∧ presynOf c' y = presyn ∧ permanenceOf c' y = clamp p ∧
    (∀ y', y' ≠ y → segmentOf c' y' = segmentOf c y' ∧
                    presynOf c' y' = presynOf c y' ∧
                    permanenceOf c' y' = permanenceOf c y') ∧
    cells_ c' = cells_ c ∧ destroyedSegments_ c' = destroyedSegments_ c.
Proof.
  intros W Hls Hno Hroom. pose proof (proj1 W) as Ws.
  destruct (createSynapse_new c s presyn p W Hls Hno) as (c' & y & E & W' & C); [done|].
  exists c', y. split; [done|]. split; [done|].
  assert (last (destroyedSynapses_ c) = Some y ∨
          destroyedSynapses_ c = [] ∧ y = size_N (synapses_ c)) as Hy.
  { destruct (createSynapse_handle _ _ _ _ _ _ E) as [[H1 H2]|[H|H]]; [|by left|by right].
    exfalso. by apply (Hno y). }
  split; [done|]. split.
  { rewrite (cr_destroyedSynapses _ _ _ _ _ _ C). destruct Hy as [Hl|[Hn _]].
    - symmetry. apply pop_back_filter; [apply Ws|done].
    - by rewrite Hn. }
  split; [apply (cr_fresh _ _ _ _ _ _ C)|].
  assert (synapsesOn c' s = synapsesOn c s ++ [y]) as Hon.
  { rewrite (cr_synapsesOn _ _ _ _ _ _ C). by rewrite decide_True. }
  assert (segmentOf c' y = s) as Hseg.
  { rewrite (cr_segmentOf _ _ _ _ _ _ C). by rewrite decide_True. }
  split.
  { unfold live. rewrite Hseg, Hon. apply elem_of_app. right. by left. }
  split; [done|]. split.
  { intros s' Hne. rewrite (cr_synapsesOn _ _ _ _ _ _ C). by rewrite decide_False. }
  split; [done|]. split.
  { rewrite (cr_presynOf _ _ _ _ _ _ C). by rewrite decide_True. }
  split.
  { rewrite (cr_permanenceOf _ _ _ _ _ _ C). by rewrite decide_True. }
  split.
  { intros y' Hne. rewrite (cr_segmentOf _ _ _ _ _ _ C), (cr_presynOf _ _ _ _ _ _ C),
      (cr_permanenceOf _ _ _ _ _ _ C). by rewrite !decide_False. }
  split; [apply (cr_cells _ _ _ _ _ _ C)|apply (cr_destroyedSegments _ _ _ _ _ _ C)].
Qed.

(** [destroySynapse] on a synapse that exists: the last synapse of its
    segment takes its place in the list of the segment, the handle goes to
    the back of the free list, and every other synapse keeps its segment,
    presynaptic cell and permanence. *)
Theorem destroySynapse_removes (c : Connections) (y : Synapse) :
  wf c → live c y →
  ∃ c', destroySynapse y c = Some c' ∧ wf c' ∧
    destroyedSynapses_ c' = destroyedSynapses_ c ++ [y] ∧
    synapsesOn c' (segmentOf c y) = swap_remove y (synapsesOn c (segmentOf c y)) ∧
    (∀ s, s ≠ segmentOf c y → synapsesOn c' s = synapsesOn c s) ∧
    (∀ y', live c' y' ↔ live c y' ∧ y' ≠ y) ∧
    (∀ y', segmentOf c' y' = segmentOf c y' ∧ presynOf c' y' = presynOf c y' ∧
           permanenceOf c' y' = permanenceOf c y') ∧
    cells_ c' = cells_ c ∧ destroyedSegments_ c' = destroyedSegments_ c ∧
    length (synapses_ c') = length (synapses_ c).
Proof.
  intros W Hlv.
  destruct (destroySynapse_spec c y W Hlv) as (c' & E & W' & D).
  exists c'. split; [done|]. split; [done|].
  split; [apply (ds_destroyedSynapses _ _ _ D)|]. split.
  { rewrite (ds_synapsesOn _ _ _ D). by rewrite decide_True. }
  split.
  { intros s Hne. rewrite (ds_synapsesOn _ _ _ D). by rewrite decide_False. }
  split; [intros y'; apply (destroys_live _ _ _ _ (proj1 W) D)|].
  split.
  { intros y'. by rewrite (ds_segmentOf _ _ _ D), (ds_presynOf _ _ _ D),
      (ds_permanenceOf _ _ _ D). }
  split; [apply (ds_cells _ _ _ D)|].
  split; [apply (ds_destroyedSegments _ _ _ D)|apply (ds_size_synapses _ _ _ D)].
Qed.

(** The free list of synapses is a stack: the synapse created next after
    [destroySynapse(y)] gets the handle [y] again. *)
Theorem destroySynapse_handle_reused (c : Connections) (y : Synapse) (s : Segment)
    (presyn : CellIdx) (p : Permanence) :
  wf c → live c y → liveSegment c s →
  (∀ y', y' ∈ synapsesOn c s → y' ≠ y → presynOf c y' ≠ presyn) →
  ∃ c1 c2, destroySynapse y c = Some c1 ∧
           createSynapse s presyn p c1 = Some (c2, y) ∧ wf c2 ∧
           synapsesOn c2 s = synapsesOn c1 s ++ [y] ∧
           destroyedSynapses_ c2 = destroyedSynapses_ c.
Proof.
  intros W Hlv Hls Hno. pose proof (proj1 W) as Ws.
  destruct (destroySynapse_spec c y W Hlv) as (c1 & E1 & W1 & D).
  assert (liveSegment c1 s) as Hls1.
  { apply (keeps_liveSegment c c1); [by apply (destroys_keeps c y)|done]. }
  assert (∀ y', y' ∈ synapsesOn c1 s → presynOf c1 y' ≠ presyn) as Hno1.
  { intros y' Hy'. rewrite (ds_presynOf _ _ _ D).
    destruct (synapsesOn_live _ _ _ (proj1 W1) Hy') as [Hl1 Hs1].
    apply (destroys_live _ _ _ _ Ws D) in Hl1 as [Hl Hne].
    apply Hno; [|done]. rewrite (ds_segmentOf _ _ _ D) in Hs1. by rewrite <- Hs1. }
  destruct (createSynapse_new c1 s presyn p W1 Hls1 Hno1) as (c2 & y2 & E2 & W2 & C).
  { rewrite (ds_destroyedSynapses _ _ _ D). intros H. by apply app_nil in H as [_ ?]. }
  assert (y2 = y) as ->.
  { destruct (createSynapse_handle _ _ _ _ _ _ E2) as [[H1 H2]|[H|[H _]]].
    - exfalso. by apply (Hno1 y2).
    - rewrite (ds_destroyedSynapses _ _ _ D), last_snoc in H. congruence.
    - rewrite (ds_destroyedSynapses _ _ _ D) in H. by apply app_nil in H as [_ ?]. }
  exists c1, c2. split; [done|]. split; [done|]. split; [done|]. split.
  - rewrite (cr_synapsesOn _ _ _ _ _ _ C). by rewrite decide_True.
  - rewrite (cr_destroyedSynapses _ _ _ _ _ _ C), (ds_destroyedSynapses _ _ _ D).
    rewrite filter_app, filter_cons_False, filter_nil, app_nil_r by (intros ?; done).
    apply filter_all. intros x Hx ->.
    destruct (wf_destroyedSynapses _ Ws _ Hx) as [_ Hn]. done.
Qed.

(** [destroySegment] on a segment that exists destroys all its synapses,
    takes the segment off the list of its cell and puts its handle at the
    back of the free list; the synapses of the other segments stay. *)
Theorem destroySegment_removes (c : Connections) (s : Segment) :
  wf c → liveSegment c s →
  ∃ c', destroySegment s c = Some c' ∧ wf c' ∧
    ¬ liveSegment c' s ∧
    (∀ cl, segmentsOn c' cl = filter (λ x, x ≠ s) (segmentsOn c cl)) ∧
    destroyedSegments_ c' = destroyedSegments_ c ++ [s] ∧
    synapsesOn c' s = [] ∧
    (∀ s', s' ≠ s → synapsesOn c' s' = synapsesOn c s') ∧
    destroyedSynapses_ c' ≡ₚ destroyedSynapses_ c ++ synapsesOn c s ∧
    (∀ y, live c' y ↔ live c y ∧ segmentOf c y ≠ s) ∧
    (∀ y, segmentOf c' y = segmentOf c y ∧ presynOf c' y = presynOf c y ∧
          permanenceOf c' y = permanenceOf c y).
Proof.
  intros W Hls. pose proof (proj1 W) as Ws.
  destruct (destroySegment_spec c s W Hls) as (c' & E & W' & G).
  exists c'. split; [done|]. split; [done|]. split.
  { unfold liveSegment. rewrite (sg_segmentsOn _ _ _ G).
    intros [H _]%list_elem_of_filter. done. }
  split; [apply (sg_segmentsOn _ _ _ G)|].
  split; [apply (sg_destroyedSegments _ _ _ G)|]. split.
  { rewrite (sg_synapsesOn _ _ _ G). by rewrite decide_True. }
  split.
  { intros s' Hne. rewrite (sg_synapsesOn _ _ _ G). by rewrite decide_False. }
  split; [apply (sg_destroyedSynapses _ _ _ G)|]. split.
  { intros y. unfold live. rewrite (sg_segmentOf _ _ _ G), (sg_synapsesOn _ _ _ G).
    destruct (decide (segmentOf c y = s)) as [Es|Es].
    - split; [intros H; by apply elem_of_nil in H|tauto].
    - tauto. }
  intros y. by rewrite (sg_segmentOf _ _ _ G), (sg_presynOf _ _ _ G),
    (sg_permanenceOf _ _ _ G).
Qed.

(** [updateSynapsePermanence] on a synapse that exists clamps the new
    permanence between [minPermanence] and [maxPermanence], changes the
    permanence of no other synapse and moves no synapse or segment; the
    invariants, with them the cached count of connected synapses, hold
    again. *)
Theorem updateSynapsePermanence_clamps (c : Connections) (y : Synapse)
    (p : Permanence) :
  wf c → live c y →
  ∃ c', updateSynapsePermanence y p c = Some c' ∧ wf c' ∧
    permanenceOf c' y = clamp p ∧
    (minPermanence <= permanenceOf c' y)%Q ∧ (permanenceOf c' y <= maxPermanence)%Q ∧
    (∀ y', y' ≠ y → permanenceOf c' y' = permanenceOf c y') ∧
    (∀ s, synapsesOn c' s = synapsesOn c s) ∧
    (∀ y', segmentOf c' y' = segmentOf c y' ∧ presynOf c' y' = presynOf c y') ∧
    cells_ c' = cells_ c ∧
    destroyedSynapses_ c' = destroyedSynapses_ c ∧
    destroyedSegments_ c' = destroyedSegments_ c ∧
    numConnectedOf c' (segmentOf c y) =
      (numConnectedOf c (segmentOf c y)
       + (if connectedB c' y then 1 else 0) - (if connectedB c y then 1 else 0))%Z.
Proof.
  intros W Hlv. pose proof (proj1 W) as Ws.
  destruct (updateSynapsePermanence_wf c y p W Hlv) as (c' & E & W' & F & P).
  exists c'. split; [done|]. split; [done|].
  assert (permanenceOf c' y = clamp p) as Hp.
  { rewrite P. by rewrite decide_True. }
  split; [done|]. rewrite Hp. split; [apply clamp_range|]. split; [apply clamp_range|].
  split.
  { intros y' Hne. rewrite P. by rewrite decide_False. }
  split; [apply (fr_synapsesOn _ _ F)|]. split.
  { intros y'. by rewrite (fr_segmentOf _ _ F), (fr_presynOf _ _ F). }
  split; [apply (fr_cells _ _ F)|]. split; [apply (fr_destroyedSynapses _ _ F)|].
  split; [apply (fr_destroyedSegments _ _ F)|].
  rewrite (wf_numConnected _ (proj1 W')), (wf_numConnected _ Ws).
  rewrite (fr_synapsesOn _ _ F).
  assert (y ∈ synapsesOn c (segmentOf c y)) as Hy by done.
  rewrite (count_if_swap_remove (connectedB c') y _ Hy).
  rewrite (count_if_swap_remove (connectedB c) y _ Hy).
  assert (count_if (connectedB c') (swap_remove y (synapsesOn c (segmentOf c y))) =
          count_if (connectedB c) (swap_remove y (synapsesOn c (segmentOf c y)))) as ->.
  { apply count_if_ext. intros x Hx.
    apply swap_remove_elem in Hx as [_ Hne]; [|apply Ws].
    unfold connectedB. rewrite P, (fr_threshold _ _ F). by rewrite decide_False. }
  destruct (connectedB c' y), (connectedB c y); lia.
Qed.

(** * computeActivity, both overloads *)

Lemma occurrences_one_kind c k cl s :
  wf_struct c →
  count_if (N.eqb s) (map_get (presynSegments k c) cl) =
  count_if (λ y, Bool.eqb (connectedB c y) k && N.eqb (presynOf c y) cl) (synapsesOn c s).
Proof.
  intros W. rewrite (map_get_segs c k cl W).
  rewrite count_if_map. rewrite count_if_length_filter.
  apply Permutation_length, NoDup_Permutation.
  - apply NoDup_filter. by apply presyn_list_NoDup.
  - apply NoDup_filter. apply W.
  - intros y. rewrite !list_elem_of_filter. rewrite presyn_list_elem by done.
    rewrite andb_true_iff, !N.eqb_eq, Bool.eqb_true_iff. split.
    + intros (Es & Hlv & Hp & Hc). subst s. done.
    + intros ((Hc & Hp) & Hy). destruct (synapsesOn_live _ _ _ W Hy). done.
Qed.

Lemma occurrences_all_kind c k cells s :
  wf_struct c → NoDup cells →
  occurrences (presynSegments k c) cells s =
  count_if (λ y, Bool.eqb (connectedB c y) k && bool_decide (presynOf c y ∈ cells))
           (synapsesOn c s).
Proof.
  intros W. induction cells as [|cl cells IH]; intros Hnd.
  - cbn [occurrences]. induction (synapsesOn c s) as [|y l IHl]; [done|].
    cbn [count_if]. rewrite <- IHl.
    rewrite bool_decide_eq_false_2 by apply not_elem_of_nil.
    by rewrite andb_false_r.
  - apply NoDup_cons in Hnd as [Hcl Hnd]. cbn [occurrences].
    rewrite IH by done. rewrite occurrences_one_kind by done.
    rewrite count_if_disjoint_sum.
    + apply count_if_ext. intros y Hy.
      destruct (Bool.eqb (connectedB c y) k); simpl; [|done].
      destruct (N.eqb_spec (presynOf c y) cl) as [E|E].
      * simpl. symmetry. apply bool_decide_eq_true_2. rewrite E. by left.
      * simpl. apply bool_decide_ext. rewrite elem_of_cons. tauto.
    + intros y Hy [_ E]%andb_true_iff. apply N.eqb_eq in E.
      rewrite bool_decide_eq_false_2; [apply andb_false_r|]. by rewrite E.
Qed.

Lemma presyn_segments_in_range c k cl s :
  wf_struct c → s ∈ map_get (presynSegments k c) cl → s < size_N (segments_ c).
Proof.
  intros Ws Hs. rewrite (map_get_segs c k cl Ws) in Hs.
  apply list_elem_of_fmap in Hs as (y & -> & Hy).
  apply presyn_list_elem in Hy as (Hlv & _); [|done].
  apply at_N_is_Some. by apply live_segment_in_range.
Qed.

Lemma computeActivity_runs A learn c :
  wf c →
  ∃ c' counts, computeActivity A learn c = Some (c', counts) ∧
    length counts = length (segments_ c) ∧
    c' = (let c1 := if learn then with_iteration (iteration_ c + 1) c else c in
          if timeseries_ c1 then with_updates (currentUpdates_ c1) [] c1 else c1) ∧
    ∀ s, at_N counts s =
         (λ n, n + Z.of_nat (occurrences (presynSegments true c) A s))%Z
           <$> at_N (replicate (length (segments_ c)) 0%Z) s.
Proof.
  intros W. pose proof (proj1 W) as Ws. unfold computeActivity.
  set (c1 := if learn then _ else c).
  set (c2 := if timeseries_ c1 then _ else c1).
  assert (connectedSegmentsForPresynapticCell_ c2 = presynSegments true c) as Em.
  { unfold c2, c1. destruct learn; cbn; destruct (timeseries_ c); done. }
  rewrite Em.
  destruct (activity_loop_spec (presynSegments true c) A
              (replicate (length (segments_ c)) 0%Z)) as (counts & E & Hl & Hc).
  { intros cl s _ Hs. unfold size_N. rewrite length_replicate.
    by apply (presyn_segments_in_range c true cl). }
  rewrite E. cbn [mbind option_bind]. exists c2, counts. split; [done|].
  split; [by rewrite Hl, length_replicate|]. split; [done|]. exact Hc.
Qed.

(** [computeActivity] changes nothing of the connections but the iteration
    counter, which it increments when learning, and in time-series mode
    the update vectors, which it shifts; the counts it returns are
    therefore the same when it is called again. *)
Theorem computeActivity_keeps_connections (A : list CellIdx) (learn : bool)
    (c : Connections) :
  wf c →
  ∃ c' counts, computeActivity A learn c = Some (c', counts) ∧ wf c' ∧
    cells_ c' = cells_ c ∧ segments_ c' = segments_ c ∧ synapses_ c' = synapses_ c ∧
    destroyedSegments_ c' = destroyedSegments_ c ∧
    destroyedSynapses_ c' = destroyedSynapses_ c ∧
    connectedThreshold_ c' = connectedThreshold_ c ∧
    (∀ k, presynSynapses k c' = presynSynapses k c) ∧
    (∀ k, presynSegments k c' = presynSegments k c) ∧
    iteration_ c' = (if learn then iteration_ c + 1 else iteration_ c) ∧
    (if timeseries_ c
     then previousUpdates_ c' = currentUpdates_ c ∧ currentUpdates_ c' = []
     else previousUpdates_ c' = previousUpdates_ c ∧
          currentUpdates_ c' = currentUpdates_ c) ∧
    ∀ learn', snd <$> computeActivity A learn' c' = Some counts.
Proof.
  intros W.
  destruct (computeActivity_runs A learn c W) as (c' & counts & E & Hl & Ec & Hc).
  assert (wf c') as W'.
  { rewrite Ec. destruct learn; cbn; destruct (timeseries_ c);
      try apply wf_with_updates; try done;
      destruct W as ([] & Hp & Hb); (split; [by constructor|]); split; done. }
  exists c', counts. split; [done|]. split; [done|].
  assert (segments_ c' = segments_ c) as Hseg.
  { rewrite Ec. destruct learn; cbn; by destruct (timeseries_ c). }
  assert (∀ k, presynSegments k c' = presynSegments k c) as Hmaps.
  { intros k. rewrite Ec. destruct k, learn; cbn; by destruct (timeseries_ c). }
  split; [rewrite Ec; destruct learn; cbn; by destruct (timeseries_ c)|].
  split; [done|].
  split; [rewrite Ec; destruct learn; cbn; by destruct (timeseries_ c)|].
  split; [rewrite Ec; destruct learn; cbn; by destruct (timeseries_ c)|].
  split; [rewrite Ec; destruct learn; cbn; by destruct (timeseries_ c)|].
  split; [rewrite Ec; destruct learn; cbn; by destruct (timeseries_ c)|].
  split; [intros k; rewrite Ec; destruct k, learn; cbn; by destruct (timeseries_ c)|].
  split; [done|].
  split; [rewrite Ec; destruct learn; cbn; by destruct (timeseries_ c)|].
  split; [rewrite Ec; destruct learn; cbn; by destruct (timeseries_ c)|].
  intros learn'.
  destruct (computeActivity_runs A learn' c' W') as (c2 & counts2 & E2 & Hl2 & _ & Hc2).
  rewrite E2. cbn. f_equal. apply list_eq. intros i.
  pose proof (Hc (N.of_nat i)) as H1. pose proof (Hc2 (N.of_nat i)) as H2.
  unfold at_N in H1, H2. rewrite Nat2N.id in H1, H2.
  rewrite H2, H1, Hmaps, Hseg. done.
Qed.

Lemma count_if_split P Q (l : list N) :
  (count_if (λ y, P y && Q y) l + count_if (λ y, negb (P y) && Q y) l)%nat
  = count_if Q l.
Proof.
  induction l as [|x l IH]; [done|]. simpl. rewrite <- IH.
  destruct (P x), (Q x); simpl; lia.
Qed.

(** The second overload of [computeActivity] returns the connected counts
    of the first and fills the vector it is given with the potential
    counts: entry [s] is the number of synapses on segment [s], connected
    or not, whose presynaptic cell is active.  The vector must have room
    for one entry per segment. *)
Theorem computeActivityPotential_counts (potential0 : list SynapseIdx)
    (A : list CellIdx) (learn : bool) (c : Connections) :
  wf c → NoDup A → (length (segments_ c) ≤ length potential0)%nat →
  ∃ c' connected potential,
    computeActivityPotential potential0 A learn c = Some (c', connected, potential) ∧
    snd <$> computeActivity A learn c = Some connected ∧
    length potential = length potential0 ∧
    (∀ s, s < size_N (segments_ c) →
       at_N connected s =
         Some (Z.of_nat (count_if (λ y, connectedB c y && bool_decide (presynOf c y ∈ A))
                           (synapsesOn c s))) ∧
       at_N potential s =
         Some (Z.of_nat (count_if (λ y, bool_decide (presynOf c y ∈ A))
                           (synapsesOn c s)))) ∧
    (∀ s, size_N (segments_ c) ≤ s → at_N potential s = at_N potential0 s).
Proof.
  intros W Hnd Hlen. pose proof (proj1 W) as Ws.
  destruct (computeActivity_spec A learn c W Hnd) as (c' & connected & E & Hl & Hc).
  destruct (computeActivity_runs A learn c W) as (c'' & connected' & E' & _ & Ec & _).
  assert (c'' = c') as -> by congruence.
  unfold computeActivityPotential. rewrite E. cbn [mbind option_bind].
  unfold copy_into. rewrite Hl.
  apply Nat.leb_le in Hlen as Hlen'. rewrite Hlen'. cbn [mbind option_bind].
  set (pot := connected ++ drop (length (segments_ c)) potential0).
  assert (length pot = length potential0) as Hlp.
  { unfold pot. rewrite length_app, length_drop. lia. }
  assert (potentialSegmentsForPresynapticCell_ c' = presynSegments false c) as Em.
  { rewrite Ec. destruct learn; cbn; by destruct (timeseries_ c). }
  rewrite Em.
  destruct (activity_loop_spec (presynSegments false c) A pot) as (pot' & Ep & Hlp' & Hp').
  { intros cl s _ Hs. apply (presyn_segments_in_range c false cl s Ws) in Hs.
    unfold size_N in *. lia. }
  rewrite Ep. cbn [mbind option_bind].
  exists c', connected, pot'. split; [done|]. split; [done|].
  split; [congruence|]. split.
  - intros s Hs. split; [by apply Hc|].
    rewrite Hp'. unfold pot. rewrite at_N_app_l.
    2:{ apply at_N_is_Some. unfold size_N in *. lia. }
    rewrite Hc by done. rewrite occurrences_all_kind by done.
    cbn [fmap option_fmap option_map]. f_equal.
    rewrite <- (count_if_split (connectedB c)
                  (λ y, bool_decide (presynOf c y ∈ A)) (synapsesOn c s)).
    rewrite Nat2Z.inj_add.
    rewrite (count_if_ext
               (λ y, Bool.eqb (connectedB c y) false && bool_decide (presynOf c y ∈ A))
               (λ y, negb (connectedB c y) && bool_decide (presynOf c y ∈ A))); [done|].
    intros y _. by destruct (connectedB c y).
  - intros s Hs. rewrite Hp'.
    assert (occurrences (presynSegments false c) A s = 0%nat) as ->.
    { rewrite occurrences_all_kind by done.
      assert (synapsesOn c s = []) as ->; [|done].
      unfold synapsesOn. destruct (at_N (segments_ c) s) eqn:Es; [|done].
      assert (s < size_N (segments_ c)) by (apply at_N_is_Some; by exists s0). lia. }
    unfold pot, at_N. unfold size_N in Hs.
    rewrite lookup_app_r by lia. rewrite lookup_drop.
    replace (length (segments_ c) + (N.to_nat s - length connected))%nat
      with (N.to_nat s) by lia.
    destruct (potential0 !! N.to_nat s); cbn; [f_equal; lia|done].
Qed.

Lemma at_N_same_length {A} (v w : list A) i :
  length v = length w → at_N v i = None → at_N w i = None.
Proof.
  unfold at_N. intros Hl Hv. apply lookup_ge_None in Hv. apply lookup_ge_None. lia.
Qed.

(** A synapse just created is what [computeActivity] counts next: the
    count of its segment goes up by one when its presynaptic cell is
    active and its clamped permanence reaches the connected threshold, and
    the counts of the other segments stay. *)
Theorem createSynapse_counted (c : Connections) (s : Segment) (presyn : CellIdx)
    (p : Permanence) (A : list CellIdx) :
  wf c → liveSegment c s →
  (∀ y', y' ∈ synapsesOn c s → presynOf c y' ≠ presyn) →
  size_N (synapses_ c) < Synapse_max → NoDup A →
  ∃ c' y before after,
    createSynapse s presyn p c = Some (c', y) ∧
    snd <$> computeActivity A false c = Some before ∧
    snd <$> computeActivity A false c' = Some after ∧
    at_N after s =
      (λ n, n + (if Qgeb (clamp p) (connectedThreshold_ c) && bool_decide (presyn ∈ A)
                 then 1 else 0))%Z <$> at_N before s ∧
    ∀ s', s' ≠ s → at_N after s' = at_N before s'.
Proof.
  intros W Hls Hno Hroom Hnd. pose proof (proj1 W) as Ws.
  destruct (createSynapse_new c s presyn p W Hls Hno) as (c' & y & E & W' & C); [done|].
  destruct (computeActivity_spec A false c W Hnd) as (c1 & before & E1 & L1 & H1).
  destruct (computeActivity_spec A false c' W' Hnd) as (c2 & after & E2 & L2 & H2).
  exists c', y, before, after. split; [done|]. rewrite E1, E2.
  split; [done|]. split; [done|].
  pose proof (cr_size_segments _ _ _ _ _ _ C) as Hsz.
  assert (∀ y', y' ≠ y →
            connectedB c' y' && bool_decide (presynOf c' y' ∈ A) =
            connectedB c y' && bool_decide (presynOf c y' ∈ A)) as Hsame.
  { intros y' Hne. unfold connectedB.
    rewrite (cr_permanenceOf _ _ _ _ _ _ C), (cr_presynOf _ _ _ _ _ _ C),
      (cr_threshold _ _ _ _ _ _ C). by rewrite !decide_False. }
  assert (∀ s' y', y' ∈ synapsesOn c s' → y' ≠ y) as Hold.
  { intros s' y' Hy' ->. apply (cr_fresh _ _ _ _ _ _ C).
    by destruct (synapsesOn_live _ _ _ Ws Hy'). }
  assert (s < size_N (segments_ c)) as Hs.
  { apply at_N_is_Some. by apply liveSegment_at. }
  split.
  - rewrite H2 by (unfold size_N in *; lia). rewrite (H1 s Hs). cbn. f_equal.
    rewrite (cr_synapsesOn _ _ _ _ _ _ C). rewrite decide_True by done.
    rewrite count_if_app. cbn [count_if].
    rewrite (count_if_ext _ (λ y0, connectedB c y0 && bool_decide (presynOf c y0 ∈ A))
               (synapsesOn c s)) by (intros x Hx; apply Hsame; by apply (Hold s)).
    assert (connectedB c' y && bool_decide (presynOf c' y ∈ A) =
            Qgeb (clamp p) (connectedThreshold_ c) && bool_decide (presyn ∈ A)) as ->.
    { unfold connectedB.
      rewrite (cr_permanenceOf _ _ _ _ _ _ C), (cr_presynOf _ _ _ _ _ _ C),
        (cr_threshold _ _ _ _ _ _ C). by rewrite !decide_True. }
    destruct (Qgeb (clamp p) (connectedThreshold_ c) && bool_decide (presyn ∈ A)); lia.
  - intros s' Hne. destruct (decide (s' < size_N (segments_ c))) as [Hin|Hout].
    + rewrite H2 by (unfold size_N in *; lia). rewrite (H1 s' Hin). f_equal. f_equal.
      rewrite (cr_synapsesOn _ _ _ _ _ _ C). rewrite decide_False by done.
      apply count_if_ext. intros x Hx. apply Hsame. by apply (Hold s').
    + assert (at_N before s' = None) as Hb.
      { unfold at_N. apply lookup_ge_None. unfold size_N in Hout. lia. }
      rewrite Hb. apply (at_N_same_length before); [congruence|done].
Qed.

(** * Reading the connections *)

Lemma filter_none {A} (P : A → Prop) `{∀ x, Decision (P x)} (l : list A) :
  (∀ x, x ∈ l → ¬ P x) → filter P l = [].
Proof.
  induction l as [|x l IH]; intros Hl; [done|].
  rewrite filter_cons_False by (apply Hl; left). apply IH. intros z Hz. apply Hl. by right.
Qed.

(** [synapsesForPresynapticCell] lists, each once, the synapses that exist
    and have the given presynaptic cell: the potential ones, then the
    connected ones.  For a cell no synapse comes from it is empty. *)
Theorem synapsesForPresynapticCell_lists (c : Connections) (cl : CellIdx) :
  wf c →
  NoDup (synapsesForPresynapticCell c cl) ∧
  (∀ y, y ∈ synapsesForPresynapticCell c cl ↔ live c y ∧ presynOf c y = cl) ∧
  synapsesForPresynapticCell c cl =
    filter (λ y, connectedB c y = false) (synapsesForPresynapticCell c cl) ++
    filter (λ y, connectedB c y = true) (synapsesForPresynapticCell c cl).
Proof.
  intros W. pose proof (proj1 W) as Ws.
  assert (synapsesForPresynapticCell c cl =
          map_get (presynSynapses false c) cl ++ map_get (presynSynapses true c) cl) as ->.
  { unfold synapsesForPresynapticCell, map_get. cbn.
    destruct (potentialSynapsesForPresynapticCell_ c !! cl),
             (connectedSynapsesForPresynapticCell_ c !! cl); cbn;
      by rewrite ?app_nil_r. }
  split; [|split].
  - apply NoDup_app. split; [by apply presyn_list_NoDup|].
    split; [|by apply presyn_list_NoDup].
    intros y H1 H2. apply presyn_list_elem in H1 as (_ & _ & E1); [|done].
    apply presyn_list_elem in H2 as (_ & _ & E2); [|done]. congruence.
  - intros y. rewrite elem_of_app, !presyn_list_elem by done.
    destruct (connectedB c y); split; tauto || (intros (? & ?); tauto).
  - rewrite !filter_app.
    rewrite (filter_all (λ y, connectedB c y = false) (map_get (presynSynapses false c) cl)).
    2:{ intros y Hy. by apply presyn_list_elem in Hy as (_ & _ & ?). }
    rewrite (filter_all (λ y, connectedB c y = true) (map_get (presynSynapses true c) cl)).
    2:{ intros y Hy. by apply presyn_list_elem in Hy as (_ & _ & ?). }
    assert (filter (λ y, connectedB c y = false) (map_get (presynSynapses true c) cl) = [])
      as ->.
    { apply filter_none. intros y Hy.
      apply presyn_list_elem in Hy as (_ & _ & ?); [congruence|done]. }
    assert (filter (λ y, connectedB c y = true) (map_get (presynSynapses false c) cl) = [])
      as ->.
    { apply filter_none. intros y Hy.
      apply presyn_list_elem in Hy as (_ & _ & ?); [congruence|done]. }
    by rewrite app_nil_r.
Qed.

Lemma set_insert_elem (x z : N) (l : list N) :
  z ∈ set_insert x l ↔ z = x ∨ z ∈ l.
Proof.
  induction l as [|y l IH]; cbn [set_insert].
  - rewrite list_elem_of_singleton. split; [by left|]. intros [?|H]; [done|].
    by apply not_elem_of_nil in H.
  - destruct (N.ltb_spec x y) as [Hlt|Hge].
    + rewrite (elem_of_cons (y :: l)). tauto.
    + destruct (N.eqb_spec x y) as [->|Hne].
      * rewrite elem_of_cons. tauto.
      * rewrite !elem_of_cons, IH. tauto.
Qed.

Lemma set_insert_sorted (x : N) (l : list N) :
  StronglySorted N.lt l → StronglySorted N.lt (set_insert x l).
Proof.
  induction 1 as [|y l Hs IH Hall]; cbn [set_insert].
  - repeat constructor.
  - destruct (N.ltb_spec x y) as [Hlt|Hge].
    + constructor; [by constructor|]. constructor; [done|].
      eapply Forall_impl; [exact Hall|]. intros z Hz. cbn in Hz. lia.
    + destruct (N.eqb_spec x y) as [->|Hne]; [by constructor|].
      constructor; [done|]. apply Forall_forall. intros z Hz.
      apply set_insert_elem in Hz as [->|Hz]; [lia|].
      by apply (proj1 (Forall_forall _ _) Hall).
Qed.

Lemma presynCells_loop_spec (c : Connections) (syns : list Synapse) (acc : list N) :
  (∀ y, y ∈ syns → y < size_N (synapses_ c)) →
  StronglySorted N.lt acc →
  ∃ l, presynCells_loop c syns acc = Some l ∧ StronglySorted N.lt l ∧
       ∀ cl, cl ∈ l ↔ cl ∈ acc ∨ ∃ y, y ∈ syns ∧ presynOf c y = cl.
Proof.
  revert acc. induction syns as [|y syns IH]; intros acc Hin Hs; cbn [presynCells_loop].
  - exists acc. split; [done|]. split; [done|]. intros cl. split; [by left|].
    intros [?|(y & Hy & _)]; [done|]. by apply not_elem_of_nil in Hy.
  - assert (is_Some (at_N (synapses_ c) y)) as [d Ed].
    { apply at_N_is_Some, Hin. left. }
    unfold dataForSynapse. rewrite Ed. cbn.
    destruct (IH (set_insert (presynapticCell d) acc)) as (l & E & Hl & Hm).
    { intros z Hz. apply Hin. by right. }
    { by apply set_insert_sorted. }
    exists l. split; [done|]. split; [done|]. intros cl. rewrite Hm, set_insert_elem.
    assert (presynOf c y = presynapticCell d) as Ey by (unfold presynOf; by rewrite Ed).
    split.
    + intros [[->|?]|(z & Hz & Ez)]; [right; exists y; split; [left|done] |by left|].
      right. exists z. split; [by right|done].
    + intros [?|(z & Hz & Ez)]; [left; by right|].
      apply elem_of_cons in Hz as [->|Hz]; [left; left; congruence|].
      right. by exists z.
Qed.

Lemma sorted_lt_NoDup (l : list N) : StronglySorted N.lt l → NoDup l.
Proof.
  induction 1 as [|y l Hs IH Hall]; constructor; [|done].
  intros Hy. apply (proj1 (Forall_forall _ _) Hall) in Hy. lia.
Qed.

(** [presynapticCellsForSegment] gives, in ascending order and each once,
    the presynaptic cells of the synapses on the segment; in a well-formed
    state there are as many as the segment has synapses.  A handle out of
    range has no result. *)
Theorem presynapticCellsForSegment_lists (c : Connections) (s : Segment) :
  wf c →
  (s < size_N (segments_ c) →
   ∃ l, presynapticCellsForSegment c s = Some l ∧
        StronglySorted N.lt l ∧
        (∀ cl, cl ∈ l ↔ ∃ y, y ∈ synapsesOn c s ∧ presynOf c y = cl) ∧
        length l = length (synapsesOn c s)) ∧
  (size_N (segments_ c) ≤ s → presynapticCellsForSegment c s = None).
Proof.
  intros W. pose proof (proj1 W) as Ws. split.
  - intros Hs. apply at_N_is_Some in Hs as [sd Esd].
    unfold presynapticCellsForSegment, synapsesForSegment. rewrite Esd. cbn.
    assert (synapsesOn c s = synapses sd) as Eon by (unfold synapsesOn; by rewrite Esd).
    rewrite <- Eon.
    destruct (presynCells_loop_spec c (synapsesOn c s) []) as (l & E & Hl & Hm).
    { intros y Hy. by apply (wf_seg_syn _ Ws s). }
    { constructor. }
    exists l. split; [done|]. split; [done|].
    assert (∀ cl, cl ∈ l ↔ ∃ y, y ∈ synapsesOn c s ∧ presynOf c y = cl) as Hm'.
    { intros cl. rewrite Hm. split; [|by right]. intros [H|?]; [|done].
      by apply not_elem_of_nil in H. }
    split; [done|].
    assert (l ≡ₚ map (presynOf c) (synapsesOn c s)) as ->; [|by rewrite length_map].
    apply NoDup_Permutation.
    + by apply sorted_lt_NoDup.
    + apply NoDup_fmap_2_strong; [|apply (wf_seg_nodup _ Ws)].
      intros y1 y2 H1 H2 Heq. by apply (wf_seg_presyn _ Ws s).
    + intros cl. rewrite Hm'. rewrite list_elem_of_fmap. split.
      * intros (y & Hy & <-). by exists y.
      * intros (y & -> & Hy). by exists y.
  - intros Hs. unfold presynapticCellsForSegment, synapsesForSegment.
    assert (at_N (segments_ c) s = None) as ->; [|done].
    destruct (at_N (segments_ c) s) eqn:E; [|done].
    assert (s < size_N (segments_ c)) by (apply at_N_is_Some; by rewrite E). lia.
Qed.

(** [idxOnCellForSegment] and the list of the cell are inverse to each
    other: for a segment that exists, the index returned is a position of
    the list of its cell, that position holds the segment, and no other
    position does. *)
Theorem idxOnCellForSegment_round_trip (c : Connections) (s : Segment) :
  wf c → liveSegment c s →
  ∃ i, idxOnCellForSegment c s = Some i ∧
       (segmentsForCell c (cellOf c s) ≫= λ segs, at_N segs i) = Some s ∧
       ∀ j, (segmentsForCell c (cellOf c s) ≫= λ segs, at_N segs j) = Some s → j = i.
Proof.
  intros W Hl. pose proof (proj1 W) as Ws.
  destruct (liveSegment_at _ _ Ws Hl) as [sd Esd].
  assert (cellOf c s = cell sd) as Ec by (unfold cellOf; by rewrite Esd).
  unfold liveSegment in Hl. rewrite Ec in *.
  unfold segmentsOn in Hl. unfold idxOnCellForSegment, cellForSegment, segmentsForCell.
  rewrite Esd. cbn.
  destruct (at_N (cells_ c) (cell sd)) as [cd|] eqn:Ecd;
    [|by apply not_elem_of_nil in Hl]. cbn.
  destruct (find_index_elem _ _ Hl) as [i Ei]. rewrite Ei.
  exists (N.of_nat i). split; [done|].
  pose proof (find_index_Some _ _ _ Ei) as Hi.
  split; [unfold at_N; by rewrite Nat2N.id|].
  intros j Hj. unfold at_N in Hj.
  assert (NoDup (segments cd)) as Hnd.
  { pose proof (wf_cells_nodup _ Ws (cell sd)) as H. unfold segmentsOn in H.
    by rewrite Ecd in H. }
  pose proof (NoDup_lookup _ _ _ _ Hnd Hj Hi). lia.
Qed.

Lemma compareSegments_Some (c : Connections) (a b : Segment) (ad bd : SegmentData) :
  at_N (segments_ c) a = Some ad → at_N (segments_ c) b = Some bd →
  compareSegments c a b =
    Some (bool_decide (cell ad < cell bd ∨ cell ad = cell bd ∧ a < b)).
Proof.
  intros Ea Eb. unfold compareSegments. rewrite Ea, Eb. cbn. f_equal.
  destruct (N.eqb_spec (cell ad) (cell bd)) as [Heq|Hne].
  - destruct (N.ltb_spec a b).
    + rewrite bool_decide_eq_true_2; [done|]. by right.
    + rewrite bool_decide_eq_false_2; [done|]. lia.
  - destruct (N.ltb_spec (cell ad) (cell bd)).
    + rewrite bool_decide_eq_true_2; [done|]. by left.
    + rewrite bool_decide_eq_false_2; [done|]. lia.
Qed.

(** [compareSegments] is a strict total order of the segment handles in
    range that sorts by cell first: nothing goes before itself, of two
    different handles exactly one goes before the other, going before is
    transitive, and a handle never goes before one of a smaller cell. *)
Theorem compareSegments_orders (c : Connections) (a b d : Segment) :
  a < size_N (segments_ c) → b < size_N (segments_ c) → d < size_N (segments_ c) →
  compareSegments c a a = Some false ∧
  (a ≠ b → compareSegments c a b = Some (negb (default false (compareSegments c b a)))) ∧
  is_Some (compareSegments c b a) ∧
  (compareSegments c a b = Some true → compareSegments c b d = Some true →
   compareSegments c a d = Some true) ∧
  (compareSegments c a b = Some true → cellOf c a ≤ cellOf c b).
Proof.
  intros Ha Hb Hd.
  apply at_N_is_Some in Ha as [ad Ea]. apply at_N_is_Some in Hb as [bd Eb].
  apply at_N_is_Some in Hd as [dd Ed].
  rewrite (compareSegments_Some c a a ad ad), (compareSegments_Some c a b ad bd),
    (compareSegments_Some c b a bd ad), (compareSegments_Some c b d bd dd),
    (compareSegments_Some c a d ad dd) by done.
  unfold cellOf. rewrite Ea, Eb. cbn [default].
  split; [f_equal; apply bool_decide_eq_false_2; lia|].
  split.
  { intros Hne. f_equal. do 2 case_bool_decide; cbn; [lia|done|done|lia]. }
  split; [by eexists|]. split.
  - intros [= H1%bool_decide_eq_true_1] [= H2%bool_decide_eq_true_1].
    f_equal. apply bool_decide_eq_true_2. lia.
  - intros [= H1%bool_decide_eq_true_1]. lia.
Qed.

(** * Learning steps *)

(** [bumpSegment] adds [delta] to the permanence of every synapse of the
    segment, clamped to the permanence range, and changes nothing else.
    With a [delta] that is not negative no synapse gets disconnected, so
    the connected count of the segment does not go down. *)
Theorem bumpSegment_adds (c : Connections) (s : Segment) (delta : Permanence) :
  wf c → s < size_N (segments_ c) →
  ∃ c', bumpSegment s delta c = Some c' ∧ wf c' ∧
    cells_ c' = cells_ c ∧
    (∀ s', synapsesOn c' s' = synapsesOn c s') ∧
    destroyedSynapses_ c' = destroyedSynapses_ c ∧
    destroyedSegments_ c' = destroyedSegments_ c ∧
    (∀ y, permanenceOf c' y =
          if decide (y ∈ synapsesOn c s) then clamp (permanenceOf c y + delta)
          else permanenceOf c y) ∧
    ((0 <= delta)%Q →
     (∀ y, live c y → connectedB c y = true → connectedB c' y = true) ∧
     ∀ s', (numConnectedOf c s' ≤ numConnectedOf c' s')%Z).
Proof.
  intros W Hs. pose proof (proj1 W) as Ws.
  apply at_N_is_Some in Hs as [sd Esd].
  assert (synapsesOn c s = synapses sd) as Eon by (unfold synapsesOn; by rewrite Esd).
  unfold bumpSegment, synapsesForSegment. rewrite Esd. cbn. rewrite <- Eon.
  destruct (bump_loop_spec delta (synapsesOn c s) c W) as (c' & E & W' & F & P).
  { apply (wf_seg_nodup _ Ws). }
  { intros y Hy. by destruct (synapsesOn_live _ _ _ Ws Hy). }
  exists c'. split; [done|]. split; [done|].
  split; [apply (fr_cells _ _ F)|]. split; [apply (fr_synapsesOn _ _ F)|].
  split; [apply (fr_destroyedSynapses _ _ F)|].
  split; [apply (fr_destroyedSegments _ _ F)|]. split; [done|].
  intros Hd.
  assert (∀ y, live c y → connectedB c y = true → connectedB c' y = true) as Hmono.
  { intros y Hl Hc. unfold connectedB in *. rewrite (fr_threshold _ _ F), P.
    destruct (decide (y ∈ synapsesOn c s)) as [Hy|Hy]; [|done].
    apply Qgeb_true in Hc. apply Qgeb_true.
    destruct (proj1 (proj2 W) y Hl) as [Hlo Hhi].
    apply clamp_ge; [by apply (proj2 (proj2 W))| |]; lra. }
  split; [done|]. intros s'.
  rewrite (wf_numConnected _ Ws), (wf_numConnected _ (proj1 W')), (fr_synapsesOn _ _ F).
  apply inj_le. apply count_if_mono. intros y Hy. apply Hmono.
  by destruct (synapsesOn_live _ _ _ Ws Hy).
Qed.

Lemma doomed_never inputArray increment decrement c y :
  doomed inputArray increment decrement false c y = false.
Proof. done. Qed.

(** Without [pruneZeroSynapses] a call of [adaptSegment] destroys nothing,
    whatever the segment threshold: every segment keeps its synapses and
    the free lists stay.  Outside the time-series mode each synapse of the
    segment gets [increment] added when its presynaptic cell is active and
    [decrement] subtracted when it is not, clamped to the permanence
    range, and the synapses of other segments keep their permanence. *)
Theorem adaptSegment_without_pruning (c : Connections) (s : Segment) (inputs : SDR)
    (increment decrement : Permanence) (segmentThreshold : N) :
  wf c → liveSegment c s → inputCovers inputs c s = true →
  ∃ c', adaptSegment s inputs increment decrement false segmentThreshold c = Some c' ∧
    wf c' ∧
    cells_ c' = cells_ c ∧
    (∀ s', synapsesOn c' s' = synapsesOn c s') ∧
    destroyedSynapses_ c' = destroyedSynapses_ c ∧
    destroyedSegments_ c' = destroyedSegments_ c ∧
    (∀ y, y ∉ synapsesOn c s → permanenceOf c' y = permanenceOf c y) ∧
    (timeseries_ c = false → ∀ y, y ∈ synapsesOn c s →
       permanenceOf c' y =
         clamp (permanenceOf c y +
                if bool_decide (presynOf c y ∈ getSparse inputs) then increment
                else - decrement)).
Proof.
  intros W Hls Hcov. pose proof (proj1 W) as Ws.
  assert (∀ y, y ∈ synapsesOn c s → presynOf c y < sdr_size inputs) as Hin.
  { intros y Hy. unfold inputCovers in Hcov. rewrite forallb_forall in Hcov.
    apply N.ltb_lt. apply Hcov. by apply list_elem_of_In. }
  unfold adaptSegment.
  set (cA := if timeseries_ c then _ else c).
  assert (wf cA ∧ similar c cA ∧ (∀ y, permanenceOf cA y = permanenceOf c y) ∧
          (timeseries_ cA = true →
             length (previousUpdates_ cA) = length (synapses_ cA) ∧
             length (currentUpdates_ cA) = length (synapses_ cA)))
    as (WA & SA & PA & LA).
  { unfold cA. destruct (timeseries_ c) eqn:Ets.
    - split; [by apply wf_with_updates|]. split; [apply similar_with_updates|].
      split; [done|]. intros _. cbn. by rewrite !length_resize_vec.
    - split; [done|]. split; [apply similar_refl|]. split; [done|]. congruence. }
  destruct (liveSegment_at c s Ws Hls) as [sd Hsd].
  assert (at_N (segments_ cA) s = Some sd) as HsdA.
  { unfold cA. by destruct (timeseries_ c). }
  destruct (synapsesForSegment_on _ _ _ HsdA) as [EsA _].
  destruct (synapsesForSegment_on _ _ _ Hsd) as [_ Eon].
  rewrite EsA. cbn [mbind option_bind]. rewrite <- Eon.
  destruct (adapt_loop_spec (getDense inputs) increment decrement false c
              (synapsesOn c s) [] cA WA SA) as (c1 & E1 & W1 & S1 & K1 & P1).
  { apply Ws. }
  { intros y Hy. destruct (synapsesOn_live _ _ _ Ws Hy) as [Hlv _].
    split; [done|]. split; [|apply PA].
    rewrite at_N_getDense by (by apply Hin). done. }
  { exact LA. }
  rewrite E1. cbn [mbind option_bind app].
  rewrite (filter_none (λ y, doomed (getDense inputs) increment decrement false c y = true))
    by done.
  cbn [destroy_all mbind option_bind].
  assert (is_Some (at_N (segments_ c1) s)) as [sd1 Hsd1].
  { apply at_N_is_Some. unfold size_N. rewrite (sm_size_segments _ _ S1).
    apply at_N_is_Some. by exists sd. }
  destruct (synapsesForSegment_on _ _ _ Hsd1) as [Es1 _].
  rewrite Es1. cbn [mbind option_bind andb].
  exists c1. split; [done|]. split; [done|].
  split; [apply (sm_cells _ _ S1)|]. split; [apply (sm_synapsesOn _ _ S1)|].
  split; [apply (sm_destroyedSynapses _ _ S1)|].
  split; [apply (sm_destroyedSegments _ _ S1)|]. split.
  - intros y Hy. rewrite K1 by (by left). apply PA.
  - intros Hts y Hy. rewrite (P1 Hts y Hy) by done. do 2 f_equal.
    unfold updateOf. rewrite at_N_getDense by (by apply Hin). done.
Qed.

(** * Sequences of operations *)

(** From a state made by [initialize], a sequence of operations each applied
    to handles that exist runs to the end, and in the state reached: the
    permanence of every synapse lies between [minPermanence] and
    [maxPermanence]; a segment holds a synapse once and at most one per
    presynaptic cell; no handle on a free list is in use; and
    [synapsesForPresynapticCell] finds exactly the synapses of a cell. *)
Theorem valid_ops_keep_invariants (numCells : CellIdx) (connectedThreshold : Permanence)
    (timeseries : bool) (ops : list Op) (c0 : Connections) :
  initialize numCells connectedThreshold timeseries = Some c0 →
  valid_ops ops c0 = true →
  ∃ c, run_ops ops c0 = Some c ∧
    (∀ y, live c y →
       (minPermanence <= permanenceOf c y)%Q ∧ (permanenceOf c y <= maxPermanence)%Q) ∧
    (∀ s, NoDup (synapsesOn c s)) ∧
    (∀ s y1 y2, y1 ∈ synapsesOn c s → y2 ∈ synapsesOn c s →
       presynOf c y1 = presynOf c y2 → y1 = y2) ∧
    (∀ cl, NoDup (segmentsOn c cl)) ∧
    (∀ y, y ∈ destroyedSynapses_ c → ¬ live c y) ∧
    (∀ s, s ∈ destroyedSegments_ c → ¬ liveSegment c s ∧ synapsesOn c s = []) ∧
    (∀ cl y, y ∈ synapsesForPresynapticCell c cl ↔ live c y ∧ presynOf c y = cl).
Proof.
  intros Ei Hv. destruct (initialize_wf _ _ _ _ Ei) as [W0 _].
  destruct (run_ops_wf ops c0 W0 Hv) as (c & E & W). pose proof (proj1 W) as Ws.
  exists c. split; [done|]. split; [apply (proj1 (proj2 W))|].
  split; [apply (wf_seg_nodup _ Ws)|]. split; [apply (wf_seg_presyn _ Ws)|].
  split; [apply (wf_cells_nodup _ Ws)|].
  split; [intros y Hy; by destruct (wf_destroyedSynapses _ Ws y Hy)|].
  split.
  - intros s Hs. destruct (wf_destroyedSegments _ Ws s Hs) as (_ & He & Hn).
    split; [apply Hn|done].
  - intros cl y.
    assert (synapsesForPresynapticCell c cl =
            map_get (presynSynapses false c) cl ++ map_get (presynSynapses true c) cl) as ->.
    { unfold synapsesForPresynapticCell, map_get. cbn.
      destruct (potentialSynapsesForPresynapticCell_ c !! cl),
               (connectedSynapsesForPresynapticCell_ c !! cl); cbn;
        by rewrite ?app_nil_r. }
    rewrite elem_of_app, !presyn_list_elem by done.
    destruct (connectedB c y); split; tauto || (intros (? & ?); tauto).
Qed.

(** * Local inhibition *)



Lemma elemB_false x l : elemB x l = false ↔ x ∉ l.
Proof.
  rewrite <- elemB_true. destruct (elemB x l); split; try done; intros H; by exfalso.
Qed.




(** * Destroying the weakest synapses *)

Lemma drop_while_sorted_ge (P : N → bool) (l : list N) (R : relation N) :
  StronglySorted R l →
  (∀ x y, P x = false → R x y → P y = false) →
  partitioned P l = true.
Proof.
  intros Hs Hmono. unfold partitioned. induction Hs as [|x l Hs IH Hall]; [done|].
  cbn [drop_while]. destruct (P x) eqn:Ex; [exact IH|].
  cbn [forallb]. rewrite Ex. cbn. apply forallb_forall. intros y Hy.
  apply list_elem_of_In in Hy. apply negb_true_iff.
  apply (Hmono x y Ex). by apply (proj1 (Forall_forall _ _) Hall).
Qed.

Lemma binary_search_sorted (v : list N) (value : N) :
  StronglySorted N.le v → binary_search v value = Some (elemB value v).
Proof.
  intros Hs. unfold binary_search.
  rewrite (drop_while_sorted_ge (λ e, N.ltb e value) v N.le Hs).
  2:{ intros x y Hx Hxy. apply N.ltb_ge in Hx. apply N.ltb_ge. lia. }
  rewrite (drop_while_sorted_ge (λ e, negb (N.ltb value e)) v N.le Hs); [done|].
  intros x y Hx Hxy. apply negb_false_iff, N.ltb_lt in Hx.
  apply negb_false_iff, N.ltb_lt. lia.
Qed.

Lemma destroyCandidates_loop_spec (c : Connections) (excludeCells : list CellIdx)
    (syns : list Synapse) : ∀ acc,
  StronglySorted N.le excludeCells →
  (∀ y, y ∈ syns → y < size_N (synapses_ c)) →
  destroyCandidates_loop c excludeCells syns acc =
    Some (acc ++ filter (λ y, presynOf c y ∉ excludeCells) syns).
Proof.
  intros acc Hs. revert acc. induction syns as [|y syns IH]; intros acc Hin;
    cbn [destroyCandidates_loop].
  - by rewrite filter_nil, app_nil_r.
  - assert (is_Some (at_N (synapses_ c) y)) as [d Ed] by (apply at_N_is_Some, Hin; left).
    unfold dataForSynapse. rewrite Ed. cbn [mbind option_bind].
    rewrite binary_search_sorted by done. cbn [mbind option_bind].
    assert (presynOf c y = presynapticCell d) as Ep by (unfold presynOf; by rewrite Ed).
    rewrite IH by (intros z Hz; apply Hin; by right).
    destruct (elemB (presynapticCell d) excludeCells) eqn:Ee.
    + apply elemB_true in Ee. rewrite filter_cons_False; [done|].
      rewrite Ep. by intros H.
    + apply elemB_false in Ee. rewrite filter_cons_True by (by rewrite Ep).
      by rewrite <- app_assoc.
Qed.

Lemma comparePermanences_true c a b :
  comparePermanences c a b = true ↔
  (permanenceOf c a < permanenceOf c b)%Q ∨
  ((permanenceOf c a == permanenceOf c b)%Q ∧ a < b).
Proof.
  unfold comparePermanences. cbn zeta.
  destruct (Qeqb (permanenceOf c a) (permanenceOf c b)) eqn:E.
  - apply Qeqb_true in E. rewrite N.ltb_lt. split; [by right|].
    intros [H|[_ H]]; [lra|done].
  - apply Qeqb_false in E. rewrite Qltb_true. split; [by left|].
    intros [H|[H _]]; [done|]. by destruct E.
Qed.

Lemma comparePermanences_false c a b :
  comparePermanences c a b = false ↔
  (permanenceOf c b < permanenceOf c a)%Q ∨
  ((permanenceOf c a == permanenceOf c b)%Q ∧ b ≤ a).
Proof.
  rewrite <- not_true_iff_false, comparePermanences_true. split.
  - intros H. destruct (Qlt_le_dec (permanenceOf c b) (permanenceOf c a)) as [?|Hle];
      [by left|].
    right. destruct (Qlt_le_dec (permanenceOf c a) (permanenceOf c b)) as [Hlt|Hge].
    + destruct H. by left.
    + assert (permanenceOf c a == permanenceOf c b)%Q as Heq by lra.
      split; [done|]. destruct (N.le_gt_cases b a) as [?|Hgt]; [done|].
      destruct H. right. by split.
  - intros [H|[H1 H2]] [H'|[H1' H2']]; try lra; lia.
Qed.

Lemma comparePermanences_swo c : strict_weak_order (comparePermanences c).
Proof.
  split; [|split].
  - intros x. apply comparePermanences_false. right. split; [reflexivity|lia].
  - intros x y z. rewrite !comparePermanences_true.
    intros [H1|[H1 H1']] [H2|[H2 H2']]; try (left; lra). right. split; [lra|lia].
  - intros x y z. rewrite !comparePermanences_false.
    intros [H1|[H1 H1']] [H2|[H2 H2']]; try (left; lra). right. split; [lra|lia].
Qed.

Lemma filter_notin_length (l ys : list N) :
  NoDup l → NoDup ys → (∀ y, y ∈ ys → y ∈ l) →
  (length (filter (λ x, x ∉ ys) l) + length ys = length l)%nat.
Proof.
  intros Hl Hys Hsub.
  assert (filter (λ x, x ∈ ys) l ≡ₚ ys) as Hin.
  { apply NoDup_Permutation; [by apply NoDup_filter|done|].
    intros x. rewrite list_elem_of_filter. split; [by intros []|]. intros H.
    split; [done|by apply Hsub]. }
  pose proof (filter_app_complement (λ x, x ∈ ys) l) as Hp.
  apply Permutation_length in Hp. rewrite length_app, Hin in Hp. lia.
Qed.

Section MinPermanenceProofs.

Variable std_sort : (N → N → bool) → list N → list N.
Hypothesis sort_conforms : sort_ok std_sort.

Lemma destroyMinPermanenceSynapses_spec (c : Connections) (s : Segment)
    (nDestroy : N) (excludeCells : list CellIdx) :
  wf c → s < size_N (segments_ c) → StronglySorted N.le excludeCells →
  let cands := filter (λ y, presynOf c y ∉ excludeCells) (synapsesOn c s) in
  ∃ c' ys, destroyMinPermanenceSynapses std_sort s nDestroy excludeCells c = Some c' ∧
    wf c' ∧ keeps c c' ∧
    destroyedSynapses_ c' = destroyedSynapses_ c ++ ys ∧
    (∀ s', synapsesOn c' s' ≡ₚ filter (λ x, x ∉ ys) (synapsesOn c s')) ∧
    NoDup ys ∧ length ys = Nat.min (N.to_nat nDestroy) (length cands) ∧
    (∀ y, y ∈ ys → y ∈ cands) ∧
    (∀ d y, d ∈ ys → y ∈ cands → y ∉ ys → comparePermanences c y d = false).
Proof.
  intros W Hs Hexc cands. pose proof (proj1 W) as Ws.
  apply at_N_is_Some in Hs as [sd Esd].
  assert (synapsesOn c s = synapses sd) as Eon by (unfold synapsesOn; by rewrite Esd).
  unfold destroyMinPermanenceSynapses, synapsesForSegment. rewrite Esd.
  cbn [fmap option_fmap option_map mbind option_bind]. rewrite <- Eon.
  rewrite destroyCandidates_loop_spec; [|done|by apply (wf_seg_syn _ Ws s)].
  cbn [mbind option_bind app]. fold cands.
  destruct (sort_conforms (comparePermanences c) cands (comparePermanences_swo c))
    as [Hperm Hord].
  set (sorted := std_sort (comparePermanences c) cands) in *.
  set (n := N.to_nat (N.min nDestroy (size_N sorted))).
  assert (n = Nat.min (N.to_nat nDestroy) (length cands)) as En.
  { unfold n, size_N. rewrite Hperm. lia. }
  assert (NoDup cands) as Hndc by (apply NoDup_filter, (wf_seg_nodup _ Ws)).
  assert (NoDup sorted) as Hnds by (by rewrite Hperm).
  assert (∀ y, y ∈ take n sorted → y ∈ cands) as Hsub.
  { intros y Hy. rewrite <- Hperm, <- (take_drop n sorted). apply elem_of_app. by left. }
  assert (∀ y, y ∈ cands ↔ y ∈ synapsesOn c s ∧ presynOf c y ∉ excludeCells) as Hc.
  { intros y. unfold cands. rewrite list_elem_of_filter. tauto. }
  assert (NoDup (take n sorted)) as Hndt.
  { rewrite <- (take_drop n sorted) in Hnds. by apply NoDup_app in Hnds as [? _]. }
  destruct (destroy_all_spec (take n sorted) c W Hndt) as (c' & E & W' & K & Hd & Hsyn).
  { intros y Hy%Hsub%Hc. by destruct (synapsesOn_live _ _ _ Ws (proj1 Hy)). }
  exists c', (take n sorted). split; [done|]. split; [done|]. split; [done|].
  split; [done|]. split; [done|]. split; [done|]. split.
  { rewrite length_take. assert (length sorted = length cands) by (by rewrite Hperm). lia. }
  split; [done|].
  intros d y Hdt Hy Hyn.
  assert (y ∈ drop n sorted) as Hyd.
  { assert (y ∈ sorted) as Hys by (by rewrite Hperm).
    rewrite <- (take_drop n sorted) in Hys. by apply elem_of_app in Hys as [?|?]. }
  apply list_elem_of_lookup in Hdt as [i Hi]. apply list_elem_of_lookup in Hyd as [j Hj].
  assert (i < n)%nat as Hin.
  { apply lookup_lt_Some in Hi. rewrite length_take in Hi. lia. }
  rewrite lookup_take_lt in Hi by done. rewrite lookup_drop in Hj.
  apply (Hord i (n + j)%nat d y); [lia|done|done].
Qed.

(** [destroyMinPermanenceSynapses] destroys, among the synapses of the
    segment whose presynaptic cell is not excluded, the [nDestroy] with the
    lowest permanence (all of them when there are fewer): no destroyed
    synapse has a larger permanence than a candidate that stays, and among
    equal permanences the smaller handles go first.  Synapses from excluded
    cells stay, and no permanence changes.  The excluded cells are given in
    ascending order, as the binary search needs them. *)
Theorem destroyMinPermanenceSynapses_weakest (c : Connections) (s : Segment)
    (nDestroy : N) (excludeCells : list CellIdx) :
  wf c → s < size_N (segments_ c) → StronglySorted N.le excludeCells →
  ∃ c', destroyMinPermanenceSynapses std_sort s nDestroy excludeCells c = Some c' ∧
    wf c' ∧
    (∀ y, y ∈ synapsesOn c' s → y ∈ synapsesOn c s) ∧
    (∀ y, y ∈ synapsesOn c s → presynOf c y ∈ excludeCells → y ∈ synapsesOn c' s) ∧
    length (synapsesOn c' s) =
      (length (synapsesOn c s) -
       Nat.min (N.to_nat nDestroy)
         (length (filter (λ y, presynOf c y ∉ excludeCells) (synapsesOn c s))))%nat ∧
    (∀ d y, d ∈ synapsesOn c s → d ∉ synapsesOn c' s → y ∈ synapsesOn c' s →
       presynOf c y ∉ excludeCells →
       (permanenceOf c d < permanenceOf c y)%Q ∨
       ((permanenceOf c d == permanenceOf c y)%Q ∧ d < y)) ∧
    (∀ s', s' ≠ s → synapsesOn c' s' ≡ₚ synapsesOn c s') ∧
    (∀ y, permanenceOf c' y = permanenceOf c y) ∧
    ∃ destroyed, destroyedSynapses_ c' = destroyedSynapses_ c ++ destroyed ∧
      ∀ y, y ∈ destroyed ↔ y ∈ synapsesOn c s ∧ y ∉ synapsesOn c' s.
Proof.
  intros W Hs Hexc. pose proof (proj1 W) as Ws.
  destruct (destroyMinPermanenceSynapses_spec c s nDestroy excludeCells W Hs Hexc)
    as (c' & ys & E & W' & K & Hd & Hsyn & Hnd & Hlen & Hsub & Hord).
  set (cands := filter (λ y, presynOf c y ∉ excludeCells) (synapsesOn c s)) in *.
  assert (∀ y, y ∈ cands ↔ y ∈ synapsesOn c s ∧ presynOf c y ∉ excludeCells) as Hc.
  { intros y. unfold cands. rewrite list_elem_of_filter. tauto. }
  exists c'. split; [done|]. split; [done|].
  assert (∀ y, y ∈ synapsesOn c' s ↔ y ∈ synapsesOn c s ∧ y ∉ ys) as Hmem.
  { intros y. rewrite Hsyn, list_elem_of_filter. tauto. }
  split; [intros y Hy%Hmem; tauto|].
  split.
  { intros y Hy Hex. apply Hmem. split; [done|]. intros Hin%Hsub%Hc. tauto. }
  split.
  { rewrite Hsyn.
    assert (length (filter (λ x, x ∉ ys) (synapsesOn c s)) + length ys =
            length (synapsesOn c s))%nat as Hl.
    { apply filter_notin_length; [apply (wf_seg_nodup _ Ws)|done|].
      intros y Hy%Hsub%Hc. tauto. }
    lia. }
  split.
  { intros d y Hdon Hdoff Hy Hyex.
    assert (d ∈ ys) as Hdt.
    { destruct (decide (d ∈ ys)); [done|]. destruct Hdoff. by apply Hmem. }
    apply Hmem in Hy as [Hy1 Hy2].
    pose proof (Hord d y Hdt (proj2 (Hc y) (conj Hy1 Hyex)) Hy2) as Hcmp.
    apply comparePermanences_false in Hcmp as [?|[Heq Hle]]; [by left|].
    right. split; [lra|]. assert (d ≠ y) by (by intros ->). lia. }
  split.
  { intros s' Hne. rewrite Hsyn. rewrite filter_all; [done|].
    intros y Hy Hin%Hsub%Hc. destruct Hin as [Hin _].
    destruct (wf_seg_syn _ Ws _ _ Hy) as [_ E1].
    destruct (wf_seg_syn _ Ws _ _ Hin) as [_ E2]. congruence. }
  split; [apply (kp_permanenceOf _ _ K)|].
  exists ys. split; [done|]. intros y. rewrite Hmem. split.
  - intros Hy. pose proof (Hsub y Hy) as [? _]%Hc. tauto.
  - intros [Hy Hn]. destruct (decide (y ∈ ys)); [done|]. destruct Hn. tauto.
Qed.

End MinPermanenceProofs.

(** * Competition between the synapses of a segment *)

Lemma permanences_loop_spec (c : Connections) (syns : list Synapse) : ∀ acc,
  (∀ y, y ∈ syns → y < size_N (synapses_ c)) →
  permanences_loop c syns acc = Some (acc ++ map (permanenceOf c) syns).
Proof.
  induction syns as [|y syns IH]; intros acc Hin; cbn [permanences_loop map].
  - by rewrite app_nil_r.
  - assert (is_Some (at_N (synapses_ c) y)) as [d Ed] by (apply at_N_is_Some, Hin; left).
    rewrite Ed. cbn [mbind option_bind].
    rewrite IH by (intros z Hz; apply Hin; by right).
    unfold permanenceOf at 2. rewrite Ed. by rewrite <- app_assoc.
Qed.

Lemma filter_map_length {A B} (f : A → B) (P : B → Prop) `{∀ x, Decision (P x)}
    (l : list A) :
  length (filter P (map f l)) = length (filter (λ x, P (f x)) l).
Proof.
  induction l as [|x l IH]; [done|]. cbn [map].
  rewrite !filter_cons. destruct (decide (P (f x))); cbn; by rewrite IH.
Qed.

Lemma filter_suffix_length {A} (P : A → Prop) `{∀ x, Decision (P x)} (l : list A) m :
  (∀ j x, (m ≤ j)%nat → l !! j = Some x → P x) →
  (length l - m ≤ length (filter P l))%nat.
Proof.
  intros Hs. rewrite <- (take_drop m l) at 2. rewrite filter_app, length_app.
  rewrite (filter_all P (drop m l)).
  - rewrite length_drop. lia.
  - intros x Hx. apply list_elem_of_lookup in Hx as [j Hj]. rewrite lookup_drop in Hj.
    apply (Hs (m + j)%nat); [lia|done].
Qed.

Lemma clamp_reaches p t : (t <= maxPermanence)%Q → (t <= p)%Q → (t <= clamp p)%Q.
Proof.
  intros Ht Hp. unfold clamp, std_max, std_min.
  destruct (Qltb maxPermanence p) eqn:E1.
  - destruct (Qltb maxPermanence minPermanence) eqn:E2; [|done].
    apply Qltb_true in E2. lra.
  - destruct (Qltb p minPermanence) eqn:E2; [|done].
    apply Qltb_true in E2. lra.
Qed.

Lemma nth_element_real_by_sort_ok : nth_element_real_ok nth_element_real_by_sort.
Proof.
  intros n l Hn. unfold nth_element_real_by_sort.
  split; [apply merge_sort_Permutation|].
  intros i j x y Hi Hj Ex Ey. apply Qltb_false.
  destruct (decide (i = j)) as [->|Hne].
  - rewrite Ex in Ey. injection Ey as ->. lra.
  - assert (Transitive Qle_dec_bool) as Htr.
    { intros a b d Hab Hbd. unfold Qle_dec_bool in *.
      apply Qle_bool_iff in Hab, Hbd. apply Qle_bool_iff. lra. }
    assert (Total Qle_dec_bool) as Htot.
    { intros a b. unfold Qle_dec_bool. rewrite !Qle_bool_iff.
      destruct (Qlt_le_dec a b); [left|right]; lra. }
    pose proof (@StronglySorted_merge_sort _ Qle_dec_bool Qle_dec_bool_dec Htr Htot l)
      as Hs.
    apply Qle_bool_iff.
    apply (StronglySorted_lookup _ _ i j x y Hs); [lia|done|done].
Qed.

Section CompetitionProofs.

Variable nth_element_real : nat → list Q → list Q.
Hypothesis nth_element_real_conforms : nth_element_real_ok nth_element_real.

(** [synapseCompetition] leaves a segment alone whose connected count lies
    between the minimum and the maximum.  Otherwise it shifts the
    permanences of all synapses of the segment by one amount (clamped),
    after which at least as many synapses are connected as were asked for
    (the minimum when there were too few, the maximum when there were too
    many), or all of them when the segment has fewer.  No synapse is created
    or destroyed. *)
Theorem synapseCompetition_connects (c : Connections) (s : Segment)
    (minimumSynapses maximumSynapses : SynapseIdx) :
  wf c → s < size_N (segments_ c) →
  (0 <= minimumSynapses)%Z → (minimumSynapses <= maximumSynapses)%Z →
  ∃ c', synapseCompetition nth_element_real s minimumSynapses maximumSynapses c = Some c' ∧
    wf c' ∧
    cells_ c' = cells_ c ∧
    (∀ s', synapsesOn c' s' = synapsesOn c s') ∧
    destroyedSynapses_ c' = destroyedSynapses_ c ∧
    ((minimumSynapses <= numConnectedOf c s <= maximumSynapses)%Z → c' = c) ∧
    (∃ delta, ∀ y, permanenceOf c' y =
       if decide (y ∈ synapsesOn c s) then clamp (permanenceOf c y + delta)
       else permanenceOf c y) ∧
    ((numConnectedOf c s < minimumSynapses)%Z →
     (Z.min minimumSynapses (Z.of_nat (length (synapsesOn c s)))
        <= numConnectedOf c' s)%Z) ∧
    ((maximumSynapses < numConnectedOf c s)%Z →
     (Z.min maximumSynapses (Z.of_nat (length (synapsesOn c s)))
        <= numConnectedOf c' s)%Z).
Proof.
  intros W Hs Hmin Hmm. pose proof W as (Ws & Wp & Wb).
  apply at_N_is_Some in Hs as [sd Esd].
  assert (synapsesOn c s = synapses sd) as Eon by (unfold synapsesOn; by rewrite Esd).
  assert (numConnectedOf c s = numConnected sd) as Enc
    by (unfold numConnectedOf; by rewrite Esd).
  (* the state is left alone *)
  assert (∃ delta, ∀ y, permanenceOf c y =
            if decide (y ∈ synapsesOn c s) then clamp (permanenceOf c y + delta)
            else permanenceOf c y) as Hsame.
  { exists 0%Q. intros y. case_decide as Hy; [|done].
    destruct (synapsesOn_live _ _ _ Ws Hy) as [Hl _]. destruct (Wp y Hl).
    rewrite clamp_id; [|lra|lra]. 
    unfold permanenceOf. destruct (at_N (synapses_ c) y) as [d|]; [|done].
    destruct (permanence d) as [a b]. unfold Qplus. cbn. f_equal; lia. }
  (* one round of competition *)
  assert (∀ desired, (0 <= desired)%Z → synapses sd ≠ [] →
            ∃ c', (let size := Z.of_nat (length (synapses sd)) in
                   let desiredConnected := Z.min size desired in
                   let desiredConnected :=
                     if negb (Z.eqb desiredConnected 0) then (desiredConnected - 1)%Z
                     else desiredConnected in
                   permanences ← permanences_loop c (synapses sd) [];
                   let minPerm := (size - 1 - desiredConnected)%Z in
                   if Z.ltb minPerm 0 || Z.leb size minPerm then None
                   else
                     let permanences := nth_element_real (Z.to_nat minPerm) permanences in
                     minPermValue ← permanences !! Z.to_nat minPerm;
                     let delta := ((connectedThreshold_ c + Epsilon) - minPermValue)%Q in
                     bumpSegment s delta c) = Some c' ∧
              wf c' ∧ cells_ c' = cells_ c ∧
              (∀ s', synapsesOn c' s' = synapsesOn c s') ∧
              destroyedSynapses_ c' = destroyedSynapses_ c ∧
              (∃ delta, ∀ y, permanenceOf c' y =
                 if decide (y ∈ synapsesOn c s) then clamp (permanenceOf c y + delta)
                 else permanenceOf c y) ∧
              (Z.min desired (Z.of_nat (length (synapsesOn c s)))
                 <= numConnectedOf c' s)%Z) as Hround.
  { intros desired Hd Hne. cbn zeta. rewrite <- Eon in *.
    set (syns := synapsesOn c s) in *.
    set (size := Z.of_nat (length syns)).
    assert (1 <= size)%Z as Hsize.
    { unfold size. destruct syns; [done|]. cbn [length]. lia. }
    set (d1 := Z.min size desired).
    set (d2 := if negb (Z.eqb d1 0) then (d1 - 1)%Z else d1).
    assert (0 <= d2 ∧ d2 <= size - 1 ∧ d1 <= d2 + 1)%Z as (Hd2a & Hd2b & Hd2c).
    { unfold d2. destruct (Z.eqb_spec d1 0); cbn; unfold d1 in *; lia. }
    rewrite permanences_loop_spec by (by apply (wf_seg_syn _ Ws s)).
    cbn [mbind option_bind app].
    set (pos := Z.to_nat (size - 1 - d2)).
    rewrite (proj2 (Z.ltb_ge _ _)) by lia. rewrite (proj2 (Z.leb_gt _ _)) by lia.
    cbn [orb].
    destruct (nth_element_real_conforms pos (map (permanenceOf c) syns))
      as [Hperm Hpart].
    { rewrite length_map. unfold pos, size in *. lia. }
    set (res := nth_element_real pos (map (permanenceOf c) syns)) in *.
    assert (length res = length syns) as Hlen by (by rewrite Hperm, length_map).
    assert (is_Some (res !! pos)) as [v Ev].
    { apply lookup_lt_is_Some. unfold pos, size in *. lia. }
    rewrite Ev. cbn [mbind option_bind].
    set (delta := ((connectedThreshold_ c + Epsilon) - v)%Q).
    unfold bumpSegment, synapsesForSegment. rewrite Esd. 
    cbn [fmap option_fmap option_map mbind option_bind]. rewrite <- Eon. fold syns.
    destruct (bump_loop_spec delta syns c W) as (c' & E & W' & F & P).
    { apply (wf_seg_nodup _ Ws). }
    { intros y Hy. by destruct (synapsesOn_live _ _ _ Ws Hy). }
    exists c'. split; [done|]. split; [done|].
    split; [apply (fr_cells _ _ F)|]. split; [apply (fr_synapsesOn _ _ F)|].
    split; [apply (fr_destroyedSynapses _ _ F)|].
    split; [by exists delta|].
    rewrite (wf_numConnected _ (proj1 W')), (fr_synapsesOn _ _ F). fold syns.
    assert (length syns - pos ≤ count_if (connectedB c') syns)%nat as Hcount.
    { etrans; [|apply (count_if_mono (λ y, Qle_bool v (permanenceOf c y)))].
      - rewrite count_if_length_filter.
        pose proof (filter_map_length (permanenceOf c) (λ p, Qle_bool v p = true) syns)
          as Hfm.
        cbn beta in Hfm |- *. rewrite <- Hfm, <- Hperm. fold res. rewrite <- Hlen.
        apply filter_suffix_length. intros j x Hj Hx.
        pose proof (Hpart pos j v x ltac:(lia) Hj Ev Hx) as Hnlt.
        apply Qltb_false in Hnlt. by apply Qle_bool_iff.
      - intros y Hy Hv. apply Qle_bool_iff in Hv. unfold connectedB.
        rewrite (fr_threshold _ _ F), P. rewrite decide_True by done.
        apply Qgeb_true. apply clamp_reaches; [apply Wb|].
        destruct constants_in_order as (_ & _ & _ & He). unfold delta. lra. }
    unfold pos, size, d1 in *. lia. }
  unfold synapseCompetition, dataForSegment. rewrite Esd. cbn [mbind option_bind].
  destruct (synapses sd) as [|y0 syns0] eqn:Esyn.
  { exists c. split; [done|]. split; [done|]. split; [done|]. split; [done|].
    split; [done|]. split; [done|]. split; [exact Hsame|].
    rewrite Eon. cbn [length]. 
    pose proof (wf_numConnected _ Ws s) as Hn. rewrite Eon in Hn. cbn in Hn.
    split; intros; lia. }
  rewrite <- Esyn in *. rewrite <- Enc.
  destruct (Z.ltb_spec (numConnectedOf c s) minimumSynapses) as [Hlow|Hok].
  - destruct (Hround minimumSynapses Hmin) as (c' & E & W' & Hc & Hon & Hds & Hp & Hn).
    { by rewrite Esyn. }
    exists c'. split; [exact E|]. split; [done|]. split; [done|]. split; [done|].
    split; [done|]. split; [intros; lia|]. split; [done|]. split; [done|]. intros; lia.
  - destruct (Z.ltb_spec maximumSynapses (numConnectedOf c s)) as [Hhigh|Hok'].
    + destruct (Hround maximumSynapses) as (c' & E & W' & Hc & Hon & Hds & Hp & Hn);
        [lia|by rewrite Esyn|].
      exists c'. split; [exact E|]. split; [done|]. split; [done|]. split; [done|].
      split; [done|]. split; [intros; lia|]. split; [done|]. split; [intros; lia|done].
    + exists c. split; [done|]. split; [done|]. split; [done|]. split; [done|].
      split; [done|]. split; [done|]. split; [exact Hsame|]. split; intros; lia.
Qed.

End CompetitionProofs.

(** * Reading and writing the permanences of a column *)

Lemma scatter_spec {A} (writes : list (N * A)) : ∀ v,
  NoDup (map fst writes) →
  (∀ i x, (i, x) ∈ writes → i < size_N v) →
  ∃ v', scatter writes v = Some v' ∧ length v' = length v ∧
        (∀ i x, (i, x) ∈ writes → at_N v' i = Some x) ∧
        (∀ i, i ∉ map fst writes → at_N v' i = at_N v i).
Proof.
  induction writes as [|[i x] writes IH]; intros v Hnd Hin; cbn [scatter].
  - exists v. split; [done|]. split; [done|]. split; [|done].
    intros i x H. by apply not_elem_of_nil in H.
  - cbn [map fst] in Hnd. apply NoDup_cons in Hnd as [Hi Hnd].
    rewrite (proj2 (N.ltb_lt _ _)) by (apply (Hin i x); left).
    destruct (IH (set_N v i x) Hnd) as (v' & E & Hl & Hw & Ho).
    { intros j y Hj. unfold size_N. rewrite length_set_N. apply (Hin j y). by right. }
    exists v'. split; [done|]. split; [by rewrite Hl, length_set_N|]. split.
    + intros j y Hj. apply elem_of_cons in Hj as [Heq|Hj]; [|by apply Hw].
      injection Heq as -> ->. rewrite Ho by done. apply at_N_set_N_eq. apply at_N_is_Some. apply (Hin i x). left.
    + intros j Hj. cbn [map fst] in Hj. apply not_elem_of_cons in Hj as [Hne Hj].
      rewrite Ho by done. by apply at_N_set_N_ne.
Qed.

Lemma getPermanence_loop_scatter (c : Connections) (threshold : Permanence)
    (syns : list Synapse) : ∀ v,
  (∀ y, y ∈ syns → y < size_N (synapses_ c)) →
  getPermanence_loop c threshold syns v =
    scatter (map (λ y, (presynOf c y, permanenceOf c y))
               (filter (λ y, Qgeb (permanenceOf c y) threshold = true) syns)) v.
Proof.
  induction syns as [|y syns IH]; intros v Hin; cbn [getPermanence_loop]; [done|].
  assert (is_Some (at_N (synapses_ c) y)) as [d Ed] by (apply at_N_is_Some, Hin; left).
  destruct (syn_accessors _ _ _ Ed) as (_ & Hp & _ & Hperm).
  unfold dataForSynapse. rewrite Ed. cbn [mbind option_bind].
  rewrite filter_cons. rewrite Hperm.
  destruct (Qgeb (permanence d) threshold) eqn:Eg.
  - rewrite decide_True by done. cbn [map scatter]. rewrite Hp, Hperm.
    destruct (N.ltb (presynapticCell d) (size_N v)); [|done].
    apply IH. intros z Hz. apply Hin. by right.
  - rewrite decide_False by done. apply IH. intros z Hz. apply Hin. by right.
Qed.

Lemma getPotential_loop_scatter (c : Connections) (syns : list Synapse) : ∀ v,
  (∀ y, y ∈ syns → y < size_N (synapses_ c)) →
  getPotential_loop c syns v = scatter (map (λ y, (presynOf c y, 1)) syns) v.
Proof.
  induction syns as [|y syns IH]; intros v Hin; cbn [getPotential_loop]; [done|].
  assert (is_Some (at_N (synapses_ c) y)) as [d Ed] by (apply at_N_is_Some, Hin; left).
  destruct (syn_accessors _ _ _ Ed) as (_ & Hp & _ & _).
  unfold dataForSynapse. rewrite Ed. cbn [mbind option_bind map scatter]. rewrite Hp.
  destruct (N.ltb (presynapticCell d) (size_N v)); [|done].
  apply IH. intros z Hz. apply Hin. by right.
Qed.

Lemma setPermanence_loop_spec (permanences : list Q) (syns : list Synapse) : ∀ c,
  wf c → NoDup syns →
  (∀ y, y ∈ syns → live c y ∧ is_Some (at_N permanences (presynOf c y))) →
  ∃ c', setPermanence_loop permanences syns c = Some c' ∧ wf c' ∧ frame c c' ∧
        ∀ y, permanenceOf c' y =
             if decide (y ∈ syns)
             then clamp (default 0%Q (at_N permanences (presynOf c y)))
             else permanenceOf c y.
Proof.
  induction syns as [|y syns IH]; intros c W Hnd Hlv.
  - exists c. split; [done|]. split; [done|]. split; [apply frame_refl|].
    intros y. rewrite decide_False; [done|apply not_elem_of_nil].
  - apply NoDup_cons in Hnd as [Hy Hnd].
    destruct (Hlv y) as [Hl [p Ep]]; [left|].
    destruct (live_in_range c y (proj1 W) Hl) as [d Hd].
    destruct (syn_accessors _ _ _ Hd) as (_ & Hpre & _ & _).
    destruct (updateSynapsePermanence_wf c y p W Hl) as (c1 & E1 & W1 & F1 & P1).
    destruct (IH c1 W1 Hnd) as (c' & E' & W' & F' & P').
    { intros y' Hy'. destruct (Hlv y') as [Hl' Hp']; [by right|].
      split; [by apply (frame_live _ _ _ F1)|]. by rewrite (fr_presynOf _ _ F1). }
    exists c'. cbn [setPermanence_loop]. unfold dataForSynapse. rewrite Hd.
    cbn [mbind option_bind]. rewrite <- Hpre, Ep. cbn [mbind option_bind].
    rewrite E1. cbn [mbind option_bind]. split; [done|]. split; [done|].
    split; [by eapply frame_trans|].
    intros y'. rewrite P', P1, (fr_presynOf _ _ F1).
    destruct (decide (y' = y)) as [->|Hne].
    + rewrite decide_False by done. rewrite decide_True by (by left). by rewrite Ep.
    + destruct (decide (y' ∈ syns)) as [Hi|Hi].
      * rewrite decide_True by (by right). done.
      * rewrite decide_False; [done|]. intros [?|?]%elem_of_cons; done.
Qed.

Lemma inPotentialPool_true c column input :
  inPotentialPool c column input = true ↔
  ∃ y, y ∈ synapsesOn c column ∧ presynOf c y = input.
Proof.
  unfold inPotentialPool. rewrite existsb_exists. split.
  - intros (y & Hy & E). exists y. split; [by apply list_elem_of_In|by apply N.eqb_eq].
  - intros (y & Hy & E). exists y. split; [by apply list_elem_of_In|by apply N.eqb_eq].
Qed.

(** [getPotential] answers with [numInputs_] entries, 1 for the inputs the
    column has a synapse from and 0 for the others. *)
Theorem getPotential_marks_pool (sp : SpatialPooler) (numInputs_ : N) (column : N) :
  wf (connections_ sp) → column < size_N (segments_ (connections_ sp)) →
  (∀ y, y ∈ synapsesOn (connections_ sp) column →
        presynOf (connections_ sp) y < numInputs_) →
  ∃ potential, getPotential sp numInputs_ column = Some potential ∧
    size_N potential = numInputs_ ∧
    ∀ i, i < numInputs_ →
      at_N potential i =
        Some (if inPotentialPool (connections_ sp) column i then 1 else 0).
Proof.
  intros W Hcol Hin. pose proof (proj1 W) as Ws. set (c := connections_ sp) in *.
  apply at_N_is_Some in Hcol as [sd Esd].
  destruct (synapsesForSegment_on _ _ _ Esd) as [Es Eon].
  unfold getPotential. fold c. rewrite Es. cbn [mbind option_bind]. rewrite <- Eon.
  rewrite getPotential_loop_scatter by (by apply (wf_seg_syn _ Ws column)).
  destruct (scatter_spec (map (λ y, (presynOf c y, 1)) (synapsesOn c column))
              (replicate (N.to_nat numInputs_) 0)) as (v & E & Hl & Hw & Ho).
  { rewrite map_map. cbn [fst]. apply NoDup_fmap_2_strong; [|apply (wf_seg_nodup _ Ws)].
    intros y1 y2 H1 H2 Heq. by apply (wf_seg_presyn _ Ws column). }
  { intros i x Hx. apply list_elem_of_fmap in Hx as (y & Heq & Hy).
    injection Heq as -> ->. unfold size_N.
    rewrite length_replicate, N2Nat.id. by apply Hin. }
  exists v. split; [done|]. split.
  { unfold size_N. rewrite Hl, length_replicate. lia. }
  intros i Hi. destruct (inPotentialPool c column i) eqn:Ep.
  - apply inPotentialPool_true in Ep as (y & Hy & <-). apply Hw.
    apply list_elem_of_fmap. by exists y.
  - rewrite Ho.
    + unfold at_N. rewrite lookup_replicate_2 by lia. done.
    + rewrite map_map. cbn [fst]. intros (y & -> & Hy)%list_elem_of_fmap.
      apply not_true_iff_false in Ep. apply Ep. apply inPotentialPool_true. by exists y.
Qed.

(** What [setPermanence] writes, [getPermanence] reads back: for an input
    of the potential pool of the column the permanence given, clamped to
    the permanence range, provided it reaches the threshold of the query;
    0 for every other input.  No synapse is created or destroyed. *)
Theorem setPermanence_getPermanence (sp : SpatialPooler) (numInputs_ : N) (column : N)
    (permanences : list Q) (threshold : Permanence) :
  wf (connections_ sp) → column < size_N (segments_ (connections_ sp)) →
  (∀ y, y ∈ synapsesOn (connections_ sp) column →
        presynOf (connections_ sp) y < numInputs_) →
  size_N permanences = numInputs_ →
  ∃ sp' read, setPermanence sp column permanences = Some sp' ∧
    wf (connections_ sp') ∧
    (∀ s, synapsesOn (connections_ sp') s = synapsesOn (connections_ sp) s) ∧
    getPermanence sp' numInputs_ column threshold = Some read ∧
    size_N read = numInputs_ ∧
    ∀ i p, at_N permanences i = Some p →
      at_N read i =
        Some (if inPotentialPool (connections_ sp) column i && Qgeb (clamp p) threshold
              then clamp p else 0%Q).
Proof.
  intros W Hcol Hin Hsize. pose proof (proj1 W) as Ws. set (c := connections_ sp) in *.
  apply at_N_is_Some in Hcol as [sd Esd].
  destruct (synapsesForSegment_on _ _ _ Esd) as [Es Eon].
  unfold setPermanence. fold c. rewrite Es. cbn [mbind option_bind]. rewrite <- Eon.
  destruct (setPermanence_loop_spec permanences (synapsesOn c column) c W)
    as (c' & E & W' & F & P).
  { apply (wf_seg_nodup _ Ws). }
  { intros y Hy. split; [by destruct (synapsesOn_live _ _ _ Ws Hy)|].
    apply at_N_is_Some. rewrite Hsize. by apply Hin. }
  rewrite E. cbn [mbind option_bind].
  pose proof (proj1 W') as Ws'.
  assert (is_Some (at_N (segments_ c') column)) as [sd' Esd'].
  { apply at_N_is_Some. unfold size_N. rewrite (fr_size_segments _ _ F).
    apply at_N_is_Some. by exists sd. }
  destruct (synapsesForSegment_on _ _ _ Esd') as [Es' Eon'].
  set (writes := map (λ y, (presynOf c' y, permanenceOf c' y))
                   (filter (λ y, Qgeb (permanenceOf c' y) threshold = true)
                      (synapsesOn c column))).
  destruct (scatter_spec writes (replicate (N.to_nat numInputs_) 0%Q))
    as (v & Ev & Hl & Hw & Ho).
  { unfold writes. rewrite map_map. cbn [fst].
    apply NoDup_fmap_2_strong; [|apply NoDup_filter, (wf_seg_nodup _ Ws)].
    intros y1 y2 [_ H1]%list_elem_of_filter [_ H2]%list_elem_of_filter Heq.
    rewrite !(fr_presynOf _ _ F) in Heq. by apply (wf_seg_presyn _ Ws column). }
  { intros i x Hx. apply list_elem_of_fmap in Hx as (y & Heq & [_ Hy]%list_elem_of_filter).
    injection Heq as -> ->.
    unfold size_N. rewrite length_replicate, N2Nat.id, (fr_presynOf _ _ F). by apply Hin. }
  exists (sp_with_connections c' sp), v. split; [done|]. split; [done|].
  split; [apply (fr_synapsesOn _ _ F)|]. split.
  { unfold getPermanence. change (connections_ (sp_with_connections c' sp)) with c'.
    rewrite Es'. cbn [mbind option_bind]. rewrite <- Eon', (fr_synapsesOn _ _ F).
    rewrite getPermanence_loop_scatter; [exact Ev|].
    intros y Hy. unfold size_N. rewrite (fr_size_synapses _ _ F).
    by apply (wf_seg_syn _ Ws column). }
  split.
  { unfold size_N. rewrite Hl, length_replicate. lia. }
  intros i p Ep.
  assert (i < numInputs_) as Hi by (rewrite <- Hsize; apply at_N_is_Some; by eexists).
  destruct (inPotentialPool c column i) eqn:Epool.
  - apply inPotentialPool_true in Epool as (y & Hy & Ey).
    assert (permanenceOf c' y = clamp p) as Epy.
    { rewrite P, decide_True by done. by rewrite Ey, Ep. }
    cbn [andb]. destruct (Qgeb (clamp p) threshold) eqn:Eg.
    + rewrite <- Epy. apply Hw. unfold writes. apply list_elem_of_fmap. exists y.
      split; [by rewrite (fr_presynOf _ _ F), Ey|].
      apply list_elem_of_filter. split; [by rewrite Epy|done].
    + rewrite Ho; [unfold at_N; by rewrite lookup_replicate_2 by lia|].
      unfold writes. rewrite map_map. cbn [fst].
      intros (y' & Ey' & [Hg Hy']%list_elem_of_filter)%list_elem_of_fmap.
      rewrite (fr_presynOf _ _ F) in Ey'.
      assert (y' = y) as -> by (apply (wf_seg_presyn _ Ws column); [done|done|congruence]).
      congruence.
  - cbn [andb]. rewrite Ho; [unfold at_N; by rewrite lookup_replicate_2 by lia|].
    unfold writes. rewrite map_map. cbn [fst].
    intros (y' & Ey' & [Hg Hy']%list_elem_of_filter)%list_elem_of_fmap.
    rewrite (fr_presynOf _ _ F) in Ey'.
    apply not_true_iff_false in Epool. apply Epool. apply inPotentialPool_true.
    by exists y'.
Qed.

(** * The learning phase of the Spatial Pooler *)

Lemma liveB_frame c c' y : frame c c' → liveB c' y = liveB c y.
Proof.
  intros F. unfold liveB. by rewrite (fr_segmentOf _ _ F), (fr_synapsesOn _ _ F).
Qed.

Lemma bumpUpWeakColumns_loop_spec (overlapDuty minDuty : list Q) (inc : Permanence)
    (columns : list N) : ∀ c,
  wf c → NoDup columns →
  (∀ i, i ∈ columns → i < size_N (segments_ c) ∧ i < size_N overlapDuty ∧
                       i < size_N minDuty) →
  ∃ c', bumpUpWeakColumns_loop overlapDuty minDuty inc columns c = Some c' ∧
    wf c' ∧ frame c c' ∧
    ∀ y, permanenceOf c' y =
         if liveB c y && elemB (segmentOf c y) columns &&
            weakColumn overlapDuty minDuty (segmentOf c y)
         then clamp (permanenceOf c y + inc) else permanenceOf c y.
Proof.
  induction columns as [|i columns IH]; intros c W Hnd Hin; cbn [bumpUpWeakColumns_loop].
  - exists c. split; [done|]. split; [done|]. split; [apply frame_refl|].
    intros y. unfold elemB. cbn. by rewrite andb_false_r.
  - apply NoDup_cons in Hnd as [Hi Hnd]. pose proof (proj1 W) as Ws.
    destruct (Hin i) as (Hs & Ho & Hm); [left|].
    apply at_N_is_Some in Ho as [o Eo]. apply at_N_is_Some in Hm as [m Em].
    rewrite Eo, Em. cbn [mbind option_bind].
    assert (weakColumn overlapDuty minDuty i = negb (Qgeb o m)) as Ew.
    { unfold weakColumn. by rewrite Eo, Em. }
    assert (∀ (y : N) seg, elemB seg (i :: columns) = N.eqb seg i || elemB seg columns)
      as Hcons.
    { intros _ seg. done. }
    destruct (Qgeb o m) eqn:Eg.
    + destruct (IH c W Hnd) as (c' & E & W' & F & P).
      { intros j Hj. apply Hin. by right. }
      exists c'. split; [done|]. split; [done|]. split; [done|].
      intros y. rewrite P, (Hcons y).
      destruct (N.eqb_spec (segmentOf c y) i) as [Heq|Hne]; [|done].
      rewrite Heq, Ew. cbn. by rewrite !andb_false_r.
    + apply at_N_is_Some in Hs as [sd Esd].
      destruct (synapsesForSegment_on _ _ _ Esd) as [Es Eon].
      unfold bumpSegment. rewrite Es. cbn [mbind option_bind]. rewrite <- Eon.
      destruct (bump_loop_spec inc (synapsesOn c i) c W) as (c1 & E1 & W1 & F1 & P1).
      { apply (wf_seg_nodup _ Ws). }
      { intros y Hy. by destruct (synapsesOn_live _ _ _ Ws Hy). }
      rewrite E1. cbn [mbind option_bind].
      destruct (IH c1 W1 Hnd) as (c' & E & W' & F & P).
      { intros j Hj. destruct (Hin j) as (? & ? & ?); [by right|].
        split; [|done]. unfold size_N. by rewrite (fr_size_segments _ _ F1). }
      exists c'. split; [done|]. split; [done|]. split; [by eapply frame_trans|].
      intros y. rewrite P, (liveB_frame _ _ _ F1), (fr_segmentOf _ _ F1), P1, (Hcons y).
      destruct (decide (y ∈ synapsesOn c i)) as [Hy|Hy].
      * destruct (synapsesOn_live _ _ _ Ws Hy) as [Hl Hseg]. rewrite Hseg.
        rewrite (proj2 (liveB_true c y)) by done. rewrite N.eqb_refl.
        rewrite (proj2 (elemB_false i columns)) by done. rewrite Ew. done.
      * destruct (N.eqb_spec (segmentOf c y) i) as [Heq|Hne]; [|done].
        destruct (liveB c y) eqn:El; [|done]. apply liveB_true in El.
        unfold live in El. rewrite Heq in El. done.
Qed.

(** [bumpUpWeakColumns_] adds [synPermBelowStimulusInc_], clamped, to the
    permanence of every synapse of the columns whose overlap duty cycle is
    below their minimum, and to no other; no synapse is created or
    destroyed.  With an increment that is not negative no connected count
    goes down. *)
Theorem bumpUpWeakColumns_raises (sp : SpatialPooler) (overlapDuty minDuty : list Q)
    (inc : Permanence) :
  wf (connections_ sp) →
  numColumns_ sp ≤ size_N (segments_ (connections_ sp)) →
  numColumns_ sp ≤ size_N overlapDuty → numColumns_ sp ≤ size_N minDuty →
  ∃ sp', bumpUpWeakColumns_ sp overlapDuty minDuty inc = Some sp' ∧
    wf (connections_ sp') ∧
    (∀ s, synapsesOn (connections_ sp') s = synapsesOn (connections_ sp) s) ∧
    destroyedSynapses_ (connections_ sp') = destroyedSynapses_ (connections_ sp) ∧
    (∀ y, permanenceOf (connections_ sp') y =
          if liveB (connections_ sp) y &&
             N.ltb (segmentOf (connections_ sp) y) (numColumns_ sp) &&
             weakColumn overlapDuty minDuty (segmentOf (connections_ sp) y)
          then clamp (permanenceOf (connections_ sp) y + inc)
          else permanenceOf (connections_ sp) y) ∧
    ((0 <= inc)%Q →
     ∀ s, (numConnectedOf (connections_ sp) s <= numConnectedOf (connections_ sp') s)%Z).
Proof.
  intros W Hseg Ho Hm. set (c := connections_ sp) in *. pose proof W as (Ws & Wp & Wb).
  destruct (bumpUpWeakColumns_loop_spec overlapDuty minDuty inc (iota (numColumns_ sp)) c W)
    as (c' & E & W' & F & P).
  { apply NoDup_iota. }
  { intros i Hi%elem_of_iota. lia. }
  unfold bumpUpWeakColumns_. fold c. rewrite E. cbn [mbind option_bind].
  exists (sp_with_connections c' sp). change (connections_ (sp_with_connections c' sp)) with c'.
  split; [done|]. split; [done|]. split; [apply (fr_synapsesOn _ _ F)|].
  split; [apply (fr_destroyedSynapses _ _ F)|].
  assert (∀ y, elemB (segmentOf c y) (iota (numColumns_ sp)) =
               N.ltb (segmentOf c y) (numColumns_ sp)) as Hel.
  { intros y. destruct (N.ltb_spec (segmentOf c y) (numColumns_ sp)) as [Hl|Hl].
    - apply elemB_true, elem_of_iota. done.
    - apply elemB_false. rewrite elem_of_iota. lia. }
  split.
  { intros y. by rewrite P, Hel. }
  intros Hinc s.
  rewrite (wf_numConnected _ Ws), (wf_numConnected _ (proj1 W')), (fr_synapsesOn _ _ F).
  apply inj_le. apply count_if_mono. intros y Hy Hc.
  destruct (synapsesOn_live _ _ _ Ws Hy) as [Hl _].
  unfold connectedB in *. rewrite (fr_threshold _ _ F), P.
  destruct (_ && _ && _); [|done].
  apply Qgeb_true in Hc. apply Qgeb_true. destruct (Wp y Hl).
  apply clamp_reaches; [apply Wb|lra].
Qed.

Lemma addIncrement_loop_spec (increment : Q) (idxs : list N) : ∀ v,
  NoDup idxs → (∀ i, i ∈ idxs → i < size_N v) →
  ∃ v', addIncrement_loop increment idxs v = Some v' ∧ length v' = length v ∧
        ∀ i, at_N v' i =
             (λ d, if elemB i idxs then (d + increment)%Q else d) <$> at_N v i.
Proof.
  induction idxs as [|idx idxs IH]; intros v Hnd Hin; cbn [addIncrement_loop].
  - exists v. split; [done|]. split; [done|]. intros i. cbn. by destruct (at_N v i).
  - apply NoDup_cons in Hnd as [Hi Hnd].
    assert (is_Some (at_N v idx)) as [d Ed] by (apply at_N_is_Some, Hin; left).
    rewrite Ed. cbn [mbind option_bind].
    destruct (IH (set_N v idx (d + increment)%Q) Hnd) as (v' & E & Hl & Hv).
    { intros i Hi'. unfold size_N. rewrite length_set_N. apply Hin. by right. }
    exists v'. split; [done|]. split; [by rewrite Hl, length_set_N|].
    intros i. rewrite Hv. rewrite at_N_set_N by (by eexists).
    change (elemB i (idx :: idxs)) with (N.eqb i idx || elemB i idxs).
    case_decide as Hd.
    + subst i. rewrite N.eqb_refl, Ed. cbn.
      by rewrite (proj2 (elemB_false idx idxs)) by done.
    + rewrite (proj2 (N.eqb_neq i idx)) by done. done.
Qed.

(** [updateDutyCyclesHelper_] is a moving average over [period] steps: each
    duty cycle is multiplied by [(period - 1) / period], and [1 / period] is
    added for the active indices.  A duty cycle that was between 0 and 1
    stays between 0 and 1.  The period must be positive and the active
    indices distinct and within the vector. *)
Theorem updateDutyCyclesHelper_averages (dutyCycles : list Q) (newValues : SDR)
    (period : N) :
  0 < period → NoDup (getSparse newValues) →
  (∀ i, i ∈ getSparse newValues → i < size_N dutyCycles) →
  ∃ updated, updateDutyCyclesHelper_ dutyCycles newValues period = Some updated ∧
    length updated = length dutyCycles ∧
    ∀ i d, at_N dutyCycles i = Some d →
      ∃ d', at_N updated i = Some d' ∧
        d' = (if elemB i (getSparse newValues)
              then d * (toReal (period - 1) / toReal period) + 1 / toReal period
              else d * (toReal (period - 1) / toReal period))%Q ∧
        ((0 <= d)%Q → (d <= 1)%Q → (0 <= d')%Q ∧ (d' <= 1)%Q).
Proof.
  intros Hp Hnd Hin. unfold updateDutyCyclesHelper_.
  rewrite (proj2 (N.eqb_neq period 0)) by lia.
  set (decay := (toReal (period - 1) / toReal period)%Q).
  set (increment := (1 / toReal period)%Q).
  destruct (addIncrement_loop_spec increment (getSparse newValues)
              (map (λ d, d * decay)%Q dutyCycles) Hnd) as (v & E & Hl & Hv).
  { intros i Hi. unfold size_N. rewrite length_map. by apply Hin. }
  exists v. split; [done|]. split; [by rewrite Hl, length_map|].
  intros i d Ed. rewrite Hv. unfold at_N in *. rewrite list_lookup_fmap, Ed. cbn.
  eexists. split; [done|]. split; [done|].
  intros H0 H1.
  assert (0 < toReal period)%Q as Hpos.
  { unfold toReal. change 0%Q with (inject_Z 0). rewrite <- Zlt_Qlt. lia. }
  assert (toReal (period - 1) == toReal period - 1)%Q as Hpm.
  { unfold toReal. rewrite N2Z.inj_sub by lia. unfold Z.sub.
    rewrite inject_Z_plus, inject_Z_opp. reflexivity. }
  assert (decay == 1 - increment)%Q as Hdecay.
  { unfold decay, increment. rewrite Hpm. field. lra. }
  assert (0 < increment)%Q as Hinc.
  { unfold increment. apply Qlt_shift_div_l; lra. }
  assert (increment <= 1)%Q as Hinc1.
  { unfold increment. apply Qle_shift_div_r; [done|].
    unfold toReal. rewrite Qmult_1_l. change 1%Q with (inject_Z 1). rewrite <- Zle_Qle. lia. }
  assert (0 <= d * decay)%Q as Hlo by (rewrite Hdecay; nra).
  assert (d * decay + increment <= 1)%Q as Hhi by (rewrite Hdecay; nra).
  destruct (elemB i (getSparse newValues)); split; lra.
Qed.
End Parametric.

(** * The examples, at the nominal constants

    The theorems above applied to the example states, and the runs of the
    code that settle the statements that do not hold as they stand. *)

Existing Instance nominal.

Lemma nominal_ok : constants_ok.
Proof. unfold constants_ok. vm_compute. intuition discriminate. Qed.

(** The example states are well formed. *)
Lemma oneSynapse_wf : wf oneSynapse.
Proof. apply (stateAfter_wf nominal_ok). vm_compute. reflexivity. Qed.
Lemma atCap_wf : wf atCap.
Proof. apply (stateAfter_wf nominal_ok). vm_compute. reflexivity. Qed.
Lemma atEpsilon_wf : wf atEpsilon.
Proof. apply (stateAfter_wf nominal_ok). vm_compute. reflexivity. Qed.
Lemma twoSynapses_wf : wf twoSynapses.
Proof. apply (stateAfter_wf nominal_ok). vm_compute. reflexivity. Qed.
Lemma twoColumns_wf : wf twoColumns.
Proof. apply (stateAfter_wf nominal_ok). vm_compute. reflexivity. Qed.

Lemma computeActivity_counts_witness :
  ∃ c' counts, computeActivity [7] false oneSynapse = Some (c', counts) ∧
    length counts = length (segments_ oneSynapse) ∧
    ∀ s, s < size_N (segments_ oneSynapse) →
      at_N counts s =
        Some (Z.of_nat (count_if (λ y, connectedB oneSynapse y &&
                                       bool_decide (presynOf oneSynapse y ∈ [7]))
                          (synapsesOn oneSynapse s))).
Proof.
  apply (computeActivity_counts oneSynapse [7] false).
  - apply oneSynapse_wf.
  - apply NoDup_singleton.
Defined.

Lemma compute_overlaps_witness :
  ∃ overlaps,
    length overlaps = length (segments_ (connections_ tiePooler)) ∧
    (∀ col, col < size_N (segments_ (connections_ tiePooler)) →
       at_N overlaps col =
         Some (Z.of_nat
           (count_if (λ y, connectedB (connections_ tiePooler) y &&
                           bool_decide (presynOf (connections_ tiePooler) y ∈ getSparse bit0))
              (synapsesOn (connections_ tiePooler) col)))) ∧
    (snd <$> computeActivity (getSparse bit0) false (connections_ tiePooler)
       = Some overlaps) ∧
    compute nth_element_by_sort sort_by (1 # 2) tiePooler bit0 false =
      (active ← activeColumnsFor nth_element_by_sort sort_by (1 # 2) tiePooler overlaps;
       Some (overlaps, active)).
Proof.
  apply (compute_overlaps nth_element_by_sort sort_by (1 # 2) tiePooler bit0 false).
  - apply twoColumns_wf.
  - apply NoDup_singleton.
Defined.

Lemma createSynapse_duplicate_witness :
  ∃ c', createSynapse 0 7 (4 # 10) oneSynapse = Some (c', 0) ∧ wf c' ∧
    (∀ s', synapsesOn c' s' = synapsesOn oneSynapse s') ∧
    length (synapses_ c') = length (synapses_ oneSynapse) ∧
    destroyedSynapses_ c' = destroyedSynapses_ oneSynapse ∧
    permanenceOf c' 0 = std_max (permanenceOf oneSynapse 0) (4 # 10) ∧
    (∀ y', y' ≠ 0 → permanenceOf c' y' = permanenceOf oneSynapse y') ∧
    ((4 # 10 <= permanenceOf oneSynapse 0)%Q →
       c' = oneSynapse ∧ numConnectedOf c' 0 = numConnectedOf oneSynapse 0).
Proof.
  apply (createSynapse_duplicate nominal_ok oneSynapse 0 7 (4 # 10) 0).
  - apply oneSynapse_wf.
  - apply elemB_true. vm_compute. reflexivity.
  - vm_compute. reflexivity.
  - vm_compute. discriminate.
Defined.


(** C5, as stated, fails: of two columns with the same overlap and room
    for one winner, global inhibition admits column 1 and not column 0. *)
Lemma global_inhibition_admits_higher_index :
  (overlapOf [1%Q; 1%Q] 0 == overlapOf [1%Q; 1%Q] 1)%Q ∧
  inhibitColumnsGlobal_ nth_element_by_sort sort_by tiePooler [1%Q; 1%Q] (1 # 2)
    = Some [1].
Proof. split; vm_compute; reflexivity. Qed.

Lemma global_inhibition_tie_witness :
  ∃ active,
    inhibitColumnsGlobal_ nth_element_by_sort sort_by tiePooler [1%Q; 1%Q] (1 # 2)
      = Some active ∧
    ∀ a b, a ∈ active → a < b → b < numColumns_ tiePooler →
      (overlapOf [1%Q; 1%Q] a == overlapOf [1%Q; 1%Q] b)%Q → b ∈ active.
Proof.
  apply (global_inhibition_tie nth_element_by_sort sort_by tiePooler [1%Q; 1%Q] (1 # 2)).
  - apply nth_element_by_sort_ok.
  - apply sort_by_ok.
  - vm_compute. reflexivity.
  - vm_compute. discriminate.
  - vm_compute. discriminate.
Defined.








(** C9, on the code: after synapse 0 is destroyed twice, segment 0 still
    holds the connected synapse 1 and is on its cell, but its cached
    count is 0. *)
Theorem destroySynapse_twice_breaks_numConnected :
  (λ c, (liveSegmentB c 0, synapsesOn c 0, map (connectedB c) (synapsesOn c 0),
         numConnectedOf c 0, destroyedSynapses_ c))
    <$> (initialize 10 (1 # 2) false ≫= run_ops destroyedTwice)
  = Some (true, [1], [true], 0%Z, [0; 0]).
Proof. vm_compute. reflexivity. Qed.

(** * Further examples

    The further properties, applied to the example states. *)

Lemma forallb_avoids (f : N → N) (l : list N) (x : N) :
  forallb (λ z, negb (N.eqb (f z) x)) l = true → ∀ z, z ∈ l → f z ≠ x.
Proof.
  intros H z Hz. rewrite forallb_forall in H.
  specialize (H z (proj1 (list_elem_of_In _ _) Hz)).
  by apply negb_true_iff, N.eqb_neq in H.
Qed.

Lemma forallb_avoids_but (f : N → N) (l : list N) (y x : N) :
  forallb (λ z, N.eqb z y || negb (N.eqb (f z) x)) l = true →
  ∀ z, z ∈ l → z ≠ y → f z ≠ x.
Proof.
  intros H z Hz Hne. rewrite forallb_forall in H.
  specialize (H z (proj1 (list_elem_of_In _ _) Hz)).
  apply orb_true_iff in H as [H%N.eqb_eq|H]; [done|].
  by apply negb_true_iff, N.eqb_neq in H.
Qed.

Lemma forallb_below (f : N → N) (l : list N) (x : N) :
  forallb (λ z, N.ltb (f z) x) l = true → ∀ z, z ∈ l → f z < x.
Proof.
  intros H z Hz. rewrite forallb_forall in H.
  specialize (H z (proj1 (list_elem_of_In _ _) Hz)). by apply N.ltb_lt in H.
Qed.


Lemma initialize_checks_witness :
  (∃ c, initialize 10 (1 # 2) false = Some c ∧ wf c ∧ numCells c = 10 ∧
        connectedThreshold_ c = ((1 # 2) - Epsilon)%Q) ∧
  initialize 10 (3 # 2) false = None.
Proof.
  split.
  - destruct (proj1 (initialize_checks nominal_ok 10 (1 # 2) false))
      as (c & E & W & Hn & _ & _ & _ & _ & _ & Ht & _).
    + vm_compute. split; discriminate.
    + by exists c.
  - apply (proj2 (initialize_checks nominal_ok 10 (3 # 2) false)).
    vm_compute. intros [_ H]. by apply H.
Defined.

Lemma createSegment_below_cap_witness :
  ∃ c' s, createSegment 3 10 oneSynapse = Some (c', s) ∧ wf c' ∧
    (last (destroyedSegments_ oneSynapse) = Some s ∨
     destroyedSegments_ oneSynapse = [] ∧ s = size_N (segments_ oneSynapse)) ∧
    destroyedSegments_ c' = pop_back (destroyedSegments_ oneSynapse) ∧
    ¬ liveSegment oneSynapse s ∧ liveSegment c' s ∧
    segmentsOn c' 3 = segmentsOn oneSynapse 3 ++ [s] ∧
    (∀ cl', cl' ≠ 3 → segmentsOn c' cl' = segmentsOn oneSynapse cl') ∧
    synapsesOn c' s = [] ∧
    (∀ s', synapsesOn c' s' = synapsesOn oneSynapse s') ∧
    synapses_ c' = synapses_ oneSynapse ∧
    destroyedSynapses_ c' = destroyedSynapses_ oneSynapse.
Proof.
  apply (createSegment_below_cap oneSynapse 3 10).
  - apply oneSynapse_wf.
  - vm_compute. reflexivity.
  - vm_compute. reflexivity.
  - vm_compute. reflexivity.
Defined.

Lemma createSegment_fails_iff_witness :
  createSegment 12 10 oneSynapse = None ↔
  10 = 0 ∨ numCells oneSynapse ≤ 12.
Proof.
  apply (createSegment_fails_iff nominal_ok oneSynapse 12 10).
  - apply oneSynapse_wf.
  - vm_compute. reflexivity.
Defined.

Lemma createSynapse_grows_witness :
  ∃ c' y, createSynapse 0 8 (4 # 10) oneSynapse = Some (c', y) ∧ wf c' ∧
    (last (destroyedSynapses_ oneSynapse) = Some y ∨
     destroyedSynapses_ oneSynapse = [] ∧ y = size_N (synapses_ oneSynapse)) ∧
    destroyedSynapses_ c' = pop_back (destroyedSynapses_ oneSynapse) ∧
    ¬ live oneSynapse y ∧ live c' y ∧
    synapsesOn c' 0 = synapsesOn oneSynapse 0 ++ [y] ∧
    (∀ s', s' ≠ 0 → synapsesOn c' s' = synapsesOn oneSynapse s') ∧
    segmentOf c' y = 0 ∧ presynOf c' y = 8 ∧ permanenceOf c' y = clamp (4 # 10) ∧
    (∀ y', y' ≠ y → segmentOf c' y' = segmentOf oneSynapse y' ∧
                    presynOf c' y' = presynOf oneSynapse y' ∧
                    permanenceOf c' y' = permanenceOf oneSynapse y') ∧
    cells_ c' = cells_ oneSynapse ∧ destroyedSegments_ c' = destroyedSegments_ oneSynapse.
Proof.
  apply (createSynapse_grows nominal_ok oneSynapse 0 8 (4 # 10)).
  - apply oneSynapse_wf.
  - apply elemB_true. vm_compute. reflexivity.
  - apply (forallb_avoids (presynOf oneSynapse) (synapsesOn oneSynapse 0) 8). vm_compute. reflexivity.
  - vm_compute. reflexivity.
Defined.

Lemma destroySynapse_removes_witness :
  ∃ c', destroySynapse 0 oneSynapse = Some c' ∧ wf c' ∧
    destroyedSynapses_ c' = destroyedSynapses_ oneSynapse ++ [0] ∧
    synapsesOn c' (segmentOf oneSynapse 0) = swap_remove 0 (synapsesOn oneSynapse (segmentOf oneSynapse 0)) ∧
    (∀ s, s ≠ segmentOf oneSynapse 0 → synapsesOn c' s = synapsesOn oneSynapse s) ∧
    (∀ y', live c' y' ↔ live oneSynapse y' ∧ y' ≠ 0) ∧
    (∀ y', segmentOf c' y' = segmentOf oneSynapse y' ∧ presynOf c' y' = presynOf oneSynapse y' ∧
           permanenceOf c' y' = permanenceOf oneSynapse y') ∧
    cells_ c' = cells_ oneSynapse ∧ destroyedSegments_ c' = destroyedSegments_ oneSynapse ∧
    length (synapses_ c') = length (synapses_ oneSynapse).
Proof.
  apply (destroySynapse_removes nominal_ok oneSynapse 0).
  - apply oneSynapse_wf.
  - apply elemB_true. vm_compute. reflexivity.
Defined.

Lemma destroySegment_removes_witness :
  ∃ c', destroySegment 0 oneSynapse = Some c' ∧ wf c' ∧
    ¬ liveSegment c' 0 ∧
    (∀ cl, segmentsOn c' cl = filter (λ x, x ≠ 0) (segmentsOn oneSynapse cl)) ∧
    destroyedSegments_ c' = destroyedSegments_ oneSynapse ++ [0] ∧
    synapsesOn c' 0 = [] ∧
    (∀ s', s' ≠ 0 → synapsesOn c' s' = synapsesOn oneSynapse s') ∧
    destroyedSynapses_ c' ≡ₚ destroyedSynapses_ oneSynapse ++ synapsesOn oneSynapse 0 ∧
    (∀ y, live c' y ↔ live oneSynapse y ∧ segmentOf oneSynapse y ≠ 0) ∧
    (∀ y, segmentOf c' y = segmentOf oneSynapse y ∧ presynOf c' y = presynOf oneSynapse y ∧
          permanenceOf c' y = permanenceOf oneSynapse y).
Proof.
  apply (destroySegment_removes nominal_ok oneSynapse 0).
  - apply oneSynapse_wf.
  - apply elemB_true. vm_compute. reflexivity.
Defined.

Lemma updateSynapsePermanence_clamps_witness :
  ∃ c', updateSynapsePermanence 0 (3 # 2) oneSynapse = Some c' ∧ wf c' ∧
    permanenceOf c' 0 = clamp (3 # 2) ∧
    (minPermanence <= permanenceOf c' 0)%Q ∧ (permanenceOf c' 0 <= maxPermanence)%Q ∧
    (∀ y', y' ≠ 0 → permanenceOf c' y' = permanenceOf oneSynapse y') ∧
    (∀ s, synapsesOn c' s = synapsesOn oneSynapse s) ∧
    (∀ y', segmentOf c' y' = segmentOf oneSynapse y' ∧ presynOf c' y' = presynOf oneSynapse y') ∧
    cells_ c' = cells_ oneSynapse ∧
    destroyedSynapses_ c' = destroyedSynapses_ oneSynapse ∧
    destroyedSegments_ c' = destroyedSegments_ oneSynapse ∧
    numConnectedOf c' (segmentOf oneSynapse 0) =
      (numConnectedOf oneSynapse (segmentOf oneSynapse 0)
       + (if connectedB c' 0 then 1 else 0) - (if connectedB oneSynapse 0 then 1 else 0))%Z.
Proof.
  apply (updateSynapsePermanence_clamps nominal_ok oneSynapse 0 (3 # 2)).
  - apply oneSynapse_wf.
  - apply elemB_true. vm_compute. reflexivity.
Defined.

Lemma computeActivity_keeps_connections_witness :
  ∃ c' counts, computeActivity [7] true oneSynapse = Some (c', counts) ∧ wf c' ∧
    cells_ c' = cells_ oneSynapse ∧ segments_ c' = segments_ oneSynapse ∧ synapses_ c' = synapses_ oneSynapse ∧
    destroyedSegments_ c' = destroyedSegments_ oneSynapse ∧
    destroyedSynapses_ c' = destroyedSynapses_ oneSynapse ∧
    connectedThreshold_ c' = connectedThreshold_ oneSynapse ∧
    (∀ k, presynSynapses k c' = presynSynapses k oneSynapse) ∧
    (∀ k, presynSegments k c' = presynSegments k oneSynapse) ∧
    iteration_ c' = (if true then iteration_ oneSynapse + 1 else iteration_ oneSynapse) ∧
    (if timeseries_ oneSynapse
     then previousUpdates_ c' = currentUpdates_ oneSynapse ∧ currentUpdates_ c' = []
     else previousUpdates_ c' = previousUpdates_ oneSynapse ∧
          currentUpdates_ c' = currentUpdates_ oneSynapse) ∧
    ∀ learn', snd <$> computeActivity [7] learn' c' = Some counts.
Proof.
  apply (computeActivity_keeps_connections [7] true oneSynapse).
  - apply oneSynapse_wf.
Defined.

Lemma computeActivityPotential_counts_witness :
  ∃ c' connected potential,
    computeActivityPotential [5%Z; 5%Z] [7] false oneSynapse = Some (c', connected, potential) ∧
    snd <$> computeActivity [7] false oneSynapse = Some connected ∧
    length potential = length [5%Z; 5%Z] ∧
    (∀ s, s < size_N (segments_ oneSynapse) →
       at_N connected s =
         Some (Z.of_nat (count_if (λ y, connectedB oneSynapse y && bool_decide (presynOf oneSynapse y ∈ [7]))
                           (synapsesOn oneSynapse s))) ∧
       at_N potential s =
         Some (Z.of_nat (count_if (λ y, bool_decide (presynOf oneSynapse y ∈ [7]))
                           (synapsesOn oneSynapse s)))) ∧
    (∀ s, size_N (segments_ oneSynapse) ≤ s → at_N potential s = at_N [5%Z; 5%Z] s).
Proof.
  apply (computeActivityPotential_counts [5%Z; 5%Z] [7] false oneSynapse).
  - apply oneSynapse_wf.
  - apply NoDup_singleton.
  - vm_compute. lia.
Defined.

Lemma createSynapse_counted_witness :
  ∃ c' y before after,
    createSynapse 0 8 (6 # 10) oneSynapse = Some (c', y) ∧
    snd <$> computeActivity [7; 8] false oneSynapse = Some before ∧
    snd <$> computeActivity [7; 8] false c' = Some after ∧
    at_N after 0 =
      (λ n, n + (if Qgeb (clamp (6 # 10)) (connectedThreshold_ oneSynapse) && bool_decide (8 ∈ [7; 8])
                 then 1 else 0))%Z <$> at_N before 0 ∧
    ∀ s', s' ≠ 0 → at_N after s' = at_N before s'.
Proof.
  apply (createSynapse_counted nominal_ok oneSynapse 0 8 (6 # 10) [7; 8]).
  - apply oneSynapse_wf.
  - apply elemB_true. vm_compute. reflexivity.
  - apply (forallb_avoids (presynOf oneSynapse) (synapsesOn oneSynapse 0) 8). vm_compute. reflexivity.
  - vm_compute. reflexivity.
  - apply NoDup_cons. split; [|apply NoDup_singleton]. intros H%list_elem_of_singleton. discriminate.
Defined.

Lemma synapsesForPresynapticCell_lists_witness :
  NoDup (synapsesForPresynapticCell twoSynapses 7) ∧
  (∀ y, y ∈ synapsesForPresynapticCell twoSynapses 7 ↔ live twoSynapses y ∧ presynOf twoSynapses y = 7) ∧
  synapsesForPresynapticCell twoSynapses 7 =
    filter (λ y, connectedB twoSynapses y = false) (synapsesForPresynapticCell twoSynapses 7) ++
    filter (λ y, connectedB twoSynapses y = true) (synapsesForPresynapticCell twoSynapses 7).
Proof.
  apply (synapsesForPresynapticCell_lists twoSynapses 7).
  - apply twoSynapses_wf.
Defined.

Lemma presynapticCellsForSegment_lists_witness :
  (0 < size_N (segments_ twoSynapses) →
   ∃ l, presynapticCellsForSegment twoSynapses 0 = Some l ∧
        StronglySorted N.lt l ∧
        (∀ cl, cl ∈ l ↔ ∃ y, y ∈ synapsesOn twoSynapses 0 ∧ presynOf twoSynapses y = cl) ∧
        length l = length (synapsesOn twoSynapses 0)) ∧
  (size_N (segments_ twoSynapses) ≤ 0 → presynapticCellsForSegment twoSynapses 0 = None).
Proof.
  apply (presynapticCellsForSegment_lists twoSynapses 0).
  - apply twoSynapses_wf.
Defined.

Lemma idxOnCellForSegment_round_trip_witness :
  ∃ i, idxOnCellForSegment atCap 1 = Some i ∧
       (segmentsForCell atCap (cellOf atCap 1) ≫= λ segs, at_N segs i) = Some 1 ∧
       ∀ j, (segmentsForCell atCap (cellOf atCap 1) ≫= λ segs, at_N segs j) = Some 1 → j = i.
Proof.
  apply (idxOnCellForSegment_round_trip atCap 1).
  - apply atCap_wf.
  - apply elemB_true. vm_compute. reflexivity.
Defined.

Lemma compareSegments_orders_witness :
  compareSegments atCap 0 0 = Some false ∧
  (0 ≠ 1 → compareSegments atCap 0 1 = Some (negb (default false (compareSegments atCap 1 0)))) ∧
  is_Some (compareSegments atCap 1 0) ∧
  (compareSegments atCap 0 1 = Some true → compareSegments atCap 1 1 = Some true →
   compareSegments atCap 0 1 = Some true) ∧
  (compareSegments atCap 0 1 = Some true → cellOf atCap 0 ≤ cellOf atCap 1).
Proof.
  apply (compareSegments_orders atCap 0 1 1).
  - vm_compute. reflexivity.
  - vm_compute. reflexivity.
  - vm_compute. reflexivity.
Defined.

Lemma bumpSegment_adds_witness :
  ∃ c', bumpSegment 0 (1 # 2) twoSynapses = Some c' ∧ wf c' ∧
    cells_ c' = cells_ twoSynapses ∧
    (∀ s', synapsesOn c' s' = synapsesOn twoSynapses s') ∧
    destroyedSynapses_ c' = destroyedSynapses_ twoSynapses ∧
    destroyedSegments_ c' = destroyedSegments_ twoSynapses ∧
    (∀ y, permanenceOf c' y =
          if decide (y ∈ synapsesOn twoSynapses 0) then clamp (permanenceOf twoSynapses y + (1 # 2))
          else permanenceOf twoSynapses y) ∧
    ((0 <= (1 # 2))%Q →
     (∀ y, live twoSynapses y → connectedB twoSynapses y = true → connectedB c' y = true) ∧
     ∀ s', (numConnectedOf twoSynapses s' ≤ numConnectedOf c' s')%Z).
Proof.
  apply (bumpSegment_adds nominal_ok twoSynapses 0 (1 # 2)).
  - apply twoSynapses_wf.
  - vm_compute. reflexivity.
Defined.

Lemma adaptSegment_without_pruning_witness :
  ∃ c', adaptSegment 0 bit7 (1 # 10) (1 # 10) false 5 oneSynapse = Some c' ∧
    wf c' ∧
    cells_ c' = cells_ oneSynapse ∧
    (∀ s', synapsesOn c' s' = synapsesOn oneSynapse s') ∧
    destroyedSynapses_ c' = destroyedSynapses_ oneSynapse ∧
    destroyedSegments_ c' = destroyedSegments_ oneSynapse ∧
    (∀ y, y ∉ synapsesOn oneSynapse 0 → permanenceOf c' y = permanenceOf oneSynapse y) ∧
    (timeseries_ oneSynapse = false → ∀ y, y ∈ synapsesOn oneSynapse 0 →
       permanenceOf c' y =
         clamp (permanenceOf oneSynapse y +
                if bool_decide (presynOf oneSynapse y ∈ getSparse bit7) then (1 # 10)
                else - (1 # 10))).
Proof.
  apply (adaptSegment_without_pruning nominal_ok oneSynapse 0 bit7 (1 # 10) (1 # 10) 5).
  - apply oneSynapse_wf.
  - apply elemB_true. vm_compute. reflexivity.
  - vm_compute. reflexivity.
Defined.

Lemma valid_ops_keep_invariants_witness :
  ∃ c, run_ops [OpCreateSegment 3 10; OpCreateSynapse 0 7 (6 # 10)] (stateAfter 10 (1 # 2) false []) = Some c ∧
    (∀ y, live c y →
       (minPermanence <= permanenceOf c y)%Q ∧ (permanenceOf c y <= maxPermanence)%Q) ∧
    (∀ s, NoDup (synapsesOn c s)) ∧
    (∀ s y1 y2, y1 ∈ synapsesOn c s → y2 ∈ synapsesOn c s →
       presynOf c y1 = presynOf c y2 → y1 = y2) ∧
    (∀ cl, NoDup (segmentsOn c cl)) ∧
    (∀ y, y ∈ destroyedSynapses_ c → ¬ live c y) ∧
    (∀ s, s ∈ destroyedSegments_ c → ¬ liveSegment c s ∧ synapsesOn c s = []) ∧
    (∀ cl y, y ∈ synapsesForPresynapticCell c cl ↔ live c y ∧ presynOf c y = cl).
Proof.
  apply (valid_ops_keep_invariants nominal_ok 10 (1 # 2) false [OpCreateSegment 3 10; OpCreateSynapse 0 7 (6 # 10)] (stateAfter 10 (1 # 2) false [])).
  - vm_compute. reflexivity.
  - vm_compute. reflexivity.
Defined.


Lemma destroyMinPermanenceSynapses_weakest_witness :
  ∃ c', destroyMinPermanenceSynapses sort_by 0 1 [7]%N twoSynapses = Some c' ∧
    wf c' ∧
    (∀ y, y ∈ synapsesOn c' 0 → y ∈ synapsesOn twoSynapses 0) ∧
    (∀ y, y ∈ synapsesOn twoSynapses 0 → presynOf twoSynapses y ∈ [7]%N → y ∈ synapsesOn c' 0) ∧
    length (synapsesOn c' 0) =
      (length (synapsesOn twoSynapses 0) -
       Nat.min (N.to_nat 1)
         (length (filter (λ y, presynOf twoSynapses y ∉ [7]%N) (synapsesOn twoSynapses 0))))%nat ∧
    (∀ d y, d ∈ synapsesOn twoSynapses 0 → d ∉ synapsesOn c' 0 → y ∈ synapsesOn c' 0 →
       presynOf twoSynapses y ∉ [7]%N →
       (permanenceOf twoSynapses d < permanenceOf twoSynapses y)%Q ∨
       ((permanenceOf twoSynapses d == permanenceOf twoSynapses y)%Q ∧ d < y)) ∧
    (∀ s', s' ≠ 0 → synapsesOn c' s' ≡ₚ synapsesOn twoSynapses s') ∧
    (∀ y, permanenceOf c' y = permanenceOf twoSynapses y) ∧
    ∃ destroyed, destroyedSynapses_ c' = destroyedSynapses_ twoSynapses ++ destroyed ∧
      ∀ y, y ∈ destroyed ↔ y ∈ synapsesOn twoSynapses 0 ∧ y ∉ synapsesOn c' 0.
Proof.
  apply (destroyMinPermanenceSynapses_weakest nominal_ok sort_by sort_by_ok twoSynapses 0 1 [7]%N).
  - apply twoSynapses_wf.
  - vm_compute. reflexivity.
  - repeat constructor.
Defined.

Lemma synapseCompetition_connects_witness :
  ∃ c', synapseCompetition nth_element_real_by_sort 0 (2%Z) (2%Z) twoSynapses = Some c' ∧
    wf c' ∧
    cells_ c' = cells_ twoSynapses ∧
    (∀ s', synapsesOn c' s' = synapsesOn twoSynapses s') ∧
    destroyedSynapses_ c' = destroyedSynapses_ twoSynapses ∧
    (((2%Z) <= numConnectedOf twoSynapses 0 <= (2%Z))%Z → c' = twoSynapses) ∧
    (∃ delta, ∀ y, permanenceOf c' y =
       if decide (y ∈ synapsesOn twoSynapses 0) then clamp (permanenceOf twoSynapses y + delta)
       else permanenceOf twoSynapses y) ∧
    ((numConnectedOf twoSynapses 0 < (2%Z))%Z →
     (Z.min (2%Z) (Z.of_nat (length (synapsesOn twoSynapses 0)))
        <= numConnectedOf c' 0)%Z) ∧
    (((2%Z) < numConnectedOf twoSynapses 0)%Z →
     (Z.min (2%Z) (Z.of_nat (length (synapsesOn twoSynapses 0)))
        <= numConnectedOf c' 0)%Z).
Proof.
  apply (synapseCompetition_connects nominal_ok nth_element_real_by_sort nth_element_real_by_sort_ok twoSynapses 0 (2%Z) (2%Z)).
  - apply twoSynapses_wf.
  - vm_compute. reflexivity.
  - lia.
  - lia.
Defined.

Lemma getPotential_marks_pool_witness :
  ∃ potential, getPotential tiePooler 2 0 = Some potential ∧
    size_N potential = 2 ∧
    ∀ i, i < 2 →
      at_N potential i =
        Some (if inPotentialPool (connections_ tiePooler) 0 i then 1 else 0).
Proof.
  apply (getPotential_marks_pool tiePooler 2 0).
  - apply twoColumns_wf.
  - vm_compute. reflexivity.
  - apply (forallb_below (presynOf (connections_ tiePooler)) (synapsesOn (connections_ tiePooler) 0) 2). vm_compute. reflexivity.
Defined.

Lemma setPermanence_getPermanence_witness :
  ∃ sp' read, setPermanence tiePooler 0 [1 # 2; 1 # 4] = Some sp' ∧
    wf (connections_ sp') ∧
    (∀ s, synapsesOn (connections_ sp') s = synapsesOn (connections_ tiePooler) s) ∧
    getPermanence sp' 2 0 (0%Q) = Some read ∧
    size_N read = 2 ∧
    ∀ i p, at_N [1 # 2; 1 # 4] i = Some p →
      at_N read i =
        Some (if inPotentialPool (connections_ tiePooler) 0 i && Qgeb (clamp p) (0%Q)
              then clamp p else 0%Q).
Proof.
  apply (setPermanence_getPermanence nominal_ok tiePooler 2 0 [1 # 2; 1 # 4] (0%Q)).
  - apply twoColumns_wf.
  - vm_compute. reflexivity.
  - apply (forallb_below (presynOf (connections_ tiePooler)) (synapsesOn (connections_ tiePooler) 0) 2). vm_compute. reflexivity.
  - vm_compute. reflexivity.
Defined.

Lemma bumpUpWeakColumns_raises_witness :
  ∃ sp', bumpUpWeakColumns_ tiePooler [0; 0]%Q [1 # 10; 0]%Q (1 # 10) = Some sp' ∧
    wf (connections_ sp') ∧
    (∀ s, synapsesOn (connections_ sp') s = synapsesOn (connections_ tiePooler) s) ∧
    destroyedSynapses_ (connections_ sp') = destroyedSynapses_ (connections_ tiePooler) ∧
    (∀ y, permanenceOf (connections_ sp') y =
          if liveB (connections_ tiePooler) y &&
             N.ltb (segmentOf (connections_ tiePooler) y) (numColumns_ tiePooler) &&
             weakColumn [0; 0]%Q [1 # 10; 0]%Q (segmentOf (connections_ tiePooler) y)
          then clamp (permanenceOf (connections_ tiePooler) y + (1 # 10))
          else permanenceOf (connections_ tiePooler) y) ∧
    ((0 <= (1 # 10))%Q →
     ∀ s, (numConnectedOf (connections_ tiePooler) s <= numConnectedOf (connections_ sp') s)%Z).
Proof.
  apply (bumpUpWeakColumns_raises nominal_ok tiePooler [0; 0]%Q [1 # 10; 0]%Q (1 # 10)).
  - apply twoColumns_wf.
  - vm_compute. discriminate.
  - vm_compute. discriminate.
  - vm_compute. discriminate.
Defined.

Lemma updateDutyCyclesHelper_averages_witness :
  ∃ updated, updateDutyCyclesHelper_ [1 # 2; 0]%Q bit0 10 = Some updated ∧
    length updated = length [1 # 2; 0]%Q ∧
    ∀ i d, at_N [1 # 2; 0]%Q i = Some d →
      ∃ d', at_N updated i = Some d' ∧
        d' = (if elemB i (getSparse bit0)
              then d * (toReal (10 - 1) / toReal 10) + 1 / toReal 10
              else d * (toReal (10 - 1) / toReal 10))%Q ∧
        ((0 <= d)%Q → (d <= 1)%Q → (0 <= d')%Q ∧ (d' <= 1)%Q).
Proof.
  apply (updateDutyCyclesHelper_averages [1 # 2; 0]%Q bit0 10).
  - vm_compute. reflexivity.
  - apply NoDup_singleton.
  - intros i Hi%list_elem_of_singleton. subst i. vm_compute. reflexivity.
Defined.

Lemma destroySynapse_handle_reused_witness :
  ∃ c1 c2, destroySynapse 0 twoSynapses = Some c1 ∧
    createSynapse 0 7 (5 # 10) c1 = Some (c2, 0) ∧ wf c2 ∧
    synapsesOn c2 0 = synapsesOn c1 0 ++ [0] ∧
    destroyedSynapses_ c2 = destroyedSynapses_ twoSynapses.
Proof.
  apply (destroySynapse_handle_reused nominal_ok twoSynapses 0 0 7 (5 # 10)).
  - apply twoSynapses_wf.
  - apply elemB_true. vm_compute. reflexivity.
  - apply elemB_true. vm_compute. reflexivity.
  - apply (forallb_avoids_but (presynOf twoSynapses) (synapsesOn twoSynapses 0) 0 7).
    vm_compute. reflexivity.
Defined.
